(** * Balls: verification of the authoritative game server and of the
      client-side snapshot reconciler.

    The development embeds [server.js] (the tick-driven simulation, the socket
    handlers and the swept collision test) and the client script (snapshot
    buffer, interpolation and bullet extrapolation) as Rocq functions, and
    proves the properties the specification states about them.

    Number model.  JavaScript numbers that are counters (ids, tick count,
    wave, lives, upgrade levels, clock readings in milliseconds) are modelled
    as [Z]: the program only ever adds or subtracts integers to them.  Numbers
    that carry geometry or fractional amounts (positions, velocities, radii,
    hit points, spawn weights, receipt times) are modelled as exact reals [R];
    rounding of IEEE doubles is not modelled.  [Math.random] and [Date.now]
    are inputs of the tick: an oracle gives the draws in the order in which
    the code consumes them. *)

From Stdlib Require Import Reals ZArith List Bool String Sorted Lia Lra Psatz.
Import ListNotations.

(* ================================================================== *)
(** * Part I: the embedding *)
(* ================================================================== *)

(** ** JavaScript builtins *)

Module Js.
Local Open Scope R_scope.

(** Comparisons of numbers, as booleans. *)
Definition Rleb (a b : R) : bool := if Rle_dec a b then true else false.
Definition Rltb (a b : R) : bool := if Rlt_dec a b then true else false.
Definition Reqb (a b : R) : bool := if Req_dec_T a b then true else false.

(** [Math.hypot(a, b)]. *)
Definition hypot (a b : R) : R := sqrt (a * a + b * b).

(** [Math.floor] and the mathematical ceiling. *)
Definition floor (r : R) : Z := Int_part r.

(** [Math.pow(b, e)] at an integer exponent. *)
Definition pow (b : R) (e : Z) : R := powerRZ b e.

(** [o ?? d]: the value of [o] unless it is null or undefined. *)
Definition nullish {A : Type} (o : option A) (d : A) : A :=
  match o with Some v => v | None => d end.

(** [o != null]. *)
Definition notNull {A : Type} (o : option A) : bool :=
  match o with Some _ => true | None => false end.

(** [arr[i]] for an integer [i]: [undefined] outside the array. *)
Definition index {A : Type} (arr : list A) (i : Z) : option A :=
  if (i <? 0)%Z then None else nth_error arr (Z.to_nat i).

(** [arr.find(pred)]. *)
Definition find {A : Type} (pred : A -> bool) (arr : list A) : option A :=
  List.find pred arr.

End Js.

Notation "o ?? d" := (Js.nullish o d) (at level 40, left associativity).

(** ** JavaScript [Map] with integer keys

    A [Map] iterates in insertion order, and the simulation depends on that
    order (random draws are consumed during iteration, and the emitted arrays
    keep it), so the map is an association list. *)

Module JsMap.

Definition t (V : Type) : Type := list (Z * V).

Section Operations.
Context {V : Type}.

Definition empty : t V := [].

Fixpoint get (m : t V) (k : Z) : option V :=
  match m with
  | [] => None
  | (k', v) :: m' => if (k =? k')%Z then Some v else get m' k
  end.

(** [m.set(k, v)]: replaces in place, or appends a new entry. *)
Fixpoint set (m : t V) (k : Z) (v : V) : t V :=
  match m with
  | [] => [(k, v)]
  | (k', v') :: m' =>
      if (k =? k')%Z then (k, v) :: m' else (k', v') :: set m' k v
  end.

Fixpoint delete (m : t V) (k : Z) : t V :=
  match m with
  | [] => []
  | (k', v') :: m' =>
      if (k =? k')%Z then m' else (k', v') :: delete m' k
  end.

Definition keys (m : t V) : list Z := map fst m.
Definition values (m : t V) : list V := map snd m.
Definition size (m : t V) : Z := Z.of_nat (List.length m).

(** [m.forEach(v => { ...mutate v... })]: every value is updated in place. *)
Definition update_all (f : V -> V) (m : t V) : t V :=
  map (fun kv => (fst kv, f (snd kv))) m.

(** Mutation of the object stored under [k], if there is one. *)
Definition update (m : t V) (k : Z) (f : V -> V) : t V :=
  map (fun kv => if (fst kv =? k)%Z then (fst kv, f (snd kv)) else kv) m.

(** [m.forEach(v => ...)] where the callback mutates [v] and variables of the
    enclosing scope, gathered in [S]; entries are visited in map order. *)
Fixpoint forEachSt {S : Type} (f : V -> S -> V * S) (m : t V) (s : S)
    : t V * S :=
  match m with
  | [] => ([], s)
  | (k, v) :: m' =>
      let '(v', s1) := f v s in
      let '(m'', s2) := forEachSt f m' s1 in
      ((k, v') :: m'', s2)
  end.

(** [ids.forEach(id => m.delete(id))]. *)
Definition delete_all (m : t V) (ids : list Z) : t V :=
  fold_left delete ids m.

End Operations.
End JsMap.

(** A JavaScript [Set] of ids, used only through [add] and [forEach]. *)
Module JsSet.
Definition t : Type := list Z.
Definition empty : t := [].
Definition has (s : t) (k : Z) : bool := existsb (Z.eqb k) s.
Definition add (s : t) (k : Z) : t := if has s k then s else s ++ [k].
End JsSet.

(** ** The server: constants and data model *)

Module Server.
Local Open Scope R_scope.

Definition TICK_RATE : Z := 15.
Definition TICK_MS : R := 1000 / IZR TICK_RATE.
Definition ROOM_WIDTH : R := 720.
Definition ROOM_HEIGHT : R := 1280.

Inductive BallType := normal | fast | big.

Definition BallType_eqb (a b : BallType) : bool :=
  match a, b with
  | normal, normal | fast, fast | big, big => true
  | _, _ => false
  end.

Module BallDef.
Record t := { hp : R; speed : R; spawnRate : R; waveWeight : R }.
End BallDef.

Definition BALL_TYPES (ty : BallType) : BallDef.t :=
  match ty with
  | normal => {| BallDef.hp := 20; BallDef.speed := 7;
                 BallDef.spawnRate := 3; BallDef.waveWeight := 0.5 |}
  | fast => {| BallDef.hp := 14; BallDef.speed := 10;
               BallDef.spawnRate := 2; BallDef.waveWeight := 1 |}
  | big => {| BallDef.hp := 160; BallDef.speed := 3;
              BallDef.spawnRate := 1; BallDef.waveWeight := 2 |}
  end.

Definition BALL_TYPE_KEYS : list BallType := [normal; fast; big].

Inductive CardId :=
  | critical | piercing | areaDamage | bulletCount | pusher
  | extraLife | ignition | melee | bouncyBullets.

Module Card.
Record t := { id : CardId; name : string; desc : string }.
End Card.

Definition CARD_TYPES : list Card.t :=
  [ {| Card.id := critical; Card.name := "Critical +10%";
       Card.desc := "10% chance for 2x damage" |};
    {| Card.id := piercing; Card.name := "Piercing +10%";
       Card.desc := "10% chance bullet pierces" |};
    {| Card.id := areaDamage; Card.name := "Area Damage";
       Card.desc := "100px radius, +10% dmg per level" |};
    {| Card.id := bulletCount; Card.name := "+1 Bullet";
       Card.desc := "Double, triple, quad shoot..." |};
    {| Card.id := pusher; Card.name := "Pusher +5%";
       Card.desc := "5% chance to push enemy 5px up" |};
    {| Card.id := extraLife; Card.name := "+1 Life";
       Card.desc := "Add 1 shared life" |};
    {| Card.id := ignition; Card.name := "Ignition Bullets";
       Card.desc := "1% chance to burn ball 5s (1 dmg/tick), +1% per level" |};
    {| Card.id := melee; Card.name := "Melee Damage";
       Card.desc := "Ball within 200px: shoot homing bullet every 4 ticks, +1 dmg per level" |};
    {| Card.id := bouncyBullets; Card.name := "Bouncy Bullets";
       Card.desc := "Bullets bounce off screen edges, +1 bounce per level" |} ]%string.

Definition PLAYER_RADIUS : R := 20.
Definition PLAYER_SPEED : R := 16.
Definition BULLET_DAMAGE : R := 1.
Definition BULLET_RADIUS : R := 6.
Definition BULLET_SPEED : R := 75.
Definition INACTIVITY_TIMEOUT_MS : Z := 30000.
Definition CARD_SELECTION_MS : Z := 15000.
Definition INITIAL_LIVES : Z := 10.
Definition AREA_DAMAGE_RADIUS : R := 100.
Definition PUSHER_STRENGTH : R := 5.
Definition BURN_DURATION_TICKS : Z := 5 * TICK_RATE.
Definition MELEE_RANGE : R := 200.
Definition MELEE_BULLET_INTERVAL : Z := 4.

Inductive Phase := playing | cardSelection | gameOver.

Definition Phase_eqb (a b : Phase) : bool :=
  match a, b with
  | playing, playing | cardSelection, cardSelection | gameOver, gameOver => true
  | _, _ => false
  end.

Module Keys.
Record t := { left : bool; right : bool; up : bool; down : bool }.
Definition none : t := {| left := false; right := false; up := false; down := false |}.
End Keys.

(** A player object.  The [socket] field is the transport handle and is not
    part of the simulation.  [offeredCards] is [None] when the field is
    [null] or was never written; [cardSelected] is [false] when it was never
    written (the code only tests its truth). *)
Module Player.
Record t := {
  id : Z;
  x : R;
  y : R;
  criticalChance : Z;
  pierceChance : Z;
  areaDamageLevel : Z;
  bulletCount : Z;
  pusherChance : Z;
  ignitionChance : Z;
  meleeDamage : Z;
  bounceCount : Z;
  keys : Keys.t;
  lastActivity : Z;
  offeredCards : option (list Card.t);
  cardSelected : bool
}.

Definition with_x (v : R) (p : t) : t :=
  {| id := id p; x := v; y := y p; criticalChance := criticalChance p;
     pierceChance := pierceChance p; areaDamageLevel := areaDamageLevel p;
     bulletCount := bulletCount p; pusherChance := pusherChance p;
     ignitionChance := ignitionChance p; meleeDamage := meleeDamage p;
     bounceCount := bounceCount p; keys := keys p;
     lastActivity := lastActivity p; offeredCards := offeredCards p;
     cardSelected := cardSelected p |}.
Definition with_y (v : R) (p : t) : t :=
  {| id := id p; x := x p; y := v; criticalChance := criticalChance p;
     pierceChance := pierceChance p; areaDamageLevel := areaDamageLevel p;
     bulletCount := bulletCount p; pusherChance := pusherChance p;
     ignitionChance := ignitionChance p; meleeDamage := meleeDamage p;
     bounceCount := bounceCount p; keys := keys p;
     lastActivity := lastActivity p; offeredCards := offeredCards p;
     cardSelected := cardSelected p |}.
Definition with_criticalChance (v : Z) (p : t) : t :=
  {| id := id p; x := x p; y := y p; criticalChance := v;
     pierceChance := pierceChance p; areaDamageLevel := areaDamageLevel p;
     bulletCount := bulletCount p; pusherChance := pusherChance p;
     ignitionChance := ignitionChance p; meleeDamage := meleeDamage p;
     bounceCount := bounceCount p; keys := keys p;
     lastActivity := lastActivity p; offeredCards := offeredCards p;
     cardSelected := cardSelected p |}.
Definition with_pierceChance (v : Z) (p : t) : t :=
  {| id := id p; x := x p; y := y p; criticalChance := criticalChance p;
     pierceChance := v; areaDamageLevel := areaDamageLevel p;
     bulletCount := bulletCount p; pusherChance := pusherChance p;
     ignitionChance := ignitionChance p; meleeDamage := meleeDamage p;
     bounceCount := bounceCount p; keys := keys p;
     lastActivity := lastActivity p; offeredCards := offeredCards p;
     cardSelected := cardSelected p |}.
Definition with_areaDamageLevel (v : Z) (p : t) : t :=
  {| id := id p; x := x p; y := y p; criticalChance := criticalChance p;
     pierceChance := pierceChance p; areaDamageLevel := v;
     bulletCount := bulletCount p; pusherChance := pusherChance p;
     ignitionChance := ignitionChance p; meleeDamage := meleeDamage p;
     bounceCount := bounceCount p; keys := keys p;
     lastActivity := lastActivity p; offeredCards := offeredCards p;
     cardSelected := cardSelected p |}.
Definition with_bulletCount (v : Z) (p : t) : t :=
  {| id := id p; x := x p; y := y p; criticalChance := criticalChance p;
     pierceChance := pierceChance p; areaDamageLevel := areaDamageLevel p;
     bulletCount := v; pusherChance := pusherChance p;
     ignitionChance := ignitionChance p; meleeDamage := meleeDamage p;
     bounceCount := bounceCount p; keys := keys p;
     lastActivity := lastActivity p; offeredCards := offeredCards p;
     cardSelected := cardSelected p |}.
Definition with_pusherChance (v : Z) (p : t) : t :=
  {| id := id p; x := x p; y := y p; criticalChance := criticalChance p;
     pierceChance := pierceChance p; areaDamageLevel := areaDamageLevel p;
     bulletCount := bulletCount p; pusherChance := v;
     ignitionChance := ignitionChance p; meleeDamage := meleeDamage p;
     bounceCount := bounceCount p; keys := keys p;
     lastActivity := lastActivity p; offeredCards := offeredCards p;
     cardSelected := cardSelected p |}.
Definition with_ignitionChance (v : Z) (p : t) : t :=
  {| id := id p; x := x p; y := y p; criticalChance := criticalChance p;
     pierceChance := pierceChance p; areaDamageLevel := areaDamageLevel p;
     bulletCount := bulletCount p; pusherChance := pusherChance p;
     ignitionChance := v; meleeDamage := meleeDamage p;
     bounceCount := bounceCount p; keys := keys p;
     lastActivity := lastActivity p; offeredCards := offeredCards p;
     cardSelected := cardSelected p |}.
Definition with_meleeDamage (v : Z) (p : t) : t :=
  {| id := id p; x := x p; y := y p; criticalChance := criticalChance p;
     pierceChance := pierceChance p; areaDamageLevel := areaDamageLevel p;
     bulletCount := bulletCount p; pusherChance := pusherChance p;
     ignitionChance := ignitionChance p; meleeDamage := v;
     bounceCount := bounceCount p; keys := keys p;
     lastActivity := lastActivity p; offeredCards := offeredCards p;
     cardSelected := cardSelected p |}.
Definition with_bounceCount (v : Z) (p : t) : t :=
  {| id := id p; x := x p; y := y p; criticalChance := criticalChance p;
     pierceChance := pierceChance p; areaDamageLevel := areaDamageLevel p;
     bulletCount := bulletCount p; pusherChance := pusherChance p;
     ignitionChance := ignitionChance p; meleeDamage := meleeDamage p;
     bounceCount := v; keys := keys p;
     lastActivity := lastActivity p; offeredCards := offeredCards p;
     cardSelected := cardSelected p |}.
Definition with_keys (v : Keys.t) (p : t) : t :=
  {| id := id p; x := x p; y := y p; criticalChance := criticalChance p;
     pierceChance := pierceChance p; areaDamageLevel := areaDamageLevel p;
     bulletCount := bulletCount p; pusherChance := pusherChance p;
     ignitionChance := ignitionChance p; meleeDamage := meleeDamage p;
     bounceCount := bounceCount p; keys := v;
     lastActivity := lastActivity p; offeredCards := offeredCards p;
     cardSelected := cardSelected p |}.
Definition with_lastActivity (v : Z) (p : t) : t :=
  {| id := id p; x := x p; y := y p; criticalChance := criticalChance p;
     pierceChance := pierceChance p; areaDamageLevel := areaDamageLevel p;
     bulletCount := bulletCount p; pusherChance := pusherChance p;
     ignitionChance := ignitionChance p; meleeDamage := meleeDamage p;
     bounceCount := bounceCount p; keys := keys p;
     lastActivity := v; offeredCards := offeredCards p;
     cardSelected := cardSelected p |}.
Definition with_offeredCards (v : option (list Card.t)) (p : t) : t :=
  {| id := id p; x := x p; y := y p; criticalChance := criticalChance p;
     pierceChance := pierceChance p; areaDamageLevel := areaDamageLevel p;
     bulletCount := bulletCount p; pusherChance := pusherChance p;
     ignitionChance := ignitionChance p; meleeDamage := meleeDamage p;
     bounceCount := bounceCount p; keys := keys p;
     lastActivity := lastActivity p; offeredCards := v;
     cardSelected := cardSelected p |}.
Definition with_cardSelected (v : bool) (p : t) : t :=
  {| id := id p; x := x p; y := y p; criticalChance := criticalChance p;
     pierceChance := pierceChance p; areaDamageLevel := areaDamageLevel p;
     bulletCount := bulletCount p; pusherChance := pusherChance p;
     ignitionChance := ignitionChance p; meleeDamage := meleeDamage p;
     bounceCount := bounceCount p; keys := keys p;
     lastActivity := lastActivity p; offeredCards := offeredCards p;
     cardSelected := v |}.
End Player.

(** A bullet object.  Every field but [id], [x], [y] is optional in the
    source: plain bullets have no velocity, bouncy bullets carry [vx], [vy]
    and [bouncesLeft], homing bullets carry [homing], [targetBallId] and
    [damage].  [_moveX] and [_moveY] are the scratch fields the collision
    pass leaves for the movement pass. *)
Module Bullet.
Record t := {
  id : Z;
  x : R;
  y : R;
  ownerId : option Z;
  radius : R;
  vx : option R;
  vy : option R;
  bouncesLeft : option Z;
  homing : bool;
  targetBallId : option Z;
  damage : option Z;
  _moveX : option R;
  _moveY : option R
}.

Definition with_pos (nx ny : R) (b : t) : t :=
  {| id := id b; x := nx; y := ny; ownerId := ownerId b; radius := radius b;
     vx := vx b; vy := vy b; bouncesLeft := bouncesLeft b; homing := homing b;
     targetBallId := targetBallId b; damage := damage b;
     _moveX := _moveX b; _moveY := _moveY b |}.
Definition with_x (nx : R) (b : t) : t := with_pos nx (y b) b.
Definition with_y (ny : R) (b : t) : t := with_pos (x b) ny b.
Definition with_vx (v : option R) (b : t) : t :=
  {| id := id b; x := x b; y := y b; ownerId := ownerId b; radius := radius b;
     vx := v; vy := vy b; bouncesLeft := bouncesLeft b; homing := homing b;
     targetBallId := targetBallId b; damage := damage b;
     _moveX := _moveX b; _moveY := _moveY b |}.
Definition with_vy (v : option R) (b : t) : t :=
  {| id := id b; x := x b; y := y b; ownerId := ownerId b; radius := radius b;
     vx := vx b; vy := v; bouncesLeft := bouncesLeft b; homing := homing b;
     targetBallId := targetBallId b; damage := damage b;
     _moveX := _moveX b; _moveY := _moveY b |}.
Definition with_bouncesLeft (v : option Z) (b : t) : t :=
  {| id := id b; x := x b; y := y b; ownerId := ownerId b; radius := radius b;
     vx := vx b; vy := vy b; bouncesLeft := v; homing := homing b;
     targetBallId := targetBallId b; damage := damage b;
     _moveX := _moveX b; _moveY := _moveY b |}.
Definition with_move (mx my : option R) (b : t) : t :=
  {| id := id b; x := x b; y := y b; ownerId := ownerId b; radius := radius b;
     vx := vx b; vy := vy b; bouncesLeft := bouncesLeft b; homing := homing b;
     targetBallId := targetBallId b; damage := damage b;
     _moveX := mx; _moveY := my |}.
End Bullet.

Module Ball.
Record t := {
  id : Z;
  x : R;
  y : R;
  type : BallType;
  hp : R;
  maxHp : R;
  speed : R;
  radius : R;
  burnEndTick : option Z
}.

Definition with_y (v : R) (b : t) : t :=
  {| id := id b; x := x b; y := v; type := type b; hp := hp b;
     maxHp := maxHp b; speed := speed b; radius := radius b;
     burnEndTick := burnEndTick b |}.
Definition with_hp (v : R) (b : t) : t :=
  {| id := id b; x := x b; y := y b; type := type b; hp := v;
     maxHp := maxHp b; speed := speed b; radius := radius b;
     burnEndTick := burnEndTick b |}.
Definition with_burnEndTick (v : option Z) (b : t) : t :=
  {| id := id b; x := x b; y := y b; type := type b; hp := hp b;
     maxHp := maxHp b; speed := speed b; radius := radius b;
     burnEndTick := v |}.
End Ball.

(** A transient hit point [{x, y}]. *)
Module Point.
Record t := { x : R; y : R }.
End Point.

(** The module-level game state of [server.js]. *)
Module Game.
Record t := {
  players : JsMap.t Player.t;
  bullets : JsMap.t Bullet.t;
  balls : JsMap.t Ball.t;
  nextPlayerId : Z;
  nextBulletId : Z;
  nextBallId : Z;
  tickCount : Z;
  gameStarted : bool;
  gamePhase : Phase;
  wave : Z;
  waveWeightSpawned : R;
  lastSpawnTick : Z;
  cardSelectionEndTime : Z;
  lives : Z
}.

(** The state when the process starts. *)
Definition initial : t :=
  {| players := JsMap.empty; bullets := JsMap.empty; balls := JsMap.empty;
     nextPlayerId := 1; nextBulletId := 1; nextBallId := 1; tickCount := 0;
     gameStarted := false; gamePhase := playing; wave := 1;
     waveWeightSpawned := 0; lastSpawnTick := 0; cardSelectionEndTime := 0;
     lives := 10 |}.

Definition with_players (v : JsMap.t Player.t) (g : t) : t :=
  {| players := v; bullets := bullets g; balls := balls g;
     nextPlayerId := nextPlayerId g; nextBulletId := nextBulletId g;
     nextBallId := nextBallId g; tickCount := tickCount g;
     gameStarted := gameStarted g; gamePhase := gamePhase g; wave := wave g;
     waveWeightSpawned := waveWeightSpawned g;
     lastSpawnTick := lastSpawnTick g;
     cardSelectionEndTime := cardSelectionEndTime g; lives := lives g |}.
Definition with_bullets (v : JsMap.t Bullet.t) (g : t) : t :=
  {| players := players g; bullets := v; balls := balls g;
     nextPlayerId := nextPlayerId g; nextBulletId := nextBulletId g;
     nextBallId := nextBallId g; tickCount := tickCount g;
     gameStarted := gameStarted g; gamePhase := gamePhase g; wave := wave g;
     waveWeightSpawned := waveWeightSpawned g;
     lastSpawnTick := lastSpawnTick g;
     cardSelectionEndTime := cardSelectionEndTime g; lives := lives g |}.
Definition with_balls (v : JsMap.t Ball.t) (g : t) : t :=
  {| players := players g; bullets := bullets g; balls := v;
     nextPlayerId := nextPlayerId g; nextBulletId := nextBulletId g;
     nextBallId := nextBallId g; tickCount := tickCount g;
     gameStarted := gameStarted g; gamePhase := gamePhase g; wave := wave g;
     waveWeightSpawned := waveWeightSpawned g;
     lastSpawnTick := lastSpawnTick g;
     cardSelectionEndTime := cardSelectionEndTime g; lives := lives g |}.
Definition with_nextPlayerId (v : Z) (g : t) : t :=
  {| players := players g; bullets := bullets g; balls := balls g;
     nextPlayerId := v; nextBulletId := nextBulletId g;
     nextBallId := nextBallId g; tickCount := tickCount g;
     gameStarted := gameStarted g; gamePhase := gamePhase g; wave := wave g;
     waveWeightSpawned := waveWeightSpawned g;
     lastSpawnTick := lastSpawnTick g;
     cardSelectionEndTime := cardSelectionEndTime g; lives := lives g |}.
Definition with_nextBulletId (v : Z) (g : t) : t :=
  {| players := players g; bullets := bullets g; balls := balls g;
     nextPlayerId := nextPlayerId g; nextBulletId := v;
     nextBallId := nextBallId g; tickCount := tickCount g;
     gameStarted := gameStarted g; gamePhase := gamePhase g; wave := wave g;
     waveWeightSpawned := waveWeightSpawned g;
     lastSpawnTick := lastSpawnTick g;
     cardSelectionEndTime := cardSelectionEndTime g; lives := lives g |}.
Definition with_nextBallId (v : Z) (g : t) : t :=
  {| players := players g; bullets := bullets g; balls := balls g;
     nextPlayerId := nextPlayerId g; nextBulletId := nextBulletId g;
     nextBallId := v; tickCount := tickCount g;
     gameStarted := gameStarted g; gamePhase := gamePhase g; wave := wave g;
     waveWeightSpawned := waveWeightSpawned g;
     lastSpawnTick := lastSpawnTick g;
     cardSelectionEndTime := cardSelectionEndTime g; lives := lives g |}.
Definition with_tickCount (v : Z) (g : t) : t :=
  {| players := players g; bullets := bullets g; balls := balls g;
     nextPlayerId := nextPlayerId g; nextBulletId := nextBulletId g;
     nextBallId := nextBallId g; tickCount := v;
     gameStarted := gameStarted g; gamePhase := gamePhase g; wave := wave g;
     waveWeightSpawned := waveWeightSpawned g;
     lastSpawnTick := lastSpawnTick g;
     cardSelectionEndTime := cardSelectionEndTime g; lives := lives g |}.
Definition with_gameStarted (v : bool) (g : t) : t :=
  {| players := players g; bullets := bullets g; balls := balls g;
     nextPlayerId := nextPlayerId g; nextBulletId := nextBulletId g;
     nextBallId := nextBallId g; tickCount := tickCount g;
     gameStarted := v; gamePhase := gamePhase g; wave := wave g;
     waveWeightSpawned := waveWeightSpawned g;
     lastSpawnTick := lastSpawnTick g;
     cardSelectionEndTime := cardSelectionEndTime g; lives := lives g |}.
Definition with_gamePhase (v : Phase) (g : t) : t :=
  {| players := players g; bullets := bullets g; balls := balls g;
     nextPlayerId := nextPlayerId g; nextBulletId := nextBulletId g;
     nextBallId := nextBallId g; tickCount := tickCount g;
     gameStarted := gameStarted g; gamePhase := v; wave := wave g;
     waveWeightSpawned := waveWeightSpawned g;
     lastSpawnTick := lastSpawnTick g;
     cardSelectionEndTime := cardSelectionEndTime g; lives := lives g |}.
Definition with_wave (v : Z) (g : t) : t :=
  {| players := players g; bullets := bullets g; balls := balls g;
     nextPlayerId := nextPlayerId g; nextBulletId := nextBulletId g;
     nextBallId := nextBallId g; tickCount := tickCount g;
     gameStarted := gameStarted g; gamePhase := gamePhase g; wave := v;
     waveWeightSpawned := waveWeightSpawned g;
     lastSpawnTick := lastSpawnTick g;
     cardSelectionEndTime := cardSelectionEndTime g; lives := lives g |}.
Definition with_waveWeightSpawned (v : R) (g : t) : t :=
  {| players := players g; bullets := bullets g; balls := balls g;
     nextPlayerId := nextPlayerId g; nextBulletId := nextBulletId g;
     nextBallId := nextBallId g; tickCount := tickCount g;
     gameStarted := gameStarted g; gamePhase := gamePhase g; wave := wave g;
     waveWeightSpawned := v;
     lastSpawnTick := lastSpawnTick g;
     cardSelectionEndTime := cardSelectionEndTime g; lives := lives g |}.
Definition with_lastSpawnTick (v : Z) (g : t) : t :=
  {| players := players g; bullets := bullets g; balls := balls g;
     nextPlayerId := nextPlayerId g; nextBulletId := nextBulletId g;
     nextBallId := nextBallId g; tickCount := tickCount g;
     gameStarted := gameStarted g; gamePhase := gamePhase g; wave := wave g;
     waveWeightSpawned := waveWeightSpawned g;
     lastSpawnTick := v;
     cardSelectionEndTime := cardSelectionEndTime g; lives := lives g |}.
Definition with_cardSelectionEndTime (v : Z) (g : t) : t :=
  {| players := players g; bullets := bullets g; balls := balls g;
     nextPlayerId := nextPlayerId g; nextBulletId := nextBulletId g;
     nextBallId := nextBallId g; tickCount := tickCount g;
     gameStarted := gameStarted g; gamePhase := gamePhase g; wave := wave g;
     waveWeightSpawned := waveWeightSpawned g;
     lastSpawnTick := lastSpawnTick g;
     cardSelectionEndTime := v; lives := lives g |}.
Definition with_lives (v : Z) (g : t) : t :=
  {| players := players g; bullets := bullets g; balls := balls g;
     nextPlayerId := nextPlayerId g; nextBulletId := nextBulletId g;
     nextBallId := nextBallId g; tickCount := tickCount g;
     gameStarted := gameStarted g; gamePhase := gamePhase g; wave := wave g;
     waveWeightSpawned := waveWeightSpawned g;
     lastSpawnTick := lastSpawnTick g;
     cardSelectionEndTime := cardSelectionEndTime g; lives := v |}.
End Game.

(** ** The server: what a tick reads from its environment *)

(** [random n] is the result of the [n]-th call of [Math.random] made during
    the tick; [nowEnter] is the clock read when card selection is entered,
    [nowCheck] the one read by the card-selection deadline test. *)
Module Env.
Record t := {
  random : nat -> R;
  random_range : forall n, 0 <= random n < 1;
  nowEnter : Z;
  nowCheck : Z
}.
End Env.

(** ** The server: messages to clients *)

Module PlayerView.
Record t := {
  id : Z;
  x : R;
  y : R;
  offeredCards : option (list Card.t);
  criticalChance : Z;
  pierceChance : Z;
  areaDamageLevel : Z;
  bulletCount : Z;
  pusherChance : Z;
  ignitionChance : Z;
  meleeDamage : Z;
  bounceCount : Z
}.

Definition with_pos (nx ny : R) (p : t) : t :=
  {| id := id p; x := nx; y := ny; offeredCards := offeredCards p;
     criticalChance := criticalChance p; pierceChance := pierceChance p;
     areaDamageLevel := areaDamageLevel p; bulletCount := bulletCount p;
     pusherChance := pusherChance p; ignitionChance := ignitionChance p;
     meleeDamage := meleeDamage p; bounceCount := bounceCount p |}.
End PlayerView.

(** [{...b, burning}]. *)
Module BallView.
Record t := { ball : Ball.t; burning : bool }.
End BallView.

Module Snapshot.
Record t := {
  gameStarted : bool;
  gamePhase : Phase;
  wave : Z;
  lives : Z;
  cardSelectionEndTime : Z;
  players : list PlayerView.t;
  bullets : list Bullet.t;
  balls : list BallView.t;
  areaDamageHits : list Point.t;
  bulletHits : list Point.t
}.
End Snapshot.

Inductive Emit :=
  | joined (id : Z) (width height : R) (gameStarted : bool)
  | state (s : Snapshot.t).

(** ** The server: spawning *)

Fixpoint pickBallType_scan (keys : list BallType) (r : R) : BallType :=
  match keys with
  | [] => hd normal BALL_TYPE_KEYS
  | ty :: rest =>
      let r := r - BallDef.spawnRate (BALL_TYPES ty) in
      if Js.Rleb r 0 then ty else pickBallType_scan rest r
  end.

(** [pickBallType()], given the value [u] of its call of [Math.random].  The
    product [u * total] is exact here; the code rounds it to a double. *)
Definition pickBallType (u : R) : BallType :=
  let total :=
    fold_left (fun s k => s + BallDef.spawnRate (BALL_TYPES k)) BALL_TYPE_KEYS 0 in
  pickBallType_scan BALL_TYPE_KEYS (u * total).

Definition ballRadius (ty : BallType) : R :=
  if BallType_eqb ty big then 70 else if BallType_eqb ty fast then 30 else 44.

(** [spawnBall(type)]; [c] counts the random draws made so far. *)
Definition spawnBall (rnd : nat -> R) (c : nat) (ty : option BallType)
    (g : Game.t) : BallType * Game.t * nat :=
  let '(ty, c) :=
    match ty with
    | Some ty => (ty, c)
    | None => (pickBallType (rnd c), S c)
    end in
  let def := BALL_TYPES ty in
  let radius := ballRadius ty in
  let ball :=
    {| Ball.id := Game.nextBallId g;
       Ball.x := rnd c * (ROOM_WIDTH - radius * 2) + radius;
       Ball.y := - radius - 10;
       Ball.type := ty;
       Ball.hp := BallDef.hp def;
       Ball.maxHp := BallDef.hp def;
       Ball.speed := BallDef.speed def;
       Ball.radius := radius;
       Ball.burnEndTick := None |} in
  (ty,
   Game.with_balls (JsMap.set (Game.balls g) (Ball.id ball) ball)
     (Game.with_nextBallId (Game.nextBallId g + 1)%Z g),
   S c).

(** ** The server: swept collision test *)

(** Distance from point (px, py) to the segment from (x1, y1) to (x2, y2). *)
Definition pointToSegmentDist (px py x1 y1 x2 y2 : R) : R :=
  let dx := x2 - x1 in
  let dy := y2 - y1 in
  let lenSq := dx * dx + dy * dy in
  if Js.Reqb lenSq 0 then Js.hypot (px - x1) (py - y1)
  else
    let t := ((px - x1) * dx + (py - y1) * dy) / lenSq in
    let t := Rmax 0 (Rmin 1 t) in
    let nearestX := x1 + t * dx in
    let nearestY := y1 + t * dy in
    Js.hypot (px - nearestX) (py - nearestY).

Definition bulletHitsBall (bullet : Bullet.t) (ball : Ball.t) (moveX moveY : R)
    : bool :=
  let nextX := Bullet.x bullet + moveX in
  let nextY := Bullet.y bullet + moveY in
  let dist :=
    pointToSegmentDist (Ball.x ball) (Ball.y ball)
      (Bullet.x bullet) (Bullet.y bullet) nextX nextY in
  Js.Rleb dist (Bullet.radius bullet + Ball.radius ball).

(** ** The server: reset *)

Definition resetPlayer (p : Player.t) : Player.t :=
  {| Player.id := Player.id p;
     Player.x := ROOM_WIDTH / 2;
     Player.y := ROOM_HEIGHT - 80;
     Player.criticalChance := 0;
     Player.pierceChance := 0;
     Player.areaDamageLevel := 0;
     Player.bulletCount := 1;
     Player.pusherChance := 0;
     Player.ignitionChance := 0;
     Player.meleeDamage := 0;
     Player.bounceCount := 0;
     Player.keys := Player.keys p;
     Player.lastActivity := Player.lastActivity p;
     Player.offeredCards := None;
     Player.cardSelected := false |}.

Definition resetGame (g : Game.t) : Game.t :=
  {| Game.players := JsMap.update_all resetPlayer (Game.players g);
     Game.bullets := JsMap.empty;
     Game.balls := JsMap.empty;
     Game.nextPlayerId := Game.nextPlayerId g;
     Game.nextBulletId := 1;
     Game.nextBallId := 1;
     Game.tickCount := 0;
     Game.gameStarted := Game.gameStarted g;
     Game.gamePhase := playing;
     Game.wave := 1;
     Game.waveWeightSpawned := 0;
     Game.lastSpawnTick := 0;
     Game.cardSelectionEndTime := Game.cardSelectionEndTime g;
     Game.lives := INITIAL_LIVES |}.

(** ** The server: phase transitions of a tick *)

(** [tickCount++] and the game-over test that opens [gameTick]. *)
Definition beginTick (g : Game.t) : Game.t :=
  let g := Game.with_tickCount (Game.tickCount g + 1)%Z g in
  if (Game.lives g <=? 0)%Z && Phase_eqb (Game.gamePhase g) playing
  then Game.with_gamePhase gameOver g
  else g.

Definition maxWeight (wave : Z) : R := 20 * Js.pow 1.1 (wave - 1).

Definition spawnIntervalTicks (wave : Z) : Z :=
  Z.max 1 (Js.floor (IZR TICK_RATE * Js.pow 0.9 (wave - 1))).

(** [CARD_TYPES[Math.floor(Math.random() * CARD_TYPES.length)]]; the default
    of [nth] is not reached for a draw in [0, 1). *)
Definition drawCard (u : R) : Card.t :=
  nth (Z.to_nat (Js.floor (u * INR (List.length CARD_TYPES)))) CARD_TYPES
    {| Card.id := critical; Card.name := EmptyString; Card.desc := EmptyString |}.

Fixpoint offerLoop (rnd : nat -> R) (n : nat) (c : nat) (offered : list Card.t)
    : list Card.t * nat :=
  match n with
  | O => (offered, c)
  | S n' => offerLoop rnd n' (S c) (offered ++ [drawCard (rnd c)])
  end.

Definition offerTo (rnd : nat -> R) (p : Player.t) (c : nat) : Player.t * nat :=
  let '(offered, c) := offerLoop rnd 3 c [] in
  (Player.with_cardSelected false (Player.with_offeredCards (Some offered) p), c).

(** Spawning and wave completion: the block guarded by
    [gameStarted && gamePhase === 'playing' && lives > 0]. *)
Definition waveStep (env : Env.t) (g : Game.t) (c : nat) : Game.t * nat :=
  if Game.gameStarted g && Phase_eqb (Game.gamePhase g) playing
     && (0 <? Game.lives g)%Z
  then
    let maxW := maxWeight (Game.wave g) in
    let interval := spawnIntervalTicks (Game.wave g) in
    let canSpawn := Js.Rltb (Game.waveWeightSpawned g) maxW in
    let timeToSpawn :=
      (interval <=? Game.tickCount g - Game.lastSpawnTick g)%Z in
    let '(g, c) :=
      if canSpawn && timeToSpawn then
        let '(ty, g, c) := spawnBall (Env.random env) c None g in
        (Game.with_lastSpawnTick (Game.tickCount g)
           (Game.with_waveWeightSpawned
              (Game.waveWeightSpawned g + BallDef.waveWeight (BALL_TYPES ty)) g),
         c)
      else (g, c) in
    if Js.Rleb maxW (Game.waveWeightSpawned g)
       && (JsMap.size (Game.balls g) =? 0)%Z
       && Phase_eqb (Game.gamePhase g) playing
    then
      let g :=
        Game.with_cardSelectionEndTime (Env.nowEnter env + CARD_SELECTION_MS)%Z
          (Game.with_gamePhase cardSelection g) in
      let '(ps, c) :=
        JsMap.forEachSt (offerTo (Env.random env)) (Game.players g) c in
      (Game.with_players ps g, c)
    else (g, c)
  else (g, c).

(** [Array.from(players.values()).every((p) => p.cardSelected)]. *)
Definition allSelected (g : Game.t) : bool :=
  forallb Player.cardSelected (JsMap.values (Game.players g)).

(** [Date.now() >= cardSelectionEndTime]. *)
Definition timedOut (env : Env.t) (g : Game.t) : bool :=
  (Game.cardSelectionEndTime g <=? Env.nowCheck env)%Z.

Definition closeOffer (p : Player.t) : Player.t :=
  Player.with_cardSelected false (Player.with_offeredCards None p).

(** End of card selection, on timeout or when all have selected. *)
Definition cardSelectionStep (env : Env.t) (g : Game.t) : Game.t :=
  if Phase_eqb (Game.gamePhase g) cardSelection then
    if allSelected g || timedOut env g then
      Game.with_players (JsMap.update_all closeOffer (Game.players g))
        (Game.with_waveWeightSpawned 0
           (Game.with_wave (Game.wave g + 1)%Z
              (Game.with_gamePhase playing g)))
    else g
  else g.

(** ** The server: player input *)

Definition movePlayer (p : Player.t) : Player.t :=
  let p := if Keys.left (Player.keys p)
           then Player.with_x (Rmax PLAYER_RADIUS (Player.x p - PLAYER_SPEED)) p
           else p in
  let p := if Keys.right (Player.keys p)
           then Player.with_x
                  (Rmin (ROOM_WIDTH - PLAYER_RADIUS) (Player.x p + PLAYER_SPEED)) p
           else p in
  let p := if Keys.up (Player.keys p)
           then Player.with_y (Rmax PLAYER_RADIUS (Player.y p - PLAYER_SPEED)) p
           else p in
  let p := if Keys.down (Player.keys p)
           then Player.with_y
                  (Rmin (ROOM_HEIGHT - PLAYER_RADIUS) (Player.y p + PLAYER_SPEED)) p
           else p in
  p.

(** Input is integrated unless the game is over. *)
Definition processInput (g : Game.t) : Game.t :=
  if negb (Phase_eqb (Game.gamePhase g) gameOver)
  then Game.with_players (JsMap.update_all movePlayer (Game.players g)) g
  else g.

(** ** The server: bullet against ball collisions *)

(** The variables the collision pass mutates: the ball objects, the two
    pending-removal sets, the two transient event lists, and the number of
    random draws made so far. *)
Module Coll.
Record t := {
  balls : JsMap.t Ball.t;
  toRemoveBullets : JsSet.t;
  toRemoveBalls : JsSet.t;
  areaDamageHits : list Point.t;
  bulletHits : list Point.t;
  cursor : nat
}.

Definition init (balls : JsMap.t Ball.t) (c : nat) : t :=
  {| balls := balls; toRemoveBullets := JsSet.empty;
     toRemoveBalls := JsSet.empty; areaDamageHits := []; bulletHits := [];
     cursor := c |}.

Definition removeBullet (k : Z) (st : t) : t :=
  {| balls := balls st; toRemoveBullets := JsSet.add (toRemoveBullets st) k;
     toRemoveBalls := toRemoveBalls st; areaDamageHits := areaDamageHits st;
     bulletHits := bulletHits st; cursor := cursor st |}.
End Coll.

(** The per-bullet locals of the collision pass: movement of this tick,
    damage, and the modifiers read from the owner ([0] without an owner). *)
Module Shot.
Record t := {
  moveX : R;
  moveY : R;
  damage : R;
  criticalChance : Z;
  pierceChance : Z;
  areaLevel : Z;
  pusherChance : Z;
  ignitionChance : Z
}.
End Shot.

(** The callback of the inner [balls.forEach] of the area damage. *)
Definition splash (center : Ball.t) (areaDmg : R) (b : Ball.t) (rm : JsSet.t)
    : Ball.t * JsSet.t :=
  if negb (Ball.id b =? Ball.id center)%Z
     && Js.Rleb (Js.hypot (Ball.x b - Ball.x center) (Ball.y b - Ball.y center))
                AREA_DAMAGE_RADIUS
  then
    let b := Ball.with_hp (Ball.hp b - areaDmg) b in
    (b, if Js.Rleb (Ball.hp b) 0 then JsSet.add rm (Ball.id b) else rm)
  else (b, rm).

(** The callback of [balls.forEach] for one bullet, at the ball stored under
    [ballId]. *)
Definition hitBall (tick : Z) (rnd : nat -> R) (bullet : Bullet.t)
    (shot : Shot.t) (st : Coll.t) (ballId : Z) : Coll.t :=
  match JsMap.get (Coll.balls st) ballId with
  | None => st
  | Some ball =>
    if bulletHitsBall bullet ball (Shot.moveX shot) (Shot.moveY shot) then
      let hom := Bullet.homing bullet in
      let c := Coll.cursor st in
      let bulletHits :=
        Coll.bulletHits st ++ [{| Point.x := Ball.x ball; Point.y := Ball.y ball |}] in
      let '(dmg, c) :=
        if hom then (Shot.damage shot, c)
        else (if Js.Rltb (rnd c * 100) (IZR (Shot.criticalChance shot))
              then Shot.damage shot * 2 else Shot.damage shot, S c) in
      let ball := Ball.with_hp (Ball.hp ball - dmg) ball in
      let rmBalls :=
        if Js.Rleb (Ball.hp ball) 0
        then JsSet.add (Coll.toRemoveBalls st) (Ball.id ball)
        else Coll.toRemoveBalls st in
      let '(ball, c) :=
        if hom then (ball, c)
        else (if Js.Rltb (rnd c * 100) (IZR (Shot.pusherChance shot))
              then Ball.with_y (Ball.y ball - PUSHER_STRENGTH) ball else ball, S c) in
      let '(ball, c) :=
        if negb hom && (0 <? Shot.ignitionChance shot)%Z
        then (if Js.Rltb (rnd c * 100) (IZR (Shot.ignitionChance shot))
              then Ball.with_burnEndTick (Some (tick + BURN_DURATION_TICKS)%Z) ball
              else ball, S c)
        else (ball, c) in
      let '(rmBullets, c) :=
        if hom then (JsSet.add (Coll.toRemoveBullets st) (Bullet.id bullet), c)
        else (if Js.Rleb (IZR (Shot.pierceChance shot)) (rnd c * 100)
              then JsSet.add (Coll.toRemoveBullets st) (Bullet.id bullet)
              else Coll.toRemoveBullets st, S c) in
      let balls := JsMap.update (Coll.balls st) ballId (fun _ => ball) in
      if negb hom && (0 <? Shot.areaLevel shot)%Z then
        let areaDmg :=
          BULLET_DAMAGE * 0.1 * Js.pow 1.1 (Shot.areaLevel shot - 1) in
        let areaDamageHits :=
          Coll.areaDamageHits st
            ++ [{| Point.x := Ball.x ball; Point.y := Ball.y ball |}] in
        let '(balls, rmBalls) :=
          JsMap.forEachSt (splash ball areaDmg) balls rmBalls in
        {| Coll.balls := balls; Coll.toRemoveBullets := rmBullets;
           Coll.toRemoveBalls := rmBalls; Coll.areaDamageHits := areaDamageHits;
           Coll.bulletHits := bulletHits; Coll.cursor := c |}
      else
        {| Coll.balls := balls; Coll.toRemoveBullets := rmBullets;
           Coll.toRemoveBalls := rmBalls;
           Coll.areaDamageHits := Coll.areaDamageHits st;
           Coll.bulletHits := bulletHits; Coll.cursor := c |}
    else st
  end.

(** [balls.get(bullet.targetBallId)] and [players.get(bullet.ownerId)]. *)
Definition getOpt {V : Type} (m : JsMap.t V) (k : option Z) : option V :=
  match k with Some k => JsMap.get m k | None => None end.

(** [owner?.field ?? 0]. *)
Definition ownerMod (owner : option Player.t) (field : Player.t -> Z) : Z :=
  match owner with Some o => field o | None => 0%Z end.

(** The movement, damage and owner of a bullet: [None] is the early return
    taken by a homing bullet whose target is gone. *)
Definition aim (players : JsMap.t Player.t) (balls : JsMap.t Ball.t)
    (bullet : Bullet.t) : option (Shot.t * option Player.t) :=
  if Bullet.homing bullet then
    match getOpt balls (Bullet.targetBallId bullet) with
    | None => None
    | Some target =>
        let dx := Ball.x target - Bullet.x bullet in
        let dy := Ball.y target - Bullet.y bullet in
        let len :=
          if Js.Reqb (Js.hypot dx dy) 0 then 1 else Js.hypot dx dy in
        Some ({| Shot.moveX := (dx / len) * BULLET_SPEED;
                 Shot.moveY := (dy / len) * BULLET_SPEED;
                 Shot.damage := IZR (Bullet.damage bullet ?? 1%Z);
                 Shot.criticalChance := ownerMod None Player.criticalChance;
                 Shot.pierceChance := ownerMod None Player.pierceChance;
                 Shot.areaLevel := ownerMod None Player.areaDamageLevel;
                 Shot.pusherChance := ownerMod None Player.pusherChance;
                 Shot.ignitionChance := ownerMod None Player.ignitionChance |},
              None)
    end
  else
    let owner := getOpt players (Bullet.ownerId bullet) in
    Some ({| Shot.moveX := Bullet.vx bullet ?? 0;
             Shot.moveY := Bullet.vy bullet ?? (- BULLET_SPEED);
             Shot.damage := BULLET_DAMAGE;
             Shot.criticalChance := ownerMod owner Player.criticalChance;
             Shot.pierceChance := ownerMod owner Player.pierceChance;
             Shot.areaLevel := ownerMod owner Player.areaDamageLevel;
             Shot.pusherChance := ownerMod owner Player.pusherChance;
             Shot.ignitionChance := ownerMod owner Player.ignitionChance |},
          owner).

(** The callback of [bullets.forEach] in the collision pass. *)
Definition collideBullet (players : JsMap.t Player.t) (tick : Z)
    (rnd : nat -> R) (bullet : Bullet.t) (st : Coll.t) : Bullet.t * Coll.t :=
  match aim players (Coll.balls st) bullet with
  | None => (bullet, Coll.removeBullet (Bullet.id bullet) st)
  | Some (shot, _) =>
      let st :=
        fold_left (hitBall tick rnd bullet shot) (JsMap.keys (Coll.balls st)) st in
      (Bullet.with_move (Some (Shot.moveX shot)) (Some (Shot.moveY shot)) bullet,
       st)
  end.

Definition collide (players : JsMap.t Player.t) (tick : Z) (rnd : nat -> R)
    (bullets : JsMap.t Bullet.t) (st : Coll.t) : JsMap.t Bullet.t * Coll.t :=
  JsMap.forEachSt (collideBullet players tick rnd) bullets st.

(** ** The server: bullet movement *)

(** One of the four edge tests of a bouncy bullet; [bl] is the local count
    of bounces left. *)
Definition bounceLeft (st : Bullet.t * Z) : Bullet.t * Z :=
  let '(b, bl) := st in
  if Js.Rltb (Bullet.x b) BULLET_RADIUS
  then (Bullet.with_vx (Some ((Bullet.vx b ?? 0) * -1))
          (Bullet.with_x BULLET_RADIUS b), (bl - 1)%Z)
  else st.
Definition bounceRight (st : Bullet.t * Z) : Bullet.t * Z :=
  let '(b, bl) := st in
  if Js.Rltb (ROOM_WIDTH - BULLET_RADIUS) (Bullet.x b)
  then (Bullet.with_vx (Some ((Bullet.vx b ?? 0) * -1))
          (Bullet.with_x (ROOM_WIDTH - BULLET_RADIUS) b), (bl - 1)%Z)
  else st.
Definition bounceTop (st : Bullet.t * Z) : Bullet.t * Z :=
  let '(b, bl) := st in
  if Js.Rltb (Bullet.y b) BULLET_RADIUS
  then (Bullet.with_vy (Some ((Bullet.vy b ?? (- BULLET_SPEED)) * -1))
          (Bullet.with_y BULLET_RADIUS b), (bl - 1)%Z)
  else st.
Definition bounceBottom (st : Bullet.t * Z) : Bullet.t * Z :=
  let '(b, bl) := st in
  if Js.Rltb (ROOM_HEIGHT - BULLET_RADIUS) (Bullet.y b)
  then (Bullet.with_vy (Some ((Bullet.vy b ?? (- BULLET_SPEED)) * -1))
          (Bullet.with_y (ROOM_HEIGHT - BULLET_RADIUS) b), (bl - 1)%Z)
  else st.

Definition outOfRoom (b : Bullet.t) : bool :=
  Js.Rltb (Bullet.y b) (- BULLET_RADIUS)
  || Js.Rltb (ROOM_HEIGHT + BULLET_RADIUS) (Bullet.y b)
  || Js.Rltb (Bullet.x b) (- BULLET_RADIUS)
  || Js.Rltb (ROOM_WIDTH + BULLET_RADIUS) (Bullet.x b).

(** The callback of [bullets.forEach] in the movement pass. *)
Definition moveBullet (b : Bullet.t) (rm : JsSet.t) : Bullet.t * JsSet.t :=
  let mx := Bullet._moveX b ?? 0 in
  let my := Bullet._moveY b ?? (- BULLET_SPEED) in
  let b := Bullet.with_pos (Bullet.x b + mx) (Bullet.y b + my) b in
  let b := Bullet.with_move None None b in
  let b :=
    if negb (Bullet.homing b)
       && (Js.notNull (Bullet.vx b) || Js.notNull (Bullet.vy b))
    then Bullet.with_vy (Some my) (Bullet.with_vx (Some mx) b)
    else b in
  let bl := Bullet.bouncesLeft b ?? 0%Z in
  let b :=
    if (0 <? bl)%Z then
      let '(b, bl) := bounceBottom (bounceTop (bounceRight (bounceLeft (b, bl)))) in
      Bullet.with_bouncesLeft (Some (Z.max 0 bl)) b
    else b in
  (b, if outOfRoom b then JsSet.add rm (Bullet.id b) else rm).

(** ** The server: new bullets *)

(** The [i]-th bullet of a player's volley. *)
Definition volleyBullet (p : Player.t) (count bounceCount : Z) (i : nat)
    (newId : Z) : Bullet.t :=
  let dx := if (1 <? count)%Z then (INR i - (IZR count - 1) / 2) * 16 else 0 in
  let bouncy := (0 <? bounceCount)%Z in
  {| Bullet.id := newId;
     Bullet.x := Player.x p + dx;
     Bullet.y := Player.y p;
     Bullet.ownerId := Some (Player.id p);
     Bullet.radius := BULLET_RADIUS;
     Bullet.vx := if bouncy then Some 0 else None;
     Bullet.vy := if bouncy then Some (- BULLET_SPEED) else None;
     Bullet.bouncesLeft := if bouncy then Some bounceCount else None;
     Bullet.homing := false;
     Bullet.targetBallId := None;
     Bullet.damage := None;
     Bullet._moveX := None;
     Bullet._moveY := None |}.

(** [for (let i = 0; i < count; i++)], with [n] iterations still to run. *)
Fixpoint volleyLoop (p : Player.t) (count bounceCount : Z) (n : nat) (i : nat)
    (st : JsMap.t Bullet.t * Z) : JsMap.t Bullet.t * Z :=
  match n with
  | O => st
  | S n' =>
      let '(bullets, nextBulletId) := st in
      let b := volleyBullet p count bounceCount i nextBulletId in
      volleyLoop p count bounceCount n' (S i)
        (JsMap.set bullets (Bullet.id b) b, (nextBulletId + 1)%Z)
  end.

(** The callback of the search for the nearest ball within melee range. *)
Definition nearer (p : Player.t) (acc : option Ball.t * R) (b : Ball.t)
    : option Ball.t * R :=
  let d := Js.hypot (Ball.x b - Player.x p) (Ball.y b - Player.y p) in
  if Js.Rltb d (snd acc) then (Some b, d) else acc.

Definition nearestBall (p : Player.t) (balls : JsMap.t Ball.t) : option Ball.t :=
  fst (fold_left (nearer p) (JsMap.values balls) (None, MELEE_RANGE)).

(** The homing bullet of the melee upgrade. *)
Definition homingBullet (p : Player.t) (nearest : Ball.t) (meleeDmg : Z)
    (newId : Z) : Bullet.t :=
  {| Bullet.id := newId;
     Bullet.x := Player.x p;
     Bullet.y := Player.y p;
     Bullet.ownerId := Some (Player.id p);
     Bullet.radius := BULLET_RADIUS;
     Bullet.vx := None;
     Bullet.vy := None;
     Bullet.bouncesLeft := None;
     Bullet.homing := true;
     Bullet.targetBallId := Some (Ball.id nearest);
     Bullet.damage := Some meleeDmg;
     Bullet._moveX := None;
     Bullet._moveY := None |}.

(** The callback of [players.forEach] in the spawning pass. *)
Definition shoot (tick : Z) (balls : JsMap.t Ball.t)
    (st : JsMap.t Bullet.t * Z) (p : Player.t) : JsMap.t Bullet.t * Z :=
  let count := Player.bulletCount p in
  let bounceCount := Player.bounceCount p in
  let st := volleyLoop p count bounceCount (Z.to_nat count) 0 st in
  let meleeDmg := Player.meleeDamage p in
  if (0 <? meleeDmg)%Z && (Z.rem tick MELEE_BULLET_INTERVAL =? 0)%Z then
    match nearestBall p balls with
    | Some nearest =>
        let '(bullets, nextBulletId) := st in
        (JsMap.set bullets nextBulletId (homingBullet p nearest meleeDmg nextBulletId),
         (nextBulletId + 1)%Z)
    | None => st
    end
  else st.

Definition spawnBullets (g : Game.t) : Game.t :=
  if Game.gameStarted g && Phase_eqb (Game.gamePhase g) playing
     && (0 <? Game.lives g)%Z
  then
    let '(bullets, nextBulletId) :=
      fold_left (shoot (Game.tickCount g) (Game.balls g))
        (JsMap.values (Game.players g))
        (Game.bullets g, Game.nextBulletId g) in
    Game.with_nextBulletId nextBulletId (Game.with_bullets bullets g)
  else g.

(** ** The server: burn damage and ball movement *)

Definition isBurning (tick : Z) (b : Ball.t) : bool :=
  match Ball.burnEndTick b with
  | Some e => (tick <? e)%Z
  | None => false
  end.

Definition burn (tick : Z) (b : Ball.t) (rm : JsSet.t) : Ball.t * JsSet.t :=
  if isBurning tick b then
    let b := Ball.with_hp (Ball.hp b - 1) b in
    (b, if Js.Rleb (Ball.hp b) 0 then JsSet.add rm (Ball.id b) else rm)
  else (b, rm).

(** A ball is off the bottom when, after its move, [y > ROOM_HEIGHT + radius]. *)
Definition offBottom (b : Ball.t) : bool :=
  Js.Rltb (ROOM_HEIGHT + Ball.radius b) (Ball.y b).

(** The callback of the [balls.forEach] that moves balls down: its state is
    the set of balls to remove and the shared lives. *)
Definition fall (b : Ball.t) (st : JsSet.t * Z) : Ball.t * (JsSet.t * Z) :=
  let b := Ball.with_y (Ball.y b + Ball.speed b) b in
  if offBottom b
  then (b, (JsSet.add (fst st) (Ball.id b), (snd st - 1)%Z))
  else (b, st).

(** [if (lives < 0) lives = 0]. *)
Definition clampLives (lives : Z) : Z := if (lives <? 0)%Z then 0%Z else lives.

(** ** The server: broadcast *)

Definition viewPlayer (p : Player.t) : PlayerView.t :=
  {| PlayerView.id := Player.id p;
     PlayerView.x := Player.x p;
     PlayerView.y := Player.y p;
     PlayerView.offeredCards := Player.offeredCards p;
     PlayerView.criticalChance := Player.criticalChance p;
     PlayerView.pierceChance := Player.pierceChance p;
     PlayerView.areaDamageLevel := Player.areaDamageLevel p;
     PlayerView.bulletCount := Player.bulletCount p;
     PlayerView.pusherChance := Player.pusherChance p;
     PlayerView.ignitionChance := Player.ignitionChance p;
     PlayerView.meleeDamage := Player.meleeDamage p;
     PlayerView.bounceCount := Player.bounceCount p |}.

Definition viewBall (tick : Z) (b : Ball.t) : BallView.t :=
  {| BallView.ball := b; BallView.burning := isBurning tick b |}.

Definition snapshot (g : Game.t) (areaDamageHits bulletHits : list Point.t)
    : Snapshot.t :=
  {| Snapshot.gameStarted := Game.gameStarted g;
     Snapshot.gamePhase := Game.gamePhase g;
     Snapshot.wave := Game.wave g;
     Snapshot.lives := Game.lives g;
     Snapshot.cardSelectionEndTime := Game.cardSelectionEndTime g;
     Snapshot.players := map viewPlayer (JsMap.values (Game.players g));
     Snapshot.bullets := JsMap.values (Game.bullets g);
     Snapshot.balls := map (viewBall (Game.tickCount g)) (JsMap.values (Game.balls g));
     Snapshot.areaDamageHits := areaDamageHits;
     Snapshot.bulletHits := bulletHits |}.

(** ** The server: [gameTick]

    The body of [gameTick] is cut into the blocks the source separates by its
    comments: [beginTick] (lines 150-152), [waveStep] (153-175),
    [cardSelectionStep] (176-189), [processInput] (191-199), [collide]
    (201-253), [moveBullet] and the removal of bullets (255-278),
    [spawnBullets] (280-324), [burn] (325-331), [fall], the removal of balls
    and [clampLives] (333-342), [snapshot] (344-372). *)

(** The phase transitions that open the tick, and input integration. *)
Definition phaseStep (env : Env.t) (g : Game.t) : Game.t * nat :=
  let '(g, c) := waveStep env (beginTick g) 0%nat in
  (processInput (cardSelectionStep env g), c).

(** Collision, bullet movement and removal, and spawning of new bullets; the
    result carries the collision state on to the ball passes. *)
Definition bulletStep (env : Env.t) (gc : Game.t * nat) : Game.t * Coll.t :=
  let '(g, c) := gc in
  let '(bullets, coll) :=
    collide (Game.players g) (Game.tickCount g) (Env.random env)
      (Game.bullets g) (Coll.init (Game.balls g) c) in
  let '(bullets, rmBullets) :=
    JsMap.forEachSt moveBullet bullets (Coll.toRemoveBullets coll) in
  let g :=
    Game.with_balls (Coll.balls coll)
      (Game.with_bullets (JsMap.delete_all bullets rmBullets) g) in
  (spawnBullets g, coll).

(** Burn damage, ball movement with loss of lives, removal of balls, and the
    clamp of the shared lives. *)
Definition ballStep (gc : Game.t * Coll.t) : Game.t :=
  let '(g, coll) := gc in
  let '(balls, rmBalls) :=
    JsMap.forEachSt (burn (Game.tickCount g)) (Game.balls g)
      (Coll.toRemoveBalls coll) in
  let '(balls, (rmBalls, lives)) :=
    JsMap.forEachSt fall balls (rmBalls, Game.lives g) in
  Game.with_lives (clampLives lives)
    (Game.with_balls (JsMap.delete_all balls rmBalls) g).

Definition gameTick (env : Env.t) (g : Game.t) : Game.t * list Emit :=
  let '(g1, coll) := bulletStep env (phaseStep env g) in
  let g2 := ballStep (g1, coll) in
  (g2, [state (snapshot g2 (Coll.areaDamageHits coll) (Coll.bulletHits coll))]).

(** ** The server: socket handlers

    A handler runs between two ticks.  It is given the id of the player whose
    socket received the message; a handler of a player who is no longer in
    the map mutates an object the simulation does not reach any more.  The
    inactivity timer closes the sockets of idle players: for the simulation
    that is a [disconnect]. *)

Definition connection (now : Z) (g : Game.t) : Game.t * list Emit :=
  let id := Game.nextPlayerId g in
  let player :=
    {| Player.id := id;
       Player.x := ROOM_WIDTH / 2;
       Player.y := ROOM_HEIGHT - 80;
       Player.criticalChance := 0;
       Player.pierceChance := 0;
       Player.areaDamageLevel := 0;
       Player.bulletCount := 1;
       Player.pusherChance := 0;
       Player.ignitionChance := 0;
       Player.meleeDamage := 0;
       Player.bounceCount := 0;
       Player.keys := Keys.none;
       Player.lastActivity := now;
       Player.offeredCards := None;
       Player.cardSelected := false |} in
  (Game.with_players (JsMap.set (Game.players g) id player)
     (Game.with_nextPlayerId (id + 1)%Z g),
   [joined id ROOM_WIDTH ROOM_HEIGHT (Game.gameStarted g)]).

Definition touch (now : Z) (pid : Z) (g : Game.t) : Game.t :=
  Game.with_players
    (JsMap.update (Game.players g) pid (Player.with_lastActivity now)) g.

Definition startGame (now : Z) (pid : Z) (g : Game.t) : Game.t * list Emit :=
  (touch now pid (Game.with_gameStarted true g), []).

Definition restartGame (now : Z) (pid : Z) (g : Game.t) : Game.t * list Emit :=
  (touch now pid (Game.with_gameStarted true (resetGame g)), []).

(** The upgrade a selected card grants. *)
Definition applyCard (card : Card.t) (pid : Z) (g : Game.t) : Game.t :=
  let bump (f : Player.t -> Player.t) :=
    Game.with_players (JsMap.update (Game.players g) pid f) g in
  match Card.id card with
  | critical =>
      bump (fun p => Player.with_criticalChance (Player.criticalChance p + 10)%Z p)
  | piercing =>
      bump (fun p => Player.with_pierceChance (Player.pierceChance p + 10)%Z p)
  | areaDamage =>
      bump (fun p => Player.with_areaDamageLevel (Player.areaDamageLevel p + 1)%Z p)
  | bulletCount =>
      bump (fun p => Player.with_bulletCount (Player.bulletCount p + 1)%Z p)
  | pusher =>
      bump (fun p => Player.with_pusherChance (Player.pusherChance p + 5)%Z p)
  | extraLife => Game.with_lives (Game.lives g + 1)%Z g
  | ignition =>
      bump (fun p => Player.with_ignitionChance (Player.ignitionChance p + 1)%Z p)
  | melee =>
      bump (fun p => Player.with_meleeDamage (Player.meleeDamage p + 1)%Z p)
  | bouncyBullets =>
      bump (fun p => Player.with_bounceCount (Player.bounceCount p + 1)%Z p)
  end.

(** [socket.on('selectCard', (cardIndex) => ...)] of player [pid], for an
    integer [cardIndex]. *)
Definition selectCard (pid : Z) (cardIndex : Z) (g : Game.t)
    : Game.t * list Emit :=
  match JsMap.get (Game.players g) pid with
  | None => (g, [])
  | Some player =>
      match Player.offeredCards player with
      | Some offered =>
          if negb (Phase_eqb (Game.gamePhase g) cardSelection)
             || Player.cardSelected player
          then (g, [])
          else
            match Js.index offered cardIndex with
            | None => (g, [])
            | Some card =>
                let g :=
                  Game.with_players
                    (JsMap.update (Game.players g) pid
                       (Player.with_cardSelected true)) g in
                (applyCard card pid g, [])
            end
      | None => (g, [])
      end
  end.

(** The property keys a [selectCard] message is modelled to carry as
    [cardIndex]: an integer, or the string ['length'], which names the own
    property every array has besides its elements.  Other payloads (other
    strings, numbers that are not integers, objects) are not modelled. *)
Inductive CardIndex : Type :=
  | ElementAt (i : Z)
  | LengthOf.

(** The value of [player.offeredCards[cardIndex]], unless it is [undefined]:
    an offered card, or the number of offered cards. *)
Inductive Picked : Type :=
  | PickedCard (card : Card.t)
  | PickedNumber (n : Z).

Definition pick (offered : list Card.t) (cardIndex : CardIndex) : option Picked :=
  match cardIndex with
  | ElementAt i => option_map PickedCard (Js.index offered i)
  | LengthOf => Some (PickedNumber (Z.of_nat (List.length offered)))
  end.

(** [card] is truthy: a card object is, and so is any number but 0. *)
Definition truthy (card : Picked) : bool :=
  match card with
  | PickedCard _ => true
  | PickedNumber n => negb (n =? 0)%Z
  end.

(** The chain of [card.id === ...] tests: the [id] of a number is
    [undefined], which equals none of the card ids. *)
Definition applyPicked (card : Picked) (pid : Z) (g : Game.t) : Game.t :=
  match card with
  | PickedCard card => applyCard card pid g
  | PickedNumber _ => g
  end.

(** [socket.on('selectCard', (cardIndex) => ...)] of player [pid], for any
    of the modelled property keys; [undefined] fails the test [if (!card)]. *)
Definition selectCardAt (pid : Z) (cardIndex : CardIndex) (g : Game.t)
    : Game.t * list Emit :=
  match JsMap.get (Game.players g) pid with
  | None => (g, [])
  | Some player =>
      match Player.offeredCards player with
      | Some offered =>
          if negb (Phase_eqb (Game.gamePhase g) cardSelection)
             || Player.cardSelected player
          then (g, [])
          else
            match pick offered cardIndex with
            | None => (g, [])
            | Some card =>
                if truthy card then
                  let g :=
                    Game.with_players
                      (JsMap.update (Game.players g) pid
                         (Player.with_cardSelected true)) g in
                  (applyPicked card pid g, [])
                else (g, [])
            end
      | None => (g, [])
      end
  end.

Definition keysHandler (now : Z) (pid : Z) (keys : Keys.t) (g : Game.t)
    : Game.t * list Emit :=
  (Game.with_players
     (JsMap.update (Game.players g) pid
        (fun p => Player.with_lastActivity now (Player.with_keys keys p))) g,
   []).

Definition disconnect (pid : Z) (g : Game.t) : Game.t * list Emit :=
  (Game.with_players (JsMap.delete (Game.players g) pid) g, []).

(** ** The server: the inactivity timer

    The timer callback collects the players whose last activity is more than
    [INACTIVITY_TIMEOUT_MS] before [now] and closes the socket of each:
    closing a socket runs its [disconnect] handler, which deletes the player
    stored under the id the handler closes over, the id of the player
    object. *)

(** [now - player.lastActivity > INACTIVITY_TIMEOUT_MS]. *)
Definition idle (now : Z) (p : Player.t) : bool :=
  (INACTIVITY_TIMEOUT_MS <? now - Player.lastActivity p)%Z.

(** The callback of the five-second [setInterval], run at time [now]. *)
Definition inactivityCheck (now : Z) (g : Game.t) : Game.t :=
  let toDisconnect := filter (idle now) (JsMap.values (Game.players g)) in
  fold_left (fun g p => fst (disconnect (Player.id p) g)) toDisconnect g.

(** ** The server: the flight of one bullet over several ticks *)

(** One tick of a bullet whose movement of the tick is (mx, my): the
    collision pass leaves the movement in the scratch fields, the movement
    pass applies it. *)
Definition tickBullet (mx my : R) (b : Bullet.t) : Bullet.t :=
  fst (moveBullet (Bullet.with_move (Some mx) (Some my) b) JsSet.empty).

Fixpoint ticksBullet (n : nat) (mx my : R) (b : Bullet.t) : Bullet.t :=
  match n with
  | O => b
  | S n' => ticksBullet n' mx my (tickBullet mx my b)
  end.

(** The geometric reading of the swept test: some point of the segment from
    (x1, y1) to (x2, y2) is within distance [r] of (px, py). *)
Definition withinOfSegment (px py x1 y1 x2 y2 r : R) : Prop :=
  exists t : R,
    0 <= t <= 1 /\
    Js.hypot (px - (x1 + t * (x2 - x1))) (py - (y1 + t * (y2 - y1))) <= r.

End Server.

(** ** The client: snapshot buffer and reconciler *)

Module Client.
Import Server.
Local Open Scope R_scope.

Definition SERVER_TICK_MS : R := 1000 / 15.
Definition BULLET_SPEED : R := 75.
Definition PX_PER_MS_BULLET : R := BULLET_SPEED / SERVER_TICK_MS.
Definition INTERP_DELAY_MS : R := 50.
Definition MAX_BUFFER_MS : R := 400.

(** What [lerpEntity] needs of an object: its [id], [x], [y], and the copy
    [{...b, x: nx, y: ny}]. *)
Class Entity (A : Type) := {
  ent_id : A -> Z;
  ent_x : A -> R;
  ent_y : A -> R;
  ent_at : R -> R -> A -> A
}.

#[global] Instance PlayerEntity : Entity PlayerView.t :=
  {| ent_id := PlayerView.id; ent_x := PlayerView.x; ent_y := PlayerView.y;
     ent_at := PlayerView.with_pos |}.

#[global] Instance BulletEntity : Entity Bullet.t :=
  {| ent_id := Bullet.id; ent_x := Bullet.x; ent_y := Bullet.y;
     ent_at := Bullet.with_pos |}.

#[global] Instance BallEntity : Entity BallView.t :=
  {| ent_id := fun b => Ball.id (BallView.ball b);
     ent_x := fun b => Ball.x (BallView.ball b);
     ent_y := fun b => Ball.y (BallView.ball b);
     ent_at := fun nx ny b =>
       {| BallView.ball :=
            {| Ball.id := Ball.id (BallView.ball b); Ball.x := nx; Ball.y := ny;
               Ball.type := Ball.type (BallView.ball b);
               Ball.hp := Ball.hp (BallView.ball b);
               Ball.maxHp := Ball.maxHp (BallView.ball b);
               Ball.speed := Ball.speed (BallView.ball b);
               Ball.radius := Ball.radius (BallView.ball b);
               Ball.burnEndTick := Ball.burnEndTick (BallView.ball b) |};
          BallView.burning := BallView.burning b |} |}.

(** The state object the client keeps of a snapshot, and renders. *)
Module State.
Record t := {
  gameStarted : bool;
  gamePhase : Phase;
  cardSelectionEndTime : Z;
  players : list PlayerView.t;
  bullets : list Bullet.t;
  balls : list BallView.t;
  areaDamageHits : list Point.t;
  bulletHits : list Point.t;
  lives : Z
}.

Definition with_bullets (v : list Bullet.t) (s : t) : t :=
  {| gameStarted := gameStarted s; gamePhase := gamePhase s;
     cardSelectionEndTime := cardSelectionEndTime s; players := players s;
     bullets := v; balls := balls s; areaDamageHits := areaDamageHits s;
     bulletHits := bulletHits s; lives := lives s |}.
End State.

(** An entry of [stateBuffer]: a state tagged with its local receipt time. *)
Module Buffered.
Record t := { time : R; state : State.t }.
End Buffered.

Definition lerp (a b t : R) : R := a + (b - a) * t.

Definition lerpEntity {A : Type} `{Entity A} (a : option A) (b : A) (t : R) : A :=
  match a with
  | None => b
  | Some a => ent_at (lerp (ent_x a) (ent_x b) t) (lerp (ent_y a) (ent_y b) t) b
  end.

(** [arr.find((e) => e.id === b.id)]. *)
Definition sameId {A : Type} `{Entity A} (arr : list A) (b : A) : option A :=
  Js.find (fun e => (ent_id e =? ent_id b)%Z) arr.

Definition lerpState (stateA : option State.t) (stateB : State.t) (t : R)
    : State.t :=
  match stateA with
  | None => stateB
  | Some stateA =>
      {| State.gameStarted := State.gameStarted stateB;
         State.gamePhase := State.gamePhase stateB;
         State.cardSelectionEndTime := State.cardSelectionEndTime stateB;
         State.players :=
           map (fun pb => lerpEntity (sameId (State.players stateA) pb) pb t)
               (State.players stateB);
         State.bullets :=
           map (fun bb => lerpEntity (sameId (State.bullets stateA) bb) bb t)
               (State.bullets stateB);
         State.balls :=
           map (fun bb => lerpEntity (sameId (State.balls stateA) bb) bb t)
               (State.balls stateB);
         State.areaDamageHits := State.areaDamageHits stateB;
         State.bulletHits := State.bulletHits stateB;
         State.lives := State.lives stateB |}
  end.

(** [while (stateBuffer.length > 1 && stateBuffer[1].time < cutoff) shift()]. *)
Fixpoint trim (cutoff : R) (buf : list Buffered.t) : list Buffered.t :=
  match buf with
  | a :: ((b :: _) as rest) =>
      if Js.Rltb (Buffered.time b) cutoff then trim cutoff rest else buf
  | _ => buf
  end.

(** The buffering done by [socket.on('state', ...)], received at time [now]. *)
Definition onState (now : R) (msg : Snapshot.t) (buf : list Buffered.t)
    : list Buffered.t :=
  let snapshot :=
    {| Buffered.time := now;
       Buffered.state :=
         {| State.gameStarted := Snapshot.gameStarted msg;
            State.gamePhase := Snapshot.gamePhase msg;
            State.cardSelectionEndTime := Snapshot.cardSelectionEndTime msg;
            State.players := Snapshot.players msg;
            State.bullets := Snapshot.bullets msg;
            State.balls := Snapshot.balls msg;
            State.areaDamageHits := Snapshot.areaDamageHits msg;
            State.bulletHits := Snapshot.bulletHits msg;
            State.lives := Snapshot.lives msg |} |} in
  trim (now - MAX_BUFFER_MS) (buf ++ [snapshot]).

(** The search loop of [getInterpolatedState]: the first adjacent pair of
    buffered snapshots whose receipt times bracket [renderTime]. *)
Fixpoint findBracket (renderTime : R) (buf : list Buffered.t)
    : option (Buffered.t * Buffered.t) :=
  match buf with
  | a :: ((b :: _) as rest) =>
      if Js.Rleb (Buffered.time a) renderTime
         && Js.Rleb renderTime (Buffered.time b)
      then Some (a, b)
      else findBracket renderTime rest
  | _ => None
  end.

(** The callback that places a bullet of the latest snapshot at the current
    instant. *)
Definition extrapolate (elapsed : R) (b : Bullet.t) : Bullet.t :=
  if Bullet.homing b then b
  else if Js.notNull (Bullet.vx b) || Js.notNull (Bullet.vy b) then
    let ticks := elapsed / SERVER_TICK_MS in
    Bullet.with_pos (Bullet.x b + (Bullet.vx b ?? 0) * ticks)
                    (Bullet.y b + (Bullet.vy b ?? (- BULLET_SPEED)) * ticks) b
  else Bullet.with_y (Bullet.y b - PX_PER_MS_BULLET * elapsed) b.

(** [getInterpolatedState()], called at time [now].  [prev === next] compares
    object identity: two entries of the buffer are the same object only when
    the search found no pair and the buffer holds a single entry. *)
Definition getInterpolatedState (now : R) (buf : list Buffered.t)
    : option State.t :=
  match buf with
  | [] => None
  | first :: _ =>
      let renderTime := now - INTERP_DELAY_MS in
      let latest := last buf first in
      let state :=
        match findBracket renderTime buf with
        | Some (prev, next) =>
            let dt :=
              if Js.Reqb (Buffered.time next - Buffered.time prev) 0 then 1
              else Buffered.time next - Buffered.time prev in
            let alpha := Rmin 1 (Rmax 0 ((renderTime - Buffered.time prev) / dt)) in
            lerpState (Some (Buffered.state prev)) (Buffered.state next) alpha
        | None =>
            match buf with
            | [_] => Buffered.state first
            | _ =>
                let dt :=
                  if Js.Reqb (Buffered.time latest - Buffered.time first) 0 then 1
                  else Buffered.time latest - Buffered.time first in
                let alpha :=
                  Rmin 1 (Rmax 0 ((renderTime - Buffered.time first) / dt)) in
                lerpState (Some (Buffered.state first)) (Buffered.state latest) alpha
            end
        end in
      let elapsed := now - Buffered.time latest in
      Some (State.with_bullets
              (map (extrapolate elapsed) (State.bullets (Buffered.state latest)))
              state)
  end.

End Client.

(** ** Vocabulary of the properties *)

Import Server.

Section Vocabulary.
Local Open Scope R_scope.

(** A bullet that has no bounce left to spend: its flight is a straight line. *)
Definition notBouncing (b : Bullet.t) : Prop :=
  (Bullet.bouncesLeft b ?? 0 <= 0)%Z.

(** The wave is complete at the start of a tick: the game runs, lives are
    left, the spawn budget of the wave is spent and no ball is alive. *)
Definition waveComplete (g : Game.t) : Prop :=
  Game.gameStarted g = true /\ (0 < Game.lives g)%Z /\
  maxWeight (Game.wave g) <= Game.waveWeightSpawned g /\
  JsMap.size (Game.balls g) = 0%Z.

(** What happens to the server, in order: ticks and socket messages. *)
Inductive Event :=
  | Tick (env : Env.t)
  | Connect (now : Z)
  | StartGame (now pid : Z)
  | RestartGame (now pid : Z)
  | SelectCard (pid cardIndex : Z)
  | SendKeys (now pid : Z) (keys : Keys.t)
  | Disconnect (pid : Z).

Definition step (e : Event) (g : Game.t) : Game.t * list Emit :=
  match e with
  | Tick env => gameTick env g
  | Connect now => connection now g
  | StartGame now pid => startGame now pid g
  | RestartGame now pid => restartGame now pid g
  | SelectCard pid cardIndex => selectCard pid cardIndex g
  | SendKeys now pid keys => keysHandler now pid keys g
  | Disconnect pid => disconnect pid g
  end.

Definition run (es : list Event) (g : Game.t) : Game.t :=
  fold_left (fun g e => fst (step e g)) es g.

(** The test that ends card selection in a tick: every connected player has
    selected, or the deadline has elapsed. *)
Definition closes (env : Env.t) (g : Game.t) : bool :=
  allSelected g || timedOut env g.

(** Along [es] nobody restarts the game and no tick meets the closing test. *)
Fixpoint staysOpen (es : list Event) (g : Game.t) : Prop :=
  match es with
  | [] => True
  | e :: es' =>
      match e with
      | Tick env => closes env g = false
      | RestartGame _ _ => False
      | _ => True
      end /\ staysOpen es' (fst (step e g))
  end.

(** Where every connected player stands. *)
Definition positions (g : Game.t) : list (Z * (R * R)) :=
  map (fun kv => (fst kv, (Player.x (snd kv), Player.y (snd kv))))
      (Game.players g).

(** The card a [selectCard] request of player [pid] refers to, if any. *)
Definition offeredAt (g : Game.t) (pid cardIndex : Z) : option Card.t :=
  match JsMap.get (Game.players g) pid with
  | Some p =>
      match Player.offeredCards p with
      | Some offered => Js.index offered cardIndex
      | None => None
      end
  | None => None
  end.

(** Player [pid] has selected during the current offering. *)
Definition hasSelected (g : Game.t) (pid : Z) : bool :=
  match JsMap.get (Game.players g) pid with
  | Some p => Player.cardSelected p
  | None => false
  end.

(** The upgrade modifiers of a player who has just connected. *)
Definition atDefaults (p : Player.t) : Prop :=
  Player.criticalChance p = 0%Z /\ Player.pierceChance p = 0%Z /\
  Player.pusherChance p = 0%Z /\ Player.ignitionChance p = 0%Z /\
  Player.areaDamageLevel p = 0%Z /\ Player.meleeDamage p = 0%Z /\
  Player.bounceCount p = 0%Z /\ Player.bulletCount p = 1%Z /\
  Player.offeredCards p = None.

(** The state a reset leaves. *)
Definition freshGame (g : Game.t) : Prop :=
  Game.gamePhase g = playing /\ Game.wave g = 1%Z /\
  Game.lives g = INITIAL_LIVES /\
  Game.bullets g = JsMap.empty /\ Game.balls g = JsMap.empty /\
  forall p : Player.t, In p (JsMap.values (Game.players g)) -> atDefaults p.

(** The well-formedness of the map of balls: keys are distinct, and a ball
    is stored under its own id. *)
Definition keyed (m : JsMap.t Ball.t) : Prop :=
  NoDup (JsMap.keys m) /\ Forall (fun kv => Ball.id (snd kv) = fst kv) m.

(** [b.y += b.speed]. *)
Definition descend (b : Ball.t) : Ball.t :=
  Ball.with_y (Ball.y b + Ball.speed b) b.

(** The ball objects as the movement pass of the tick finds them: after the
    collisions and the burn damage of the tick. *)
Definition ballsBeforeFall (env : Env.t) (g : Game.t) : JsMap.t Ball.t :=
  let '(g1, coll) := bulletStep env (phaseStep env g) in
  fst (JsMap.forEachSt (burn (Game.tickCount g1)) (Game.balls g1)
         (Coll.toRemoveBalls coll)).

(** The balls that cross the bottom boundary in the tick, after their move. *)
Definition crossing (env : Env.t) (g : Game.t) : list Ball.t :=
  filter offBottom (map descend (JsMap.values (ballsBeforeFall env g))).

(** The shared lives when the movement pass of the tick is over, before
    [if (lives < 0) lives = 0]. *)
Definition livesBeforeClamp (env : Env.t) (g : Game.t) : Z :=
  let '(g1, coll) := bulletStep env (phaseStep env g) in
  let '(balls, rmBalls) :=
    JsMap.forEachSt (burn (Game.tickCount g1)) (Game.balls g1)
      (Coll.toRemoveBalls coll) in
  snd (snd (JsMap.forEachSt fall balls (rmBalls, Game.lives g1))).

(** An entity with id [k] is drawn at (x, y) among the rendered [out]. *)
Definition renderedAt {A : Type} `{Client.Entity A} (out : list A) (k : Z)
    (x y : R) : Prop :=
  exists e : A,
    In e out /\ Client.ent_id e = k /\ Client.ent_x e = x /\ Client.ent_y e = y.

(** The position of [r] within the span from [t0] to [t1], clamped to [0, 1]. *)
Definition fraction (t0 t1 r : R) : R := Rmin 1 (Rmax 0 ((r - t0) / (t1 - t0))).

(** The velocity per tick by which the client extrapolates a bullet: the
    known one, or the default "straight up". *)
Definition knownVx (b : Bullet.t) : R := Bullet.vx b ?? 0.
Definition knownVy (b : Bullet.t) : R := Bullet.vy b ?? (- Client.BULLET_SPEED).

(** The render at time [now] interpolates between the snapshots [s0] and
    [s1] of the buffer, and extrapolates the bullets of the newest one. *)
Definition reconciles (now : R) (buf : list Client.Buffered.t)
    (s0 s1 : Client.Buffered.t) : Prop :=
  let r := now - Client.INTERP_DELAY_MS in
  let t0 := Client.Buffered.time s0 in
  let t1 := Client.Buffered.time s1 in
  let latest := last buf s1 in
  let elapsed := now - Client.Buffered.time latest in
  exists st : Client.State.t,
    Client.getInterpolatedState now buf = Some st /\
    (forall p0 p1 : PlayerView.t,
        In p1 (Client.State.players (Client.Buffered.state s1)) ->
        Client.sameId (Client.State.players (Client.Buffered.state s0)) p1
        = Some p0 ->
        renderedAt (Client.State.players st) (PlayerView.id p1)
          (Client.lerp (PlayerView.x p0) (PlayerView.x p1) (fraction t0 t1 r))
          (Client.lerp (PlayerView.y p0) (PlayerView.y p1) (fraction t0 t1 r))) /\
    (forall b0 b1 : BallView.t,
        In b1 (Client.State.balls (Client.Buffered.state s1)) ->
        Client.sameId (Client.State.balls (Client.Buffered.state s0)) b1
        = Some b0 ->
        renderedAt (Client.State.balls st) (Ball.id (BallView.ball b1))
          (Client.lerp (Ball.x (BallView.ball b0)) (Ball.x (BallView.ball b1))
             (fraction t0 t1 r))
          (Client.lerp (Ball.y (BallView.ball b0)) (Ball.y (BallView.ball b1))
             (fraction t0 t1 r))) /\
    Client.State.bullets st
    = map (Client.extrapolate elapsed)
          (Client.State.bullets (Client.Buffered.state latest)) /\
    (forall b : Bullet.t,
        In b (Client.State.bullets (Client.Buffered.state latest)) ->
        Bullet.homing b = true -> Client.extrapolate elapsed b = b) /\
    (forall b : Bullet.t,
        In b (Client.State.bullets (Client.Buffered.state latest)) ->
        Bullet.homing b = false ->
        Client.extrapolate elapsed b
        = Bullet.with_pos
            (Bullet.x b + knownVx b * (elapsed / Client.SERVER_TICK_MS))
            (Bullet.y b + knownVy b * (elapsed / Client.SERVER_TICK_MS)) b).

End Vocabulary.

(** ** Sample states *)

Section Samples.
Local Open Scope R_scope.

(** An environment whose random draws are all 0 and whose clock reads 1000. *)
Definition calm : Env.t :=
  {| Env.random := fun _ => 0;
     Env.random_range := fun _ => conj (Rle_refl 0) Rlt_0_1;
     Env.nowEnter := 1000;
     Env.nowCheck := 1000 |}.

(** The same, read after the deadline of the sample card selection. *)
Definition late : Env.t :=
  {| Env.random := fun _ => 0;
     Env.random_range := fun _ => conj (Rle_refl 0) Rlt_0_1;
     Env.nowEnter := 20000;
     Env.nowCheck := 20000 |}.

(** One player has connected and started the game. *)
Definition started : Game.t :=
  fst (startGame 0 1 (fst (connection 0 Game.initial))).

(** The budget of wave 1 is spent and no ball is alive. *)
Definition waveDone : Game.t := Game.with_waveWeightSpawned 20 started.

(** The same, when the last ball of the wave has taken the last life. *)
Definition lastLifeLost : Game.t := Game.with_lives 0 waveDone.

(** A plain bullet fired straight up at a ball 300 px above it. *)
Definition sampleBullet : Bullet.t :=
  volleyBullet
    {| Player.id := 1; Player.x := 100; Player.y := 500;
       Player.criticalChance := 0; Player.pierceChance := 0;
       Player.areaDamageLevel := 0; Player.bulletCount := 1;
       Player.pusherChance := 0; Player.ignitionChance := 0;
       Player.meleeDamage := 0; Player.bounceCount := 0;
       Player.keys := Keys.none; Player.lastActivity := 0;
       Player.offeredCards := None; Player.cardSelected := false |}
    1 0 0 1.

(** The locals of the collision pass for that bullet. *)
Definition plainShot : Shot.t :=
  {| Shot.moveX := 0; Shot.moveY := - BULLET_SPEED; Shot.damage := BULLET_DAMAGE;
     Shot.criticalChance := 0; Shot.pierceChance := 0; Shot.areaLevel := 0;
     Shot.pusherChance := 0; Shot.ignitionChance := 0 |}.


(** The game is over. *)
Definition over : Game.t := Game.with_gamePhase gameOver lastLifeLost.

(** Card selection is open until clock reading 16000, and the player has
    three cards to choose from. *)
Definition selecting : Game.t :=
  Game.with_players
    (JsMap.update_all
       (fun p => Player.with_cardSelected false
                   (Player.with_offeredCards (Some (firstn 3 CARD_TYPES)) p))
       (Game.players waveDone))
    (Game.with_cardSelectionEndTime 16000
       (Game.with_gamePhase cardSelection waveDone)).

(** The only player has left during card selection. *)
Definition abandoned : Game.t := fst (disconnect 1 selecting).

(** A ball one step above the bottom boundary. *)
Definition sinker : Ball.t :=
  {| Ball.id := 1; Ball.x := 100; Ball.y := 1320; Ball.type := normal;
     Ball.hp := 20; Ball.maxHp := 20; Ball.speed := 7; Ball.radius := 44;
     Ball.burnEndTick := None |}.

(** The game is over and that ball is still falling. *)
Definition lastBall : Game.t := Game.with_balls [(1%Z, sinker)] over.

(** A player with one level of the melee upgrade, standing at the start
    position. *)
Definition brawler : Player.t :=
  {| Player.id := 1; Player.x := 360; Player.y := 1200;
     Player.criticalChance := 50; Player.pierceChance := 50;
     Player.areaDamageLevel := 2; Player.bulletCount := 1;
     Player.pusherChance := 50; Player.ignitionChance := 50;
     Player.meleeDamage := 1; Player.bounceCount := 0;
     Player.keys := Keys.none; Player.lastActivity := 0;
     Player.offeredCards := None; Player.cardSelected := false |}.

(** A ball right on top of that player. *)
Definition intruder : Ball.t :=
  {| Ball.id := 1; Ball.x := 360; Ball.y := 1200; Ball.type := normal;
     Ball.hp := 20; Ball.maxHp := 20; Ball.speed := 7; Ball.radius := 44;
     Ball.burnEndTick := None |}.

(** Tick 4 is about to run; the budget of wave 1 is spent. *)
Definition brawl : Game.t :=
  {| Game.players := [(1%Z, brawler)];
     Game.bullets := JsMap.empty;
     Game.balls := [(1%Z, intruder)];
     Game.nextPlayerId := 2; Game.nextBulletId := 1; Game.nextBallId := 2;
     Game.tickCount := 3; Game.gameStarted := true; Game.gamePhase := playing;
     Game.wave := 1; Game.waveWeightSpawned := 20; Game.lastSpawnTick := 0;
     Game.cardSelectionEndTime := 0; Game.lives := 10 |}.

(** The homing bullet that tick creates. *)
Definition brawlBullet : Bullet.t := homingBullet brawler intruder 1 2.

(** What [aim] computes for the sample homing bullet. *)
Definition brawlShot : Shot.t :=
  {| Shot.moveX :=
       (360 - 360) / (if Js.Reqb (Js.hypot (360 - 360) (1200 - 1200)) 0 then 1
                      else Js.hypot (360 - 360) (1200 - 1200)) * BULLET_SPEED;
     Shot.moveY :=
       (1200 - 1200) / (if Js.Reqb (Js.hypot (360 - 360) (1200 - 1200)) 0 then 1
                        else Js.hypot (360 - 360) (1200 - 1200)) * BULLET_SPEED;
     Shot.damage := 1;
     Shot.criticalChance := 0; Shot.pierceChance := 0; Shot.areaLevel := 0;
     Shot.pusherChance := 0; Shot.ignitionChance := 0 |}.

(** Three snapshots, received at times 0, 100 and 200: the player moves from
    x = 100 to x = 200 and on to x = 300, a plain bullet and a homing bullet
    are in flight. *)
Definition viewAt (x : R) : PlayerView.t :=
  {| PlayerView.id := 1; PlayerView.x := x; PlayerView.y := 1200;
     PlayerView.offeredCards := None; PlayerView.criticalChance := 0;
     PlayerView.pierceChance := 0; PlayerView.areaDamageLevel := 0;
     PlayerView.bulletCount := 1; PlayerView.pusherChance := 0;
     PlayerView.ignitionChance := 0; PlayerView.meleeDamage := 1;
     PlayerView.bounceCount := 0 |}.

Definition stateAt (x : R) : Client.State.t :=
  {| Client.State.gameStarted := true; Client.State.gamePhase := playing;
     Client.State.cardSelectionEndTime := 0;
     Client.State.players := [viewAt x];
     Client.State.bullets := [volleyBullet brawler 1 0 0 1; brawlBullet];
     Client.State.balls := [viewBall 4 intruder];
     Client.State.areaDamageHits := []; Client.State.bulletHits := [];
     Client.State.lives := 10 |}.

Definition snapA : Client.Buffered.t :=
  {| Client.Buffered.time := 0; Client.Buffered.state := stateAt 100 |}.
Definition snapB : Client.Buffered.t :=
  {| Client.Buffered.time := 100; Client.Buffered.state := stateAt 200 |}.
Definition snapC : Client.Buffered.t :=
  {| Client.Buffered.time := 200; Client.Buffered.state := stateAt 300 |}.

(** A snapshot received at the same clock reading as [snapB], before it, in
    which the player is still at x = 100. *)
Definition tied : Client.Buffered.t :=
  {| Client.Buffered.time := 100; Client.Buffered.state := stateAt 100 |}.

(** A fourth snapshot, received at time 300: the player is back at x = 100. *)
Definition snapD : Client.Buffered.t :=
  {| Client.Buffered.time := 300; Client.Buffered.state := stateAt 100 |}.

End Samples.

(** ** Vocabulary of the further properties *)

Section FurtherVocabulary.
Local Open Scope R_scope.

(** The spent weight stays within the budget of the wave, up to the weight
    of the last ball spawned. *)
Definition budgetBounded (g : Game.t) : Prop :=
  0 <= Game.waveWeightSpawned g < maxWeight (Game.wave g) + 2.

(** The centre of the player keeps the player's radius away from every wall
    of the room. *)
Definition inRoom (p : Player.t) : Prop :=
  PLAYER_RADIUS <= Player.x p <= ROOM_WIDTH - PLAYER_RADIUS /\
  PLAYER_RADIUS <= Player.y p <= ROOM_HEIGHT - PLAYER_RADIUS.

(** [v] lies outside the span from [lo] to [hi]: on that axis the moved
    bullet has crossed an edge of the room. *)
Definition beyond (lo hi v : R) : bool := Js.Rltb v lo || Js.Rltb hi v.

(** On how many axes the moved position (x, y) of a bullet has crossed an
    edge of the room. *)
Definition edgesCrossed (x y : R) : Z :=
  ((if beyond BULLET_RADIUS (ROOM_WIDTH - BULLET_RADIUS) x then 1 else 0)
   + (if beyond BULLET_RADIUS (ROOM_HEIGHT - BULLET_RADIUS) y then 1 else 0))%Z.

(** [v] brought back between [lo] and [hi]. *)
Definition clampTo (lo hi v : R) : R := Rmin hi (Rmax lo v).

(** Every ball of the map has hit points left. *)
Definition alive (m : JsMap.t Ball.t) : Prop :=
  Forall (fun kv => 0 < Ball.hp (snd kv)) m.

(** Every ball without hit points left is pending removal. *)
Definition deadFlagged (m : JsMap.t Ball.t) (rm : JsSet.t) : Prop :=
  Forall (fun kv => Ball.hp (snd kv) <= 0 -> In (Ball.id (snd kv)) rm) m.

(** The ids of a map were issued by its counter: keys are distinct, every
    object is stored under its own id, and every id is at least 1 and below
    the next id to issue. *)
Definition issued {V : Type} (idOf : V -> Z) (next : Z) (m : JsMap.t V) : Prop :=
  (1 <= next)%Z /\ NoDup (JsMap.keys m) /\
  Forall (fun kv => idOf (snd kv) = fst kv /\ (1 <= fst kv < next)%Z) m.

(** The keys of a map with the ids of the objects stored under them. *)
Definition idTable {V : Type} (idOf : V -> Z) (m : JsMap.t V) : list (Z * Z) :=
  map (fun kv => (fst kv, idOf (snd kv))) m.

(** The three maps of the game hold ids issued by their counters, and no
    ball without hit points. *)
Definition wellFormed (g : Game.t) : Prop :=
  issued Player.id (Game.nextPlayerId g) (Game.players g) /\
  issued Bullet.id (Game.nextBulletId g) (Game.bullets g) /\
  issued Ball.id (Game.nextBallId g) (Game.balls g) /\
  alive (Game.balls g).

(** A homing bullet names a target, and the id of that target was issued. *)
Definition namesIssuedTarget (next : Z) (b : Bullet.t) : Prop :=
  Bullet.homing b = true ->
  exists t, Bullet.targetBallId b = Some t /\ (t < next)%Z.

(** Every bullet of the game does. *)
Definition targetsIssued (g : Game.t) : Prop :=
  Forall (namesIssuedTarget (Game.nextBallId g)) (JsMap.values (Game.bullets g)).

(** The outcome of the draws of one hit of a bullet that is not homing, read
    at the cursor [c]. *)
Definition drawsCritical (rnd : nat -> R) (c : nat) (shot : Shot.t) : bool :=
  Js.Rltb (rnd c * 100) (IZR (Shot.criticalChance shot)).
Definition drawsPush (rnd : nat -> R) (c : nat) (shot : Shot.t) : bool :=
  Js.Rltb (rnd (S c) * 100) (IZR (Shot.pusherChance shot)).
Definition drawsIgnition (rnd : nat -> R) (c : nat) (shot : Shot.t) : bool :=
  (0 <? Shot.ignitionChance shot)%Z
  && Js.Rltb (rnd (S (S c)) * 100) (IZR (Shot.ignitionChance shot)).
(** The cursor of the pierce draw: the ignition draw is made only at a
    positive ignition chance. *)
Definition pierceCursor (c : nat) (shot : Shot.t) : nat :=
  if (0 <? Shot.ignitionChance shot)%Z then S (S (S c)) else S (S c).
Definition drawsPierce (rnd : nat -> R) (c : nat) (shot : Shot.t) : bool :=
  negb (Js.Rleb (IZR (Shot.pierceChance shot)) (rnd (pierceCursor c shot) * 100)).

(** The hit ball after the hit. *)
Definition struck (tick : Z) (rnd : nat -> R) (c : nat) (shot : Shot.t)
    (ball : Ball.t) : Ball.t :=
  {| Ball.id := Ball.id ball;
     Ball.x := Ball.x ball;
     Ball.y := if drawsPush rnd c shot then Ball.y ball - PUSHER_STRENGTH
               else Ball.y ball;
     Ball.type := Ball.type ball;
     Ball.hp := Ball.hp ball
                - (if drawsCritical rnd c shot then Shot.damage shot * 2
                   else Shot.damage shot);
     Ball.maxHp := Ball.maxHp ball;
     Ball.speed := Ball.speed ball;
     Ball.radius := Ball.radius ball;
     Ball.burnEndTick := if drawsIgnition rnd c shot
                         then Some (tick + BURN_DURATION_TICKS)%Z
                         else Ball.burnEndTick ball |}.

(** [BULLET_DAMAGE * 0.1 * Math.pow(1.1, areaLevel - 1)]. *)
Definition areaDamageAt (level : Z) : R :=
  BULLET_DAMAGE * 0.1 * Js.pow 1.1 (level - 1).

(** The distance from a player to the centre of a ball. *)
Definition distanceTo (p : Player.t) (b : Ball.t) : R :=
  Js.hypot (Ball.x b - Player.x p) (Ball.y b - Player.y p).

(** The player has an open offer of three cards of the catalogue. *)
Definition offeredThree (p : Player.t) : Prop :=
  exists l : list Card.t,
    Player.offeredCards p = Some l /\ List.length l = 3%nat /\
    Forall (fun c => In c CARD_TYPES) l /\ Player.cardSelected p = false.

(** The upgrade levels of a player, and what a card adds to them and to the
    shared lives. *)
Definition modifiers (p : Player.t) : list Z :=
  [Player.criticalChance p; Player.pierceChance p; Player.areaDamageLevel p;
   Player.bulletCount p; Player.pusherChance p; Player.ignitionChance p;
   Player.meleeDamage p; Player.bounceCount p].

Definition cardBonus (c : CardId) : list Z :=
  match c with
  | critical =>      [10; 0; 0; 0; 0; 0; 0; 0]
  | piercing =>      [0; 10; 0; 0; 0; 0; 0; 0]
  | areaDamage =>    [0; 0; 1; 0; 0; 0; 0; 0]
  | bulletCount =>   [0; 0; 0; 1; 0; 0; 0; 0]
  | pusher =>        [0; 0; 0; 0; 5; 0; 0; 0]
  | extraLife =>     [0; 0; 0; 0; 0; 0; 0; 0]
  | ignition =>      [0; 0; 0; 0; 0; 1; 0; 0]
  | melee =>         [0; 0; 0; 0; 0; 0; 1; 0]
  | bouncyBullets => [0; 0; 0; 0; 0; 0; 0; 1]
  end%Z.

Definition lifeBonus (c : CardId) : Z :=
  match c with extraLife => 1 | _ => 0 end.

Fixpoint addLevels (l b : list Z) : list Z :=
  match l, b with
  | x :: l', y :: b' => (x + y)%Z :: addLevels l' b'
  | _, _ => []
  end.

(** No [restartGame] message arrives along [es]. *)
Definition noRestart (es : list Event) : Prop :=
  Forall (fun e => match e with RestartGame _ _ => False | _ => True end) es.

(** The buffer entry made of a state message received at time [now]. *)
Definition received (now : R) (msg : Snapshot.t) : Client.Buffered.t :=
  {| Client.Buffered.time := now;
     Client.Buffered.state :=
       {| Client.State.gameStarted := Snapshot.gameStarted msg;
          Client.State.gamePhase := Snapshot.gamePhase msg;
          Client.State.cardSelectionEndTime := Snapshot.cardSelectionEndTime msg;
          Client.State.players := Snapshot.players msg;
          Client.State.bullets := Snapshot.bullets msg;
          Client.State.balls := Snapshot.balls msg;
          Client.State.areaDamageHits := Snapshot.areaDamageHits msg;
          Client.State.bulletHits := Snapshot.bulletHits msg;
          Client.State.lives := Snapshot.lives msg |} |}.

(** Receipt times increase along the buffer. *)
Definition increasing (buf : list Client.Buffered.t) : Prop :=
  StronglySorted Rlt (map Client.Buffered.time buf).

End FurtherVocabulary.

(** ** Further sample states *)

Section FurtherSamples.
Local Open Scope R_scope.

(** The sample player, firing volleys of three bullets. *)
Definition tripleShooter : Player.t := Player.with_bulletCount 3 brawler.

(** A bouncy bullet flying into the top left corner of the room, with two
    bounces left. *)
Definition bouncer : Bullet.t :=
  {| Bullet.id := 7; Bullet.x := 10; Bullet.y := 30;
     Bullet.ownerId := Some 1%Z; Bullet.radius := BULLET_RADIUS;
     Bullet.vx := Some (-10); Bullet.vy := Some (- BULLET_SPEED);
     Bullet.bouncesLeft := Some 2%Z; Bullet.homing := false;
     Bullet.targetBallId := None; Bullet.damage := None;
     Bullet._moveX := Some (-10); Bullet._moveY := Some (- BULLET_SPEED) |}.

(** The homing bullet of the sample player at the sample ball. *)
Definition orphan : Bullet.t := homingBullet brawler intruder 1 1.

(** Tick 6 is about to run; that bullet is in flight and its target is gone. *)
Definition orphaned : Game.t :=
  {| Game.players := [(1%Z, brawler)];
     Game.bullets := [(1%Z, orphan)];
     Game.balls := JsMap.empty;
     Game.nextPlayerId := 2; Game.nextBulletId := 2; Game.nextBallId := 2;
     Game.tickCount := 5; Game.gameStarted := true; Game.gamePhase := playing;
     Game.wave := 1; Game.waveWeightSpawned := 20; Game.lastSpawnTick := 0;
     Game.cardSelectionEndTime := 0; Game.lives := 10 |}.

(** The player of the sample card selection. *)
Definition chooser : Player.t := JsMap.get (Game.players selecting) 1 ?? brawler.

(** The first card of the catalogue. *)
Definition criticalCard : Card.t :=
  {| Card.id := critical; Card.name := "Critical +10%";
     Card.desc := "10% chance for 2x damage" |}.

(** The state message of the sample game. *)
Definition sampleMsg : Snapshot.t := snapshot started [] [].

(** A second ball, 40 px to the right of the sample ball. *)
Definition bystander : Ball.t :=
  {| Ball.id := 2; Ball.x := 400; Ball.y := 1200; Ball.type := normal;
     Ball.hp := 20; Ball.maxHp := 20; Ball.speed := 7; Ball.radius := 44;
     Ball.burnEndTick := None |}.

(** The variables of the collision pass over these two balls. *)
Definition crowd : Coll.t := Coll.init [(1%Z, intruder); (2%Z, bystander)] 0.

(** The locals of a piercing shot with one level of the area upgrade. *)
Definition blastShot : Shot.t :=
  {| Shot.moveX := 0; Shot.moveY := - BULLET_SPEED; Shot.damage := BULLET_DAMAGE;
     Shot.criticalChance := 0; Shot.pierceChance := 100; Shot.areaLevel := 1;
     Shot.pusherChance := 0; Shot.ignitionChance := 0 |}.

End FurtherSamples.

(* ================================================================== *)
(** * Part II: properties *)
(* ================================================================== *)

(** ** Numbers *)

Section Numbers.
Local Open Scope R_scope.

(** The boolean comparisons decide the order of the reals. *)
Lemma Rleb_true (a b : R) : Js.Rleb a b = true <-> a <= b.
Proof.
  unfold Js.Rleb. destruct (Rle_dec a b); split; intros; auto; discriminate.
Qed.

Lemma Rleb_false (a b : R) : Js.Rleb a b = false <-> b < a.
Proof.
  unfold Js.Rleb. destruct (Rle_dec a b); split; intros; auto;
    try discriminate; lra.
Qed.

Lemma Rltb_true (a b : R) : Js.Rltb a b = true <-> a < b.
Proof.
  unfold Js.Rltb. destruct (Rlt_dec a b); split; intros; auto; discriminate.
Qed.

Lemma Rltb_false (a b : R) : Js.Rltb a b = false <-> b <= a.
Proof.
  unfold Js.Rltb. destruct (Rlt_dec a b); split; intros; auto;
    try discriminate; lra.
Qed.

Lemma Reqb_true (a b : R) : Js.Reqb a b = true <-> a = b.
Proof.
  unfold Js.Reqb. destruct (Req_dec_T a b); split; intros; auto; discriminate.
Qed.

Lemma Reqb_false (a b : R) : Js.Reqb a b = false <-> a <> b.
Proof.
  unfold Js.Reqb. destruct (Req_dec_T a b); split; intros; auto;
    try discriminate; contradiction.
Qed.

Lemma Rltb_Rleb (a b : R) : Js.Rltb a b = negb (Js.Rleb b a).
Proof.
  destruct (Js.Rleb b a) eqn:E; simpl.
  - apply Rltb_false. now apply Rleb_true.
  - apply Rltb_true. now apply Rleb_false.
Qed.


Lemma hypot_0_0 : Js.hypot 0 0 = 0.
Proof.
  unfold Js.hypot. replace (0 * 0 + 0 * 0) with 0 by ring. apply sqrt_0.
Qed.

Lemma hypot_mono (a b c d : R) :
  a * a + b * b <= c * c + d * d -> Js.hypot a b <= Js.hypot c d.
Proof. intros. now apply sqrt_le_1_alt. Qed.

Lemma hypot_scale (s a b : R) :
  0 <= s -> Js.hypot (s * a) (s * b) = s * Js.hypot a b.
Proof.
  intros Hs. unfold Js.hypot.
  replace (s * a * (s * a) + s * b * (s * b)) with ((s * s) * (a * a + b * b))
    by ring.
  rewrite sqrt_mult_alt by nra. now rewrite sqrt_square.
Qed.

Lemma hypot_unit (a b : R) : a * a + b * b = 1 -> Js.hypot a b = 1.
Proof. intros H. unfold Js.hypot. rewrite H. apply sqrt_1. Qed.


Lemma floor_bounds (r : R) : IZR (Js.floor r) <= r < IZR (Js.floor r) + 1.
Proof. unfold Js.floor. destruct (base_Int_part r). lra. Qed.

(** A draw of [Math.random] always selects a card of the catalog. *)
Lemma drawCard_catalog (env : Env.t) (n : nat) :
  In (drawCard (Env.random env n)) CARD_TYPES.
Proof.
  pose proof (Env.random_range env n) as [H0 H1].
  unfold drawCard. apply nth_In.
  change (List.length CARD_TYPES) with 9%nat.
  replace (INR 9) with 9 by (simpl; ring).
  pose proof (floor_bounds (Env.random env n * 9)) as [F0 F1].
  assert (Hlo : (0 <= Js.floor (Env.random env n * 9))%Z).
  { apply Z.lt_succ_r. apply lt_IZR. rewrite succ_IZR. lra. }
  assert (Hhi : (Js.floor (Env.random env n * 9) < 9)%Z).
  { apply lt_IZR. lra. }
  lia.
Qed.

End Numbers.

(** [holds c] and [fails c] settle a comparison of reals [c] whose outcome
    follows from the context by linear arithmetic. *)
Ltac holds c :=
  replace c with true
    by (symmetry;
        first [apply Rleb_true | apply Rltb_true | apply Reqb_true]; lra).
Ltac fails c :=
  replace c with false
    by (symmetry;
        first [apply Rleb_false | apply Rltb_false | apply Reqb_false]; lra).

(** ** Maps and sets *)

Section MapFacts.
Context {V : Type}.

(** Mutating values in place leaves the keys as they are. *)
Lemma keys_update (m : JsMap.t V) (k : Z) (f : V -> V) :
  JsMap.keys (JsMap.update m k f) = JsMap.keys m.
Proof.
  unfold JsMap.keys, JsMap.update. rewrite map_map. apply map_ext.
  intros [k' v]. cbn. now destruct (k' =? k)%Z.
Qed.

Lemma keys_forEachSt {S : Type} (f : V -> S -> V * S) (m : JsMap.t V) (s : S) :
  JsMap.keys (fst (JsMap.forEachSt f m s)) = JsMap.keys m.
Proof.
  revert s. induction m as [|[k v] m IH]; intros s; [reflexivity|].
  cbn [JsMap.forEachSt]. destruct (f v s) as [v' s1].
  specialize (IH s1). destruct (JsMap.forEachSt f m s1) as [m' s2].
  cbn in *. now rewrite IH.
Qed.

(** An invariant of the enclosing variables survives a [forEach]. *)
Lemma forEachSt_inv {S : Type} (P : S -> Prop) (f : V -> S -> V * S)
    (m : JsMap.t V) (s : S) :
  (forall v s, P s -> P (snd (f v s))) -> P s ->
  P (snd (JsMap.forEachSt f m s)).
Proof.
  intros Hf. revert s. induction m as [|[k v] m IH]; intros s Hs; [exact Hs|].
  cbn [JsMap.forEachSt]. pose proof (Hf v s Hs) as H1.
  destruct (f v s) as [v' s1]. specialize (IH s1 H1).
  destruct (JsMap.forEachSt f m s1) as [m' s2]. exact IH.
Qed.

(** Deleting removes keys and entries, and adds none. *)
Lemma keys_delete_incl (m : JsMap.t V) (k : Z) :
  incl (JsMap.keys (JsMap.delete m k)) (JsMap.keys m).
Proof.
  induction m as [|[k' v] m IH]; cbn; [apply incl_refl|].
  destruct (k =? k')%Z.
  - apply incl_tl, incl_refl.
  - cbn. intros x [Hx|Hx]; [now left|right; now apply IH].
Qed.

Lemma NoDup_delete (m : JsMap.t V) (k : Z) :
  NoDup (JsMap.keys m) -> NoDup (JsMap.keys (JsMap.delete m k)).
Proof.
  induction m as [|[k' v] m IH]; cbn; intros H; [constructor|].
  inversion H as [|? ? Hn Hd]; subst.
  destruct (k =? k')%Z; [exact Hd|]. cbn. constructor.
  - intros Hin. apply Hn. now apply (keys_delete_incl m k).
  - now apply IH.
Qed.

(** [get] finds exactly the keys of the map. *)
Lemma get_None_keys (m : JsMap.t V) (k : Z) :
  JsMap.get m k = None <-> ~ In k (JsMap.keys m).
Proof.
  induction m as [|[k' v] m IH]; cbn; [tauto|].
  destruct (k =? k')%Z eqn:E.
  - apply Z.eqb_eq in E. subst. split; [discriminate|]. intros H. elim H. now left.
  - apply Z.eqb_neq in E. rewrite IH. split.
    + intros H [H1|H1]; [congruence|contradiction].
    + intros H H1. apply H. now right.
Qed.

Lemma get_delete_same (m : JsMap.t V) (k : Z) :
  NoDup (JsMap.keys m) -> JsMap.get (JsMap.delete m k) k = None.
Proof.
  induction m as [|[k' v] m IH]; cbn; intros H; [reflexivity|].
  inversion H as [|? ? Hn Hd]; subst.
  destruct (k =? k')%Z eqn:E.
  - apply Z.eqb_eq in E. subst. now apply get_None_keys.
  - cbn. rewrite E. now apply IH.
Qed.

Lemma get_delete_None (m : JsMap.t V) (k k' : Z) :
  JsMap.get m k = None -> JsMap.get (JsMap.delete m k') k = None.
Proof.
  rewrite !get_None_keys. intros H Hin. apply H.
  now apply (keys_delete_incl m k').
Qed.

Lemma NoDup_delete_all (ids : list Z) (m : JsMap.t V) :
  NoDup (JsMap.keys m) -> NoDup (JsMap.keys (JsMap.delete_all m ids)).
Proof.
  unfold JsMap.delete_all. revert m.
  induction ids as [|i ids IH]; intros m H; [exact H|].
  cbn. apply IH. now apply NoDup_delete.
Qed.

Lemma keys_delete_all_incl (ids : list Z) (m : JsMap.t V) :
  incl (JsMap.keys (JsMap.delete_all m ids)) (JsMap.keys m).
Proof.
  unfold JsMap.delete_all. revert m.
  induction ids as [|i ids IH]; intros m; [apply incl_refl|].
  cbn. eapply incl_tran; [apply IH|apply keys_delete_incl].
Qed.

(** After [ids.forEach(id => m.delete(id))] none of [ids] is in the map. *)
Lemma get_delete_all (ids : list Z) (m : JsMap.t V) (k : Z) :
  NoDup (JsMap.keys m) -> In k ids ->
  JsMap.get (JsMap.delete_all m ids) k = None.
Proof.
  unfold JsMap.delete_all. revert m.
  induction ids as [|i ids IH]; intros m Hd Hin; [contradiction|].
  cbn. destruct (Z.eq_dec i k) as [->|Hne].
  - apply get_None_keys. intros Hk.
    apply (keys_delete_all_incl ids (JsMap.delete m k)) in Hk.
    apply get_None_keys in Hk; [exact Hk|]. now apply get_delete_same.
  - destruct Hin as [Hin|Hin]; [congruence|].
    apply IH; [now apply NoDup_delete|exact Hin].
Qed.

Lemma In_values_get (m : JsMap.t V) (k : Z) (v : V) :
  In (k, v) m -> JsMap.get m k <> None.
Proof.
  intros Hin H. apply get_None_keys in H. apply H.
  unfold JsMap.keys. apply in_map_iff. now exists (k, v).
Qed.

Lemma delete_incl (m : JsMap.t V) (k : Z) : incl (JsMap.delete m k) m.
Proof.
  induction m as [|[k' v] m IH]; cbn; [apply incl_refl|].
  destruct (k =? k')%Z.
  - apply incl_tl, incl_refl.
  - intros x [Hx|Hx]; [now left|right; now apply IH].
Qed.

Lemma delete_all_incl (ids : list Z) (m : JsMap.t V) :
  incl (JsMap.delete_all m ids) m.
Proof.
  unfold JsMap.delete_all. revert m.
  induction ids as [|i ids IH]; intros m; [apply incl_refl|].
  cbn. eapply incl_tran; [apply IH|apply delete_incl].
Qed.

End MapFacts.

(** [set] leaves a non-empty map, with no key that was not there but [k]. *)
Lemma size_set_pos {V : Type} (m : JsMap.t V) (k : Z) (v : V) :
  (0 < JsMap.size (JsMap.set m k v))%Z.
Proof.
  unfold JsMap.size. destruct m as [|[k' v'] m']; cbn [JsMap.set].
  - cbn. lia.
  - destruct (k =? k')%Z; cbn [List.length]; lia.
Qed.

Lemma keys_set_In {V : Type} (m : JsMap.t V) (k x : Z) (v : V) :
  In x (JsMap.keys (JsMap.set m k v)) -> x = k \/ In x (JsMap.keys m).
Proof.
  induction m as [|[k' v'] m IH]; cbn.
  - intros [H|[]]. now left.
  - destruct (k =? k')%Z eqn:E; cbn.
    + apply Z.eqb_eq in E. intros [H|H]; [left; congruence|right; now right].
    + intros [H|H]; [right; now left|].
      destruct (IH H) as [H1|H1]; [now left|right; now right].
Qed.

Lemma In_values_set {V : Type} (m : JsMap.t V) (k : Z) (v x : V) :
  In x (JsMap.values (JsMap.set m k v)) -> x = v \/ In x (JsMap.values m).
Proof.
  induction m as [|[k' v'] m IH]; cbn.
  - intros [H|[]]. now left.
  - destruct (k =? k')%Z; cbn.
    + intros [H|H]; [now left|right; now right].
    + intros [H|H]; [right; now left|].
      destruct (IH H) as [H1|H1]; [now left|right; now right].
Qed.

Lemma get_update_same {V : Type} (m : JsMap.t V) (k : Z) (v0 v : V) :
  JsMap.get m k = Some v0 -> JsMap.get (JsMap.update m k (fun _ => v)) k = Some v.
Proof.
  induction m as [|[k' v'] m IH]; cbn; [discriminate|].
  destruct (k =? k')%Z eqn:E.
  - intros _. rewrite Z.eqb_sym, E. cbn. now rewrite E.
  - intros H. rewrite Z.eqb_sym, E. cbn. rewrite E. now apply IH.
Qed.

(** Membership in a set of ids. *)
Lemma has_In (s : JsSet.t) (k : Z) : JsSet.has s k = true <-> In k s.
Proof.
  unfold JsSet.has. rewrite existsb_exists. split.
  - intros [x [Hx E]]. apply Z.eqb_eq in E. now subst.
  - intros H. exists k. split; [exact H|apply Z.eqb_refl].
Qed.

Lemma In_add (s : JsSet.t) (k k' : Z) :
  In k' (JsSet.add s k) <-> In k' s \/ k' = k.
Proof.
  unfold JsSet.add. destruct (JsSet.has s k) eqn:E.
  - apply has_In in E. split; [tauto|]. intros [H| ->]; assumption.
  - rewrite in_app_iff. cbn. intuition congruence.
Qed.

Lemma fold_left_ext {A B : Type} (f g : A -> B -> A) (l : list B) (a : A) :
  (forall x y, f x y = g x y) -> fold_left f l a = fold_left g l a.
Proof.
  intros H. revert a. induction l as [|y l IH]; intros a; [reflexivity|].
  cbn. rewrite H. apply IH.
Qed.

Lemma last_default {A : Type} (l : list A) (d d' : A) :
  l <> [] -> last l d = last l d'.
Proof.
  induction l as [|x l IH]; [congruence|]. intros _.
  destruct l as [|y l]; [reflexivity|].
  cbn [last]. apply IH. discriminate.
Qed.

(** ** The swept collision test *)

Section Collision.
Local Open Scope R_scope.


(** No point of the segment is nearer to (px, py) than the clamped projection. *)
Lemma pointToSegmentDist_minimal (px py x1 y1 x2 y2 t : R) :
  0 <= t <= 1 ->
  pointToSegmentDist px py x1 y1 x2 y2
  <= Js.hypot (px - (x1 + t * (x2 - x1))) (py - (y1 + t * (y2 - y1))).
Proof.
  intros Ht. unfold pointToSegmentDist.
  set (dx := x2 - x1). set (dy := y2 - y1).
  destruct (Js.Reqb (dx * dx + dy * dy) 0) eqn:E.
  - apply Reqb_true in E.
    assert (dx = 0) by nra. assert (dy = 0) by nra.
    apply hypot_mono. rewrite H, H0. nra.
  - apply Reqb_false in E.
    set (L := dx * dx + dy * dy) in *.
    assert (HL : 0 < L) by (unfold L in *; nra).
    set (t0 := ((px - x1) * dx + (py - y1) * dy) / L).
    assert (Ht0 : t0 * L = (px - x1) * dx + (py - y1) * dy)
      by (unfold t0; field; lra).
    set (u := px - x1) in *. set (v := py - y1) in *.
    apply hypot_mono.
    set (tc := Rmax 0 (Rmin 1 t0)).
    replace (px - (x1 + tc * dx)) with (u - tc * dx) by (unfold u; ring).
    replace (py - (y1 + tc * dy)) with (v - tc * dy) by (unfold v; ring).
    replace (px - (x1 + t * dx)) with (u - t * dx) by (unfold u; ring).
    replace (py - (y1 + t * dy)) with (v - t * dy) by (unfold v; ring).
    assert (Hkey : (u - t * dx) * (u - t * dx) + (v - t * dy) * (v - t * dy)
                   - ((u - tc * dx) * (u - tc * dx) + (v - tc * dy) * (v - tc * dy))
                   = L * ((t - tc) * (t + tc - 2 * t0))).
    { transitivity (L * (t * t - tc * tc) - 2 * (t - tc) * (u * dx + v * dy)).
      - unfold L. ring.
      - rewrite <- Ht0. ring. }
    assert (0 <= (t - tc) * (t + tc - 2 * t0)).
    { unfold tc, Rmax, Rmin.
      destruct (Rle_dec 1 t0).
      - destruct (Rle_dec 0 1); [|lra].
        replace ((t - 1) * (t + 1 - 2 * t0)) with ((1 - t) * (2 * t0 - 1 - t)) by ring.
        apply Rmult_le_pos; lra.
      - destruct (Rle_dec 0 t0).
        + replace ((t - t0) * (t + t0 - 2 * t0)) with ((t - t0) * (t - t0)) by ring.
          apply (Rle_0_sqr (t - t0)).
        + replace ((t - 0) * (t + 0 - 2 * t0)) with (t * (t - 2 * t0)) by ring.
          apply Rmult_le_pos; lra. }
    assert (0 <= L * ((t - tc) * (t + tc - 2 * t0))) by (apply Rmult_le_pos; lra).
    lra.
Qed.

(** The distance computed is the distance to a point of the segment. *)
Lemma pointToSegmentDist_attained (px py x1 y1 x2 y2 : R) :
  exists t : R,
    0 <= t <= 1 /\
    pointToSegmentDist px py x1 y1 x2 y2
    = Js.hypot (px - (x1 + t * (x2 - x1))) (py - (y1 + t * (y2 - y1))).
Proof.
  unfold pointToSegmentDist.
  destruct (Js.Reqb _ 0) eqn:E.
  - exists 0. split; [lra|]. f_equal; ring.
  - exists (Rmax 0 (Rmin 1
              (((px - x1) * (x2 - x1) + (py - y1) * (y2 - y1))
               / ((x2 - x1) * (x2 - x1) + (y2 - y1) * (y2 - y1))))).
    split; [|reflexivity].
    split.
    + apply Rmax_l.
    + apply Rmax_lub; [lra|apply Rmin_l].
Qed.

(** The swept test decides whether the segment of the movement comes
    within the sum of the radii of the centre of the ball. *)
Lemma bulletHitsBall_within (bullet : Bullet.t) (ball : Ball.t) (mx my : R) :
  bulletHitsBall bullet ball mx my = true <->
  withinOfSegment (Ball.x ball) (Ball.y ball)
    (Bullet.x bullet) (Bullet.y bullet)
    (Bullet.x bullet + mx) (Bullet.y bullet + my)
    (Bullet.radius bullet + Ball.radius ball).
Proof.
  unfold bulletHitsBall, withinOfSegment. rewrite Rleb_true. split.
  - intros H.
    destruct (pointToSegmentDist_attained (Ball.x ball) (Ball.y ball)
                (Bullet.x bullet) (Bullet.y bullet)
                (Bullet.x bullet + mx) (Bullet.y bullet + my)) as [t [Ht Heq]].
    exists t. split; [exact Ht|]. now rewrite <- Heq.
  - intros [t [Ht H]].
    eapply Rle_trans; [|exact H].
    now apply pointToSegmentDist_minimal.
Qed.


(** A bullet without bounces to spend moves by (mx, my) per tick and keeps
    its radius. *)
Lemma tickBullet_plain (mx my : R) (b : Bullet.t) :
  notBouncing b ->
  Bullet.x (tickBullet mx my b) = Bullet.x b + mx /\
  Bullet.y (tickBullet mx my b) = Bullet.y b + my /\
  Bullet.radius (tickBullet mx my b) = Bullet.radius b /\
  Bullet.bouncesLeft (tickBullet mx my b) = Bullet.bouncesLeft b.
Proof.
  unfold notBouncing, tickBullet, moveBullet. intros H. cbn.
  destruct (negb (Bullet.homing b) && _); cbn;
    (destruct (0 <? Bullet.bouncesLeft b ?? 0)%Z eqn:E;
      [apply Z.ltb_lt in E; lia | cbn; repeat split; reflexivity]).
Qed.

Lemma ticksBullet_plain (n : nat) (mx my : R) (b : Bullet.t) :
  notBouncing b ->
  Bullet.x (ticksBullet n mx my b) = Bullet.x b + INR n * mx /\
  Bullet.y (ticksBullet n mx my b) = Bullet.y b + INR n * my /\
  Bullet.radius (ticksBullet n mx my b) = Bullet.radius b.
Proof.
  revert b. induction n as [|n IH]; intros b Hb.
  - cbn. repeat split; ring.
  - destruct (tickBullet_plain mx my b Hb) as (Hx & Hy & Hr & Hbl).
    assert (Hb' : notBouncing (tickBullet mx my b))
      by (unfold notBouncing in *; now rewrite Hbl).
    destruct (IH _ Hb') as (IHx & IHy & IHr).
    cbn [ticksBullet]. rewrite IHx, IHy, IHr, Hx, Hy, Hr, S_INR.
    repeat split; ring.
Qed.





End Collision.

(** ** The phases of a tick, and wave completion *)

Section WaveCompletion.
Local Open Scope R_scope.


(** What the bullet passes and the ball passes of a tick leave untouched. *)
Lemma bulletStep_frame (env : Env.t) (g : Game.t) (c : nat) :
  let g' := fst (bulletStep env (g, c)) in
  Game.players g' = Game.players g /\
  Game.gamePhase g' = Game.gamePhase g /\
  Game.wave g' = Game.wave g /\
  Game.waveWeightSpawned g' = Game.waveWeightSpawned g /\
  Game.lives g' = Game.lives g /\
  Game.tickCount g' = Game.tickCount g /\
  Game.gameStarted g' = Game.gameStarted g /\
  Game.cardSelectionEndTime g' = Game.cardSelectionEndTime g /\
  Game.balls g' = Coll.balls (snd (bulletStep env (g, c))).
Proof.
  unfold bulletStep.
  destruct (collide _ _ _ _ _) as [bs coll].
  destruct (JsMap.forEachSt moveBullet bs _) as [bs' rm].
  unfold spawnBullets. cbn.
  destruct (Game.gameStarted g && _ && _); cbn.
  - destruct (fold_left _ _ _) as [bs'' nid]. cbn. repeat split.
  - repeat split.
Qed.

Lemma ballStep_frame (g : Game.t) (coll : Coll.t) :
  let g' := ballStep (g, coll) in
  Game.players g' = Game.players g /\
  Game.bullets g' = Game.bullets g /\
  Game.gamePhase g' = Game.gamePhase g /\
  Game.wave g' = Game.wave g /\
  Game.waveWeightSpawned g' = Game.waveWeightSpawned g /\
  Game.tickCount g' = Game.tickCount g /\
  Game.gameStarted g' = Game.gameStarted g /\
  Game.cardSelectionEndTime g' = Game.cardSelectionEndTime g.
Proof.
  unfold ballStep.
  destruct (JsMap.forEachSt (burn _) _ _) as [bs rm].
  destruct (JsMap.forEachSt fall bs _) as [bs' [rm' lv]].
  cbn. repeat split.
Qed.

Lemma gameTick_frame (env : Env.t) (g : Game.t) :
  let g1 := fst (phaseStep env g) in
  let g' := fst (gameTick env g) in
  Game.players g' = Game.players g1 /\
  Game.gamePhase g' = Game.gamePhase g1 /\
  Game.wave g' = Game.wave g1 /\
  Game.waveWeightSpawned g' = Game.waveWeightSpawned g1 /\
  Game.tickCount g' = Game.tickCount g1 /\
  Game.gameStarted g' = Game.gameStarted g1 /\
  Game.cardSelectionEndTime g' = Game.cardSelectionEndTime g1.
Proof.
  unfold gameTick. destruct (phaseStep env g) as [g1 c].
  pose proof (bulletStep_frame env g1 c) as Hb.
  destruct (bulletStep env (g1, c)) as [g2 coll].
  pose proof (ballStep_frame g2 coll) as Ha.
  cbn in *.
  destruct Hb as (B1 & B2 & B3 & B4 & B5 & B6 & B7 & B8 & B9).
  destruct Ha as (A1 & A2 & A3 & A4 & A5 & A6 & A7 & A8).
  repeat split; congruence.
Qed.


(** Right after the offering nobody has selected: the test that all have
    selected holds only with no player connected. *)
Lemma offered_none_selected (rnd : nat -> R) (ps : JsMap.t Player.t) (c : nat) :
  forallb Player.cardSelected
    (JsMap.values (fst (JsMap.forEachSt (offerTo rnd) ps c)))
  = match ps with [] => true | _ => false end.
Proof.
  destruct ps as [|[k p] ps]; [reflexivity|].
  cbn [JsMap.forEachSt]. unfold offerTo at 1.
  destruct (offerLoop rnd 3 c []) as [offered c1].
  destruct (JsMap.forEachSt (offerTo rnd) ps c1) as [ps' c2].
  reflexivity.
Qed.

(** A spawn leaves at least one ball alive. *)
Lemma spawnBall_spec (rnd : nat -> R) (c : nat) (ty : option BallType)
    (g : Game.t) :
  let g' := snd (fst (spawnBall rnd c ty g)) in
  (0 < JsMap.size (Game.balls g'))%Z /\
  Game.gamePhase g' = Game.gamePhase g /\
  Game.waveWeightSpawned g' = Game.waveWeightSpawned g.
Proof.
  unfold spawnBall. destruct ty; cbn; repeat split; apply size_set_pos.
Qed.


(** From the playing phase, the spawning block opens card selection exactly
    when the wave is complete, and otherwise stays in the playing phase. *)
Lemma waveStep_phase (env : Env.t) (g : Game.t) (c : nat) :
  Game.gamePhase g = playing ->
  (waveComplete g /\
   Game.gamePhase (fst (waveStep env g c)) = cardSelection /\
   Game.cardSelectionEndTime (fst (waveStep env g c))
     = (Env.nowEnter env + CARD_SELECTION_MS)%Z /\
   allSelected (fst (waveStep env g c))
     = match Game.players g with [] => true | _ => false end)
  \/
  (~ waveComplete g /\ Game.gamePhase (fst (waveStep env g c)) = playing).
Proof.
  intros Hp. unfold waveStep, waveComplete. rewrite Hp. cbn [Phase_eqb].
  destruct (Game.gameStarted g) eqn:Hs; cbn [andb];
    [|right; split; [intros (H & _); discriminate | exact Hp]].
  destruct (0 <? Game.lives g)%Z eqn:Hl;
    [apply Z.ltb_lt in Hl
    |apply Z.ltb_ge in Hl; right; split; [intros (_ & H & _); lia | exact Hp]].
  destruct (Js.Rltb (Game.waveWeightSpawned g) (maxWeight (Game.wave g))) eqn:Hc.
  - (* the budget is not spent yet *)
    apply Rltb_true in Hc. right. split; [intros (_ & _ & H & _); lra|].
    cbn [andb].
    destruct (spawnIntervalTicks (Game.wave g) <=? _)%Z.
    + pose proof (spawnBall_spec (Env.random env) c None g) as (Hb & Hq & Hw).
      destruct (spawnBall (Env.random env) c None g) as [[ty g1] c1].
      cbn [fst snd] in *.
      cbn [Game.balls Game.with_lastSpawnTick Game.with_waveWeightSpawned
           Game.gamePhase].
      destruct (JsMap.size (Game.balls g1) =? 0)%Z eqn:Hz;
        [apply Z.eqb_eq in Hz; lia|].
      rewrite andb_false_r. cbn. congruence.
    + assert (Hf : Js.Rleb (maxWeight (Game.wave g)) (Game.waveWeightSpawned g) = false)
        by (apply Rleb_false; lra).
      rewrite Hf. cbn. exact Hp.
  - apply Rltb_false in Hc. cbn [andb].
    assert (Ht : Js.Rleb (maxWeight (Game.wave g)) (Game.waveWeightSpawned g) = true)
      by (now apply Rleb_true).
    rewrite Ht, Hp. cbn [andb Phase_eqb].
    destruct (JsMap.size (Game.balls g) =? 0)%Z eqn:Hz.
    + apply Z.eqb_eq in Hz. left. split; [repeat split; auto|].
      cbn [andb].
      pose proof (offered_none_selected (Env.random env) (Game.players g) c) as Ho.
      cbn [Game.players Game.with_cardSelectionEndTime Game.with_gamePhase].
      destruct (JsMap.forEachSt _ _ _) as [ps c'].
      cbn in *. repeat split. exact Ho.
    + apply Z.eqb_neq in Hz. right. split; [intros (_ & _ & _ & H); lia|].
      cbn. exact Hp.
Qed.

(** The single steps of the phase transitions. *)
Lemma processInput_frame (g : Game.t) :
  Game.gamePhase (processInput g) = Game.gamePhase g /\
  Game.wave (processInput g) = Game.wave g /\
  Game.waveWeightSpawned (processInput g) = Game.waveWeightSpawned g /\
  Game.lives (processInput g) = Game.lives g /\
  Game.balls (processInput g) = Game.balls g.
Proof. unfold processInput. destruct (negb _); cbn; repeat split. Qed.

Lemma cardSelectionStep_other (env : Env.t) (g : Game.t) :
  Game.gamePhase g <> cardSelection -> cardSelectionStep env g = g.
Proof.
  unfold cardSelectionStep. destruct (Game.gamePhase g); cbn; congruence.
Qed.

Lemma cardSelectionStep_spec (env : Env.t) (g : Game.t) :
  Game.gamePhase g = cardSelection ->
  let g' := cardSelectionStep env g in
  (allSelected g || timedOut env g = true /\
   Game.gamePhase g' = playing /\
   Game.wave g' = (Game.wave g + 1)%Z /\
   Game.waveWeightSpawned g' = 0)
  \/
  (allSelected g || timedOut env g = false /\ g' = g).
Proof.
  intros Hp. unfold cardSelectionStep. rewrite Hp. cbn [Phase_eqb].
  destruct (allSelected g || timedOut env g); [left|right]; cbn; repeat split.
Qed.

Lemma beginTick_playing (g : Game.t) :
  Game.gamePhase g = playing ->
  (0 < Game.lives g)%Z ->
  beginTick g = Game.with_tickCount (Game.tickCount g + 1)%Z g.
Proof.
  intros Hp Hl. unfold beginTick. cbn.
  destruct (Game.lives g <=? 0)%Z eqn:E; [apply Z.leb_le in E; lia|reflexivity].
Qed.

Lemma beginTick_gameOver (g : Game.t) :
  Game.gamePhase g = playing ->
  (Game.lives g <= 0)%Z ->
  beginTick g
  = Game.with_gamePhase gameOver (Game.with_tickCount (Game.tickCount g + 1)%Z g).
Proof.
  intros Hp Hl. unfold beginTick. cbn. rewrite Hp.
  destruct (Game.lives g <=? 0)%Z eqn:E; [reflexivity|apply Z.leb_gt in E; lia].
Qed.

Lemma beginTick_other (g : Game.t) :
  Game.gamePhase g <> playing ->
  beginTick g = Game.with_tickCount (Game.tickCount g + 1)%Z g.
Proof.
  intros Hp. unfold beginTick. cbn.
  destruct (Game.gamePhase g); try congruence; cbn; now rewrite andb_false_r.
Qed.

Lemma waveStep_other (env : Env.t) (g : Game.t) (c : nat) :
  Game.gamePhase g <> playing -> waveStep env g c = (g, c).
Proof.
  intros Hp. unfold waveStep.
  destruct (Game.gamePhase g); try congruence; cbn; now rewrite andb_false_r.
Qed.

Lemma waveComplete_tick (g : Game.t) (n : Z) :
  waveComplete (Game.with_tickCount n g) <-> waveComplete g.
Proof. unfold waveComplete. cbn. tauto. Qed.

(** Claim C1, as the code has it.  The budget of wave [N] is
    [20 * 1.1 ^ (N - 1)].  A tick that starts in the playing phase enters
    card selection exactly when the game has been started, lives are left,
    the spent weight has reached the budget and no ball is alive; with a
    player connected and the deadline of 15 s still ahead, that is also the
    phase in which the tick ends. *)
Theorem wave_budget_and_completion :
  forall (env : Env.t) (g : Game.t),
    (forall N : Z, maxWeight N = 20 * powerRZ (11 / 10) (N - 1)) /\
    (Game.gamePhase g = playing ->
     (Game.gamePhase (fst (waveStep env (beginTick g) 0)) = cardSelection
      <-> waveComplete g) /\
     (Game.players g <> [] ->
      (Env.nowCheck env < Env.nowEnter env + CARD_SELECTION_MS)%Z ->
      (Game.gamePhase (fst (gameTick env g)) = cardSelection <-> waveComplete g))).
Proof.
  intros env g.
  split; [intros N; unfold maxWeight, Js.pow; do 2 f_equal; lra|].
  intros Hp.
  destruct (gameTick_frame env g) as (_ & Hphase & _). cbn zeta in Hphase.
  rewrite Hphase. clear Hphase. unfold phaseStep.
  destruct (Z_le_gt_dec (Game.lives g) 0) as [Hl|Hl].
  - (* no lives left: the game is over instead *)
    rewrite (beginTick_gameOver g Hp Hl).
    rewrite waveStep_other by (cbn; discriminate). cbn [fst].
    rewrite cardSelectionStep_other by (cbn; discriminate).
    destruct (processInput_frame
                (Game.with_gamePhase gameOver
                   (Game.with_tickCount (Game.tickCount g + 1)%Z g))) as (E & _).
    rewrite E. cbn.
    split; [|intros _ _]; split; try discriminate;
      intros (_ & H & _); lia.
  - rewrite (beginTick_playing g Hp) by lia.
    set (g0 := Game.with_tickCount (Game.tickCount g + 1)%Z g).
    assert (Hp0 : Game.gamePhase g0 = playing) by exact Hp.
    destruct (waveStep_phase env g0 0 Hp0) as [(Hc & He & Hd & Ha)|(Hc & He)];
      unfold g0 in Hc; rewrite waveComplete_tick in Hc.
    + split; [tauto|]. intros Hne Hnow.
      destruct (waveStep env g0 0) as [g1 c1]. cbn [fst] in *.
      destruct (cardSelectionStep_spec env g1 He) as [(Hy & _)|(Hn & Heq)].
      * exfalso. unfold g0 in Ha. cbn in Ha.
        destruct (Game.players g); [congruence|].
        rewrite Ha in Hy. unfold timedOut in Hy. rewrite Hd in Hy. cbn in Hy.
        apply Z.leb_le in Hy. lia.
      * cbn zeta in Heq. rewrite Heq.
        destruct (processInput_frame g1) as (E & _). rewrite E. tauto.
    + assert (Hx : Game.gamePhase (fst (waveStep env g0 0)) = cardSelection
                   <-> waveComplete g)
        by (rewrite He; split; [discriminate|tauto]).
      split; [exact Hx|]. intros _ _.
      destruct (waveStep env g0 0) as [g1 c1]. cbn [fst] in *.
      rewrite cardSelectionStep_other by congruence.
      destruct (processInput_frame g1) as (E & _). now rewrite E.
Qed.

(** The sample state with the budget of wave 1 spent, one player connected. *)
Lemma wave_budget_and_completion_witness :
  (Game.gamePhase (fst (waveStep calm (beginTick waveDone) 0)) = cardSelection
   <-> waveComplete waveDone) /\
  (Game.gamePhase (fst (gameTick calm waveDone)) = cardSelection
   <-> waveComplete waveDone).
Proof.
  destruct (proj2 (wave_budget_and_completion calm waveDone) eq_refl) as [A B].
  split; [exact A|]. apply B.
  - discriminate.
  - cbn. lia.
Defined.

(** In wave 1 the budget is 20: ten big balls spend it exactly. *)
Lemma ten_big_balls_spend_wave_1 :
  maxWeight 1 = 10 * BallDef.waveWeight (BALL_TYPES big).
Proof. unfold maxWeight, Js.pow. cbn. lra. Qed.

(** The budget is spent and no ball is alive, but the last life is gone: the
    tick ends the game instead of opening card selection. *)
Lemma wave_completion_needs_lives :
  Game.gamePhase lastLifeLost = playing /\
  Game.gameStarted lastLifeLost = true /\
  maxWeight (Game.wave lastLifeLost) <= Game.waveWeightSpawned lastLifeLost /\
  JsMap.size (Game.balls lastLifeLost) = 0%Z /\
  Game.gamePhase (fst (waveStep calm (beginTick lastLifeLost) 0)) = gameOver /\
  Game.gamePhase (fst (gameTick calm lastLifeLost)) = gameOver.
Proof.
  repeat split; try reflexivity.
  unfold maxWeight, Js.pow. cbn. lra.
Qed.

End WaveCompletion.

(** ** Card selection *)

Section CardSelection.
Local Open Scope R_scope.


(** A tick that starts in card selection: either the closing test holds and
    the tick ends in the playing phase of the next wave, or nothing of the
    wave changes. *)
Lemma cardSelection_tick (env : Env.t) (g : Game.t) :
  Game.gamePhase g = cardSelection ->
  let g' := fst (gameTick env g) in
  (closes env g = true /\
   Game.gamePhase g' = playing /\
   Game.wave g' = (Game.wave g + 1)%Z /\
   Game.waveWeightSpawned g' = 0)
  \/
  (closes env g = false /\
   Game.gamePhase g' = cardSelection /\
   Game.wave g' = Game.wave g /\
   Game.waveWeightSpawned g' = Game.waveWeightSpawned g).
Proof.
  intros Hp.
  destruct (gameTick_frame env g) as (_ & Ep & Ew & Es & _).
  cbn zeta in *. rewrite Ep, Ew, Es. clear Ep Ew Es.
  unfold phaseStep.
  rewrite beginTick_other by congruence.
  rewrite waveStep_other by (cbn; congruence). cbn [fst].
  set (g0 := Game.with_tickCount (Game.tickCount g + 1)%Z g).
  assert (Hp0 : Game.gamePhase g0 = cardSelection) by exact Hp.
  destruct (processInput_frame (cardSelectionStep env g0)) as (Fp & Fw & Fs & _).
  rewrite Fp, Fw, Fs.
  destruct (cardSelectionStep_spec env g0 Hp0) as [(Hc & H1 & H2 & H3)|(Hc & Heq)].
  - left. repeat split; assumption.
  - right. cbn zeta in Heq. rewrite Heq. repeat split; assumption.
Qed.

(** No message but a restart touches the phase, the wave or the budget. *)
Lemma handler_keeps_selection (e : Event) (g : Game.t) :
  match e with Tick _ | RestartGame _ _ => False | _ => True end ->
  Game.gamePhase (fst (step e g)) = Game.gamePhase g /\
  Game.wave (fst (step e g)) = Game.wave g /\
  Game.waveWeightSpawned (fst (step e g)) = Game.waveWeightSpawned g.
Proof.
  destruct e; cbn; intros H; try contradiction; try (repeat split; reflexivity).
  unfold selectCard.
  destruct (JsMap.get (Game.players g) pid) as [p|]; [|repeat split].
  destruct (Player.offeredCards p) as [offered|]; [|repeat split].
  destruct (negb _ || _); [repeat split|].
  destruct (Js.index offered cardIndex) as [card|]; [|repeat split].
  unfold applyCard. destruct (Card.id card); cbn; repeat split.
Qed.

Lemma staysOpen_run (es : list Event) (g : Game.t) :
  Game.gamePhase g = cardSelection ->
  staysOpen es g ->
  Game.gamePhase (run es g) = cardSelection /\
  Game.wave (run es g) = Game.wave g /\
  Game.waveWeightSpawned (run es g) = Game.waveWeightSpawned g.
Proof.
  revert g. induction es as [|e es IH]; intros g Hp Hs.
  - cbn. repeat split; assumption.
  - destruct Hs as [He Hs]. cbn [run fold_left].
    change (fold_left (fun g e => fst (step e g)) es (fst (step e g)))
      with (run es (fst (step e g))).
    assert (Hstep : Game.gamePhase (fst (step e g)) = cardSelection /\
                    Game.wave (fst (step e g)) = Game.wave g /\
                    Game.waveWeightSpawned (fst (step e g))
                      = Game.waveWeightSpawned g).
    { destruct e as [env| | | | | |];
        try (match goal with |- context [step ?e g] =>
               destruct (handler_keeps_selection e g I) as (A & B & C)
             end; repeat split; congruence).
      - cbn [step].
        destruct (cardSelection_tick env g Hp) as [(Hc & _)|(_ & A & B & C)];
          [congruence|repeat split; assumption].
      - cbn in He. contradiction. }
    destruct Hstep as (A & B & C).
    destruct (IH _ A Hs) as (A' & B' & C').
    repeat split; congruence.
Qed.

(** Claim C3.  A tick that starts in card selection returns to the playing
    phase exactly when every connected player has selected or the deadline
    has elapsed; the wave counter then grows by one and the spent budget is
    reset to zero.  Otherwise the tick stays in card selection.  Along any
    sequence of ticks and messages without a restart, the phase therefore
    stays in card selection up to the first tick that meets the test, and
    turns to playing at that tick. *)
Theorem card_selection_ends_on_first_closing_tick :
  forall (env : Env.t) (g : Game.t),
    Game.gamePhase g = cardSelection ->
    (allSelected g = true \/ (Game.cardSelectionEndTime g <= Env.nowCheck env)%Z ->
     Game.gamePhase (fst (gameTick env g)) = playing /\
     Game.wave (fst (gameTick env g)) = (Game.wave g + 1)%Z /\
     Game.waveWeightSpawned (fst (gameTick env g)) = 0) /\
    (allSelected g = false ->
     (Env.nowCheck env < Game.cardSelectionEndTime g)%Z ->
     Game.gamePhase (fst (gameTick env g)) = cardSelection /\
     Game.wave (fst (gameTick env g)) = Game.wave g /\
     Game.waveWeightSpawned (fst (gameTick env g)) = Game.waveWeightSpawned g) /\
    (forall es : list Event,
        staysOpen es g ->
        Game.gamePhase (run es g) = cardSelection /\
        Game.wave (run es g) = Game.wave g /\
        (closes env (run es g) = true ->
         Game.gamePhase (run (es ++ [Tick env]) g) = playing /\
         Game.wave (run (es ++ [Tick env]) g) = (Game.wave g + 1)%Z /\
         Game.waveWeightSpawned (run (es ++ [Tick env]) g) = 0)).
Proof.
  intros env g Hp.
  assert (Hcl : closes env g = true <->
                allSelected g = true \/
                (Game.cardSelectionEndTime g <= Env.nowCheck env)%Z).
  { unfold closes, timedOut. rewrite orb_true_iff, Z.leb_le. tauto. }
  split; [|split].
  - intros H. apply Hcl in H.
    destruct (cardSelection_tick env g Hp) as [(_ & A)|(Hc & _)];
      [exact A|congruence].
  - intros Ha Hn.
    destruct (cardSelection_tick env g Hp) as [(Hc & _)|(_ & A)]; [|exact A].
    apply Hcl in Hc. destruct Hc; [congruence|lia].
  - intros es Hs.
    destruct (staysOpen_run es g Hp Hs) as (A & B & C).
    split; [exact A|]. split; [exact B|].
    intros Hc. unfold run. rewrite fold_left_app. cbn [fold_left step].
    change (fold_left (fun g e => fst (step e g)) es g) with (run es g).
    destruct (cardSelection_tick env (run es g) A) as [(_ & P & W & S)|(Hn & _)];
      [|congruence].
    repeat split; congruence.
Qed.

(** Claim C10.  With no player connected, the test that every player has
    selected holds vacuously, and a tick that starts in card selection ends
    in the playing phase whatever the clock reads. *)
Theorem empty_lobby_closes_card_selection :
  forall (env : Env.t) (g : Game.t),
    Game.gamePhase g = cardSelection ->
    Game.players g = JsMap.empty ->
    allSelected g = true /\
    Game.gamePhase (fst (gameTick env g)) = playing /\
    Game.wave (fst (gameTick env g)) = (Game.wave g + 1)%Z.
Proof.
  intros env g Hp He.
  assert (Ha : allSelected g = true) by (unfold allSelected; now rewrite He).
  split; [exact Ha|].
  destruct (cardSelection_tick env g Hp) as [(_ & P & W & _)|(Hn & _)].
  - split; assumption.
  - unfold closes in Hn. rewrite Ha in Hn. discriminate.
Qed.

(** The sample card selection: a tick after the deadline closes it, a tick
    before the deadline does not, and after the only player has selected the
    next tick closes it. *)
Lemma card_selection_ends_on_first_closing_tick_witness :
  (Game.gamePhase (fst (gameTick late selecting)) = playing /\
   Game.wave (fst (gameTick late selecting)) = (Game.wave selecting + 1)%Z /\
   Game.waveWeightSpawned (fst (gameTick late selecting)) = 0) /\
  (Game.gamePhase (fst (gameTick calm selecting)) = cardSelection /\
   Game.wave (fst (gameTick calm selecting)) = Game.wave selecting /\
   Game.waveWeightSpawned (fst (gameTick calm selecting))
   = Game.waveWeightSpawned selecting) /\
  (Game.gamePhase (run [Tick calm; SelectCard 1 0] selecting) = cardSelection /\
   Game.wave (run [Tick calm; SelectCard 1 0] selecting) = Game.wave selecting /\
   (closes late (run [Tick calm; SelectCard 1 0] selecting) = true ->
    Game.gamePhase (run ([Tick calm; SelectCard 1 0] ++ [Tick late]) selecting)
    = playing /\
    Game.wave (run ([Tick calm; SelectCard 1 0] ++ [Tick late]) selecting)
    = (Game.wave selecting + 1)%Z /\
    Game.waveWeightSpawned
      (run ([Tick calm; SelectCard 1 0] ++ [Tick late]) selecting) = 0)).
Proof.
  split; [|split].
  - apply (proj1 (card_selection_ends_on_first_closing_tick late selecting eq_refl)).
    right. cbn. lia.
  - apply (proj1 (proj2 (card_selection_ends_on_first_closing_tick calm selecting
                           eq_refl))).
    + reflexivity.
    + cbn. lia.
  - apply (proj2 (proj2 (card_selection_ends_on_first_closing_tick late selecting
                           eq_refl)) [Tick calm; SelectCard 1 0]).
    cbn. repeat split.
Defined.

(** The sample card selection after its only player has left. *)
Lemma empty_lobby_closes_card_selection_witness :
  allSelected abandoned = true /\
  Game.gamePhase (fst (gameTick calm abandoned)) = playing /\
  Game.wave (fst (gameTick calm abandoned)) = (Game.wave abandoned + 1)%Z.
Proof.
  apply (empty_lobby_closes_card_selection calm abandoned); reflexivity.
Defined.

End CardSelection.

(** ** Game over *)

Section GameOver.
Local Open Scope R_scope.


Lemma processInput_gameOver (g : Game.t) :
  Game.gamePhase g = gameOver -> processInput g = g.
Proof. intros H. unfold processInput. now rewrite H. Qed.

(** A tick that is in the game-over phase after its first test ends there
    and leaves the players as they were. *)
Lemma gameOver_tick (env : Env.t) (g : Game.t) :
  Game.gamePhase g = gameOver \/
  (Game.gamePhase g = playing /\ (Game.lives g <= 0)%Z) ->
  Game.gamePhase (fst (gameTick env g)) = gameOver /\
  Game.players (fst (gameTick env g)) = Game.players g.
Proof.
  intros H.
  destruct (gameTick_frame env g) as (Epl & Ep & _).
  cbn zeta in *. rewrite Epl, Ep. clear Epl Ep. unfold phaseStep.
  destruct H as [H|[H Hl]].
  - rewrite beginTick_other by congruence.
    rewrite waveStep_other by (cbn; congruence). cbn [fst].
    rewrite cardSelectionStep_other by (cbn; congruence).
    rewrite processInput_gameOver by exact H. split; [exact H|reflexivity].
  - rewrite (beginTick_gameOver g H Hl).
    rewrite waveStep_other by (cbn; congruence). cbn [fst].
    rewrite cardSelectionStep_other by (cbn; congruence).
    rewrite processInput_gameOver by reflexivity. split; reflexivity.
Qed.

Lemma positions_keys (now pid : Z) (keys : Keys.t) (g : Game.t) :
  positions (fst (keysHandler now pid keys g)) = positions g.
Proof.
  unfold positions, keysHandler, JsMap.update. cbn.
  rewrite map_map. apply map_ext. intros [k p]. cbn.
  destruct (k =? pid)%Z; reflexivity.
Qed.

(** With lives left, a tick that starts in the playing phase does not end
    the game. *)
Lemma playing_tick_alive (env : Env.t) (g : Game.t) :
  Game.gamePhase g = playing -> (0 < Game.lives g)%Z ->
  Game.gamePhase (fst (gameTick env g)) <> gameOver.
Proof.
  intros Hp Hl.
  destruct (gameTick_frame env g) as (_ & Ep & _). cbn zeta in Ep. rewrite Ep.
  unfold phaseStep. rewrite (beginTick_playing g Hp Hl).
  set (g0 := Game.with_tickCount (Game.tickCount g + 1)%Z g).
  assert (Hp0 : Game.gamePhase g0 = playing) by exact Hp.
  destruct (waveStep_phase env g0 0 Hp0) as [(_ & He & _)|(_ & He)];
    destruct (waveStep env g0 0) as [g1 c1]; cbn [fst] in *;
    destruct (processInput_frame (cardSelectionStep env g1)) as (E & _);
    rewrite E.
  - destruct (cardSelectionStep_spec env g1 He) as [(_ & P & _)|(_ & Heq)].
    + rewrite P. discriminate.
    + cbn zeta in Heq. rewrite Heq, He. discriminate.
  - rewrite cardSelectionStep_other by congruence. rewrite He. discriminate.
Qed.

(** Claim C8.  A tick that starts in the playing phase turns the phase to
    game over exactly when no life is left.  A tick that starts in the
    game-over phase stays there and leaves every player object as it was; in
    particular the positions are the same whatever keys a player has just
    sent. *)
Theorem game_over_freezes_players :
  forall (env : Env.t) (g : Game.t),
    (Game.gamePhase g = playing ->
     (Game.gamePhase (fst (gameTick env g)) = gameOver <-> (Game.lives g <= 0)%Z)) /\
    (Game.gamePhase g = gameOver ->
     Game.gamePhase (fst (gameTick env g)) = gameOver /\
     Game.players (fst (gameTick env g)) = Game.players g /\
     forall (now pid : Z) (keys : Keys.t),
       positions (fst (gameTick env (fst (keysHandler now pid keys g))))
       = positions g).
Proof.
  intros env g. split.
  - intros Hp. split.
    + intros H. destruct (Z_le_gt_dec (Game.lives g) 0) as [Hl|Hl]; [exact Hl|].
      exfalso. apply (playing_tick_alive env g Hp); [lia|exact H].
    + intros Hl. apply gameOver_tick. right. split; assumption.
  - intros Hp. destruct (gameOver_tick env g (or_introl Hp)) as [A B].
    split; [exact A|]. split; [exact B|].
    intros now pid keys.
    assert (Hk : Game.gamePhase (fst (keysHandler now pid keys g)) = gameOver)
      by exact Hp.
    destruct (gameOver_tick env _ (or_introl Hk)) as [_ C].
    unfold positions at 1. rewrite C.
    apply (positions_keys now pid keys g).
Qed.

(** The sample state after the last life is lost, and the sample game-over
    state. *)
Lemma game_over_freezes_players_witness :
  Game.gamePhase (fst (gameTick calm lastLifeLost)) = gameOver /\
  Game.gamePhase (fst (gameTick calm over)) = gameOver /\
  Game.players (fst (gameTick calm over)) = Game.players over /\
  forall (now pid : Z) (keys : Keys.t),
    positions (fst (gameTick calm (fst (keysHandler now pid keys over))))
    = positions over.
Proof.
  split.
  - apply (proj1 (game_over_freezes_players calm lastLifeLost) eq_refl).
    cbn. lia.
  - apply (proj2 (game_over_freezes_players calm over)). reflexivity.
Defined.

End GameOver.

(** ** Requests of clients *)

Section Requests.
Local Open Scope R_scope.

(** Property X28.  A [selectCard] request with an integer index that arrives
    outside card selection, or from a player who has already selected, or
    whose index lies outside the cards offered to the player, leaves the
    whole game state as it was (modifiers, selection flag and shared lives
    included) and sends nothing back. *)
Theorem selectCard_rejected_silently :
  forall (pid cardIndex : Z) (g : Game.t),
    Game.gamePhase g <> cardSelection \/
    hasSelected g pid = true \/
    offeredAt g pid cardIndex = None ->
    selectCard pid cardIndex g = (g, []).
Proof.
  intros pid cardIndex g. unfold hasSelected, offeredAt, selectCard.
  destruct (JsMap.get (Game.players g) pid) as [p|]; [|reflexivity].
  destruct (Player.offeredCards p) as [offered|]; [|reflexivity].
  intros [H|[H|H]].
  - destruct (Game.gamePhase g); try congruence; reflexivity.
  - rewrite H. now rewrite orb_true_r.
  - rewrite H. now destruct (negb _ || _).
Qed.

(** A request outside card selection, a second request, and two requests
    with an index outside the three offered cards. *)
Lemma selectCard_rejected_silently_witness :
  selectCard 1 0 over = (over, []) /\
  selectCard 1 1 (fst (selectCard 1 0 selecting))
  = (fst (selectCard 1 0 selecting), []) /\
  selectCard 1 3 selecting = (selecting, []) /\
  selectCard 1 (-1) selecting = (selecting, []).
Proof.
  split; [|split; [|split]].
  - apply (selectCard_rejected_silently 1 0 over). left. discriminate.
  - apply (selectCard_rejected_silently 1 1 (fst (selectCard 1 0 selecting))).
    right. left. reflexivity.
  - apply (selectCard_rejected_silently 1 3 selecting). right. right. reflexivity.
  - apply (selectCard_rejected_silently 1 (-1) selecting).
    right. right. reflexivity.
Defined.

(** On an integer index the handler is [selectCard]. *)
Lemma selectCardAt_integer (pid i : Z) (g : Game.t) :
  selectCardAt pid (ElementAt i) g = selectCard pid i g.
Proof.
  unfold selectCardAt, selectCard.
  destruct (JsMap.get (Game.players g) pid) as [p|]; [|reflexivity].
  destruct (Player.offeredCards p) as [offered|]; [|reflexivity].
  destruct (negb _ || _); [reflexivity|].
  cbn [pick]. now destruct (Js.index offered i).
Qed.

(** Outside card selection and after a selection the handler returns at
    once, whatever the key. *)
Lemma selectCardAt_stale (pid : Z) (cardIndex : CardIndex) (g : Game.t) :
  Game.gamePhase g <> cardSelection \/ hasSelected g pid = true ->
  selectCardAt pid cardIndex g = (g, []).
Proof.
  unfold hasSelected, selectCardAt.
  destruct (JsMap.get (Game.players g) pid) as [p|]; [|reflexivity].
  destruct (Player.offeredCards p) as [offered|]; [|reflexivity].
  intros [H|H].
  - destruct (Game.gamePhase g); try congruence; reflexivity.
  - rewrite H. now rewrite orb_true_r.
Qed.

(** The key ['length'] passes the test [if (!card)] of any non-empty offer:
    the handler sets the selection flag and grants nothing. *)
Lemma selectCardAt_length (pid : Z) (g : Game.t) (p : Player.t)
    (offered : list Card.t) :
  Game.gamePhase g = cardSelection ->
  JsMap.get (Game.players g) pid = Some p ->
  Player.cardSelected p = false ->
  Player.offeredCards p = Some offered ->
  offered <> [] ->
  selectCardAt pid LengthOf g
  = (Game.with_players
       (JsMap.update (Game.players g) pid (Player.with_cardSelected true)) g,
     []).
Proof.
  intros Hp Hg Hs Ho Hne. unfold selectCardAt. rewrite Hg, Ho, Hp, Hs.
  cbn [Phase_eqb negb orb pick truthy applyPicked].
  destruct offered as [|c l]; [congruence|]. reflexivity.
Qed.

(** Claim C4, where the code departs from it.  During card selection the
    sample player, who has not selected, sends [selectCard] with the string
    ['length'].  It refers to none of the three offered cards, but
    [offeredCards['length']] is the number 3, which passes the test
    [if (!card) return]: the handler sets the selection flag, grants no
    upgrade (modifiers and lives are as before) and sends nothing back.  The
    state has changed: every later request of the player is refused, and
    every player now counts as having selected. *)
Theorem selectCard_length_marks_selected :
  let g' := fst (selectCardAt 1 LengthOf selecting) in
  Game.gamePhase selecting = cardSelection /\
  hasSelected selecting 1 = false /\
  (exists (p : Player.t) (offered : list Card.t),
     JsMap.get (Game.players selecting) 1 = Some p /\
     Player.offeredCards p = Some offered /\
     pick offered LengthOf = Some (PickedNumber 3)) /\
  selectCardAt 1 LengthOf selecting
  = (Game.with_players
       (JsMap.update (Game.players selecting) 1 (Player.with_cardSelected true))
       selecting, []) /\
  g' <> selecting /\
  hasSelected g' 1 = true /\
  (forall p p' : Player.t,
     JsMap.get (Game.players selecting) 1 = Some p ->
     JsMap.get (Game.players g') 1 = Some p' ->
     modifiers p' = modifiers p) /\
  Game.lives g' = Game.lives selecting /\
  allSelected g' = true /\
  (forall i : Z, selectCard 1 i g' = (g', [])).
Proof.
  assert (E : selectCardAt 1 LengthOf selecting
              = (Game.with_players
                   (JsMap.update (Game.players selecting) 1
                      (Player.with_cardSelected true)) selecting, [])).
  { eapply selectCardAt_length; try reflexivity. discriminate. }
  cbn zeta. rewrite E. cbn [fst].
  split; [reflexivity|]. split; [reflexivity|].
  split; [do 2 eexists; repeat split; reflexivity|].
  split; [reflexivity|].
  assert (Hs : hasSelected
                 (Game.with_players
                    (JsMap.update (Game.players selecting) 1
                       (Player.with_cardSelected true)) selecting) 1 = true)
    by reflexivity.
  split; [intros H; rewrite H in Hs; discriminate|].
  split; [exact Hs|].
  split; [intros p p' [= <-] [= <-]; reflexivity|].
  split; [reflexivity|]. split; [reflexivity|].
  intros i. rewrite <- selectCardAt_integer. apply selectCardAt_stale.
  right. exact Hs.
Qed.

(** A reset leaves a fresh game, and noting the activity of a player keeps
    the modifiers. *)
Lemma resetGame_fresh (g : Game.t) : freshGame (resetGame g).
Proof.
  unfold freshGame, resetGame. cbn. repeat split; try reflexivity;
    unfold JsMap.values, JsMap.update_all in H; rewrite map_map in H;
    apply in_map_iff in H; destruct H as [[k p0] [<- _]]; reflexivity.
Qed.

Lemma touch_defaults (now pid : Z) (ps : JsMap.t Player.t) :
  (forall p, In p (JsMap.values ps) -> atDefaults p) ->
  forall p, In p (JsMap.values (JsMap.update ps pid (Player.with_lastActivity now))) ->
            atDefaults p.
Proof.
  intros H p Hin. unfold JsMap.values, JsMap.update in Hin.
  rewrite map_map in Hin. apply in_map_iff in Hin.
  destruct Hin as [[k p0] [<- Hin]].
  assert (H0 : atDefaults p0)
    by (apply H; unfold JsMap.values; apply in_map_iff; now exists (k, p0)).
  cbn. destruct (k =? pid)%Z; [|exact H0].
  unfold atDefaults in *. cbn. exact H0.
Qed.

(** Claim C6.  After [resetGame], and after the [restartGame] message that
    calls it, the phase is playing, the wave is 1, the lives are the initial
    10, there are no bullets and no balls, and every connected player has
    default modifiers (zero, and one for the bullet count) and no offered
    cards; the set of connected players is unchanged. *)
Theorem reset_restores_defaults :
  forall (now pid : Z) (g : Game.t),
    freshGame (resetGame g) /\
    freshGame (fst (restartGame now pid g)) /\
    INITIAL_LIVES = 10%Z /\
    JsMap.keys (Game.players (resetGame g)) = JsMap.keys (Game.players g).
Proof.
  intros now pid g. split; [apply resetGame_fresh|]. split; [|split].
  - destruct (resetGame_fresh g) as (A & B & C & D & E & F).
    unfold freshGame, restartGame, touch. cbn [fst].
    do 5 (split; [reflexivity|]).
    intros p Hp. exact (touch_defaults now pid _ F p Hp).
  - reflexivity.
  - unfold resetGame, JsMap.keys, JsMap.update_all. cbn.
    rewrite map_map. now apply map_ext.
Qed.

(** A request that passes the three tests is served: the flag is set. *)
Lemma selectCard_accepted_sample :
  hasSelected selecting 1 = false /\
  hasSelected (fst (selectCard 1 0 selecting)) 1 = true.
Proof. split; reflexivity. Qed.

End Requests.

(** ** Shared lives and the bottom boundary *)

Section Lives.
Local Open Scope R_scope.


(** The operations of a tick on the map of balls keep it well formed. *)
Lemma keyed_get (m : JsMap.t Ball.t) (k : Z) (b : Ball.t) :
  keyed m -> JsMap.get m k = Some b -> Ball.id b = k.
Proof.
  intros [_ Hid]. induction m as [|[k' v] m IH]; cbn; [discriminate|].
  inversion Hid as [|? ? H1 H2]; subst. cbn in H1.
  destruct (k =? k')%Z eqn:E.
  - apply Z.eqb_eq in E. intros [= <-]. congruence.
  - now apply IH.
Qed.


Lemma keyed_set (m : JsMap.t Ball.t) (k : Z) (v : Ball.t) :
  keyed m -> Ball.id v = k -> keyed (JsMap.set m k v).
Proof.
  intros [Hd Hid] Hv. induction m as [|[k' v'] m IH]; cbn.
  - split; [repeat constructor; intros []|repeat constructor; exact Hv].
  - inversion Hd as [|? ? Hn Hd']. inversion Hid as [|? ? H1 H2].
    destruct (k =? k')%Z eqn:E.
    + apply Z.eqb_eq in E. split.
      * cbn. constructor; [rewrite E; exact Hn|exact Hd'].
      * constructor; [exact Hv|exact H2].
    + apply Z.eqb_neq in E. destruct (IH Hd' H2) as [A B]. split.
      * cbn. constructor; [|exact A].
        intros Hin. apply keys_set_In in Hin.
        destruct Hin as [Hin|Hin]; [congruence|]. exact (Hn Hin).
      * constructor; [exact H1|exact B].
Qed.

Lemma keyed_update (m : JsMap.t Ball.t) (k : Z) (v : Ball.t) :
  keyed m -> Ball.id v = k -> keyed (JsMap.update m k (fun _ => v)).
Proof.
  intros [Hd Hid] Hv. split; [now rewrite keys_update|].
  unfold JsMap.update. apply Forall_map.
  eapply Forall_impl; [|exact Hid]. intros [k' v'] H. cbn in *.
  destruct (k' =? k)%Z eqn:E; cbn; [apply Z.eqb_eq in E; congruence|exact H].
Qed.

Lemma forEachSt_ids {S : Type} (f : Ball.t -> S -> Ball.t * S)
    (m : JsMap.t Ball.t) (s : S) :
  (forall v s, Ball.id (fst (f v s)) = Ball.id v) ->
  Forall (fun kv => Ball.id (snd kv) = fst kv) m ->
  Forall (fun kv => Ball.id (snd kv) = fst kv) (fst (JsMap.forEachSt f m s)).
Proof.
  intros Hf. revert s. induction m as [|[k v] m IH]; intros s H; [constructor|].
  inversion H as [|? ? H1 H2]; subst.
  cbn [JsMap.forEachSt]. pose proof (Hf v s) as Hv.
  destruct (f v s) as [v' s1]. specialize (IH s1 H2).
  destruct (JsMap.forEachSt f m s1) as [m' s2]. cbn in *.
  constructor; [cbn; congruence|exact IH].
Qed.

Lemma keyed_forEachSt {S : Type} (f : Ball.t -> S -> Ball.t * S)
    (m : JsMap.t Ball.t) (s : S) :
  (forall v s, Ball.id (fst (f v s)) = Ball.id v) ->
  keyed m -> keyed (fst (JsMap.forEachSt f m s)).
Proof.
  intros Hf [Hd Hid]. split.
  - now rewrite keys_forEachSt.
  - now apply forEachSt_ids.
Qed.

Lemma keyed_delete_all (m : JsMap.t Ball.t) (ids : list Z) :
  keyed m -> keyed (JsMap.delete_all m ids).
Proof.
  intros [Hd Hid]. split; [now apply NoDup_delete_all|].
  apply Forall_forall. intros kv Hin.
  apply (delete_all_incl ids m) in Hin.
  revert kv Hin. now apply Forall_forall.
Qed.

Lemma splash_id (center : Ball.t) (areaDmg : R) (b : Ball.t) (rm : JsSet.t) :
  Ball.id (fst (splash center areaDmg b rm)) = Ball.id b.
Proof. unfold splash. now destruct (negb _ && _). Qed.

Lemma burn_id (tick : Z) (b : Ball.t) (rm : JsSet.t) :
  Ball.id (fst (burn tick b rm)) = Ball.id b.
Proof. unfold burn. now destruct (isBurning tick b). Qed.

(** The collision pass keeps the map of balls well formed. *)
Lemma hitBall_keyed (tick : Z) (rnd : nat -> R) (bullet : Bullet.t)
    (shot : Shot.t) (st : Coll.t) (k : Z) :
  keyed (Coll.balls st) -> keyed (Coll.balls (hitBall tick rnd bullet shot st k)).
Proof.
  intros Hk. unfold hitBall.
  destruct (JsMap.get (Coll.balls st) k) as [ball|] eqn:Hg; [|exact Hk].
  pose proof (keyed_get _ _ _ Hk Hg) as Hid.
  destruct (bulletHitsBall bullet ball _ _); [|exact Hk].
  destruct (Bullet.homing bullet); cbn [negb andb].
  - cbn. now apply keyed_update.
  - repeat match goal with
           | |- context [if ?c then _ else _] => destruct c
           | |- context [JsMap.forEachSt ?f ?m ?s] =>
               let H := fresh "H" in
               pose proof (keyed_forEachSt f m s (splash_id _ _)) as H;
               destruct (JsMap.forEachSt f m s); cbn [fst] in H
           end; cbn [Coll.balls];
      try (apply keyed_update; [exact Hk|exact Hid]);
      (match goal with H : keyed _ -> keyed ?m |- keyed ?m => apply H end;
       apply keyed_update; [exact Hk|exact Hid]).
Qed.

Lemma collideBullet_keyed (players : JsMap.t Player.t) (tick : Z)
    (rnd : nat -> R) (bullet : Bullet.t) (st : Coll.t) :
  keyed (Coll.balls st) ->
  keyed (Coll.balls (snd (collideBullet players tick rnd bullet st))).
Proof.
  intros Hk. unfold collideBullet.
  destruct (aim players (Coll.balls st) bullet) as [[shot owner]|]; [|exact Hk].
  cbn [snd]. generalize (JsMap.keys (Coll.balls st)). intros ks.
  revert st Hk. induction ks as [|k ks IH]; intros st Hk; [exact Hk|].
  cbn [fold_left]. apply IH. now apply hitBall_keyed.
Qed.

Lemma bulletStep_keyed (env : Env.t) (g : Game.t) (c : nat) :
  keyed (Game.balls g) -> keyed (Game.balls (fst (bulletStep env (g, c)))).
Proof.
  intros Hk.
  destruct (bulletStep_frame env g c) as (_ & _ & _ & _ & _ & _ & _ & _ & E).
  cbn zeta in E. rewrite E. clear E. unfold bulletStep, collide.
  pose proof (forEachSt_inv (fun st => keyed (Coll.balls st))
                (collideBullet (Game.players g) (Game.tickCount g) (Env.random env))
                (Game.bullets g) (Coll.init (Game.balls g) c)
                (fun v s => collideBullet_keyed _ _ _ v s) Hk) as H.
  destruct (JsMap.forEachSt _ (Game.bullets g) _) as [bs coll].
  destruct (JsMap.forEachSt moveBullet bs _) as [bs' rm]. exact H.
Qed.

(** The phase transitions leave the lives as they were and keep the map of
    balls well formed. *)
Lemma waveStep_frame (env : Env.t) (g : Game.t) (c : nat) :
  Game.lives (fst (waveStep env g c)) = Game.lives g /\
  (keyed (Game.balls g) -> keyed (Game.balls (fst (waveStep env g c)))).
Proof.
  unfold waveStep.
  destruct (Game.gameStarted g && _ && _); [|split; auto].
  destruct (Js.Rltb _ _ && _).
  - unfold spawnBall. cbn.
    destruct (Js.Rleb _ _ && _ && _); cbn.
    + destruct (JsMap.forEachSt _ _ _) as [ps c']. cbn.
      split; [reflexivity|]. intros Hk. now apply keyed_set.
    + split; [reflexivity|]. intros Hk. now apply keyed_set.
  - destruct (Js.Rleb _ _ && _ && _); cbn.
    + destruct (JsMap.forEachSt _ _ _) as [ps c']. cbn. split; auto.
    + split; auto.
Qed.

Lemma beginTick_frame (g : Game.t) :
  Game.lives (beginTick g) = Game.lives g /\
  Game.balls (beginTick g) = Game.balls g.
Proof. unfold beginTick. cbn. destruct (_ && _); split; reflexivity. Qed.

Lemma cardSelectionStep_frame (env : Env.t) (g : Game.t) :
  Game.lives (cardSelectionStep env g) = Game.lives g /\
  Game.balls (cardSelectionStep env g) = Game.balls g.
Proof.
  unfold cardSelectionStep.
  destruct (Phase_eqb _ _); [destruct (_ || _)|]; split; reflexivity.
Qed.

Lemma phaseStep_frame (env : Env.t) (g : Game.t) :
  Game.lives (fst (phaseStep env g)) = Game.lives g /\
  (keyed (Game.balls g) -> keyed (Game.balls (fst (phaseStep env g)))).
Proof.
  unfold phaseStep.
  destruct (waveStep_frame env (beginTick g) 0) as [A B].
  destruct (waveStep env (beginTick g) 0) as [g1 c]. cbn [fst] in *.
  destruct (processInput_frame (cardSelectionStep env g1)) as (_ & _ & _ & L & K).
  destruct (cardSelectionStep_frame env g1) as [L' K'].
  destruct (beginTick_frame g) as [L0 K0].
  rewrite L, K, L', K'. split; [congruence|].
  intros Hk. apply B. now rewrite K0.
Qed.

(** The movement pass of the balls: every ball descends, one life is taken
    per ball off the bottom, and each such ball is marked for removal. *)
Lemma fall_all (m : JsMap.t Ball.t) (rm : JsSet.t) (lv : Z) :
  fst (JsMap.forEachSt fall m (rm, lv)) = JsMap.update_all descend m /\
  snd (snd (JsMap.forEachSt fall m (rm, lv)))
  = (lv - Z.of_nat (List.length (filter offBottom (map descend (JsMap.values m)))))%Z /\
  (forall k, In k rm -> In k (fst (snd (JsMap.forEachSt fall m (rm, lv))))) /\
  (forall b, In b (filter offBottom (map descend (JsMap.values m))) ->
             In (Ball.id b) (fst (snd (JsMap.forEachSt fall m (rm, lv))))).
Proof.
  revert rm lv. induction m as [|[k v] m IH]; intros rm lv.
  - cbn. repeat split; auto; try lia.
  - cbn [JsMap.forEachSt]. unfold fall at 1 3 5 7. fold (descend v).
    destruct (offBottom (descend v)) eqn:E; cbn [fst snd].
    + destruct (IH (JsSet.add rm (Ball.id (descend v))) (lv - 1)%Z)
        as (A & B & C & D).
      destruct (JsMap.forEachSt fall m _) as [m' [rm' lv']]. cbn [fst snd] in *.
      cbn [JsMap.values map JsMap.update_all filter]. cbn [snd fst].
      fold (JsMap.values m). rewrite E. cbn [List.length].
      repeat split.
      * now rewrite A.
      * lia.
      * intros k0 Hk. apply C. apply In_add. now left.
      * intros b [<-|Hb]; [apply C, In_add; now right|now apply D].
    + destruct (IH rm lv) as (A & B & C & D).
      destruct (JsMap.forEachSt fall m _) as [m' [rm' lv']]. cbn [fst snd] in *.
      cbn [JsMap.values map JsMap.update_all filter]. cbn [snd fst].
      fold (JsMap.values m). rewrite E.
      repeat split; auto. now rewrite A.
Qed.

Lemma keyed_update_all (f : Ball.t -> Ball.t) (m : JsMap.t Ball.t) :
  (forall b, Ball.id (f b) = Ball.id b) ->
  keyed m -> keyed (JsMap.update_all f m).
Proof.
  intros Hf [Hd Hid]. split.
  - unfold JsMap.keys, JsMap.update_all in *. rewrite map_map. exact Hd.
  - unfold JsMap.update_all. apply Forall_map.
    eapply Forall_impl; [|exact Hid]. intros [k v] H. cbn in *. now rewrite Hf.
Qed.

Lemma clampLives_max (lv : Z) : clampLives lv = Z.max 0 lv.
Proof. unfold clampLives. destruct (lv <? 0)%Z eqn:E; lia. Qed.

(** The lives and the balls at the end of a tick. *)
Lemma tick_accounting :
  forall (env : Env.t) (g : Game.t),
    Game.lives (fst (gameTick env g)) = Z.max 0 (livesBeforeClamp env g) /\
    (forall s : Snapshot.t,
        In (state s) (snd (gameTick env g)) ->
        (0 <= Snapshot.lives s)%Z /\
        Snapshot.lives s = Z.max 0 (livesBeforeClamp env g)) /\
    livesBeforeClamp env g
    = (Game.lives g - Z.of_nat (List.length (crossing env g)))%Z /\
    (keyed (Game.balls g) ->
     Forall
       (fun b : Ball.t =>
          JsMap.get (Game.balls (fst (gameTick env g))) (Ball.id b) = None /\
          forall (s : Snapshot.t) (v : BallView.t),
            In (state s) (snd (gameTick env g)) ->
            In v (Snapshot.balls s) ->
            Ball.id (BallView.ball v) <> Ball.id b)
       (crossing env g)) /\
    (keyed (Game.balls g) -> keyed (Game.balls (fst (gameTick env g)))).
Proof.
  intros env g.
  unfold gameTick, livesBeforeClamp, crossing, ballsBeforeFall.
  destruct (phaseStep_frame env g) as [L0 K0].
  destruct (phaseStep env g) as [g0 c]. cbn [fst] in *.
  destruct (bulletStep_frame env g0 c) as (_ & _ & _ & _ & L1 & _).
  pose proof (bulletStep_keyed env g0 c) as K1.
  destruct (bulletStep env (g0, c)) as [g1 coll]. cbn [fst snd] in *.
  unfold ballStep.
  pose proof (keyed_forEachSt (burn (Game.tickCount g1)) (Game.balls g1)
                (Coll.toRemoveBalls coll) (burn_id _)) as K2.
  destruct (JsMap.forEachSt (burn _) _ _) as [bs rm]. cbn [fst] in *.
  destruct (fall_all bs rm (Game.lives g1)) as (A & B & C & D).
  destruct (JsMap.forEachSt fall bs _) as [bs' [rm' lv]]. cbn [fst snd] in *.
  split; [|split; [|split; [|split]]].
  - cbn. now rewrite clampLives_max.
  - intros s [[= <-]|[]]. cbn. rewrite clampLives_max. split; lia.
  - rewrite B. congruence.
  - intros Hk. apply Forall_forall. intros b Hb.
    assert (Kbs : keyed bs) by auto.
    assert (Kbs' : keyed bs') by (rewrite A; now apply keyed_update_all).
    assert (Hget : JsMap.get (JsMap.delete_all bs' rm') (Ball.id b) = None)
      by (apply get_delete_all; [apply Kbs'|now apply D]).
    split; [exact Hget|].
    intros s v [[= <-]|[]] Hv Heq. cbn in Hv.
    apply in_map_iff in Hv. destruct Hv as [b2 [<- Hb2]]. cbn in Heq.
    unfold JsMap.values in Hb2. apply in_map_iff in Hb2.
    destruct Hb2 as [[k b3] [<- Hin]]. cbn in Heq.
    pose proof (keyed_delete_all bs' rm' Kbs') as [_ Hid].
    rewrite Forall_forall in Hid. specialize (Hid _ Hin). cbn in Hid.
    apply In_values_get in Hin. apply Hin. congruence.
  - intros Hk. cbn. apply keyed_delete_all. rewrite A.
    apply keyed_update_all; [reflexivity|auto].
Qed.

(** Claim C5.  The lives in every state message are non-negative: they are
    the lives left by the ball movement of the tick, clamped at zero.  Before
    that clamp, the tick has taken exactly one life per ball that crossed the
    bottom boundary.  Every such ball is removed in the same tick: the map of
    balls holds nothing under its id any more, and no ball of the state
    message has its id. *)
Theorem lives_floor_and_bottom_exits :
  forall (env : Env.t) (g : Game.t),
    (forall s : Snapshot.t,
        In (state s) (snd (gameTick env g)) ->
        (0 <= Snapshot.lives s)%Z /\
        Snapshot.lives s = Z.max 0 (livesBeforeClamp env g)) /\
    livesBeforeClamp env g
    = (Game.lives g - Z.of_nat (List.length (crossing env g)))%Z /\
    (keyed (Game.balls g) ->
     Forall
       (fun b : Ball.t =>
          JsMap.get (Game.balls (fst (gameTick env g))) (Ball.id b) = None /\
          forall (s : Snapshot.t) (v : BallView.t),
            In (state s) (snd (gameTick env g)) ->
            In v (Snapshot.balls s) ->
            Ball.id (BallView.ball v) <> Ball.id b)
       (crossing env g)).
Proof.
  intros env g. destruct (tick_accounting env g) as (_ & A & B & C & _).
  repeat split; assumption || apply A; assumption.
Qed.

(** The sample state in which the last ball falls through. *)
Lemma lives_floor_and_bottom_exits_witness :
  Forall
    (fun b : Ball.t =>
       JsMap.get (Game.balls (fst (gameTick calm lastBall))) (Ball.id b) = None /\
       forall (s : Snapshot.t) (v : BallView.t),
         In (state s) (snd (gameTick calm lastBall)) ->
         In v (Snapshot.balls s) ->
         Ball.id (BallView.ball v) <> Ball.id b)
    (crossing calm lastBall).
Proof.
  apply (proj2 (proj2 (lives_floor_and_bottom_exits calm lastBall))).
  split.
  - cbn. constructor; [intros []|constructor].
  - repeat constructor.
Defined.

Lemma offBottom_sinker : offBottom (descend sinker) = true.
Proof. unfold offBottom. apply Rltb_true. cbn. unfold ROOM_HEIGHT. lra. Qed.

(** The last ball falls through when no life is left: the counter goes to -1
    and is clamped to 0, and the ball is gone. *)
Lemma last_ball_sample :
  crossing calm lastBall = [descend sinker] /\
  livesBeforeClamp calm lastBall = (-1)%Z /\
  Game.lives (fst (gameTick calm lastBall)) = 0%Z /\
  JsMap.get (Game.balls (fst (gameTick calm lastBall))) 1 = None.
Proof.
  assert (Hc : crossing calm lastBall = [descend sinker]).
  { unfold crossing. cbn. now rewrite offBottom_sinker. }
  destruct (tick_accounting calm lastBall) as (A & _ & B & C & _).
  rewrite Hc in B, C. split; [exact Hc|]. split; [rewrite B; reflexivity|].
  split; [rewrite A, B; reflexivity|].
  assert (K : keyed (Game.balls lastBall)).
  { split; [cbn; constructor; [intros []|constructor]|repeat constructor]. }
  specialize (C K). inversion C as [|? ? [H _] _]. exact H.
Qed.

(** The map of balls is well formed in every state the server can reach. *)
Lemma keyed_reachable (es : list Event) :
  keyed (Game.balls (run es Game.initial)).
Proof.
  unfold run.
  assert (H0 : keyed (Game.balls Game.initial)) by (split; constructor).
  revert H0. generalize Game.initial.
  induction es as [|e es IH]; intros g Hk; [exact Hk|].
  cbn [fold_left]. apply IH.
  destruct e; cbn [step]; try exact Hk.
  - now apply (tick_accounting env g).
  - cbn. split; constructor.
  - unfold selectCard.
    destruct (JsMap.get _ _) as [p|]; [|exact Hk].
    destruct (Player.offeredCards p) as [o|]; [|exact Hk].
    destruct (negb _ || _); [exact Hk|].
    destruct (Js.index o cardIndex) as [card|]; [|exact Hk].
    unfold applyCard. destruct (Card.id card); exact Hk.
Qed.

End Lives.

(** ** Homing bullets *)

Section Homing.
Local Open Scope R_scope.

(** The tick of the sample state [brawl], step by step. *)
Lemma maxWeight_1 : maxWeight 1 = 20.
Proof. unfold maxWeight, Js.pow. cbn. lra. Qed.

Lemma brawl_phaseStep :
  phaseStep calm brawl = (Game.with_tickCount 4 brawl, 0%nat).
Proof.
  unfold phaseStep. rewrite beginTick_playing by (cbn; try reflexivity; lia).
  unfold waveStep.
  cbn -[maxWeight spawnIntervalTicks spawnBall Js.Rltb Js.Rleb].
  rewrite maxWeight_1.
  fails (Js.Rltb 20 20).
  cbn -[maxWeight Js.Rleb]. rewrite ?maxWeight_1.
  holds (Js.Rleb 20 20).
  reflexivity.
Qed.

Lemma brawl_nearest :
  nearestBall brawler [(1%Z, intruder)] = Some intruder.
Proof.
  unfold nearestBall. cbn -[Js.Rltb Js.hypot MELEE_RANGE].
  unfold nearer. cbn -[Js.Rltb Js.hypot MELEE_RANGE].
  replace (360 - 360) with 0 by ring. replace (1200 - 1200) with 0 by ring.
  rewrite hypot_0_0.
  unfold MELEE_RANGE. holds (Js.Rltb 0 200).
  reflexivity.
Qed.

Lemma brawl_spawn :
  Game.bullets (spawnBullets (Game.with_tickCount 4 brawl))
  = [(1%Z, volleyBullet brawler 1 0 0 1); (2%Z, brawlBullet)].
Proof.
  unfold spawnBullets. cbn -[nearestBall volleyBullet homingBullet].
  unfold shoot. cbn -[nearestBall volleyBullet homingBullet].
  rewrite brawl_nearest. reflexivity.
Qed.

Lemma brawl_tick_bullets :
  Game.bullets (fst (gameTick calm brawl))
  = [(1%Z, volleyBullet brawler 1 0 0 1); (2%Z, brawlBullet)].
Proof.
  destruct (ballStep_frame (fst (bulletStep calm (phaseStep calm brawl)))
              (snd (bulletStep calm (phaseStep calm brawl)))) as (_ & E & _).
  unfold gameTick. destruct (bulletStep calm (phaseStep calm brawl)) as [g1 coll] eqn:B.
  cbn [fst snd] in *. rewrite E. clear E.
  rewrite brawl_phaseStep in B. unfold bulletStep in B.
  cbn -[spawnBullets] in B. injection B as <- _.
  apply brawl_spawn.
Qed.

(** The spawning pass has created a homing bullet that names player 1 as its
    owner, and the state message carries it. *)
Lemma homing_bullet_names_its_owner :
  In brawlBullet (JsMap.values (Game.bullets (fst (gameTick calm brawl)))) /\
  (forall s : Snapshot.t,
      In (state s) (snd (gameTick calm brawl)) -> In brawlBullet (Snapshot.bullets s)) /\
  Bullet.homing brawlBullet = true /\
  Bullet.ownerId brawlBullet = Some 1%Z /\
  JsMap.get (Game.players brawl) 1 = Some brawler.
Proof.
  assert (H : In brawlBullet (JsMap.values (Game.bullets (fst (gameTick calm brawl)))))
    by (rewrite brawl_tick_bullets; cbn; auto).
  split; [exact H|]. split; [|repeat split].
  intros s Hs. unfold gameTick in *.
  destruct (bulletStep calm (phaseStep calm brawl)) as [g1 coll].
  cbn [fst snd] in *. destruct Hs as [[= <-]|[]]. exact H.
Qed.


(** The bullets of a volley are not homing; a homing bullet made by the
    spawning pass names the player it was made for. *)
Lemma volleyLoop_plain (p : Player.t) (count bounceCount : Z) (n i : nat)
    (st : JsMap.t Bullet.t * Z) (b : Bullet.t) :
  In b (JsMap.values (fst (volleyLoop p count bounceCount n i st))) ->
  Bullet.homing b = true ->
  In b (JsMap.values (fst st)).
Proof.
  revert i st. induction n as [|n IH]; intros i [bs next] Hin Hh; [exact Hin|].
  cbn [volleyLoop] in Hin. apply IH in Hin; [|exact Hh]. cbn [fst] in *.
  apply In_values_set in Hin. destruct Hin as [->|Hin]; [discriminate|exact Hin].
Qed.

Lemma shoot_homing (tick : Z) (balls : JsMap.t Ball.t)
    (st : JsMap.t Bullet.t * Z) (p : Player.t) (b : Bullet.t) :
  In b (JsMap.values (fst (shoot tick balls st p))) ->
  Bullet.homing b = true ->
  In b (JsMap.values (fst st)) \/
  (Bullet.ownerId b = Some (Player.id p) /\
   Bullet.damage b = Some (Player.meleeDamage p) /\
   (0 < Player.meleeDamage p)%Z).
Proof.
  unfold shoot. intros Hin Hh.
  destruct (0 <? Player.meleeDamage p)%Z eqn:Hm; cbn [andb] in Hin.
  - destruct (Z.rem tick MELEE_BULLET_INTERVAL =? 0)%Z.
    + destruct (nearestBall p balls) as [nearest|].
      * destruct (volleyLoop p _ _ _ 0 st) as [bs next] eqn:Hv. cbn [fst] in Hin.
        apply In_values_set in Hin. destruct Hin as [->|Hin].
        -- right. apply Z.ltb_lt in Hm. repeat split. exact Hm.
        -- left. apply (volleyLoop_plain p (Player.bulletCount p)
                          (Player.bounceCount p)
                          (Z.to_nat (Player.bulletCount p)) 0 st b);
             [now rewrite Hv|exact Hh].
      * left. now apply volleyLoop_plain in Hin.
    + left. now apply volleyLoop_plain in Hin.
  - left. now apply volleyLoop_plain in Hin.
Qed.

Lemma fold_shoot_homing (tick : Z) (balls : JsMap.t Ball.t) (ps : list Player.t)
    (st : JsMap.t Bullet.t * Z) (b : Bullet.t) :
  In b (JsMap.values (fst (fold_left (shoot tick balls) ps st))) ->
  Bullet.homing b = true ->
  In b (JsMap.values (fst st)) \/
  exists p : Player.t,
    In p ps /\
    Bullet.ownerId b = Some (Player.id p) /\
    Bullet.damage b = Some (Player.meleeDamage p) /\
    (0 < Player.meleeDamage p)%Z.
Proof.
  revert st. induction ps as [|p ps IH]; intros st Hin Hh; [now left|].
  cbn [fold_left] in Hin. destruct (IH _ Hin Hh) as [H|(q & Hq & H)].
  - destruct (shoot_homing tick balls st p b H Hh) as [H1|H1]; [now left|].
    right. exists p. split; [now left|exact H1].
  - right. exists q. split; [now right|exact H].
Qed.

Lemma spawnBullets_homing (g : Game.t) (b : Bullet.t) :
  In b (JsMap.values (Game.bullets (spawnBullets g))) ->
  Bullet.homing b = true ->
  In b (JsMap.values (Game.bullets g)) \/
  exists p : Player.t,
    In p (JsMap.values (Game.players g)) /\
    Bullet.ownerId b = Some (Player.id p) /\
    Bullet.damage b = Some (Player.meleeDamage p) /\
    (0 < Player.meleeDamage p)%Z.
Proof.
  unfold spawnBullets. intros Hin Hh.
  destruct (Game.gameStarted g && _ && _); [|now left].
  pose proof (fold_shoot_homing (Game.tickCount g) (Game.balls g)
                (JsMap.values (Game.players g))
                (Game.bullets g, Game.nextBulletId g) b) as H.
  destruct (fold_left _ _ _) as [bs next]. cbn in Hin. cbn [fst] in H.
  exact (H Hin Hh).
Qed.


(** A hit of a homing bullet, spelled out: the stored damage is taken from
    the ball, the bullet is marked for removal, and nothing else happens. *)
Lemma hitBall_homing (tick : Z) (rnd : nat -> R) (bullet : Bullet.t)
    (shot : Shot.t) (st : Coll.t) (k : Z) :
  Bullet.homing bullet = true ->
  hitBall tick rnd bullet shot st k
  = match JsMap.get (Coll.balls st) k with
    | None => st
    | Some ball =>
        if bulletHitsBall bullet ball (Shot.moveX shot) (Shot.moveY shot) then
          {| Coll.balls :=
               JsMap.update (Coll.balls st) k
                 (fun _ => Ball.with_hp (Ball.hp ball - Shot.damage shot) ball);
             Coll.toRemoveBullets :=
               JsSet.add (Coll.toRemoveBullets st) (Bullet.id bullet);
             Coll.toRemoveBalls :=
               if Js.Rleb (Ball.hp ball - Shot.damage shot) 0
               then JsSet.add (Coll.toRemoveBalls st) (Ball.id ball)
               else Coll.toRemoveBalls st;
             Coll.areaDamageHits := Coll.areaDamageHits st;
             Coll.bulletHits :=
               Coll.bulletHits st
                 ++ [{| Point.x := Ball.x ball; Point.y := Ball.y ball |}];
             Coll.cursor := Coll.cursor st |}
        else st
    end.
Proof.
  intros Hh. unfold hitBall. rewrite Hh.
  destruct (JsMap.get (Coll.balls st) k) as [ball|]; [|reflexivity].
  destruct (bulletHitsBall bullet ball _ _); reflexivity.
Qed.


(** Claim C9, as the code has it.  A homing bullet is created with the id
    of the player whose melee upgrade fired it as [ownerId], and with that
    player's melee damage.  The collision pass never looks that owner up: the
    outcome for a homing bullet is the same whatever the players map, the
    random draws and the tick are; its owner is [null] there and the five
    modifiers are zero; a hit takes exactly the stored damage from the ball,
    always marks the bullet for removal, draws no random number and deals no
    area damage. *)
Theorem homing_bullets_ignore_their_owner :
  (forall (g : Game.t) (b : Bullet.t),
      In b (JsMap.values (Game.bullets (spawnBullets g))) ->
      Bullet.homing b = true ->
      In b (JsMap.values (Game.bullets g)) \/
      exists p : Player.t,
        In p (JsMap.values (Game.players g)) /\
        Bullet.ownerId b = Some (Player.id p) /\
        Bullet.damage b = Some (Player.meleeDamage p)) /\
  (forall (players players' : JsMap.t Player.t) (tick tick' : Z)
          (rnd rnd' : nat -> R) (bullet : Bullet.t) (st : Coll.t),
      Bullet.homing bullet = true ->
      collideBullet players tick rnd bullet st
      = collideBullet players' tick' rnd' bullet st) /\
  (forall (players : JsMap.t Player.t) (tick : Z) (rnd : nat -> R)
          (bullet : Bullet.t) (st : Coll.t) (shot : Shot.t)
          (owner : option Player.t) (k : Z) (ball : Ball.t),
      Bullet.homing bullet = true ->
      aim players (Coll.balls st) bullet = Some (shot, owner) ->
      JsMap.get (Coll.balls st) k = Some ball ->
      bulletHitsBall bullet ball (Shot.moveX shot) (Shot.moveY shot) = true ->
      owner = None /\
      Shot.damage shot = IZR (Bullet.damage bullet ?? 1%Z) /\
      (Shot.criticalChance shot = 0 /\ Shot.pierceChance shot = 0 /\
       Shot.areaLevel shot = 0 /\ Shot.pusherChance shot = 0 /\
       Shot.ignitionChance shot = 0)%Z /\
      JsMap.get (Coll.balls (hitBall tick rnd bullet shot st k)) k
      = Some (Ball.with_hp (Ball.hp ball - Shot.damage shot) ball) /\
      In (Bullet.id bullet) (Coll.toRemoveBullets (hitBall tick rnd bullet shot st k)) /\
      Coll.areaDamageHits (hitBall tick rnd bullet shot st k) = Coll.areaDamageHits st /\
      Coll.cursor (hitBall tick rnd bullet shot st k) = Coll.cursor st).
Proof.
  split; [|split].
  - intros g b Hin Hh.
    destruct (spawnBullets_homing g b Hin Hh) as [H|(p & Hp & Ho & Hd & _)];
      [now left|right; now exists p].
  - intros players players' tick tick' rnd rnd' bullet st Hh.
    unfold collideBullet, aim. rewrite Hh.
    destruct (getOpt (Coll.balls st) (Bullet.targetBallId bullet)); [|reflexivity].
    f_equal. apply fold_left_ext. intros x y.
    now rewrite !hitBall_homing.
  - intros players tick rnd bullet st shot owner k ball Hh Ha Hg Hhit.
    unfold aim in Ha. rewrite Hh in Ha.
    destruct (getOpt (Coll.balls st) (Bullet.targetBallId bullet)); [|discriminate].
    injection Ha as <- <-. rewrite hitBall_homing by exact Hh.
    rewrite Hg. cbn [Shot.moveX Shot.moveY] in Hhit. cbn [Shot.moveX Shot.moveY].
    rewrite Hhit. cbn [Coll.balls Coll.toRemoveBullets Coll.areaDamageHits
                       Coll.cursor Shot.damage].
    repeat split.
    + now apply (get_update_same _ _ ball).
    + apply In_add. now right.
Qed.

Lemma brawlShot_hits :
  bulletHitsBall brawlBullet intruder (Shot.moveX brawlShot) (Shot.moveY brawlShot)
  = true.
Proof.
  apply bulletHitsBall_within. exists 0. split; [lra|]. cbn.
  match goal with |- Js.hypot ?a ?b <= _ =>
    replace a with 0 by ring; replace b with 0 by ring end.
  rewrite hypot_0_0. unfold BULLET_RADIUS. lra.
Qed.

(** The homing bullet of the sample state [brawl]. *)
Lemma homing_bullets_ignore_their_owner_witness :
  (In brawlBullet (JsMap.values (Game.bullets (Game.with_tickCount 4 brawl))) \/
   exists p : Player.t,
     In p (JsMap.values (Game.players (Game.with_tickCount 4 brawl))) /\
     Bullet.ownerId brawlBullet = Some (Player.id p) /\
     Bullet.damage brawlBullet = Some (Player.meleeDamage p)) /\
  collideBullet [(1%Z, brawler)] 4 (Env.random calm) brawlBullet
    (Coll.init [(1%Z, intruder)] 0)
  = collideBullet JsMap.empty 5 (fun _ => 1 / 2) brawlBullet
      (Coll.init [(1%Z, intruder)] 0) /\
  (@None Player.t = None /\
   Shot.damage brawlShot = IZR (Bullet.damage brawlBullet ?? 1%Z) /\
   (Shot.criticalChance brawlShot = 0 /\ Shot.pierceChance brawlShot = 0 /\
    Shot.areaLevel brawlShot = 0 /\ Shot.pusherChance brawlShot = 0 /\
    Shot.ignitionChance brawlShot = 0)%Z /\
   JsMap.get
     (Coll.balls
        (hitBall 4 (Env.random calm) brawlBullet brawlShot
           (Coll.init [(1%Z, intruder)] 0) 1)) 1
   = Some (Ball.with_hp (Ball.hp intruder - Shot.damage brawlShot) intruder) /\
   In (Bullet.id brawlBullet)
      (Coll.toRemoveBullets
         (hitBall 4 (Env.random calm) brawlBullet brawlShot
            (Coll.init [(1%Z, intruder)] 0) 1)) /\
   Coll.areaDamageHits
     (hitBall 4 (Env.random calm) brawlBullet brawlShot
        (Coll.init [(1%Z, intruder)] 0) 1)
   = Coll.areaDamageHits (Coll.init [(1%Z, intruder)] 0) /\
   Coll.cursor
     (hitBall 4 (Env.random calm) brawlBullet brawlShot
        (Coll.init [(1%Z, intruder)] 0) 1)
   = Coll.cursor (Coll.init [(1%Z, intruder)] 0)).
Proof.
  split; [|split].
  - apply (proj1 homing_bullets_ignore_their_owner (Game.with_tickCount 4 brawl)
             brawlBullet).
    + rewrite brawl_spawn. cbn. auto.
    + reflexivity.
  - apply (proj1 (proj2 homing_bullets_ignore_their_owner)). reflexivity.
  - apply (proj2 (proj2 homing_bullets_ignore_their_owner) [(1%Z, brawler)]).
    + reflexivity.
    + reflexivity.
    + reflexivity.
    + exact brawlShot_hits.
Defined.

End Homing.

(** ** The client reconciler *)

Section Reconciler.
Local Open Scope R_scope.

(** The ends of a linear interpolation. *)
Lemma lerp_0 (a b : R) : Client.lerp a b 0 = a.
Proof. unfold Client.lerp. ring. Qed.

Lemma lerp_1 (a b : R) : Client.lerp a b 1 = b.
Proof. unfold Client.lerp. ring. Qed.

Section EntityFacts.
Context {A : Type} `{Client.Entity A}.
Hypothesis at_id : forall x y b, Client.ent_id (Client.ent_at x y b) = Client.ent_id b.
Hypothesis at_x : forall x y b, Client.ent_x (Client.ent_at x y b) = x.
Hypothesis at_y : forall x y b, Client.ent_y (Client.ent_at x y b) = y.

(** [find] returns an entity of the array with the id searched. *)
Lemma sameId_Some (arr : list A) (b e : A) :
  Client.sameId arr b = Some e -> In e arr /\ Client.ent_id e = Client.ent_id b.
Proof.
  unfold Client.sameId, Js.find. intros Hf. apply find_some in Hf.
  destruct Hf as [Hin E]. apply Z.eqb_eq in E. now split.
Qed.

Lemma lerpEntity_id (a : option A) (b : A) (t : R) :
  Client.ent_id (Client.lerpEntity a b t) = Client.ent_id b.
Proof. destruct a; cbn; [apply at_id|reflexivity]. Qed.

(** Between two snapshots: an entity of the later one that the earlier one
    also has is drawn at the interpolated position. *)
Lemma rendered_between (old new : list A) (e0 e1 : A) (t : R) :
  In e1 new -> Client.sameId old e1 = Some e0 ->
  renderedAt (map (fun pb => Client.lerpEntity (Client.sameId old pb) pb t) new)
    (Client.ent_id e1)
    (Client.lerp (Client.ent_x e0) (Client.ent_x e1) t)
    (Client.lerp (Client.ent_y e0) (Client.ent_y e1) t).
Proof.
  intros Hin Hs. exists (Client.lerpEntity (Client.sameId old e1) e1 t).
  split; [apply in_map_iff; now exists e1|].
  rewrite lerpEntity_id, Hs. cbn. rewrite at_x, at_y. repeat split.
Qed.

(** At fraction 1 every entity of the later snapshot is drawn where that
    snapshot has it. *)
Lemma rendered_at_end (old new : list A) (e : A) :
  In e new ->
  renderedAt (map (fun pb => Client.lerpEntity (Client.sameId old pb) pb 1) new)
    (Client.ent_id e) (Client.ent_x e) (Client.ent_y e).
Proof.
  intros Hin. exists (Client.lerpEntity (Client.sameId old e) e 1).
  split; [apply in_map_iff; now exists e|].
  rewrite lerpEntity_id. destruct (Client.sameId old e) as [a|]; cbn.
  - rewrite at_x, at_y, !lerp_1. repeat split.
  - repeat split.
Qed.

End EntityFacts.


(** In a buffer with increasing receipt times, the search finds the pair
    [s0], [s1] that brackets [r], or, when [r] is the receipt time of [s0],
    the pair that ends at [s0]. *)
Lemma findBracket_sorted (r : R) (pre post : list Client.Buffered.t)
    (s0 s1 : Client.Buffered.t) :
  StronglySorted Rlt (map Client.Buffered.time (pre ++ s0 :: s1 :: post)) ->
  Client.Buffered.time s0 <= r <= Client.Buffered.time s1 ->
  Client.findBracket r (pre ++ s0 :: s1 :: post) = Some (s0, s1) \/
  exists a : Client.Buffered.t,
    Client.findBracket r (pre ++ s0 :: s1 :: post) = Some (a, s0) /\
    Client.Buffered.time a < Client.Buffered.time s0 /\
    Client.Buffered.time s0 = r.
Proof.
  intros Hs [H0 H1].
  assert (Hbase : Client.findBracket r (s0 :: s1 :: post) = Some (s0, s1)).
  { cbn. holds (Js.Rleb (Client.Buffered.time s0) r).
    holds (Js.Rleb r (Client.Buffered.time s1)).
    reflexivity. }
  induction pre as [|a pre IH]; [now left|].
  cbn [app map] in Hs. apply StronglySorted_inv in Hs. destruct Hs as [Hs Ha].
  specialize (IH Hs).
  rewrite Forall_forall in Ha.
  assert (Ha0 : Client.Buffered.time a < Client.Buffered.time s0).
  { apply Ha. apply in_map. apply in_or_app. right. now left. }
  destruct pre as [|b pre].
  - cbn [app] in *. cbn [Client.findBracket].
    holds (Js.Rleb (Client.Buffered.time a) r).
    cbn [andb]. destruct (Js.Rleb r (Client.Buffered.time s0)) eqn:E.
    + apply Rleb_true in E. right. exists a. repeat split; [exact Ha0|lra].
    + left. exact Hbase.
  - assert (Hb : Client.Buffered.time b < Client.Buffered.time s0).
    { cbn [app map] in Hs. apply StronglySorted_inv in Hs. destruct Hs as [_ Hb].
      rewrite Forall_forall in Hb. apply Hb. apply in_map.
      apply in_or_app. right. now left. }
    cbn [app Client.findBracket].
    fails (Js.Rleb r (Client.Buffered.time b)).
    rewrite andb_false_r. exact IH.
Qed.

(** The extrapolation of a bullet, by cases. *)
Lemma extrapolate_homing (elapsed : R) (b : Bullet.t) :
  Bullet.homing b = true -> Client.extrapolate elapsed b = b.
Proof. intros H. unfold Client.extrapolate. now rewrite H. Qed.

Lemma extrapolate_flying (elapsed : R) (b : Bullet.t) :
  Bullet.homing b = false ->
  Client.extrapolate elapsed b
  = Bullet.with_pos
      (Bullet.x b + knownVx b * (elapsed / Client.SERVER_TICK_MS))
      (Bullet.y b + knownVy b * (elapsed / Client.SERVER_TICK_MS)) b.
Proof.
  intros H. unfold Client.extrapolate, knownVx, knownVy. rewrite H.
  destruct (Js.notNull (Bullet.vx b) || Js.notNull (Bullet.vy b)) eqn:E;
    [reflexivity|].
  apply orb_false_elim in E. destruct E as [Ex Ey].
  destruct (Bullet.vx b); [discriminate|]. destruct (Bullet.vy b); [discriminate|].
  unfold Bullet.with_y, Bullet.with_pos. cbn.
  f_equal; unfold Client.PX_PER_MS_BULLET, Client.SERVER_TICK_MS,
             Client.BULLET_SPEED; field.
Qed.

(** The render when the search has found a pair. *)
Lemma getInterpolatedState_bracket (now : R) (buf : list Client.Buffered.t)
    (prev next d : Client.Buffered.t) :
  Client.findBracket (now - Client.INTERP_DELAY_MS) buf = Some (prev, next) ->
  Client.getInterpolatedState now buf
  = Some
      (Client.State.with_bullets
         (map (Client.extrapolate (now - Client.Buffered.time (last buf d)))
              (Client.State.bullets (Client.Buffered.state (last buf d))))
         (Client.lerpState (Some (Client.Buffered.state prev))
            (Client.Buffered.state next)
            (Rmin 1
               (Rmax 0
                  ((now - Client.INTERP_DELAY_MS - Client.Buffered.time prev)
                   / (if Js.Reqb (Client.Buffered.time next
                                  - Client.Buffered.time prev) 0
                      then 1
                      else Client.Buffered.time next
                           - Client.Buffered.time prev)))))).
Proof.
  intros Hf. destruct buf as [|first rest]; [discriminate|].
  unfold Client.getInterpolatedState. rewrite Hf.
  now rewrite (last_default (first :: rest) first d).
Qed.

(** The search has found [s0], [s1] themselves. *)
Lemma reconciles_found (now : R) (buf : list Client.Buffered.t)
    (s0 s1 : Client.Buffered.t) :
  Client.findBracket (now - Client.INTERP_DELAY_MS) buf = Some (s0, s1) ->
  Client.Buffered.time s0 <= now - Client.INTERP_DELAY_MS
    <= Client.Buffered.time s1 ->
  reconciles now buf s0 s1.
Proof.
  intros Hf Hr. unfold reconciles.
  rewrite (getInterpolatedState_bracket now buf _ _ s1 Hf).
  set (r := now - Client.INTERP_DELAY_MS) in *.
  set (t0 := Client.Buffered.time s0) in *.
  set (t1 := Client.Buffered.time s1) in *.
  assert (Ha : Rmin 1 (Rmax 0 ((r - t0) / (if Js.Reqb (t1 - t0) 0 then 1 else t1 - t0)))
               = fraction t0 t1 r).
  { unfold fraction. destruct (Js.Reqb (t1 - t0) 0) eqn:E; [|reflexivity].
    apply Reqb_true in E. replace (r - t0) with 0 by lra.
    unfold Rdiv. now rewrite !Rmult_0_l. }
  rewrite Ha. eexists. split; [reflexivity|].
  cbn [Client.lerpState Client.State.with_bullets Client.State.players
       Client.State.balls Client.State.bullets].
  split; [|split; [|split; [reflexivity|split]]].
  - intros p0 p1 Hin Hsame.
    apply (@rendered_between PlayerView.t Client.PlayerEntity
             (fun _ _ _ => eq_refl) (fun _ _ _ => eq_refl)
             (fun _ _ _ => eq_refl) _ _ p0 p1 _ Hin Hsame).
  - intros b0 b1 Hin Hsame.
    apply (@rendered_between BallView.t Client.BallEntity
             (fun _ _ _ => eq_refl) (fun _ _ _ => eq_refl)
             (fun _ _ _ => eq_refl) _ _ b0 b1 _ Hin Hsame).
  - intros b _. apply extrapolate_homing.
  - intros b _. apply extrapolate_flying.
Qed.

(** The render time is the receipt time of [s0], and the search has found
    the pair that ends at [s0]. *)
Lemma reconciles_found_before (now : R) (buf : list Client.Buffered.t)
    (a s0 s1 : Client.Buffered.t) :
  Client.findBracket (now - Client.INTERP_DELAY_MS) buf = Some (a, s0) ->
  Client.Buffered.time a < Client.Buffered.time s0 ->
  Client.Buffered.time s0 = now - Client.INTERP_DELAY_MS ->
  Client.Buffered.time s0 < Client.Buffered.time s1 ->
  reconciles now buf s0 s1.
Proof.
  intros Hf Ha Hr0 Ht. unfold reconciles.
  rewrite (getInterpolatedState_bracket now buf _ _ s1 Hf).
  set (r := now - Client.INTERP_DELAY_MS) in *.
  set (t0 := Client.Buffered.time s0) in *.
  set (t1 := Client.Buffered.time s1) in *.
  fails (Js.Reqb (t0 - Client.Buffered.time a) 0).
  assert (Hone : Rmin 1 (Rmax 0 ((r - Client.Buffered.time a)
                                 / (t0 - Client.Buffered.time a))) = 1).
  { rewrite <- Hr0. unfold Rdiv. rewrite Rinv_r by lra.
    rewrite Rmax_right by lra. apply Rmin_left. lra. }
  rewrite Hone.
  assert (Hzero : fraction t0 t1 r = 0).
  { unfold fraction. rewrite <- Hr0.
    replace ((t0 - t0) / (t1 - t0)) with 0 by (field; lra).
    rewrite Rmax_left by lra. apply Rmin_right. lra. }
  rewrite Hzero. eexists. split; [reflexivity|].
  cbn [Client.lerpState Client.State.with_bullets Client.State.players
       Client.State.balls Client.State.bullets].
  split; [|split; [|split; [reflexivity|split]]].
  - intros p0 p1 Hin Hsame.
    destruct (sameId_Some _ _ _ Hsame) as [Hin0 Hid].
    rewrite !lerp_0. cbn in Hid. rewrite <- Hid.
    apply (@rendered_at_end PlayerView.t Client.PlayerEntity
             (fun _ _ _ => eq_refl) (fun _ _ _ => eq_refl)
             (fun _ _ _ => eq_refl) _ _ p0 Hin0).
  - intros b0 b1 Hin Hsame.
    destruct (sameId_Some _ _ _ Hsame) as [Hin0 Hid].
    rewrite !lerp_0. cbn in Hid. rewrite <- Hid.
    apply (@rendered_at_end BallView.t Client.BallEntity
             (fun _ _ _ => eq_refl) (fun _ _ _ => eq_refl)
             (fun _ _ _ => eq_refl) _ _ b0 Hin0).
  - intros b _. apply extrapolate_homing.
  - intros b _. apply extrapolate_flying.
Qed.

(** Claim C7, as the code has it.  Let [s0], [s1] be two buffered snapshots
    whose receipt times [t0], [t1] bracket the render time [r]: either they
    are the whole buffer, or they are consecutive in a buffer whose receipt
    times strictly increase.
    Then every player and every ball that both snapshots have is drawn at the
    linear interpolation of its two positions at the fraction
    (r - t0) / (t1 - t0), clamped to [0, 1].  The bullets drawn are those of
    the newest snapshot: a homing bullet exactly as last reported, any other
    bullet moved on from its reported position by its known or default
    velocity times the time elapsed since that snapshot. *)
Theorem reconciler_interpolates_and_extrapolates :
  (forall (now : R) (s0 s1 : Client.Buffered.t),
      Client.Buffered.time s0 <= now - Client.INTERP_DELAY_MS
        <= Client.Buffered.time s1 ->
      reconciles now [s0; s1] s0 s1) /\
  (forall (now : R) (pre post : list Client.Buffered.t)
          (s0 s1 : Client.Buffered.t),
      StronglySorted Rlt
        (map Client.Buffered.time (pre ++ s0 :: s1 :: post)) ->
      Client.Buffered.time s0 <= now - Client.INTERP_DELAY_MS
        <= Client.Buffered.time s1 ->
      reconciles now (pre ++ s0 :: s1 :: post) s0 s1).
Proof.
  split.
  - intros now s0 s1 Hr. apply reconciles_found; [|exact Hr].
    destruct Hr as [H0 H1]. cbn.
    holds (Js.Rleb (Client.Buffered.time s0) (now - Client.INTERP_DELAY_MS)).
    holds (Js.Rleb (now - Client.INTERP_DELAY_MS) (Client.Buffered.time s1)).
    reflexivity.
  - intros now pre post s0 s1 Hs Hr.
    assert (Ht : Client.Buffered.time s0 < Client.Buffered.time s1).
    { clear - Hs. induction pre as [|a pre IH].
      - cbn in Hs. apply StronglySorted_inv in Hs. destruct Hs as [_ H].
        now inversion H.
      - cbn in Hs. apply StronglySorted_inv in Hs. now apply IH. }
    destruct (findBracket_sorted _ pre post s0 s1 Hs Hr)
      as [Hf|(a & Hf & Ha & Hr0)].
    + now apply reconciles_found.
    + now apply (reconciles_found_before now _ a).
Qed.

(** The sample buffers of two and of three snapshots. *)
Lemma reconciler_interpolates_and_extrapolates_witness :
  reconciles 100 [snapA; snapB] snapA snapB /\
  reconciles 250 ([snapA] ++ snapB :: snapC :: []) snapB snapC.
Proof.
  split.
  - apply (proj1 reconciler_interpolates_and_extrapolates 100 snapA snapB).
    cbn. unfold Client.INTERP_DELAY_MS. lra.
  - apply (proj2 reconciler_interpolates_and_extrapolates 250 [snapA] [] snapB snapC).
    + cbn. repeat constructor; lra.
    + cbn. unfold Client.INTERP_DELAY_MS. lra.
Defined.

(** If the render reconciles [s0] and [s1] and draws every player at [x],
    then [x] is the interpolation of the sample player between the two. *)
Lemma sample_player_drawn (now : R) (buf : list Client.Buffered.t)
    (s0 s1 : Client.Buffered.t) (x0 x1 x : R) (st : Client.State.t) :
  Client.getInterpolatedState now buf = Some st ->
  (forall e : PlayerView.t, In e (Client.State.players st) -> PlayerView.x e = x) ->
  Client.Buffered.state s0 = stateAt x0 ->
  Client.Buffered.state s1 = stateAt x1 ->
  reconciles now buf s0 s1 ->
  x = Client.lerp x0 x1
        (fraction (Client.Buffered.time s0) (Client.Buffered.time s1)
           (now - Client.INTERP_DELAY_MS)).
Proof.
  intros Hst Hp E0 E1 (st' & Hst' & P & _).
  rewrite Hst in Hst'. injection Hst' as <-.
  rewrite E0, E1 in P.
  destruct (P (viewAt x0) (viewAt x1)) as (e & Hin & _ & Hx & _).
  - cbn. now left.
  - reflexivity.
  - rewrite <- (Hp e Hin). exact Hx.
Qed.

(** Two renders that depart from the interpolation of a bracketing pair.
    In the first the buffer holds two snapshots received at the same clock
    reading 100, the render time is 100, and the pair ([snapB], [snapC])
    brackets it: the search stops at the pair of the two tied snapshots, and
    the player is drawn at x = 100, where the earlier of them has it, not at
    x = 200.  In the second the receipt times increase, and [snapB] and
    [snapD] bracket the render time 200 but are not consecutive: the player
    is drawn at x = 300, where the snapshot between them has it, not half
    way between 200 and 100. *)
Lemma reconciler_needs_increasing_consecutive :
  (Client.Buffered.time snapB <= 150 - Client.INTERP_DELAY_MS
     <= Client.Buffered.time snapC /\
   ~ reconciles 150 [tied; snapB; snapC] snapB snapC) /\
  (Client.Buffered.time snapB <= 250 - Client.INTERP_DELAY_MS
     <= Client.Buffered.time snapD /\
   StronglySorted Rlt (map Client.Buffered.time [snapB; snapC; snapD]) /\
   ~ reconciles 250 [snapB; snapC; snapD] snapB snapD).
Proof.
  split; [|split].
  - split; [cbn; unfold Client.INTERP_DELAY_MS; lra|]. intros H.
    assert (Hf : Client.findBracket (150 - Client.INTERP_DELAY_MS) [tied; snapB; snapC]
                 = Some (tied, snapB)).
    { unfold Client.INTERP_DELAY_MS. cbn.
      holds (Js.Rleb 100 (150 - 50)). holds (Js.Rleb (150 - 50) 100). reflexivity. }
    pose proof (getInterpolatedState_bracket 150 _ _ _ snapC Hf) as G.
    pose proof (sample_player_drawn 150 _ snapB snapC 200 300 100 _ G) as D.
    cbn in D. unfold Client.INTERP_DELAY_MS in D.
    assert (D' : 100 = Client.lerp 200 300 (fraction 100 200 (150 - 50))).
    { apply D; [|reflexivity|reflexivity|exact H].
      intros e [<-|[]]. cbn. unfold Client.lerp.
      holds (Js.Reqb (100 - 100) 0).
      replace ((150 - 50 - 100) / 1) with 0 by field.
      rewrite Rmax_left by lra. rewrite Rmin_right by lra. ring. }
    unfold fraction, Client.lerp in D'.
    replace ((150 - 50 - 100) / (200 - 100)) with 0 in D' by field.
    rewrite Rmax_left in D' by lra. rewrite Rmin_right in D' by lra. lra.
  - cbn. unfold Client.INTERP_DELAY_MS. lra.
  - split; [cbn; repeat constructor; lra|]. intros H.
    assert (Hf : Client.findBracket (250 - Client.INTERP_DELAY_MS) [snapB; snapC; snapD]
                 = Some (snapB, snapC)).
    { unfold Client.INTERP_DELAY_MS. cbn.
      holds (Js.Rleb 100 (250 - 50)). holds (Js.Rleb (250 - 50) 200). reflexivity. }
    pose proof (getInterpolatedState_bracket 250 _ _ _ snapD Hf) as G.
    pose proof (sample_player_drawn 250 _ snapB snapD 200 100 300 _ G) as D.
    cbn in D. unfold Client.INTERP_DELAY_MS in D.
    assert (D' : 300 = Client.lerp 200 100 (fraction 100 300 (250 - 50))).
    { apply D; [|reflexivity|reflexivity|exact H].
      intros e [<-|[]]. cbn. unfold Client.lerp.
      fails (Js.Reqb (200 - 100) 0).
      replace ((250 - 50 - 100) / (200 - 100)) with 1 by field.
      rewrite Rmax_right by lra. rewrite Rmin_left by lra. ring. }
    unfold fraction, Client.lerp in D'.
    replace ((250 - 50 - 100) / (300 - 100)) with (1 / 2) in D' by field.
    rewrite Rmax_right in D' by lra. rewrite Rmin_right in D' by lra. lra.
Qed.

(** Half way between the two sample snapshots the player is drawn half way
    between its two positions. *)
Lemma sample_half_way :
  fraction 0 100 (100 - Client.INTERP_DELAY_MS) = 1 / 2 /\
  Client.lerp 100 200 (1 / 2) = 150.
Proof.
  split.
  - unfold fraction, Client.INTERP_DELAY_MS.
    replace ((100 - 50 - 0) / (100 - 0)) with (1 / 2) by field.
    rewrite Rmax_right by lra. apply Rmin_right. lra.
  - unfold Client.lerp. field.
Qed.

End Reconciler.

(* ================================================================== *)
(** * Part III: further properties of the code *)
(* ================================================================== *)

(** ** Lookups and invariants of the values of a map *)

Section MapUpdates.
Local Open Scope R_scope.

Section ValueFacts.
Context {V : Type} (P : V -> Prop).

Lemma Forall_values_update_all (f : V -> V) (m : JsMap.t V) :
  (forall v, P v -> P (f v)) ->
  Forall P (JsMap.values m) -> Forall P (JsMap.values (JsMap.update_all f m)).
Proof.
  intros Hf. unfold JsMap.values, JsMap.update_all. rewrite !Forall_map.
  apply Forall_impl. intros [k v]. cbn. apply Hf.
Qed.

Lemma Forall_values_update (f : V -> V) (m : JsMap.t V) (k : Z) :
  (forall v, P v -> P (f v)) ->
  Forall P (JsMap.values m) -> Forall P (JsMap.values (JsMap.update m k f)).
Proof.
  intros Hf. unfold JsMap.values, JsMap.update. rewrite !Forall_map.
  apply Forall_impl. intros [k' v]. cbn. destruct (k' =? k)%Z; cbn; auto.
Qed.

Lemma Forall_values_forEachSt {S : Type} (f : V -> S -> V * S) (m : JsMap.t V) (s : S) :
  (forall v s, P v -> P (fst (f v s))) ->
  Forall P (JsMap.values m) ->
  Forall P (JsMap.values (fst (JsMap.forEachSt f m s))).
Proof.
  intros Hf. revert s. induction m as [|[k v] m IH]; intros s H; cbn; [constructor|].
  inversion H as [|? ? Hv Hm]; subst.
  specialize (Hf v s Hv). destruct (f v s) as [v' s1].
  specialize (IH s1 Hm). destruct (JsMap.forEachSt f m s1) as [m' s2].
  cbn in *. constructor; assumption.
Qed.

Lemma Forall_values_set (m : JsMap.t V) (k : Z) (v : V) :
  P v -> Forall P (JsMap.values m) -> Forall P (JsMap.values (JsMap.set m k v)).
Proof.
  intros Hv H. apply Forall_forall. intros x Hx.
  apply In_values_set in Hx. destruct Hx as [-> | Hx]; [exact Hv|].
  rewrite Forall_forall in H. now apply H.
Qed.

Lemma Forall_values_delete (m : JsMap.t V) (k : Z) :
  Forall P (JsMap.values m) -> Forall P (JsMap.values (JsMap.delete m k)).
Proof.
  intros H. apply Forall_forall. intros x Hx.
  unfold JsMap.values in *. apply in_map_iff in Hx. destruct Hx as ([k' v] & <- & Hin).
  apply delete_incl in Hin. rewrite Forall_forall in H. apply H.
  apply in_map_iff. now exists (k', v).
Qed.

End ValueFacts.

Lemma Forall_values_always {V S : Type} (P : V -> Prop) (f : V -> S -> V * S)
    (m : JsMap.t V) (s : S) :
  (forall v s, P (fst (f v s))) ->
  Forall P (JsMap.values (fst (JsMap.forEachSt f m s))).
Proof.
  intros Hf. revert s. induction m as [|[k v] m IH]; intros s; cbn; [constructor|].
  pose proof (Hf v s) as Hv. destruct (f v s) as [v' s1].
  specialize (IH s1). destruct (JsMap.forEachSt f m s1) as [m' s2].
  cbn in *. constructor; assumption.
Qed.

Lemma Forall_values_delete_all {V : Type} (P : V -> Prop) (m : JsMap.t V) (ids : list Z) :
  Forall P (JsMap.values m) -> Forall P (JsMap.values (JsMap.delete_all m ids)).
Proof.
  revert m. induction ids as [|k ids IH]; intros m H; [exact H|].
  cbn. apply IH. now apply Forall_values_delete.
Qed.

Section MapLookup.
Context {V : Type}.

Lemma get_set_same (m : JsMap.t V) (k : Z) (v : V) :
  JsMap.get (JsMap.set m k v) k = Some v.
Proof.
  induction m as [|[k' v'] m IH]; cbn; [now rewrite Z.eqb_refl|].
  destruct (k =? k')%Z eqn:E; cbn; [now rewrite Z.eqb_refl|now rewrite E].
Qed.

Lemma get_set_other (m : JsMap.t V) (k k' : Z) (v : V) :
  k' <> k -> JsMap.get (JsMap.set m k v) k' = JsMap.get m k'.
Proof.
  intros Hne. induction m as [|[k0 v0] m IH]; cbn.
  - destruct (k' =? k)%Z eqn:E; [apply Z.eqb_eq in E; congruence|reflexivity].
  - destruct (k =? k0)%Z eqn:E; cbn.
    + apply Z.eqb_eq in E. subst k0.
      destruct (k' =? k)%Z eqn:E'; [apply Z.eqb_eq in E'; congruence|reflexivity].
    + destruct (k' =? k0)%Z; [reflexivity|exact IH].
Qed.

Lemma get_update (m : JsMap.t V) (k k' : Z) (f : V -> V) :
  JsMap.get (JsMap.update m k f) k'
  = if (k' =? k)%Z then option_map f (JsMap.get m k') else JsMap.get m k'.
Proof.
  induction m as [|[k0 v0] m IH]; cbn; [now destruct (k' =? k)%Z|].
  destruct (k0 =? k)%Z eqn:E0; cbn; destruct (k' =? k0)%Z eqn:E1; cbn.
  - apply Z.eqb_eq in E0, E1. subst. now rewrite Z.eqb_refl.
  - exact IH.
  - apply Z.eqb_eq in E1. subst. now rewrite E0.
  - exact IH.
Qed.

Lemma get_update_all (m : JsMap.t V) (k : Z) (f : V -> V) :
  JsMap.get (JsMap.update_all f m) k = option_map f (JsMap.get m k).
Proof.
  induction m as [|[k0 v0] m IH]; cbn; [reflexivity|].
  destruct (k =? k0)%Z; [reflexivity|exact IH].
Qed.

Lemma get_delete_other (m : JsMap.t V) (k k' : Z) :
  k' <> k -> JsMap.get (JsMap.delete m k) k' = JsMap.get m k'.
Proof.
  intros Hne. induction m as [|[k0 v0] m IH]; cbn; [reflexivity|].
  destruct (k =? k0)%Z eqn:E; cbn.
  - apply Z.eqb_eq in E. subst k0.
    destruct (k' =? k)%Z eqn:E'; [apply Z.eqb_eq in E'; congruence|reflexivity].
  - destruct (k' =? k0)%Z; [reflexivity|exact IH].
Qed.

(** The object a stateful pass leaves under a key is the callback's result
    on the object that was there. *)
Lemma get_forEachSt {S : Type} (f : V -> S -> V * S) (m : JsMap.t V) (s : S) (k : Z) :
  match JsMap.get m k with
  | Some v => exists s', JsMap.get (fst (JsMap.forEachSt f m s)) k = Some (fst (f v s'))
  | None => JsMap.get (fst (JsMap.forEachSt f m s)) k = None
  end.
Proof.
  revert s. induction m as [|[k0 v0] m IH]; intros s; cbn; [reflexivity|].
  destruct (f v0 s) as [v' s1] eqn:E. specialize (IH s1).
  destruct (JsMap.forEachSt f m s1) as [m' s2]. cbn [fst] in *. cbn.
  destruct (k =? k0)%Z; [|exact IH].
  exists s. now rewrite E.
Qed.

End MapLookup.

Lemma get_In {V : Type} (m : JsMap.t V) (k : Z) (v : V) :
  JsMap.get m k = Some v -> In (k, v) m.
Proof.
  induction m as [|[k0 v0] m IH]; cbn; [discriminate|].
  destruct (k =? k0)%Z eqn:E.
  - apply Z.eqb_eq in E. intros [= ->]. left. congruence.
  - intros H. right. now apply IH.
Qed.

Lemma NoDup_get {V : Type} (m : JsMap.t V) (k : Z) (v : V) :
  NoDup (JsMap.keys m) -> In (k, v) m -> JsMap.get m k = Some v.
Proof.
  induction m as [|[k0 v0] m IH]; intros Hd Hin; [destruct Hin|].
  cbn in Hd. inversion Hd as [|? ? Hn Hd']; subst.
  destruct Hin as [[= -> ->]|Hin]; cbn.
  - now rewrite Z.eqb_refl.
  - destruct (k =? k0)%Z eqn:E; [|now apply IH].
    apply Z.eqb_eq in E. subst k0. exfalso. apply Hn.
    unfold JsMap.keys. apply in_map_iff. now exists (k, v).
Qed.

Lemma get_delete_all_other {V : Type} (ids : list Z) (m : JsMap.t V) (k : Z) :
  ~ In k ids -> JsMap.get (JsMap.delete_all m ids) k = JsMap.get m k.
Proof.
  revert m. induction ids as [|i ids IH]; intros m Hn; [reflexivity|].
  change (JsMap.delete_all m (i :: ids)) with (JsMap.delete_all (JsMap.delete m i) ids).
  rewrite IH by (intros H; apply Hn; now right).
  apply get_delete_other. intros ->. apply Hn. now left.
Qed.

(** A pass that reaches the entry [(k, v)] establishes what its callback
    establishes there, if the later callbacks keep it. *)
Lemma forEachSt_reach {V S : Type} (Inv Q : S -> Prop) (f : V -> S -> V * S)
    (m : JsMap.t V) (s : S) (k : Z) (v : V) :
  In (k, v) m ->
  (forall v' s', Inv s' -> Inv (snd (f v' s'))) ->
  (forall s', Inv s' -> Q (snd (f v s'))) ->
  (forall v' s', Q s' -> Q (snd (f v' s'))) ->
  Inv s -> Q (snd (JsMap.forEachSt f m s)).
Proof.
  intros Hin Hinv Hq Hmono. revert s.
  induction m as [|[k0 v0] m IH]; intros s Hs; [destruct Hin|].
  cbn [JsMap.forEachSt].
  destruct Hin as [[= -> ->]|Hin].
  - pose proof (Hq s Hs) as Q1.
    destruct (f v s) as [v' s1]. cbn [snd] in Q1.
    pose proof (forEachSt_inv Q f m s1 Hmono Q1) as Q2.
    destruct (JsMap.forEachSt f m s1) as [m' s2]. exact Q2.
  - pose proof (Hinv v0 s Hs) as I1.
    destruct (f v0 s) as [v' s1]. cbn [snd] in I1.
    specialize (IH Hin s1 I1).
    destruct (JsMap.forEachSt f m s1) as [m' s2]. exact IH.
Qed.

Lemma incl_add (s : JsSet.t) (k : Z) : incl s (JsSet.add s k).
Proof. intros x Hx. apply In_add. now left. Qed.

Lemma In_add_same (s : JsSet.t) (k : Z) : In k (JsSet.add s k).
Proof. apply In_add. now right. Qed.

End MapUpdates.

(** ** Spawning of balls *)

Section Spawning.
Local Open Scope R_scope.

(** Property X1.  [pickBallType] splits the range of [Math.random] by the
    spawn rates 3 : 2 : 1 of the catalogue: the draw [u] gives a normal ball
    exactly when [u <= 1/2], a fast ball when [1/2 < u <= 5/6], and a big
    ball when [u] exceeds 5/6 by at least 2^-52; the [return] after the loop
    is never reached.  Between 5/6 and 5/6 + 2^-52 nothing is stated: there
    the rounding of [u * 6] decides between fast and big. *)
Theorem pickBallType_thresholds (env : Env.t) (n : nat) :
  let u := Env.random env n in
  (pickBallType u = normal <-> u <= 1 / 2) /\
  (1 / 2 < u <= 5 / 6 -> pickBallType u = fast) /\
  (5 / 6 + / 2 ^ 52 <= u -> pickBallType u = big).
Proof.
  intros u. pose proof (Env.random_range env n) as Hu. fold u in Hu.
  assert (He : 0 < / 2 ^ 52) by (apply Rinv_0_lt_compat, pow_lt; lra).
  revert He. generalize (/ 2 ^ 52). intros e He.
  unfold pickBallType. cbn -[Js.Rleb].
  destruct (Js.Rleb (u * (0 + 3 + 2 + 1) - 3) 0) eqn:E1.
  - apply Rleb_true in E1. split; [split; [intros _; lra|intros _; reflexivity]|].
    split; intros H; lra.
  - apply Rleb_false in E1.
    destruct (Js.Rleb (u * (0 + 3 + 2 + 1) - 3 - 2) 0) eqn:E2.
    + apply Rleb_true in E2. split; [split; [discriminate|intros H; lra]|].
      split; [intros _; reflexivity|intros H; lra].
    + apply Rleb_false in E2.
      destruct (Js.Rleb (u * (0 + 3 + 2 + 1) - 3 - 2 - 1) 0) eqn:E3.
      * split; [split; [discriminate|intros H; lra]|].
        split; [intros H; lra|intros _; reflexivity].
      * apply Rleb_false in E3. lra.
Qed.

Lemma ballRadius_cases (ty : BallType) :
  ballRadius ty = match ty with normal => 44 | fast => 30 | big => 70 end.
Proof. destruct ty; reflexivity. Qed.

Lemma spawnBall_ball (env : Env.t) (c : nat) (ty : option BallType) (g : Game.t) :
  let ty' := fst (fst (spawnBall (Env.random env) c ty g)) in
  let g' := snd (fst (spawnBall (Env.random env) c ty g)) in
  exists ball : Ball.t,
    Game.balls g' = JsMap.set (Game.balls g) (Game.nextBallId g) ball /\
    Game.nextBallId g' = (Game.nextBallId g + 1)%Z /\
    Ball.id ball = Game.nextBallId g /\
    Ball.type ball = ty' /\
    Ball.hp ball = Ball.maxHp ball /\ 0 < Ball.hp ball /\
    Ball.burnEndTick ball = None.
Proof.
  intros ty' g'. subst ty' g'. unfold spawnBall.
  destruct ty as [ty|]; eexists; cbn -[pickBallType];
    repeat split; try reflexivity.
  - destruct ty; cbn; lra.
  - destruct (pickBallType _); cbn; lra.
Qed.

(** Property X2.  [spawnBall] keeps the type it is given, if any, stores one
    new ball under the next ball id and advances the counter by one.  The
    ball carries that id and the type returned, has the full, positive hit
    points and the positive speed of its type, does not burn, lies
    horizontally within the room by its radius, and is wholly above the top
    edge of the room: its lowest point is 10 px above the edge. *)
Theorem spawnBall_placement (env : Env.t) (c : nat) (ty : option BallType) (g : Game.t) :
  let ty' := fst (fst (spawnBall (Env.random env) c ty g)) in
  let g' := snd (fst (spawnBall (Env.random env) c ty g)) in
  (forall t : BallType, ty = Some t -> ty' = t) /\
  exists ball : Ball.t,
    Game.balls g' = JsMap.set (Game.balls g) (Game.nextBallId g) ball /\
    Game.nextBallId g' = (Game.nextBallId g + 1)%Z /\
    Ball.id ball = Game.nextBallId g /\
    Ball.type ball = ty' /\
    Ball.hp ball = BallDef.hp (BALL_TYPES ty') /\
    Ball.maxHp ball = Ball.hp ball /\ 0 < Ball.hp ball /\
    Ball.speed ball = BallDef.speed (BALL_TYPES ty') /\ 0 < Ball.speed ball /\
    Ball.burnEndTick ball = None /\
    Ball.radius ball <= Ball.x ball < ROOM_WIDTH - Ball.radius ball /\
    Ball.y ball + Ball.radius ball = -10.
Proof.
  intros ty' g'. subst ty' g'. unfold spawnBall.
  destruct ty as [ty|].
  - pose proof (Env.random_range env c).
    split; [intros t [= ->]; reflexivity|].
    eexists. cbn. repeat split; try reflexivity;
      rewrite ?ballRadius_cases; unfold ROOM_WIDTH; destruct ty; cbn; lra.
  - pose proof (Env.random_range env (S c)).
    split; [discriminate|].
    eexists. cbn -[pickBallType]. repeat split; try reflexivity;
      rewrite ?ballRadius_cases; unfold ROOM_WIDTH;
      destruct (pickBallType _); cbn; lra.
Qed.

(** Powers of a base in (0, 1]. *)
Lemma powerRZ_le_1 (x : R) (n : Z) : 0 < x <= 1 -> (0 <= n)%Z -> 0 < powerRZ x n <= 1.
Proof.
  intros Hx Hn. rewrite <- (Z2Nat.id n) by lia. rewrite <- pow_powerRZ.
  induction (Z.to_nat n) as [|k IH]; cbn; [lra|]. nra.
Qed.

Lemma powerRZ_anti (x : R) (n m : Z) :
  0 < x <= 1 -> (0 <= n <= m)%Z -> powerRZ x m <= powerRZ x n.
Proof.
  intros Hx Hnm. replace m with (n + (m - n))%Z by lia.
  rewrite powerRZ_add by lra.
  pose proof (powerRZ_le_1 x n Hx ltac:(lia)).
  pose proof (powerRZ_le_1 x (m - n) Hx ltac:(lia)). nra.
Qed.

Lemma Int_part_mono (a b : R) : a <= b -> (Int_part a <= Int_part b)%Z.
Proof.
  intros H. destruct (base_Int_part a) as [Ha _]. destruct (base_Int_part b) as [_ Hb].
  assert (IZR (Int_part a) < IZR (Int_part b) + 1) by lra.
  rewrite <- plus_IZR in H0. apply lt_IZR in H0. lia.
Qed.

Lemma spawnIntervalTicks_bounds (w1 w2 : Z) :
  (1 <= w1 <= w2)%Z ->
  (1 <= spawnIntervalTicks w2 <= spawnIntervalTicks w1)%Z /\
  (spawnIntervalTicks w1 <= spawnIntervalTicks 1)%Z /\
  spawnIntervalTicks 1 = TICK_RATE.
Proof.
  intros H. unfold spawnIntervalTicks, Js.floor, Js.pow.
  assert (Hx : 0 < 0.9 <= 1) by lra.
  assert (M : forall a b, (1 <= a <= b)%Z ->
            (Int_part (IZR TICK_RATE * powerRZ 0.9 (b - 1))
             <= Int_part (IZR TICK_RATE * powerRZ 0.9 (a - 1)))%Z).
  { intros a b Hab. apply Int_part_mono.
    pose proof (powerRZ_anti 0.9 (a - 1) (b - 1) Hx ltac:(lia)).
    unfold TICK_RATE. nra. }
  pose proof (M w1 w2 H). pose proof (M 1%Z w1 ltac:(lia)).
  assert (E : Int_part (IZR TICK_RATE * powerRZ 0.9 (1 - 1)) = 15%Z).
  { change (1 - 1)%Z with 0%Z. change (powerRZ 0.9 0) with 1. unfold TICK_RATE.
    symmetry. apply Int_part_spec. clear. lra. }
  rewrite E in *. unfold TICK_RATE in *. lia.
Qed.

Lemma spawnIntervalTicks_floor (w : Z) : (27 <= w)%Z -> spawnIntervalTicks w = 1%Z.
Proof.
  intros H. unfold spawnIntervalTicks, Js.floor, Js.pow.
  assert (Hx : 0 < 0.9 <= 1) by lra.
  pose proof (powerRZ_anti 0.9 26 (w - 1) Hx ltac:(lia)) as Ha.
  pose proof (powerRZ_le_1 0.9 (w - 1) Hx ltac:(lia)) as Hb.
  assert (Hc : powerRZ 0.9 26 < 1 / 15).
  { change 26%Z with (Z.of_nat 26). rewrite <- pow_powerRZ. cbn. lra. }
  assert (E : Int_part (IZR TICK_RATE * powerRZ 0.9 (w - 1)) = 0%Z).
  { symmetry. apply Int_part_spec. unfold TICK_RATE. nra. }
  rewrite E. reflexivity.
Qed.

(** Property X3.  The spawn interval [max(1, floor(TICK_RATE * 0.9^(wave-1)))]
    never grows from one wave to a later one, is at least one tick, is
    [TICK_RATE] ticks in wave 1, and is one tick from wave 27 on. *)
Theorem spawn_interval_shrinks (w1 w2 : Z) :
  (1 <= w1 <= w2)%Z ->
  (1 <= spawnIntervalTicks w2 <= spawnIntervalTicks w1)%Z /\
  (spawnIntervalTicks w1 <= spawnIntervalTicks 1)%Z /\
  spawnIntervalTicks 1 = TICK_RATE /\
  ((27 <= w2)%Z -> spawnIntervalTicks w2 = 1%Z).
Proof.
  intros H. destruct (spawnIntervalTicks_bounds w1 w2 H) as (A & B & C).
  repeat split; try assumption; try apply A. apply spawnIntervalTicks_floor.
Qed.

Lemma spawn_interval_shrinks_witness :
  (1 <= spawnIntervalTicks 27 <= spawnIntervalTicks 1)%Z /\
  spawnIntervalTicks 27 = 1%Z.
Proof.
  destruct (spawn_interval_shrinks 1 27) as (A & _ & _ & B); [lia|].
  split; [exact A|]. apply B. lia.
Defined.

End Spawning.

(** ** The pace of spawning and the budget of a wave *)

Section SpawnPacing.
Local Open Scope R_scope.

(** What the bullet and ball passes leave untouched, besides [bulletStep_frame]. *)
Lemma bulletStep_counters (env : Env.t) (g : Game.t) (c : nat) :
  let g' := fst (bulletStep env (g, c)) in
  Game.lastSpawnTick g' = Game.lastSpawnTick g /\
  Game.nextBallId g' = Game.nextBallId g /\
  Game.nextPlayerId g' = Game.nextPlayerId g.
Proof.
  unfold bulletStep.
  destruct (collide _ _ _ _ _) as [bs coll].
  destruct (JsMap.forEachSt moveBullet bs _) as [bs' rm].
  unfold spawnBullets. cbn.
  destruct (Game.gameStarted g && _ && _); cbn.
  - destruct (fold_left _ _ _) as [bs'' nid]. cbn. repeat split.
  - repeat split.
Qed.

Lemma ballStep_counters (g : Game.t) (coll : Coll.t) :
  let g' := ballStep (g, coll) in
  Game.lastSpawnTick g' = Game.lastSpawnTick g /\
  Game.nextBallId g' = Game.nextBallId g /\
  Game.nextPlayerId g' = Game.nextPlayerId g /\
  Game.nextBulletId g' = Game.nextBulletId g.
Proof.
  unfold ballStep.
  destruct (JsMap.forEachSt (burn _) _ _) as [bs rm].
  destruct (JsMap.forEachSt fall bs _) as [bs' [rm' lv]].
  cbn. repeat split.
Qed.

Lemma gameTick_counters (env : Env.t) (g : Game.t) :
  let g1 := fst (phaseStep env g) in
  let g' := fst (gameTick env g) in
  Game.lastSpawnTick g' = Game.lastSpawnTick g1 /\
  Game.nextBallId g' = Game.nextBallId g1 /\
  Game.nextPlayerId g' = Game.nextPlayerId g1.
Proof.
  unfold gameTick. destruct (phaseStep env g) as [g1 c].
  pose proof (bulletStep_counters env g1 c) as Hb.
  destruct (bulletStep env (g1, c)) as [g2 coll].
  pose proof (ballStep_counters g2 coll) as Ha.
  cbn in *. intuition congruence.
Qed.

(** The weights of the catalogue. *)
Lemma waveWeight_range (ty : BallType) :
  0 < BallDef.waveWeight (BALL_TYPES ty) <= 2.
Proof. destruct ty; cbn; lra. Qed.

Lemma maxWeight_pos (w : Z) : 0 < maxWeight w.
Proof.
  unfold maxWeight, Js.pow.
  assert (0 < powerRZ 1.1 (w - 1)) by (apply powerRZ_lt; lra). lra.
Qed.

(** The spawning block: either nothing is spawned, or one ball is, while the
    budget was unspent and the spawn interval had elapsed. *)
Lemma waveStep_spawn (env : Env.t) (g : Game.t) (c : nat) :
  let g' := fst (waveStep env g c) in
  Game.wave g' = Game.wave g /\ Game.tickCount g' = Game.tickCount g /\
  ((Game.waveWeightSpawned g' = Game.waveWeightSpawned g /\
    Game.lastSpawnTick g' = Game.lastSpawnTick g /\
    Game.balls g' = Game.balls g /\
    Game.nextBallId g' = Game.nextBallId g)
   \/
   (Game.gameStarted g = true /\ Game.gamePhase g = playing /\
    (0 < Game.lives g)%Z /\
    Game.waveWeightSpawned g < maxWeight (Game.wave g) /\
    (spawnIntervalTicks (Game.wave g) <= Game.tickCount g - Game.lastSpawnTick g)%Z /\
    Game.gamePhase g' = playing /\
    Game.lastSpawnTick g' = Game.tickCount g /\
    Game.nextBallId g' = (Game.nextBallId g + 1)%Z /\
    exists ball : Ball.t,
      Game.balls g' = JsMap.set (Game.balls g) (Game.nextBallId g) ball /\
      Ball.id ball = Game.nextBallId g /\
      0 < Ball.hp ball /\
      Game.waveWeightSpawned g'
      = Game.waveWeightSpawned g + BallDef.waveWeight (BALL_TYPES (Ball.type ball)))).
Proof.
  unfold waveStep.
  destruct (Game.gameStarted g) eqn:Hs; cbn [andb]; [|cbn; auto 10].
  destruct (Phase_eqb (Game.gamePhase g) playing) eqn:Hp; cbn [andb]; [|cbn; auto 10].
  assert (Hp' : Game.gamePhase g = playing) by (destruct (Game.gamePhase g); now try discriminate).
  destruct (0 <? Game.lives g)%Z eqn:Hl; [apply Z.ltb_lt in Hl|cbn; auto 10].
  destruct (Js.Rltb (Game.waveWeightSpawned g) (maxWeight (Game.wave g))) eqn:Hc;
    cbn [andb].
  - apply Rltb_true in Hc.
    destruct (spawnIntervalTicks (Game.wave g) <=? _)%Z eqn:Ht.
    + apply Z.leb_le in Ht.
      pose proof (spawnBall_spec (Env.random env) c None g) as (Hb & Hq & Hw).
      pose proof (spawnBall_ball env c None g) as (ball & B1 & B2 & B3 & B4 & B5 & B6 & _).
      destruct (spawnBall (Env.random env) c None g) as [[ty g1] c1] eqn:Hsp.
      cbn [fst snd] in *.
      assert (Hwv : Game.wave g1 = Game.wave g /\ Game.tickCount g1 = Game.tickCount g).
      { unfold spawnBall in Hsp. inversion Hsp. split; reflexivity. }
      destruct Hwv as [Hwv Htk].
      cbn [Game.balls Game.with_lastSpawnTick Game.with_waveWeightSpawned
           Game.gamePhase].
      destruct (JsMap.size (Game.balls g1) =? 0)%Z eqn:Hz;
        [apply Z.eqb_eq in Hz; lia|].
      rewrite andb_false_r. cbn.
      split; [exact Hwv|]. split; [exact Htk|]. right.
      split; [reflexivity|]. split; [exact Hp'|]. split; [exact Hl|]. split; [exact Hc|]. split; [exact Ht|].
      split; [congruence|]. split; [congruence|]. split; [exact B2|].
      exists ball. split; [exact B1|]. split; [exact B3|]. split; [exact B6|].
      rewrite B4, Hw. reflexivity.
    + assert (Hf : Js.Rleb (maxWeight (Game.wave g)) (Game.waveWeightSpawned g) = false)
        by (apply Rleb_false; lra).
      rewrite Hf. cbn. auto 10.
  - destruct (Js.Rleb _ _ && _ && _).
    + destruct (JsMap.forEachSt _ _ _) as [ps c']. cbn. auto 10.
    + cbn. auto 10.
Qed.

Lemma cardSelectionStep_counters (env : Env.t) (g : Game.t) :
  Game.lastSpawnTick (cardSelectionStep env g) = Game.lastSpawnTick g /\
  Game.nextBallId (cardSelectionStep env g) = Game.nextBallId g /\
  Game.tickCount (cardSelectionStep env g) = Game.tickCount g /\
  Game.gameStarted (cardSelectionStep env g) = Game.gameStarted g /\
  Game.bullets (cardSelectionStep env g) = Game.bullets g /\
  Game.nextBulletId (cardSelectionStep env g) = Game.nextBulletId g /\
  Game.nextPlayerId (cardSelectionStep env g) = Game.nextPlayerId g.
Proof.
  unfold cardSelectionStep.
  destruct (Phase_eqb _ _); [destruct (_ || _)|]; cbn; repeat split.
Qed.

Lemma processInput_counters (g : Game.t) :
  Game.lastSpawnTick (processInput g) = Game.lastSpawnTick g /\
  Game.nextBallId (processInput g) = Game.nextBallId g /\
  Game.tickCount (processInput g) = Game.tickCount g /\
  Game.gameStarted (processInput g) = Game.gameStarted g /\
  Game.bullets (processInput g) = Game.bullets g /\
  Game.nextBulletId (processInput g) = Game.nextBulletId g /\
  Game.nextPlayerId (processInput g) = Game.nextPlayerId g.
Proof. unfold processInput. destruct (negb _); cbn; repeat split. Qed.

Lemma beginTick_counters (g : Game.t) :
  Game.wave (beginTick g) = Game.wave g /\
  Game.waveWeightSpawned (beginTick g) = Game.waveWeightSpawned g /\
  Game.lastSpawnTick (beginTick g) = Game.lastSpawnTick g /\
  Game.nextBallId (beginTick g) = Game.nextBallId g /\
  Game.tickCount (beginTick g) = (Game.tickCount g + 1)%Z /\
  Game.gameStarted (beginTick g) = Game.gameStarted g /\
  Game.players (beginTick g) = Game.players g /\
  Game.bullets (beginTick g) = Game.bullets g /\
  Game.nextBulletId (beginTick g) = Game.nextBulletId g /\
  Game.nextPlayerId (beginTick g) = Game.nextPlayerId g /\
  (Game.gamePhase (beginTick g) = playing ->
   Game.gamePhase g = playing /\ (0 < Game.lives g)%Z).
Proof.
  unfold beginTick. cbn.
  destruct (Game.lives g <=? 0)%Z eqn:E; cbn;
    [destruct (Phase_eqb (Game.gamePhase g) playing) eqn:P|]; cbn;
    repeat (split; [reflexivity|]); intros H; try discriminate.
  - rewrite H in P. discriminate.
  - apply Z.leb_gt in E. split; [exact H|lia].
Qed.

(** One tick spawns at most one ball, only in the playing phase with lives
    left, while the budget is unspent and the spawn interval has elapsed; the
    budget is reset only when card selection closes, together with the step
    of the wave counter. *)
Lemma tick_spawn_cases (env : Env.t) (g : Game.t) :
  let g' := fst (gameTick env g) in
  (Game.wave g' = Game.wave g /\
   Game.waveWeightSpawned g' = Game.waveWeightSpawned g /\
   Game.lastSpawnTick g' = Game.lastSpawnTick g /\
   Game.nextBallId g' = Game.nextBallId g)
  \/
  (Game.wave g' = Game.wave g /\
   Game.gameStarted g = true /\ Game.gamePhase g = playing /\
   (0 < Game.lives g)%Z /\
   Game.waveWeightSpawned g < maxWeight (Game.wave g) /\
   (spawnIntervalTicks (Game.wave g)
    <= Game.tickCount g + 1 - Game.lastSpawnTick g)%Z /\
   Game.lastSpawnTick g' = (Game.tickCount g + 1)%Z /\
   Game.nextBallId g' = (Game.nextBallId g + 1)%Z /\
   exists ty : BallType,
     Game.waveWeightSpawned g'
     = Game.waveWeightSpawned g + BallDef.waveWeight (BALL_TYPES ty))
  \/
  (Game.wave g' = (Game.wave g + 1)%Z /\
   Game.waveWeightSpawned g' = 0 /\
   Game.gamePhase g' = playing /\
   Game.lastSpawnTick g' = Game.lastSpawnTick g /\
   Game.nextBallId g' = Game.nextBallId g).
Proof.
  destruct (gameTick_frame env g) as (_ & Ep & Ew & Es & _).
  destruct (gameTick_counters env g) as (El & En & _).
  cbn zeta in *. rewrite Ep, Ew, Es, El, En. clear Ep Ew Es El En.
  unfold phaseStep.
  destruct (beginTick_counters g) as (B1 & B2 & B3 & B4 & B5 & B6 & _ & _ & _ & _ & B7).
  pose proof (waveStep_spawn env (beginTick g) 0) as W. cbn zeta in W.
  destruct (waveStep env (beginTick g) 0) as [g1 c1]. cbn [fst] in *.
  destruct (processInput_frame (cardSelectionStep env g1)) as (Fp & Fw & Fs & _).
  destruct (processInput_counters (cardSelectionStep env g1)) as (Fl & Fn & _).
  rewrite Fp, Fw, Fs, Fl, Fn. clear Fp Fw Fs Fl Fn.
  destruct (cardSelectionStep_counters env g1) as (Cl & Cn & _).
  rewrite Cl, Cn. clear Cl Cn.
  destruct W as (W1 & W2 & [(W3 & W4 & W5 & W6)|(S1 & S2 & S3 & S4 & S5 & S6 & S7 & S8 & ball & S9 & S10 & S11 & S12)]).
  - destruct (Phase_eqb (Game.gamePhase g1) cardSelection) eqn:P.
    + assert (Hp : Game.gamePhase g1 = cardSelection)
        by (destruct (Game.gamePhase g1); now try discriminate).
      destruct (cardSelectionStep_spec env g1 Hp) as [(_ & H1 & H2 & H3)|(_ & Heq)].
      * right. right. repeat split; try congruence.
      * cbn zeta in Heq. rewrite Heq. left. repeat split; congruence.
    + rewrite cardSelectionStep_other
        by (intros E; rewrite E in P; discriminate).
      left. repeat split; congruence.
  - rewrite cardSelectionStep_other by congruence.
    destruct (B7 S2) as [Hp Hl].
    right. left. rewrite B1, B2, B3, B5 in *.
    split; [congruence|]. split; [congruence|]. split; [exact Hp|].
    split; [exact Hl|]. split; [exact S4|]. split; [lia|].
    split; [congruence|]. split; [congruence|].
    exists (Ball.type ball). rewrite S12. reflexivity.
Qed.

(** Property X4.  One tick spawns at most one ball: the ball counter goes up
    by 0 or by 1.  It goes up only when the game has started, the phase is
    playing, lives are left, the spent weight is below the budget of the wave
    and the spawn interval has elapsed; the tick then records itself as the
    last spawn tick, keeps the wave, and adds the wave weight of a ball type
    to the spent weight.  A tick that spawns no ball keeps the last spawn
    tick, and either keeps wave and spent weight or closes card selection:
    the wave goes up by one and the spent weight is reset to 0. *)
Theorem tick_spawns_at_most_one_ball (env : Env.t) (g : Game.t) :
  let g' := fst (gameTick env g) in
  let spawned := (Game.nextBallId g' - Game.nextBallId g)%Z in
  (spawned = 0 \/ spawned = 1)%Z /\
  (spawned = 1%Z ->
   Game.gameStarted g = true /\ Game.gamePhase g = playing /\
   (0 < Game.lives g)%Z /\
   Game.waveWeightSpawned g < maxWeight (Game.wave g) /\
   (spawnIntervalTicks (Game.wave g)
    <= Game.tickCount g + 1 - Game.lastSpawnTick g)%Z /\
   Game.lastSpawnTick g' = (Game.tickCount g + 1)%Z /\
   Game.wave g' = Game.wave g /\
   exists ty : BallType,
     Game.waveWeightSpawned g'
     = Game.waveWeightSpawned g + BallDef.waveWeight (BALL_TYPES ty)) /\
  (spawned = 0%Z ->
   Game.lastSpawnTick g' = Game.lastSpawnTick g /\
   ((Game.wave g' = Game.wave g /\
     Game.waveWeightSpawned g' = Game.waveWeightSpawned g)
    \/
    (Game.wave g' = (Game.wave g + 1)%Z /\
     Game.waveWeightSpawned g' = 0 /\
     Game.gamePhase g' = playing))).
Proof.
  intros g' spawned. subst spawned g'.
  destruct (tick_spawn_cases env g)
    as [(A1 & A2 & A3 & A4)|[(B1 & B2 & B3 & B4 & B5 & B6 & B7 & B8 & ty & B9)
                            |(C1 & C2 & C3 & C4 & C5)]].
  - rewrite A4. split; [left; lia|].
    split; [intros E; lia|]. intros _. split; [exact A3|]. left. now split.
  - rewrite B8. split; [right; lia|].
    split; [|intros E; lia]. intros _.
    repeat (split; [assumption|]). exists ty. exact B9.
  - rewrite C5. split; [left; lia|].
    split; [intros E; lia|]. intros _. split; [exact C4|]. right.
    repeat split; assumption.
Qed.

Lemma budgetBounded_step (e : Event) (g : Game.t) :
  budgetBounded g -> budgetBounded (fst (step e g)).
Proof.
  unfold budgetBounded. intros H.
  destruct e as [env|now|now pid|now pid|pid i|now pid ks|pid];
    try (match goal with |- context [step ?e g] =>
           destruct (handler_keeps_selection e g I) as (_ & B & C)
         end; rewrite B, C; exact H).
  - cbn [step].
    destruct (tick_spawn_cases env g)
      as [(A & B & _)|[(A & _ & _ & _ & S & _ & _ & _ & ty & B)|(A & B & _)]];
      cbn zeta in *; rewrite A, B.
    + exact H.
    + pose proof (waveWeight_range ty). lra.
    + pose proof (maxWeight_pos (Game.wave g + 1)). lra.
  - cbn. pose proof (maxWeight_pos 1). lra.
Qed.

(** Property X5.  In every state the server reaches from its start, whatever
    ticks and socket messages arrive, the spent weight is non-negative and
    exceeds the budget of the current wave by less than 2, the largest wave
    weight of a ball type. *)
Theorem budget_overshoot_bounded (es : list Event) :
  budgetBounded (run es Game.initial).
Proof.
  assert (G : forall g, budgetBounded g -> budgetBounded (run es g)).
  { induction es as [|e es IH]; intros g H; [exact H|].
    cbn [run fold_left]. apply IH. now apply budgetBounded_step. }
  apply G. unfold budgetBounded. cbn. pose proof (maxWeight_pos 1). lra.
Qed.

End SpawnPacing.

(** ** Players stay in the room *)

Section PlayerMovement.
Local Open Scope R_scope.

Lemma movePlayer_inRoom (p : Player.t) : inRoom p -> inRoom (movePlayer p).
Proof.
  unfold inRoom, movePlayer, PLAYER_RADIUS, PLAYER_SPEED, ROOM_WIDTH, ROOM_HEIGHT.
  destruct p as [id x y cc pc al bc pu ig me bo [l r u d] la oc cs]. cbn.
  intros [Hx Hy].
  destruct l, r, u, d; cbn; unfold Rmax, Rmin;
    repeat match goal with |- context [Rle_dec ?a ?b] => destruct (Rle_dec a b) end;
    lra.
Qed.

(** Property X6.  Input integration keeps a player who is in the room in the
    room, and moves the player by at most [PLAYER_SPEED] on each axis.
    Opposite keys do not cancel: with left and right both held the player
    ends at [max(x, PLAYER_RADIUS + PLAYER_SPEED)], so the right key wins away
    from the left wall, and likewise down wins over up. *)
Theorem movePlayer_bounded (p : Player.t) :
  inRoom p ->
  inRoom (movePlayer p) /\
  Rabs (Player.x (movePlayer p) - Player.x p) <= PLAYER_SPEED /\
  Rabs (Player.y (movePlayer p) - Player.y p) <= PLAYER_SPEED /\
  (Keys.left (Player.keys p) = true -> Keys.right (Player.keys p) = true ->
   Player.x (movePlayer p) = Rmax (Player.x p) (PLAYER_RADIUS + PLAYER_SPEED)) /\
  (Keys.up (Player.keys p) = true -> Keys.down (Player.keys p) = true ->
   Player.y (movePlayer p) = Rmax (Player.y p) (PLAYER_RADIUS + PLAYER_SPEED)).
Proof.
  intros H. split; [now apply movePlayer_inRoom|].
  revert H.
  unfold inRoom, movePlayer, PLAYER_RADIUS, PLAYER_SPEED, ROOM_WIDTH, ROOM_HEIGHT.
  destruct p as [id x y cc pc al bc pu ig me bo [l r u d] la oc cs]. cbn.
  intros [Hx Hy].
  destruct l, r, u, d; cbn; unfold Rmax, Rmin, Rabs;
    repeat match goal with
           | |- context [Rle_dec ?a ?b] => destruct (Rle_dec a b)
           | |- context [Rcase_abs ?a] => destruct (Rcase_abs a)
           | H : context [Rle_dec ?a ?b] |- _ => destruct (Rle_dec a b)
           end;
    repeat split; intros; try discriminate; try lra.
Qed.

Lemma movePlayer_bounded_witness :
  inRoom brawler /\ inRoom (movePlayer brawler).
Proof.
  assert (H : inRoom brawler)
    by (unfold inRoom, PLAYER_RADIUS, ROOM_WIDTH, ROOM_HEIGHT; cbn; lra).
  split; [exact H|]. apply (movePlayer_bounded brawler H).
Defined.

Lemma inRoom_start (id now : Z) (ks : Keys.t) (oc : option (list Card.t)) (cs : bool)
    (a b c d e f h i : Z) :
  inRoom {| Player.id := id; Player.x := ROOM_WIDTH / 2; Player.y := ROOM_HEIGHT - 80;
            Player.criticalChance := a; Player.pierceChance := b;
            Player.areaDamageLevel := c; Player.bulletCount := d;
            Player.pusherChance := e; Player.ignitionChance := f;
            Player.meleeDamage := h; Player.bounceCount := i;
            Player.keys := ks; Player.lastActivity := now;
            Player.offeredCards := oc; Player.cardSelected := cs |}.
Proof. unfold inRoom, PLAYER_RADIUS, ROOM_WIDTH, ROOM_HEIGHT. cbn. lra. Qed.

Lemma spawnBall_players (rnd : nat -> R) (c : nat) (ty : option BallType) (g : Game.t) :
  let g' := snd (fst (spawnBall rnd c ty g)) in
  Game.players g' = Game.players g /\
  Game.bullets g' = Game.bullets g /\
  Game.nextBulletId g' = Game.nextBulletId g /\
  Game.nextPlayerId g' = Game.nextPlayerId g /\
  Game.gameStarted g' = Game.gameStarted g /\
  Game.lives g' = Game.lives g /\
  Game.tickCount g' = Game.tickCount g.
Proof. unfold spawnBall. destruct ty; cbn; repeat split. Qed.

Lemma offerTo_fst (rnd : nat -> R) (p : Player.t) (c : nat) :
  fst (offerTo rnd p c)
  = Player.with_cardSelected false
      (Player.with_offeredCards (Some (fst (offerLoop rnd 3 c []))) p).
Proof. unfold offerTo. now destruct (offerLoop rnd 3 c []). Qed.

(** How the phase transitions of a tick act on the players: each player
    object goes through a chain of field updates. *)
Lemma phaseStep_players_Forall (P : Player.t -> Prop) (env : Env.t) (g : Game.t) :
  (forall p oc cs, P p -> P (Player.with_cardSelected cs (Player.with_offeredCards oc p))) ->
  (forall p, P p -> P (movePlayer p)) ->
  Forall P (JsMap.values (Game.players g)) ->
  Forall P (JsMap.values (Game.players (fst (phaseStep env g)))).
Proof.
  intros Ho Hm H. unfold phaseStep.
  assert (Hoff : forall v (s : nat), P v -> P (fst (offerTo (Env.random env) v s)))
    by (intros v s Hv; rewrite offerTo_fst; now apply Ho).
  assert (H0 : Forall P (JsMap.values (Game.players (beginTick g)))).
  { destruct (beginTick_counters g) as (_ & _ & _ & _ & _ & _ & E & _). now rewrite E. }
  assert (H1 : Forall P (JsMap.values (Game.players (fst (waveStep env (beginTick g) 0%nat))))).
  { revert H0. generalize (beginTick g). intros g0 H0. unfold waveStep.
    destruct (Game.gameStarted g0 && _ && _); [|exact H0].
    destruct (Js.Rltb _ _ && _).
    - destruct (spawnBall_players (Env.random env) 0%nat None g0) as (Ep & _).
      destruct (spawnBall (Env.random env) 0%nat None g0) as [[ty g1] c1].
      cbn [fst snd] in Ep.
      cbn [Game.waveWeightSpawned Game.with_lastSpawnTick Game.with_waveWeightSpawned
           Game.balls Game.gamePhase].
      destruct (Js.Rleb _ _ && _ && _); cbn; [|now rewrite Ep].
      rewrite <- Ep in H0.
      pose proof (Forall_values_forEachSt P (offerTo (Env.random env))
                    (Game.players g1) c1 Hoff H0) as F.
      destruct (JsMap.forEachSt _ _ _) as [ps c']. exact F.
    - destruct (Js.Rleb _ _ && _ && _); cbn; [|exact H0].
      pose proof (Forall_values_forEachSt P (offerTo (Env.random env))
                    (Game.players g0) 0%nat Hoff H0) as F.
      destruct (JsMap.forEachSt _ _ _) as [ps c']. exact F. }
  destruct (waveStep env (beginTick g) 0%nat) as [g1 c1]. cbn [fst] in *.
  assert (H2 : Forall P (JsMap.values (Game.players (cardSelectionStep env g1)))).
  { unfold cardSelectionStep. destruct (Phase_eqb _ _); [|exact H1].
    destruct (_ || _); [|exact H1]. cbn.
    apply Forall_values_update_all; [|exact H1]. intros v Hv. now apply Ho. }
  unfold processInput. destruct (negb _); [|exact H2]. cbn.
  apply Forall_values_update_all; assumption.
Qed.

Lemma gameTick_players_Forall (P : Player.t -> Prop) (env : Env.t) (g : Game.t) :
  (forall p oc cs, P p -> P (Player.with_cardSelected cs (Player.with_offeredCards oc p))) ->
  (forall p, P p -> P (movePlayer p)) ->
  Forall P (JsMap.values (Game.players g)) ->
  Forall P (JsMap.values (Game.players (fst (gameTick env g)))).
Proof.
  intros Ho Hm H. destruct (gameTick_frame env g) as (E & _). cbn zeta in E.
  rewrite E. now apply phaseStep_players_Forall.
Qed.

Lemma inRoom_step (e : Event) (g : Game.t) :
  Forall inRoom (JsMap.values (Game.players g)) ->
  Forall inRoom (JsMap.values (Game.players (fst (step e g)))).
Proof.
  intros H.
  destruct e as [env|now|now pid|now pid|pid i|now pid ks|pid]; cbn [step].
  - apply gameTick_players_Forall; auto using movePlayer_inRoom.
  - cbn. apply Forall_values_set; [apply inRoom_start|exact H].
  - cbn. apply Forall_values_update; auto.
  - cbn. apply Forall_values_update; auto.
    apply Forall_values_update_all.
    + intros v _. apply inRoom_start.
    + exact H.
  - unfold selectCard.
    destruct (JsMap.get (Game.players g) pid) as [p|]; [|exact H].
    destruct (Player.offeredCards p) as [offered|]; [|exact H].
    destruct (negb _ || _); [exact H|].
    destruct (Js.index offered i) as [card|]; [|exact H].
    unfold applyCard. cbn [fst].
    destruct (Card.id card); cbn -[JsMap.update JsMap.values];
      repeat (apply Forall_values_update; [intros v Hv; exact Hv|]); exact H.
  - cbn. apply Forall_values_update; auto.
  - cbn. now apply Forall_values_delete.
Qed.

(** Property X7.  In every state the server reaches from its start, every
    connected player is in the room: the centre is at least [PLAYER_RADIUS]
    away from every wall. *)
Theorem players_stay_in_room (es : list Event) :
  Forall inRoom (JsMap.values (Game.players (run es Game.initial))).
Proof.
  assert (G : forall g, Forall inRoom (JsMap.values (Game.players g)) ->
                        Forall inRoom (JsMap.values (Game.players (run es g)))).
  { induction es as [|e es IH]; intros g H; [exact H|].
    cbn [run fold_left]. apply IH. now apply inRoom_step. }
  apply G. constructor.
Qed.

End PlayerMovement.

(** [settle] evaluates the edge tests of a bullet at a position known to lie
    on one side of each bound. *)
Ltac settle :=
  repeat (cbn -[Js.Rltb Z.max Z.sub Z.add];
          match goal with
          | |- context [Js.Rltb ?a ?b] =>
              first [holds (Js.Rltb a b) | fails (Js.Rltb a b)]
          end);
  cbn -[Js.Rltb Z.max Z.sub Z.add].

(** ** Bouncing bullets *)

Section Bouncing.
Local Open Scope R_scope.

Lemma bounce_chain (b : Bullet.t) (bl : Z) :
  let r := bounceBottom (bounceTop (bounceRight (bounceLeft (b, bl)))) in
  Bullet.x (fst r) = clampTo BULLET_RADIUS (ROOM_WIDTH - BULLET_RADIUS) (Bullet.x b) /\
  Bullet.y (fst r) = clampTo BULLET_RADIUS (ROOM_HEIGHT - BULLET_RADIUS) (Bullet.y b) /\
  snd r = (bl - edgesCrossed (Bullet.x b) (Bullet.y b))%Z /\
  Bullet.vx (fst r)
  = (if beyond BULLET_RADIUS (ROOM_WIDTH - BULLET_RADIUS) (Bullet.x b)
     then Some ((Bullet.vx b ?? 0) * -1) else Bullet.vx b) /\
  Bullet.vy (fst r)
  = (if beyond BULLET_RADIUS (ROOM_HEIGHT - BULLET_RADIUS) (Bullet.y b)
     then Some ((Bullet.vy b ?? (- BULLET_SPEED)) * -1) else Bullet.vy b) /\
  Bullet.id (fst r) = Bullet.id b /\
  Bullet.homing (fst r) = Bullet.homing b /\
  Bullet._moveX (fst r) = Bullet._moveX b /\
  Bullet._moveY (fst r) = Bullet._moveY b.
Proof.
  destruct b as [id x y ow rd vx vy bl0 hm tg dm mX mY].
  unfold bounceBottom, bounceTop, bounceRight, bounceLeft, edgesCrossed, beyond,
    clampTo, BULLET_RADIUS, ROOM_WIDTH, ROOM_HEIGHT.
  cbn -[Js.Rltb Z.max Z.sub Z.add].
  destruct (Rlt_dec x 6), (Rlt_dec (720 - 6) x), (Rlt_dec y 6), (Rlt_dec (1280 - 6) y);
    try lra; settle;
    unfold Rmin, Rmax;
    repeat match goal with
           | |- context [Rle_dec ?a ?b] => destruct (Rle_dec a b)
           | H : context [Rle_dec ?a ?b] |- _ => destruct (Rle_dec a b)
           end;
    repeat split; try lra; try lia.
Qed.

(** The bullet as the movement pass leaves it before the edge tests. *)
Lemma moveBullet_bouncing (b : Bullet.t) (rm : JsSet.t) :
  (0 < Bullet.bouncesLeft b ?? 0)%Z ->
  let mx := Bullet._moveX b ?? 0 in
  let my := Bullet._moveY b ?? (- BULLET_SPEED) in
  let known := negb (Bullet.homing b)
               && (Js.notNull (Bullet.vx b) || Js.notNull (Bullet.vy b)) in
  let b' := fst (moveBullet b rm) in
  Bullet.x b' = clampTo BULLET_RADIUS (ROOM_WIDTH - BULLET_RADIUS) (Bullet.x b + mx) /\
  Bullet.y b' = clampTo BULLET_RADIUS (ROOM_HEIGHT - BULLET_RADIUS) (Bullet.y b + my) /\
  Bullet.bouncesLeft b'
  = Some (Z.max 0 ((Bullet.bouncesLeft b ?? 0)
                   - edgesCrossed (Bullet.x b + mx)%R (Bullet.y b + my)%R))%Z /\
  Bullet.vx b'
  = (let v := if known then Some mx else Bullet.vx b in
     if beyond BULLET_RADIUS (ROOM_WIDTH - BULLET_RADIUS) (Bullet.x b + mx)
     then Some ((v ?? 0) * -1) else v) /\
  Bullet.vy b'
  = (let v := if known then Some my else Bullet.vy b in
     if beyond BULLET_RADIUS (ROOM_HEIGHT - BULLET_RADIUS) (Bullet.y b + my)
     then Some ((v ?? (- BULLET_SPEED)) * -1) else v) /\
  Bullet.id b' = Bullet.id b /\
  Bullet._moveX b' = None /\ Bullet._moveY b' = None /\
  snd (moveBullet b rm) = rm.
Proof.
  intros Hbl mx my known b'. subst b'.
  unfold moveBullet. fold mx my.
  set (b2 := Bullet.with_move None None (Bullet.with_pos _ _ b)).
  assert (Hk : negb (Bullet.homing b2)
               && (Js.notNull (Bullet.vx b2) || Js.notNull (Bullet.vy b2)) = known)
    by reflexivity.
  rewrite Hk.
  set (b3 := if known then Bullet.with_vy (Some my) (Bullet.with_vx (Some mx) b2) else b2).
  assert (Hb3 : Bullet.x b3 = Bullet.x b + mx /\ Bullet.y b3 = Bullet.y b + my /\
                Bullet.bouncesLeft b3 = Bullet.bouncesLeft b /\
                Bullet.id b3 = Bullet.id b /\
                Bullet._moveX b3 = None /\ Bullet._moveY b3 = None /\
                Bullet.vx b3 = (if known then Some mx else Bullet.vx b) /\
                Bullet.vy b3 = (if known then Some my else Bullet.vy b)).
  { unfold b3. destruct known; cbn; repeat split. }
  destruct Hb3 as (X & Y & BL & ID & MX & MY & VX & VY).
  rewrite BL.
  destruct (0 <? Bullet.bouncesLeft b ?? 0)%Z eqn:E; [|apply Z.ltb_ge in E; lia].
  pose proof (bounce_chain b3 (Bullet.bouncesLeft b ?? 0%Z)) as C. cbn zeta in C.
  destruct (bounceBottom _) as [b4 bl4]. cbn [fst snd] in C.
  destruct C as (C1 & C2 & C3 & C4 & C5 & C6 & C7 & C8 & C9).
  rewrite X, Y in *. rewrite VX in C4. rewrite VY in C5.
  assert (Hout : outOfRoom (Bullet.with_bouncesLeft (Some (Z.max 0 bl4)) b4) = false).
  { unfold outOfRoom. cbn [Bullet.with_bouncesLeft Bullet.x Bullet.y].
    rewrite C1, C2. unfold clampTo, BULLET_RADIUS, ROOM_WIDTH, ROOM_HEIGHT, Rmin, Rmax.
    repeat match goal with |- context [Rle_dec ?a ?b] => destruct (Rle_dec a b) end;
      settle; reflexivity. }
  cbn [fst snd]. rewrite Hout.
  cbn [Bullet.with_bouncesLeft Bullet.x Bullet.y Bullet.vx Bullet.vy Bullet.id
       Bullet.bouncesLeft Bullet._moveX Bullet._moveY].
  rewrite C3. repeat split; congruence.
Qed.

(** Property X8.  The movement pass leaves a bullet that has a bounce left
    inside the room: its new position is the moved position clamped, on each
    axis, to the span that keeps [BULLET_RADIUS] from the walls.  The bounces
    left go down by one per axis on which the moved position crossed an
    edge, never below 0, and the bullet is not scheduled for removal. *)
Theorem bouncing_bullet_stays_in_room (b : Bullet.t) (rm : JsSet.t) :
  (0 < Bullet.bouncesLeft b ?? 0)%Z ->
  let mx := Bullet._moveX b ?? 0 in
  let my := Bullet._moveY b ?? (- BULLET_SPEED) in
  let b' := fst (moveBullet b rm) in
  Bullet.x b' = clampTo BULLET_RADIUS (ROOM_WIDTH - BULLET_RADIUS) (Bullet.x b + mx) /\
  Bullet.y b' = clampTo BULLET_RADIUS (ROOM_HEIGHT - BULLET_RADIUS) (Bullet.y b + my) /\
  BULLET_RADIUS <= Bullet.x b' <= ROOM_WIDTH - BULLET_RADIUS /\
  BULLET_RADIUS <= Bullet.y b' <= ROOM_HEIGHT - BULLET_RADIUS /\
  Bullet.bouncesLeft b'
  = Some (Z.max 0 ((Bullet.bouncesLeft b ?? 0)
                   - edgesCrossed (Bullet.x b + mx)%R (Bullet.y b + my)%R))%Z /\
  snd (moveBullet b rm) = rm.
Proof.
  intros H mx my b'.
  destruct (moveBullet_bouncing b rm H) as (X & Y & B & _ & _ & _ & _ & _ & R0).
  cbn zeta in *. fold mx my b' in X, Y, B.
  split; [exact X|]. split; [exact Y|]. rewrite X, Y.
  unfold clampTo, BULLET_RADIUS, ROOM_WIDTH, ROOM_HEIGHT, Rmin, Rmax.
  repeat match goal with |- context [Rle_dec ?a ?b] => destruct (Rle_dec a b) end;
    repeat split; try lra; assumption.
Qed.

Lemma bouncing_bullet_stays_in_room_witness :
  Bullet.x (fst (moveBullet bouncer [])) = BULLET_RADIUS /\
  Bullet.y (fst (moveBullet bouncer [])) = BULLET_RADIUS /\
  Bullet.bouncesLeft (fst (moveBullet bouncer [])) = Some 0%Z /\
  snd (moveBullet bouncer []) = [].
Proof.
  destruct (bouncing_bullet_stays_in_room bouncer []) as (X & Y & _ & _ & B & R0);
    [cbn; lia|].
  cbn zeta in *. rewrite X, Y, B. clear X Y B.
  unfold bouncer.
  cbn [Bullet.x Bullet.y Bullet._moveX Bullet._moveY Bullet.bouncesLeft Js.nullish].
  unfold edgesCrossed, beyond, clampTo, BULLET_RADIUS, ROOM_WIDTH, ROOM_HEIGHT, BULLET_SPEED.
  holds (Js.Rltb (10 + -10) 6). holds (Js.Rltb (30 + - (75)) 6). cbn [orb].
  split; [|split; [|split; [reflexivity|exact R0]]].
  - rewrite Rmax_left by lra. apply Rmin_right. lra.
  - rewrite Rmax_left by lra. apply Rmin_right. lra.
Defined.

(** Property X9.  A bounce reflects the velocity of a bullet that has one:
    the component across a crossed edge changes sign, the other one is kept,
    and the speed stays the same. *)
Theorem bounce_reflects_velocity (b : Bullet.t) (rm : JsSet.t) :
  (0 < Bullet.bouncesLeft b ?? 0)%Z ->
  Bullet.homing b = false ->
  Js.notNull (Bullet.vx b) || Js.notNull (Bullet.vy b) = true ->
  let mx := Bullet._moveX b ?? 0 in
  let my := Bullet._moveY b ?? (- BULLET_SPEED) in
  let b' := fst (moveBullet b rm) in
  Bullet.vx b'
  = Some (if beyond BULLET_RADIUS (ROOM_WIDTH - BULLET_RADIUS) (Bullet.x b + mx)
          then - mx else mx) /\
  Bullet.vy b'
  = Some (if beyond BULLET_RADIUS (ROOM_HEIGHT - BULLET_RADIUS) (Bullet.y b + my)
          then - my else my) /\
  Js.hypot (Bullet.vx b' ?? 0) (Bullet.vy b' ?? (- BULLET_SPEED)) = Js.hypot mx my.
Proof.
  intros H Hh Hv mx my b'.
  destruct (moveBullet_bouncing b rm H) as (_ & _ & _ & VX & VY & _).
  cbn zeta in *. fold mx my b' in VX, VY. rewrite Hh, Hv in VX, VY.
  cbn [negb andb] in VX, VY.
  assert (EX : Bullet.vx b'
               = Some (if beyond BULLET_RADIUS (ROOM_WIDTH - BULLET_RADIUS) (Bullet.x b + mx)
                       then - mx else mx)).
  { rewrite VX. destruct (beyond _ _ (Bullet.x b + mx)); cbn [Js.nullish];
      [apply f_equal; ring|reflexivity]. }
  assert (EY : Bullet.vy b'
               = Some (if beyond BULLET_RADIUS (ROOM_HEIGHT - BULLET_RADIUS) (Bullet.y b + my)
                       then - my else my)).
  { rewrite VY. destruct (beyond _ _ (Bullet.y b + my)); cbn [Js.nullish];
      [apply f_equal; ring|reflexivity]. }
  split; [exact EX|]. split; [exact EY|].
  rewrite EX, EY. cbn [Js.nullish]. unfold Js.hypot. f_equal.
  destruct (beyond _ _ (Bullet.x b + mx)), (beyond _ _ (Bullet.y b + my)); ring.
Qed.

Lemma bounce_reflects_velocity_witness :
  Bullet.vx (fst (moveBullet bouncer [])) = Some (- -10) /\
  Bullet.vy (fst (moveBullet bouncer [])) = Some (- - BULLET_SPEED).
Proof.
  destruct (bounce_reflects_velocity bouncer []) as (X & Y & _);
    [cbn; lia|reflexivity|reflexivity|].
  cbn zeta in *. rewrite X, Y. clear X Y.
  unfold bouncer.
  cbn [Bullet.x Bullet.y Bullet._moveX Bullet._moveY Js.nullish].
  unfold beyond, BULLET_RADIUS, ROOM_WIDTH, ROOM_HEIGHT, BULLET_SPEED.
  holds (Js.Rltb (10 + -10) 6). holds (Js.Rltb (30 + - (75)) 6). cbn [orb].
  split; reflexivity.
Defined.

End Bouncing.

(** ** The effects of a hit *)

Section HitEffects.
Local Open Scope R_scope.

Lemma splash_center (center : Ball.t) (areaDmg : R) (rm : JsSet.t) :
  splash center areaDmg center rm = (center, rm).
Proof. unfold splash. now rewrite Z.eqb_refl. Qed.

Lemma hitBall_plain (tick : Z) (rnd : nat -> R) (bullet : Bullet.t)
    (shot : Shot.t) (st : Coll.t) (k : Z) (ball : Ball.t) :
  Bullet.homing bullet = false ->
  JsMap.get (Coll.balls st) k = Some ball ->
  bulletHitsBall bullet ball (Shot.moveX shot) (Shot.moveY shot) = true ->
  let c := Coll.cursor st in
  let st' := hitBall tick rnd bullet shot st k in
  JsMap.get (Coll.balls st') k = Some (struck tick rnd c shot ball) /\
  Coll.toRemoveBullets st'
  = (if drawsPierce rnd c shot then Coll.toRemoveBullets st
     else JsSet.add (Coll.toRemoveBullets st) (Bullet.id bullet)) /\
  Coll.cursor st' = S (pierceCursor c shot) /\
  Coll.bulletHits st'
  = Coll.bulletHits st ++ [{| Point.x := Ball.x ball; Point.y := Ball.y ball |}] /\
  Coll.areaDamageHits st'
  = (if (0 <? Shot.areaLevel shot)%Z
     then Coll.areaDamageHits st
          ++ [{| Point.x := Ball.x ball;
                 Point.y := Ball.y (struck tick rnd c shot ball) |}]
     else Coll.areaDamageHits st).
Proof.
  intros Hh Hg Hhit c st'. subst st'. unfold hitBall. rewrite Hg, Hhit, Hh.
  cbn [negb andb]. fold c.
  unfold drawsPierce, pierceCursor.
  set (ball3 := struck tick rnd c shot ball).
  assert (Hget : forall b, JsMap.get (JsMap.update (Coll.balls st) k (fun _ => b)) k = Some b)
    by (intros b; eapply get_update_same; exact Hg).
  assert (E3 : forall (crit push ign : bool),
             crit = drawsCritical rnd c shot -> push = drawsPush rnd c shot ->
             ign = drawsIgnition rnd c shot ->
             (let b1 := Ball.with_hp
                          (Ball.hp ball - (if crit then Shot.damage shot * 2
                                           else Shot.damage shot)) ball in
              let b2 := if push then Ball.with_y (Ball.y b1 - PUSHER_STRENGTH) b1 else b1 in
              if ign then Ball.with_burnEndTick (Some (tick + BURN_DURATION_TICKS)%Z) b2
              else b2) = ball3).
  { intros crit push ign -> -> ->. unfold ball3, struck.
    destruct (drawsCritical _ _ _), (drawsPush _ _ _), (drawsIgnition _ _ _); reflexivity. }
  unfold drawsCritical, drawsPush, drawsIgnition in E3.
  destruct (0 <? Shot.ignitionChance shot)%Z; cbn [andb] in E3 |- *.
  - specialize (E3 _ _ _ eq_refl eq_refl eq_refl). cbn zeta in E3.
    destruct (Js.Rltb (rnd c * 100) _); destruct (Js.Rltb (rnd (S c) * 100) _);
      destruct (Js.Rltb (rnd (S (S c)) * 100) _); cbn [fst snd] in *;
      rewrite E3;
      destruct (Js.Rleb _ (rnd (S (S (S c))) * 100)); cbn [negb];
      (destruct (0 <? Shot.areaLevel shot)%Z;
       [match goal with |- context [JsMap.forEachSt ?f ?m ?s] =>
          let G := fresh "G" in
          pose proof (get_forEachSt f m s k) as G; rewrite Hget in G;
          destruct G as [s' G]; rewrite splash_center in G;
          destruct (JsMap.forEachSt f m s) as [bs rm']
        end; cbn; repeat split; exact G
       |cbn; repeat split; apply Hget]).
  - specialize (E3 _ _ false eq_refl eq_refl eq_refl). cbn zeta in E3.
    destruct (Js.Rltb (rnd c * 100) _); destruct (Js.Rltb (rnd (S c) * 100) _);
      cbn [fst snd] in *;
      rewrite E3;
      destruct (Js.Rleb _ (rnd (S (S c)) * 100)); cbn [negb];
      (destruct (0 <? Shot.areaLevel shot)%Z;
       [match goal with |- context [JsMap.forEachSt ?f ?m ?s] =>
          let G := fresh "G" in
          pose proof (get_forEachSt f m s k) as G; rewrite Hget in G;
          destruct G as [s' G]; rewrite splash_center in G;
          destruct (JsMap.forEachSt f m s) as [bs rm']
        end; cbn; repeat split; exact G
       |cbn; repeat split; apply Hget]).
Qed.

Lemma chance_extremes (u : R) (z : Z) :
  0 <= u < 1 ->
  ((z <= 0)%Z -> Js.Rltb (u * 100) (IZR z) = false) /\
  ((100 <= z)%Z -> Js.Rltb (u * 100) (IZR z) = true) /\
  ((z <= 0)%Z -> Js.Rleb (IZR z) (u * 100) = true) /\
  ((100 <= z)%Z -> Js.Rleb (IZR z) (u * 100) = false).
Proof.
  intros Hu. repeat split; intros Hz; apply IZR_le in Hz.
  - apply Rltb_false. lra.
  - apply Rltb_true. lra.
  - apply Rleb_true. lra.
  - apply Rleb_false. lra.
Qed.

(** Property X10.  The chances of the upgrades saturate.  When a bullet that
    is not homing hits a ball: a critical chance of 0 or below never doubles
    the damage and one of 100 or above always does; likewise the push moves
    the ball up by [PUSHER_STRENGTH] never or always; ignition sets the burn
    deadline never or always; and at a pierce chance of 0 or below the bullet
    is always scheduled for removal, at 100 or above never by this hit. *)
Theorem upgrade_chances_saturate (env : Env.t) (tick : Z) (bullet : Bullet.t)
    (shot : Shot.t) (st : Coll.t) (k : Z) (ball : Ball.t) :
  Bullet.homing bullet = false ->
  JsMap.get (Coll.balls st) k = Some ball ->
  bulletHitsBall bullet ball (Shot.moveX shot) (Shot.moveY shot) = true ->
  let st' := hitBall tick (Env.random env) bullet shot st k in
  exists ball' : Ball.t,
    JsMap.get (Coll.balls st') k = Some ball' /\
    ((Shot.criticalChance shot <= 0)%Z ->
     Ball.hp ball' = Ball.hp ball - Shot.damage shot) /\
    ((100 <= Shot.criticalChance shot)%Z ->
     Ball.hp ball' = Ball.hp ball - Shot.damage shot * 2) /\
    ((Shot.pusherChance shot <= 0)%Z -> Ball.y ball' = Ball.y ball) /\
    ((100 <= Shot.pusherChance shot)%Z ->
     Ball.y ball' = Ball.y ball - PUSHER_STRENGTH) /\
    ((Shot.ignitionChance shot <= 0)%Z ->
     Ball.burnEndTick ball' = Ball.burnEndTick ball) /\
    ((100 <= Shot.ignitionChance shot)%Z ->
     Ball.burnEndTick ball' = Some (tick + BURN_DURATION_TICKS)%Z) /\
    ((Shot.pierceChance shot <= 0)%Z ->
     In (Bullet.id bullet) (Coll.toRemoveBullets st')) /\
    ((100 <= Shot.pierceChance shot)%Z ->
     Coll.toRemoveBullets st' = Coll.toRemoveBullets st).
Proof.
  intros Hh Hg Hhit.
  destruct (hitBall_plain tick (Env.random env) bullet shot st k ball Hh Hg Hhit)
    as (G & Rm & _).
  cbn zeta. rewrite Rm.
  set (c := Coll.cursor st) in *.
  exists (struck tick (Env.random env) c shot ball).
  split; [exact G|].
  destruct (chance_extremes _ (Shot.criticalChance shot) (Env.random_range env c))
    as (K1 & K2 & _).
  destruct (chance_extremes _ (Shot.pusherChance shot) (Env.random_range env (S c)))
    as (P1 & P2 & _).
  destruct (chance_extremes _ (Shot.ignitionChance shot) (Env.random_range env (S (S c))))
    as (_ & I2 & _).
  destruct (chance_extremes _ (Shot.pierceChance shot)
              (Env.random_range env (pierceCursor c shot))) as (_ & _ & Q1 & Q2).
  unfold struck, drawsCritical, drawsPush, drawsIgnition, drawsPierce. cbn.
  repeat split; intros Hz.
  - now rewrite K1.
  - now rewrite K2.
  - now rewrite P1.
  - now rewrite P2.
  - destruct (0 <? Shot.ignitionChance shot)%Z eqn:E; [apply Z.ltb_lt in E; lia|].
    reflexivity.
  - rewrite I2 by exact Hz.
    destruct (0 <? Shot.ignitionChance shot)%Z eqn:E; [reflexivity|].
    apply Z.ltb_ge in E. lia.
  - rewrite Q1 by exact Hz. cbn. apply In_add_same.
  - now rewrite Q2.
Qed.

(** The sample shots start inside the sample ball. *)
Lemma volley_hits_intruder (my : R) :
  bulletHitsBall (volleyBullet brawler 1 0 0 1) intruder 0 my = true.
Proof.
  apply bulletHitsBall_within. exists 0. split; [lra|].
  cbn. unfold BULLET_RADIUS.
  replace (360 - (360 + 0 + 0 * (360 + 0 + 0 - (360 + 0)))) with 0 by lra.
  replace (1200 - (1200 + 0 * (1200 + my - 1200))) with 0 by lra.
  rewrite hypot_0_0. lra.
Qed.

Lemma upgrade_chances_saturate_witness :
  exists ball' : Ball.t,
    JsMap.get (Coll.balls (hitBall 4 (Env.random calm) (volleyBullet brawler 1 0 0 1)
                             plainShot (Coll.init [(1%Z, intruder)] 0) 1)) 1
    = Some ball' /\
    Ball.hp ball' = Ball.hp intruder - Shot.damage plainShot /\
    In 1%Z (Coll.toRemoveBullets
              (hitBall 4 (Env.random calm) (volleyBullet brawler 1 0 0 1)
                 plainShot (Coll.init [(1%Z, intruder)] 0) 1)).
Proof.
  destruct (upgrade_chances_saturate calm 4 (volleyBullet brawler 1 0 0 1) plainShot
              (Coll.init [(1%Z, intruder)] 0) 1 intruder)
    as (ball' & G & K & _ & _ & _ & _ & _ & P & _).
  - reflexivity.
  - reflexivity.
  - apply volley_hits_intruder.
  - exists ball'. split; [exact G|]. split; [apply K; cbn; lia|apply P; cbn; lia].
Defined.

(** The balls after a hit of a bullet that is not homing. *)
Lemma hitBall_balls (tick : Z) (rnd : nat -> R) (bullet : Bullet.t)
    (shot : Shot.t) (st : Coll.t) (k : Z) (ball : Ball.t) :
  Bullet.homing bullet = false ->
  JsMap.get (Coll.balls st) k = Some ball ->
  bulletHitsBall bullet ball (Shot.moveX shot) (Shot.moveY shot) = true ->
  let centre := struck tick rnd (Coll.cursor st) shot ball in
  let hit := JsMap.update (Coll.balls st) k (fun _ => centre) in
  exists rm : JsSet.t,
    Coll.balls (hitBall tick rnd bullet shot st k)
    = if (0 <? Shot.areaLevel shot)%Z
      then fst (JsMap.forEachSt (splash centre (areaDamageAt (Shot.areaLevel shot)))
                  hit rm)
      else hit.
Proof.
  intros Hh Hg Hhit centre hit. subst hit. unfold hitBall. rewrite Hg, Hhit, Hh.
  cbn [negb andb]. set (c := Coll.cursor st) in *.
  assert (E3 : forall (crit push ign : bool),
             crit = drawsCritical rnd c shot -> push = drawsPush rnd c shot ->
             ign = drawsIgnition rnd c shot ->
             (let b1 := Ball.with_hp
                          (Ball.hp ball - (if crit then Shot.damage shot * 2
                                           else Shot.damage shot)) ball in
              let b2 := if push then Ball.with_y (Ball.y b1 - PUSHER_STRENGTH) b1 else b1 in
              if ign then Ball.with_burnEndTick (Some (tick + BURN_DURATION_TICKS)%Z) b2
              else b2) = centre).
  { intros crit push ign -> -> ->. unfold centre, struck.
    destruct (drawsCritical _ _ _), (drawsPush _ _ _), (drawsIgnition _ _ _); reflexivity. }
  unfold drawsCritical, drawsPush, drawsIgnition in E3. unfold areaDamageAt.
  destruct (0 <? Shot.ignitionChance shot)%Z; cbn [andb] in E3 |- *.
  - specialize (E3 _ _ _ eq_refl eq_refl eq_refl). cbn zeta in E3.
    destruct (Js.Rltb (rnd c * 100) _); destruct (Js.Rltb (rnd (S c) * 100) _);
      destruct (Js.Rltb (rnd (S (S c)) * 100) _); cbn [fst snd] in *;
      rewrite E3;
      destruct (Js.Rleb _ (rnd (S (S (S c))) * 100));
      (destruct (0 <? Shot.areaLevel shot)%Z;
       [match goal with |- context [JsMap.forEachSt ?f ?m ?s] =>
          exists s; destruct (JsMap.forEachSt f m s) as [bs rm']
        end; reflexivity
       |exists []; reflexivity]).
  - specialize (E3 _ _ false eq_refl eq_refl eq_refl). cbn zeta in E3.
    destruct (Js.Rltb (rnd c * 100) _); destruct (Js.Rltb (rnd (S c) * 100) _);
      cbn [fst snd] in *;
      rewrite E3;
      destruct (Js.Rleb _ (rnd (S (S c)) * 100));
      (destruct (0 <? Shot.areaLevel shot)%Z;
       [match goal with |- context [JsMap.forEachSt ?f ?m ?s] =>
          exists s; destruct (JsMap.forEachSt f m s) as [bs rm']
        end; reflexivity
       |exists []; reflexivity]).
Qed.

(** Property X11.  When a bullet that is not homing hits a ball, every other
    ball of the map loses [BULLET_DAMAGE * 0.1 * 1.1^(level - 1)] hit points
    if the shot has a positive area level and the centre of that ball is
    within [AREA_DAMAGE_RADIUS] of the centre of the hit ball, measured after
    the push of the hit; otherwise it is left as it is. *)
Theorem area_damage_reaches_neighbours (tick : Z) (rnd : nat -> R)
    (bullet : Bullet.t) (shot : Shot.t) (st : Coll.t) (k k' : Z)
    (ball other : Ball.t) :
  Bullet.homing bullet = false ->
  keyed (Coll.balls st) ->
  JsMap.get (Coll.balls st) k = Some ball ->
  bulletHitsBall bullet ball (Shot.moveX shot) (Shot.moveY shot) = true ->
  JsMap.get (Coll.balls st) k' = Some other ->
  k' <> k ->
  let centre := struck tick rnd (Coll.cursor st) shot ball in
  JsMap.get (Coll.balls (hitBall tick rnd bullet shot st k)) k'
  = Some (if (0 <? Shot.areaLevel shot)%Z
             && Js.Rleb (Js.hypot (Ball.x other - Ball.x centre)
                                  (Ball.y other - Ball.y centre))
                        AREA_DAMAGE_RADIUS
          then Ball.with_hp (Ball.hp other - areaDamageAt (Shot.areaLevel shot)) other
          else other).
Proof.
  intros Hh Hk Hg Hhit Hg' Hne centre.
  destruct (hitBall_balls tick rnd bullet shot st k ball Hh Hg Hhit) as [rm E].
  cbn zeta in E. fold centre in E. rewrite E. clear E.
  assert (Hu : JsMap.get (JsMap.update (Coll.balls st) k (fun _ => centre)) k' = Some other).
  { rewrite get_update. apply Z.eqb_neq in Hne. now rewrite Hne. }
  destruct (0 <? Shot.areaLevel shot)%Z; cbn [andb]; [|exact Hu].
  pose proof (get_forEachSt (splash centre (areaDamageAt (Shot.areaLevel shot)))
                (JsMap.update (Coll.balls st) k (fun _ => centre)) rm k') as G.
  rewrite Hu in G. destruct G as [s' G]. rewrite G. f_equal.
  unfold splash.
  assert (Hid : (Ball.id other =? Ball.id centre)%Z = false).
  { apply Z.eqb_neq. rewrite (keyed_get _ _ _ Hk Hg').
    unfold centre, struck. cbn. rewrite (keyed_get _ _ _ Hk Hg). exact Hne. }
  rewrite Hid. cbn [negb andb].
  destruct (Js.Rleb (Js.hypot _ _) AREA_DAMAGE_RADIUS); reflexivity.
Qed.

Lemma crowd_keyed : keyed (Coll.balls crowd).
Proof.
  split.
  - cbn. constructor; [intros [H|[]]; discriminate|].
    constructor; [intros []|constructor].
  - repeat constructor.
Qed.

Lemma area_damage_reaches_neighbours_witness :
  JsMap.get (Coll.balls (hitBall 4 (Env.random calm) (volleyBullet brawler 1 0 0 1)
                           blastShot crowd 1)) 2
  = Some (Ball.with_hp (Ball.hp bystander - areaDamageAt 1) bystander).
Proof.
  rewrite (area_damage_reaches_neighbours 4 (Env.random calm)
             (volleyBullet brawler 1 0 0 1) blastShot crowd 1 2 intruder bystander).
  - f_equal. unfold struck, drawsPush. cbn -[Js.Rleb Js.Rltb Js.hypot].
    fails (Js.Rltb (0 * 100) 0).
    replace (Js.Rleb (Js.hypot (400 - 360) (1200 - 1200)) AREA_DAMAGE_RADIUS) with true;
      [reflexivity|].
    symmetry. apply Rleb_true.
    replace (400 - 360) with (40 * 1) by lra. replace (1200 - 1200) with (40 * 0) by lra.
    rewrite hypot_scale by lra. rewrite hypot_unit by lra.
    unfold AREA_DAMAGE_RADIUS. lra.
  - reflexivity.
  - apply crowd_keyed.
  - reflexivity.
  - apply volley_hits_intruder.
  - reflexivity.
  - discriminate.
Defined.

End HitEffects.

(** ** The reach of a homing bullet *)

Section HomingReach.
Local Open Scope R_scope.






End HomingReach.

(** ** Balls without hit points are removed *)

Section DeadBalls.
Local Open Scope R_scope.

Lemma deadFlagged_mono (m : JsMap.t Ball.t) (rm rm' : JsSet.t) :
  incl rm rm' -> deadFlagged m rm -> deadFlagged m rm'.
Proof.
  intros Hi. unfold deadFlagged. apply Forall_impl. intros kv H Hd. apply Hi. auto.
Qed.

(** A pass over the balls whose callback only adds to the pending removals,
    and adds the ball it leaves without hit points. *)
Lemma deadFlagged_forEachSt (f : Ball.t -> JsSet.t -> Ball.t * JsSet.t)
    (m : JsMap.t Ball.t) (rm : JsSet.t) :
  (forall v s, incl s (snd (f v s))) ->
  (forall v s, (Ball.hp v <= 0 -> In (Ball.id v) s) ->
               Ball.hp (fst (f v s)) <= 0 -> In (Ball.id (fst (f v s))) (snd (f v s))) ->
  deadFlagged m rm ->
  deadFlagged (fst (JsMap.forEachSt f m rm)) (snd (JsMap.forEachSt f m rm)) /\
  incl rm (snd (JsMap.forEachSt f m rm)).
Proof.
  intros Hi Hf. revert rm. induction m as [|[k v] m IH]; intros rm H; cbn.
  - split; [constructor|apply incl_refl].
  - inversion H as [|? ? Hv Hm]; subst. cbn in Hv.
    pose proof (Hi v rm) as Hi1. pose proof (Hf v rm Hv) as Hf1.
    destruct (f v rm) as [v' s1]. cbn [fst snd] in *.
    destruct (IH s1 (deadFlagged_mono _ _ _ Hi1 Hm)) as [IH1 IH2].
    destruct (JsMap.forEachSt f m s1) as [m' s2]. cbn [fst snd] in *.
    split.
    + constructor; [|exact IH1]. cbn. intros Hd. apply IH2. auto.
    + eapply incl_tran; eassumption.
Qed.

Lemma splash_flags (center : Ball.t) (areaDmg : R) :
  (forall v s, incl s (snd (splash center areaDmg v s))) /\
  (forall v s, (Ball.hp v <= 0 -> In (Ball.id v) s) ->
               Ball.hp (fst (splash center areaDmg v s)) <= 0 ->
               In (Ball.id (fst (splash center areaDmg v s)))
                  (snd (splash center areaDmg v s))).
Proof.
  split; intros v s; unfold splash; destruct (negb _ && _); cbn [fst snd];
    try apply incl_refl; auto.
  - destruct (Js.Rleb _ _); [apply incl_add|apply incl_refl].
  - intros _ Hd. apply Rleb_true in Hd. rewrite Hd. apply In_add_same.
Qed.

Lemma burn_flags (tick : Z) :
  (forall v s, incl s (snd (burn tick v s))) /\
  (forall v s, (Ball.hp v <= 0 -> In (Ball.id v) s) ->
               Ball.hp (fst (burn tick v s)) <= 0 ->
               In (Ball.id (fst (burn tick v s))) (snd (burn tick v s))).
Proof.
  split; intros v s; unfold burn; destruct (isBurning tick v); cbn [fst snd];
    try apply incl_refl; auto.
  - destruct (Js.Rleb _ _); [apply incl_add|apply incl_refl].
  - intros _ Hd. apply Rleb_true in Hd. rewrite Hd. apply In_add_same.
Qed.

Lemma deadFlagged_update (m : JsMap.t Ball.t) (rm : JsSet.t) (k : Z) (v : Ball.t) :
  (Ball.hp v <= 0 -> In (Ball.id v) rm) ->
  deadFlagged m rm -> deadFlagged (JsMap.update m k (fun _ => v)) rm.
Proof.
  intros Hv. unfold deadFlagged, JsMap.update. rewrite Forall_map.
  apply Forall_impl. intros [k' v']. cbn. destruct (k' =? k)%Z; cbn; auto.
Qed.

Lemma hitBall_deadFlagged (tick : Z) (rnd : nat -> R) (bullet : Bullet.t)
    (shot : Shot.t) (st : Coll.t) (k : Z) :
  deadFlagged (Coll.balls st) (Coll.toRemoveBalls st) ->
  deadFlagged (Coll.balls (hitBall tick rnd bullet shot st k))
              (Coll.toRemoveBalls (hitBall tick rnd bullet shot st k)).
Proof.
  intros H. unfold hitBall.
  destruct (JsMap.get (Coll.balls st) k) as [ball|]; [|exact H].
  destruct (bulletHitsBall _ _ _ _); [|exact H].
  set (hom := Bullet.homing bullet).
  set (dc := if hom then _ else _).
  destruct dc as [dmg c1].
  set (ball1 := Ball.with_hp (Ball.hp ball - dmg) ball).
  set (rmBalls := if Js.Rleb (Ball.hp ball1) 0 then _ else _).
  set (pc := if hom then (ball1, c1) else _).
  assert (Hpc : Ball.hp (fst pc) = Ball.hp ball1 /\ Ball.id (fst pc) = Ball.id ball1).
  { unfold pc. destruct hom; [split; reflexivity|].
    destruct (Js.Rltb _ _); split; reflexivity. }
  destruct pc as [ball2 c2]. cbn [fst] in Hpc.
  set (ic := if negb hom && _ then _ else _).
  assert (Hic : Ball.hp (fst ic) = Ball.hp ball1 /\ Ball.id (fst ic) = Ball.id ball1).
  { unfold ic. destruct (negb hom && _); [|exact Hpc].
    destruct (Js.Rltb _ _); exact Hpc. }
  destruct ic as [ball3 c3]. cbn [fst] in Hic.
  set (rc := if hom then _ else _). destruct rc as [rmBullets c4].
  assert (Hrm : incl (Coll.toRemoveBalls st) rmBalls).
  { unfold rmBalls. destruct (Js.Rleb _ _); [apply incl_add|apply incl_refl]. }
  assert (Hb3 : Ball.hp ball3 <= 0 -> In (Ball.id ball3) rmBalls).
  { destruct Hic as [E1 E2]. rewrite E1, E2. intros Hd. unfold rmBalls.
    apply Rleb_true in Hd. rewrite Hd. apply In_add_same. }
  assert (Hu : deadFlagged (JsMap.update (Coll.balls st) k (fun _ => ball3)) rmBalls).
  { apply deadFlagged_update; [exact Hb3|]. eapply deadFlagged_mono; eassumption. }
  destruct (negb hom && _).
  - destruct (splash_flags ball3
                (BULLET_DAMAGE * 0.1 * Js.pow 1.1 (Shot.areaLevel shot - 1))) as [S1 S2].
    destruct (deadFlagged_forEachSt _ _ _ S1 S2 Hu) as [D _].
    destruct (JsMap.forEachSt _ _ _) as [bs rm']. exact D.
  - exact Hu.
Qed.

Lemma fold_hitBall_deadFlagged (tick : Z) (rnd : nat -> R) (bullet : Bullet.t)
    (shot : Shot.t) (ks : list Z) (st : Coll.t) :
  deadFlagged (Coll.balls st) (Coll.toRemoveBalls st) ->
  let st' := fold_left (hitBall tick rnd bullet shot) ks st in
  deadFlagged (Coll.balls st') (Coll.toRemoveBalls st').
Proof.
  revert st. induction ks as [|k ks IH]; intros st H; cbn; [exact H|].
  apply IH. now apply hitBall_deadFlagged.
Qed.

Lemma collide_deadFlagged (players : JsMap.t Player.t) (tick : Z) (rnd : nat -> R)
    (bullets : JsMap.t Bullet.t) (st : Coll.t) :
  deadFlagged (Coll.balls st) (Coll.toRemoveBalls st) ->
  let st' := snd (collide players tick rnd bullets st) in
  deadFlagged (Coll.balls st') (Coll.toRemoveBalls st').
Proof.
  intros H. unfold collide.
  apply (forEachSt_inv
           (fun st => deadFlagged (Coll.balls st) (Coll.toRemoveBalls st))); [|exact H].
  intros b s Hs. unfold collideBullet.
  destruct (aim players (Coll.balls s) b) as [[shot o]|]; cbn [snd].
  - now apply fold_hitBall_deadFlagged.
  - exact Hs.
Qed.

Lemma alive_deadFlagged (m : JsMap.t Ball.t) (rm : JsSet.t) :
  alive m -> deadFlagged m rm.
Proof.
  unfold alive, deadFlagged. apply Forall_impl. intros kv H Hd. lra.
Qed.

Lemma bulletStep_deadFlagged (env : Env.t) (g : Game.t) (c : nat) :
  alive (Game.balls g) ->
  let r := bulletStep env (g, c) in
  deadFlagged (Game.balls (fst r)) (Coll.toRemoveBalls (snd r)).
Proof.
  intros H.
  destruct (bulletStep_frame env g c) as (_ & _ & _ & _ & _ & _ & _ & _ & E).
  cbn zeta in *. rewrite E. clear E.
  unfold bulletStep.
  pose proof (collide_deadFlagged (Game.players g) (Game.tickCount g) (Env.random env)
                (Game.bullets g) (Coll.init (Game.balls g) c)
                (alive_deadFlagged _ _ H)) as D.
  cbn zeta in D.
  destruct (collide _ _ _ _ _) as [bs coll].
  destruct (JsMap.forEachSt moveBullet bs _) as [bs' rm]. exact D.
Qed.

Lemma fall_flags :
  forall (m : JsMap.t Ball.t) (rm : JsSet.t) (lv : Z),
    deadFlagged m rm ->
    deadFlagged (fst (JsMap.forEachSt fall m (rm, lv)))
                (fst (snd (JsMap.forEachSt fall m (rm, lv)))) /\
    incl rm (fst (snd (JsMap.forEachSt fall m (rm, lv)))).
Proof.
  induction m as [|[k v] m IH]; intros rm lv H; cbn.
  - split; [constructor|apply incl_refl].
  - inversion H as [|? ? Hv Hm]; subst. cbn in Hv.
    unfold fall at 1 3 5. 
    destruct (offBottom _); cbn [fst snd].
    + destruct (IH (JsSet.add rm (Ball.id v)) (lv - 1)%Z
                  (deadFlagged_mono _ _ _ (incl_add _ _) Hm)) as [I1 I2].
      cbn [Ball.id Ball.with_y] in *.
      destruct (JsMap.forEachSt fall m _) as [m' [s2 l2]]. cbn [fst snd] in *.
      split.
      * constructor; [|exact I1]. cbn. intros Hd. apply I2. apply incl_add. auto.
      * eapply incl_tran; [apply incl_add|exact I2].
    + destruct (IH rm lv Hm) as [I1 I2].
      destruct (JsMap.forEachSt fall m _) as [m' [s2 l2]]. cbn [fst snd] in *.
      split; [|exact I2].
      constructor; [|exact I1]. cbn. intros Hd. apply I2. auto.
Qed.

Lemma delete_all_unflagged (m : JsMap.t Ball.t) (rm : JsSet.t) :
  keyed m -> deadFlagged m rm -> alive (JsMap.delete_all m rm).
Proof.
  intros [Hn Hk] Hd. unfold alive. apply Forall_forall. intros [k b] Hin. cbn.
  pose proof (In_values_get _ _ _ Hin) as Hg.
  apply delete_all_incl in Hin.
  unfold deadFlagged in Hd. rewrite Forall_forall in Hd, Hk.
  specialize (Hd _ Hin). specialize (Hk _ Hin). cbn in Hd, Hk.
  destruct (Rlt_dec 0 (Ball.hp b)) as [Hp|Hp]; [exact Hp|].
  exfalso. apply Hg. apply get_delete_all; [exact Hn|].
  rewrite <- Hk. apply Hd. lra.
Qed.

Lemma fall_id (b : Ball.t) (st : JsSet.t * Z) : Ball.id (fst (fall b st)) = Ball.id b.
Proof. unfold fall. now destruct (offBottom _). Qed.

Lemma ballStep_alive (g : Game.t) (coll : Coll.t) :
  keyed (Game.balls g) ->
  deadFlagged (Game.balls g) (Coll.toRemoveBalls coll) ->
  alive (Game.balls (ballStep (g, coll))).
Proof.
  intros Hk Hd. unfold ballStep.
  destruct (burn_flags (Game.tickCount g)) as [B1 B2].
  destruct (deadFlagged_forEachSt _ _ _ B1 B2 Hd) as [D _].
  pose proof (keyed_forEachSt (burn (Game.tickCount g)) (Game.balls g)
                (Coll.toRemoveBalls coll) (burn_id _) Hk) as K.
  destruct (JsMap.forEachSt (burn _) _ _) as [bs rm]. cbn [fst snd] in *.
  destruct (fall_flags bs rm (Game.lives g) D) as [F _].
  pose proof (keyed_forEachSt fall bs (rm, Game.lives g) fall_id K) as K'.
  destruct (JsMap.forEachSt fall bs _) as [bs' [rm' lv]]. cbn [fst snd] in *.
  cbn. now apply delete_all_unflagged.
Qed.

Lemma alive_set (m : JsMap.t Ball.t) (k : Z) (v : Ball.t) :
  0 < Ball.hp v -> alive m -> alive (JsMap.set m k v).
Proof.
  intros Hv. unfold alive. induction m as [|[k' v'] m IH]; intros H; cbn.
  - constructor; [exact Hv|constructor].
  - inversion H; subst. destruct (k =? k')%Z; constructor; auto.
Qed.

Lemma phaseStep_alive (env : Env.t) (g : Game.t) :
  alive (Game.balls g) -> alive (Game.balls (fst (phaseStep env g))).
Proof.
  intros H. unfold phaseStep.
  destruct (beginTick_frame g) as [_ Eb].
  pose proof (waveStep_spawn env (beginTick g) 0) as W. cbn zeta in W.
  destruct (waveStep env (beginTick g) 0) as [g1 c1]. cbn [fst] in *.
  destruct (processInput_frame (cardSelectionStep env g1)) as (_ & _ & _ & _ & E1).
  destruct (cardSelectionStep_frame env g1) as [_ E2].
  rewrite E1, E2.
  destruct W as (_ & _ & [(_ & _ & E & _)|(_ & _ & _ & _ & _ & _ & _ & _ & ball & E & _ & Hp & _)]);
    rewrite E, Eb; [exact H|now apply alive_set].
Qed.

(** A tick leaves no ball without hit points in the map. *)
Lemma gameTick_alive (env : Env.t) (g : Game.t) :
  keyed (Game.balls g) -> alive (Game.balls g) ->
  alive (Game.balls (fst (gameTick env g))).
Proof.
  intros Hk Ha. unfold gameTick.
  pose proof (phaseStep_alive env g Ha) as A1.
  destruct (phaseStep_frame env g) as [_ K1]. specialize (K1 Hk).
  destruct (phaseStep env g) as [g1 c]. cbn [fst] in *.
  pose proof (bulletStep_deadFlagged env g1 c A1) as D. cbn zeta in D.
  pose proof (bulletStep_keyed env g1 c K1) as K2.
  destruct (bulletStep env (g1, c)) as [g2 coll]. cbn [fst snd] in *.
  now apply ballStep_alive.
Qed.

Lemma alive_step (e : Event) (g : Game.t) :
  keyed (Game.balls g) -> alive (Game.balls g) ->
  alive (Game.balls (fst (step e g))).
Proof.
  intros Hk Ha.
  destruct e as [env|now|now pid|now pid|pid i|now pid ks|pid]; cbn [step];
    try exact Ha.
  - now apply gameTick_alive.
  - cbn. constructor.
  - unfold selectCard.
    destruct (JsMap.get (Game.players g) pid) as [p|]; [|exact Ha].
    destruct (Player.offeredCards p) as [offered|]; [|exact Ha].
    destruct (negb _ || _); [exact Ha|].
    destruct (Js.index offered i) as [card|]; [|exact Ha].
    unfold applyCard. cbn [fst]. destruct (Card.id card); exact Ha.
Qed.

End DeadBalls.

(** ** Ids are issued once *)

Section IssuedIds.
Local Open Scope R_scope.

Section IssuedFacts.
Context {V : Type} (idOf : V -> Z).

Lemma keys_idTable (m : JsMap.t V) : map fst (idTable idOf m) = JsMap.keys m.
Proof. unfold idTable, JsMap.keys. rewrite map_map. reflexivity. Qed.

Lemma issued_idTable (next : Z) (m m' : JsMap.t V) :
  idTable idOf m' = idTable idOf m -> issued idOf next m -> issued idOf next m'.
Proof.
  intros E (Hn & Hd & Hf). split; [exact Hn|]. split.
  - rewrite <- keys_idTable, E, keys_idTable. exact Hd.
  - assert (F : Forall (fun kk => snd kk = fst kk /\ (1 <= fst kk < next)%Z)
                  (idTable idOf m)).
    { unfold idTable. rewrite Forall_map. exact Hf. }
    rewrite <- E in F. unfold idTable in F. rewrite Forall_map in F. exact F.
Qed.

Lemma idTable_update_all (f : V -> V) (m : JsMap.t V) :
  (forall v, idOf (f v) = idOf v) ->
  idTable idOf (JsMap.update_all f m) = idTable idOf m.
Proof.
  intros Hf. unfold idTable, JsMap.update_all. rewrite map_map.
  apply map_ext. intros [k v]. cbn. now rewrite Hf.
Qed.

Lemma idTable_update (f : V -> V) (m : JsMap.t V) (k : Z) :
  (forall v, idOf (f v) = idOf v) ->
  idTable idOf (JsMap.update m k f) = idTable idOf m.
Proof.
  intros Hf. unfold idTable, JsMap.update. rewrite map_map.
  apply map_ext. intros [k' v]. cbn. destruct (k' =? k)%Z; cbn; now rewrite ?Hf.
Qed.

Lemma idTable_forEachSt {S : Type} (f : V -> S -> V * S) (m : JsMap.t V) (s : S) :
  (forall v s, idOf (fst (f v s)) = idOf v) ->
  idTable idOf (fst (JsMap.forEachSt f m s)) = idTable idOf m.
Proof.
  intros Hf. revert s. induction m as [|[k v] m IH]; intros s; [reflexivity|].
  cbn [JsMap.forEachSt]. pose proof (Hf v s) as Hv.
  destruct (f v s) as [v' s1]. specialize (IH s1).
  destruct (JsMap.forEachSt f m s1) as [m' s2]. cbn in *. now rewrite Hv, IH.
Qed.

Lemma issued_mono (next next' : Z) (m : JsMap.t V) :
  (next <= next')%Z -> issued idOf next m -> issued idOf next' m.
Proof.
  intros Hle (Hn & Hd & Hf). split; [lia|]. split; [exact Hd|].
  eapply Forall_impl; [|exact Hf]. cbn. intros kv [A B]. split; [exact A|lia].
Qed.

Lemma issued_keys_bound (next : Z) (m : JsMap.t V) (k : Z) :
  issued idOf next m -> In k (JsMap.keys m) -> (1 <= k < next)%Z.
Proof.
  intros (_ & _ & Hf) Hin. unfold JsMap.keys in Hin. apply in_map_iff in Hin.
  destruct Hin as (kv & <- & Hin). rewrite Forall_forall in Hf. now apply Hf.
Qed.

Lemma issued_fresh (next : Z) (m : JsMap.t V) :
  issued idOf next m -> JsMap.get m next = None.
Proof.
  intros H. apply get_None_keys. intros Hin.
  pose proof (issued_keys_bound _ _ _ H Hin). lia.
Qed.

Lemma set_fresh (m : JsMap.t V) (k : Z) (v : V) :
  JsMap.get m k = None -> JsMap.set m k v = m ++ [(k, v)].
Proof.
  induction m as [|[k' v'] m IH]; cbn; [reflexivity|].
  destruct (k =? k')%Z; [discriminate|]. intros H. now rewrite IH.
Qed.

Lemma delete_absent (m : JsMap.t V) (k : Z) :
  JsMap.get m k = None -> JsMap.delete m k = m.
Proof.
  induction m as [|[k' v'] m IH]; cbn; [reflexivity|].
  destruct (k =? k')%Z; [discriminate|]. intros H. now rewrite IH.
Qed.

Lemma delete_last (m : JsMap.t V) (k : Z) (v : V) :
  JsMap.get m k = None -> JsMap.delete (m ++ [(k, v)]) k = m.
Proof.
  induction m as [|[k' v'] m IH]; cbn.
  - now rewrite Z.eqb_refl.
  - destruct (k =? k')%Z; [discriminate|]. intros H. now rewrite IH.
Qed.

Lemma issued_set_fresh (next : Z) (m : JsMap.t V) (v : V) :
  issued idOf next m -> idOf v = next ->
  issued idOf (next + 1) (JsMap.set m next v).
Proof.
  intros H Hv. pose proof (issued_fresh _ _ H) as Hf.
  rewrite set_fresh by exact Hf.
  destruct (issued_mono next (next + 1) m ltac:(lia) H) as (Hn & Hd & Ha).
  split; [lia|]. split.
  - unfold JsMap.keys. rewrite map_app. cbn.
    apply NoDup_Add with (a := next) (l := map fst m).
    + rewrite <- (app_nil_r (map fst m)) at 1. apply Add_app.
    + split; [exact Hd|]. now apply get_None_keys in Hf.
  - apply Forall_app. split; [exact Ha|].
    constructor; [|constructor]. cbn. destruct H as (H1 & _). split; [exact Hv|lia].
Qed.

Lemma issued_delete (next : Z) (m : JsMap.t V) (k : Z) :
  issued idOf next m -> issued idOf next (JsMap.delete m k).
Proof.
  intros (Hn & Hd & Hf). split; [exact Hn|]. split; [now apply NoDup_delete|].
  apply Forall_forall. intros kv Hin. apply delete_incl in Hin.
  rewrite Forall_forall in Hf. now apply Hf.
Qed.

Lemma issued_delete_all (next : Z) (m : JsMap.t V) (ids : list Z) :
  issued idOf next m -> issued idOf next (JsMap.delete_all m ids).
Proof.
  revert m. induction ids as [|k ids IH]; intros m H; [exact H|].
  cbn. apply IH. now apply issued_delete.
Qed.

Lemma issued_get (next : Z) (m : JsMap.t V) (k : Z) (v : V) :
  issued idOf next m -> JsMap.get m k = Some v ->
  idOf v = k /\ (1 <= k < next)%Z.
Proof.
  intros (_ & _ & Hf). induction m as [|[k' v'] m IH]; cbn; [discriminate|].
  inversion Hf as [|? ? H1 H2]; subst. cbn in H1.
  destruct (k =? k')%Z eqn:E.
  - apply Z.eqb_eq in E. intros [= <-]. subst. exact H1.
  - now apply IH.
Qed.

Lemma issued_empty (next : Z) : (1 <= next)%Z -> issued idOf next JsMap.empty.
Proof. intros H. split; [exact H|]. split; constructor. Qed.

End IssuedFacts.

Lemma issued_keyed (next : Z) (m : JsMap.t Ball.t) : issued Ball.id next m -> keyed m.
Proof.
  intros (_ & Hd & Hf). split; [exact Hd|].
  eapply Forall_impl; [|exact Hf]. cbn. tauto.
Qed.

(** *** The players' ids *)
Lemma movePlayer_id (p : Player.t) : Player.id (movePlayer p) = Player.id p.
Proof.
  unfold movePlayer.
  repeat match goal with |- context [if ?c then _ else _] => destruct c end;
    reflexivity.
Qed.

Lemma waveStep_static (env : Env.t) (g : Game.t) (c : nat) :
  let g' := fst (waveStep env g c) in
  idTable Player.id (Game.players g') = idTable Player.id (Game.players g) /\
  Game.nextPlayerId g' = Game.nextPlayerId g /\
  Game.bullets g' = Game.bullets g /\
  Game.nextBulletId g' = Game.nextBulletId g /\
  Game.gameStarted g' = Game.gameStarted g.
Proof.
  assert (Hoff : forall v (s : nat),
             Player.id (fst (offerTo (Env.random env) v s)) = Player.id v)
    by (intros v s; now rewrite offerTo_fst).
  unfold waveStep.
  destruct (Game.gameStarted g && _ && _); [|cbn; auto].
  destruct (Js.Rltb _ _ && _).
  - destruct (spawnBall_players (Env.random env) c None g) as (E1 & E2 & E3 & E4 & E5 & _).
    destruct (spawnBall (Env.random env) c None g) as [[ty g1] c1].
    cbn [fst snd] in *.
    cbn [Game.waveWeightSpawned Game.with_lastSpawnTick Game.with_waveWeightSpawned
         Game.balls Game.gamePhase].
    destruct (Js.Rleb _ _ && _ && _).
    + pose proof (idTable_forEachSt Player.id (offerTo (Env.random env))
                    (Game.players g1) c1 Hoff) as F.
      cbn [Game.players Game.with_cardSelectionEndTime Game.with_gamePhase
           Game.with_lastSpawnTick Game.with_waveWeightSpawned].
      destruct (JsMap.forEachSt _ _ _) as [ps c']. cbn [fst] in F. cbn -[idTable].
      repeat split; congruence.
    + cbn -[idTable]. repeat split; congruence.
  - destruct (Js.Rleb _ _ && _ && _); [|cbn; auto].
    pose proof (idTable_forEachSt Player.id (offerTo (Env.random env))
                  (Game.players g) c Hoff) as F.
    cbn [Game.players Game.with_cardSelectionEndTime Game.with_gamePhase].
    destruct (JsMap.forEachSt _ _ _) as [ps c']. cbn [fst] in F. cbn -[idTable]. auto.
Qed.

Lemma phaseStep_static (env : Env.t) (g : Game.t) :
  let g' := fst (phaseStep env g) in
  idTable Player.id (Game.players g') = idTable Player.id (Game.players g) /\
  Game.nextPlayerId g' = Game.nextPlayerId g /\
  Game.bullets g' = Game.bullets g /\
  Game.nextBulletId g' = Game.nextBulletId g /\
  Game.gameStarted g' = Game.gameStarted g /\
  Game.tickCount g' = (Game.tickCount g + 1)%Z.
Proof.
  unfold phaseStep.
  destruct (beginTick_counters g) as (_ & _ & _ & _ & B5 & B6 & B7 & B8 & B9 & B10 & _).
  destruct (waveStep_static env (beginTick g) 0) as (W1 & W2 & W3 & W4 & W5).
  destruct (waveStep_spawn env (beginTick g) 0) as (_ & W6 & _).
  destruct (waveStep env (beginTick g) 0) as [g1 c1]. cbn [fst] in *.
  destruct (cardSelectionStep_counters env g1) as (_ & _ & C3 & C4 & C5 & C6 & C7).
  destruct (processInput_counters (cardSelectionStep env g1)) as (_ & _ & P3 & P4 & P5 & P6 & P7).
  assert (T1 : idTable Player.id (Game.players (cardSelectionStep env g1))
               = idTable Player.id (Game.players g1)).
  { unfold cardSelectionStep. destruct (Phase_eqb _ _); [|reflexivity].
    destruct (_ || _); [|reflexivity]. cbn. now apply idTable_update_all. }
  assert (T2 : idTable Player.id (Game.players (processInput (cardSelectionStep env g1)))
               = idTable Player.id (Game.players (cardSelectionStep env g1))).
  { unfold processInput. destruct (negb _); [|reflexivity]. cbn.
    apply idTable_update_all. apply movePlayer_id. }
  repeat split; congruence.
Qed.

Lemma selectCard_static (pid i : Z) (g : Game.t) :
  let g' := fst (selectCard pid i g) in
  idTable Player.id (Game.players g') = idTable Player.id (Game.players g) /\
  Game.nextPlayerId g' = Game.nextPlayerId g /\
  Game.bullets g' = Game.bullets g /\
  Game.nextBulletId g' = Game.nextBulletId g /\
  Game.balls g' = Game.balls g /\
  Game.nextBallId g' = Game.nextBallId g /\
  Game.gameStarted g' = Game.gameStarted g /\
  Game.tickCount g' = Game.tickCount g.
Proof.
  unfold selectCard.
  destruct (JsMap.get (Game.players g) pid) as [p|]; [|cbn; auto 10].
  destruct (Player.offeredCards p) as [offered|]; [|cbn; auto 10].
  destruct (negb _ || _); [cbn; auto 10|].
  destruct (Js.index offered i) as [card|]; [|cbn; auto 10].
  unfold applyCard. cbn [fst].
  destruct (Card.id card); cbn -[JsMap.update idTable];
    rewrite ?idTable_update by reflexivity; auto 10.
Qed.

Lemma issued_players_step (e : Event) (g : Game.t) :
  issued Player.id (Game.nextPlayerId g) (Game.players g) ->
  issued Player.id (Game.nextPlayerId (fst (step e g))) (Game.players (fst (step e g))).
Proof.
  intros H.
  destruct e as [env|now|now pid|now pid|pid i|now pid ks|pid]; cbn [step].
  - destruct (gameTick_frame env g) as (E & _).
    destruct (gameTick_counters env g) as (_ & _ & N).
    destruct (phaseStep_static env g) as (T & N' & _).
    cbn zeta in *. rewrite N, N', E.
    eapply issued_idTable; [exact T|exact H].
  - cbn. now apply issued_set_fresh.
  - cbn -[JsMap.update]. eapply issued_idTable; [|exact H].
    now apply idTable_update.
  - cbn -[JsMap.update JsMap.update_all]. eapply issued_idTable; [|exact H].
    rewrite idTable_update by reflexivity. now apply idTable_update_all.
  - destruct (selectCard_static pid i g) as (T & N & _). cbn zeta in *.
    rewrite N. eapply issued_idTable; [exact T|exact H].
  - cbn -[JsMap.update]. eapply issued_idTable; [|exact H].
    now apply idTable_update.
  - cbn. now apply issued_delete.
Qed.

(** *** The bullets' ids *)
Lemma collideBullet_id (players : JsMap.t Player.t) (tick : Z) (rnd : nat -> R)
    (b : Bullet.t) (st : Coll.t) :
  Bullet.id (fst (collideBullet players tick rnd b st)) = Bullet.id b.
Proof.
  unfold collideBullet. now destruct (aim players (Coll.balls st) b) as [[shot o]|].
Qed.

Lemma moveBullet_id (b : Bullet.t) (rm : JsSet.t) :
  Bullet.id (fst (moveBullet b rm)) = Bullet.id b.
Proof.
  destruct (Z_lt_le_dec 0 (Bullet.bouncesLeft b ?? 0%Z)) as [H|H].
  - now destruct (moveBullet_bouncing b rm H) as (_ & _ & _ & _ & _ & E & _).
  - unfold moveBullet.
    match goal with |- context [if negb ?h && ?k then _ else _] =>
      destruct (negb h && k) end;
      cbn [Bullet.bouncesLeft Bullet.with_vy Bullet.with_vx Bullet.with_move
           Bullet.with_pos];
      (destruct (0 <? Bullet.bouncesLeft b ?? 0)%Z eqn:E;
       [apply Z.ltb_lt in E; lia|reflexivity]).
Qed.

Lemma volleyLoop_issued (p : Player.t) (count bc : Z) (n i : nat)
    (bs : JsMap.t Bullet.t) (next : Z) :
  issued Bullet.id next bs ->
  let r := volleyLoop p count bc n i (bs, next) in
  snd r = (next + Z.of_nat n)%Z /\ issued Bullet.id (snd r) (fst r).
Proof.
  revert i bs next. induction n as [|n IH]; intros i bs next H.
  - cbn. split; [lia|exact H].
  - cbn [volleyLoop]. cbn [Bullet.id volleyBullet].
    destruct (IH (S i) (JsMap.set bs next (volleyBullet p count bc i next)) (next + 1)%Z)
      as [A B].
    + now apply issued_set_fresh.
    + cbn zeta. split; [rewrite A; lia|exact B].
Qed.

Lemma shoot_issued (tick : Z) (balls : JsMap.t Ball.t) (bs : JsMap.t Bullet.t)
    (next : Z) (p : Player.t) :
  issued Bullet.id next bs ->
  let r := shoot tick balls (bs, next) p in
  (next <= snd r)%Z /\ issued Bullet.id (snd r) (fst r).
Proof.
  intros H. unfold shoot.
  destruct (volleyLoop_issued p (Player.bulletCount p) (Player.bounceCount p)
              (Z.to_nat (Player.bulletCount p)) 0 bs next H) as [A B].
  destruct (volleyLoop _ _ _ _ _ _) as [bs1 n1]. cbn [fst snd] in *.
  destruct (_ && _); [|cbn; split; [lia|exact B]].
  destruct (nearestBall p balls) as [nearest|]; [|cbn; split; [lia|exact B]].
  cbn. split; [lia|]. now apply issued_set_fresh.
Qed.

Lemma fold_shoot_issued (tick : Z) (balls : JsMap.t Ball.t) (ps : list Player.t)
    (bs : JsMap.t Bullet.t) (next : Z) :
  issued Bullet.id next bs ->
  let r := fold_left (shoot tick balls) ps (bs, next) in
  (next <= snd r)%Z /\ issued Bullet.id (snd r) (fst r).
Proof.
  revert bs next. induction ps as [|p ps IH]; intros bs next H; cbn.
  - split; [lia|exact H].
  - destruct (shoot_issued tick balls bs next p H) as [A B].
    destruct (shoot tick balls (bs, next) p) as [bs1 n1]. cbn [fst snd] in *.
    destruct (IH bs1 n1 B) as [C D]. split; [lia|exact D].
Qed.

Lemma spawnBullets_issued (g : Game.t) :
  issued Bullet.id (Game.nextBulletId g) (Game.bullets g) ->
  (Game.nextBulletId g <= Game.nextBulletId (spawnBullets g))%Z /\
  issued Bullet.id (Game.nextBulletId (spawnBullets g)) (Game.bullets (spawnBullets g)).
Proof.
  intros H. unfold spawnBullets.
  destruct (_ && _ && _); [|split; [lia|exact H]].
  destruct (fold_shoot_issued (Game.tickCount g) (Game.balls g)
              (JsMap.values (Game.players g)) _ _ H) as [A B].
  destruct (fold_left _ _ _) as [bs n]. cbn in *. split; assumption.
Qed.

Lemma bulletStep_issued (env : Env.t) (g : Game.t) (c : nat) :
  issued Bullet.id (Game.nextBulletId g) (Game.bullets g) ->
  let g' := fst (bulletStep env (g, c)) in
  (Game.nextBulletId g <= Game.nextBulletId g')%Z /\
  issued Bullet.id (Game.nextBulletId g') (Game.bullets g').
Proof.
  intros H. unfold bulletStep, collide.
  pose proof (idTable_forEachSt Bullet.id
                (collideBullet (Game.players g) (Game.tickCount g) (Env.random env))
                (Game.bullets g) (Coll.init (Game.balls g) c)
                (collideBullet_id _ _ _)) as T1.
  destruct (JsMap.forEachSt _ (Game.bullets g) _) as [bs coll]. cbn [fst] in T1.
  pose proof (idTable_forEachSt Bullet.id moveBullet bs (Coll.toRemoveBullets coll)
                moveBullet_id) as T2.
  destruct (JsMap.forEachSt moveBullet bs _) as [bs' rm]. cbn [fst] in T2.
  cbn [fst].
  apply (spawnBullets_issued
           (Game.with_balls (Coll.balls coll)
              (Game.with_bullets (JsMap.delete_all bs' rm) g))).
  cbn. apply issued_delete_all.
  eapply issued_idTable; [exact T2|].
  eapply issued_idTable; [exact T1|exact H].
Qed.

Lemma issued_bullets_step (e : Event) (g : Game.t) :
  issued Bullet.id (Game.nextBulletId g) (Game.bullets g) ->
  issued Bullet.id (Game.nextBulletId (fst (step e g))) (Game.bullets (fst (step e g))).
Proof.
  intros H.
  destruct e as [env|now|now pid|now pid|pid i|now pid ks|pid]; cbn [step];
    try exact H.
  - unfold gameTick.
    destruct (phaseStep_static env g) as (_ & _ & B & N & _). cbn zeta in *.
    destruct (phaseStep env g) as [g1 c]. cbn [fst] in *.
    rewrite <- B, <- N in H.
    destruct (bulletStep_issued env g1 c H) as [_ I]. cbn zeta in I.
    destruct (bulletStep env (g1, c)) as [g2 coll]. cbn [fst] in *.
    destruct (ballStep_frame g2 coll) as (_ & E & _).
    destruct (ballStep_counters g2 coll) as (_ & _ & _ & N2).
    cbn zeta in *. now rewrite E, N2.
  - cbn. apply issued_empty. lia.
  - destruct (selectCard_static pid i g) as (_ & _ & B & N & _). cbn zeta in *.
    now rewrite B, N.
Qed.

(** *** The balls' ids *)
Lemma idTable_update_const (m : JsMap.t Ball.t) (k : Z) (v : Ball.t) :
  keyed m -> Ball.id v = k ->
  idTable Ball.id (JsMap.update m k (fun _ => v)) = idTable Ball.id m.
Proof.
  intros [_ Hid] Hv. unfold idTable, JsMap.update. rewrite map_map.
  apply map_ext_in. intros [k' v'] Hin. cbn.
  rewrite Forall_forall in Hid. specialize (Hid _ Hin). cbn in Hid.
  destruct (k' =? k)%Z eqn:E; cbn; [apply Z.eqb_eq in E; congruence|reflexivity].
Qed.

Lemma hitBall_idTable (tick : Z) (rnd : nat -> R) (bullet : Bullet.t)
    (shot : Shot.t) (st : Coll.t) (k : Z) :
  keyed (Coll.balls st) ->
  idTable Ball.id (Coll.balls (hitBall tick rnd bullet shot st k))
  = idTable Ball.id (Coll.balls st).
Proof.
  intros Hk. unfold hitBall.
  destruct (JsMap.get (Coll.balls st) k) as [ball|] eqn:Hg; [|reflexivity].
  pose proof (keyed_get _ _ _ Hk Hg) as Hid.
  destruct (bulletHitsBall _ _ _ _); [|reflexivity].
  set (hom := Bullet.homing bullet).
  set (dc := if hom then _ else _).
  destruct dc as [dmg c1].
  set (ball1 := Ball.with_hp (Ball.hp ball - dmg) ball).
  set (rmBalls := if Js.Rleb (Ball.hp ball1) 0 then _ else _).
  set (pc := if hom then (ball1, c1) else _).
  assert (Hpc : Ball.id (fst pc) = Ball.id ball).
  { unfold pc. destruct hom; [reflexivity|]. destruct (Js.Rltb _ _); reflexivity. }
  destruct pc as [ball2 c2]. cbn [fst] in Hpc.
  set (ic := if negb hom && _ then _ else _).
  assert (Hic : Ball.id (fst ic) = Ball.id ball).
  { unfold ic. destruct (negb hom && _); [|exact Hpc].
    destruct (Js.Rltb _ _); exact Hpc. }
  destruct ic as [ball3 c3]. cbn [fst] in Hic.
  set (rc := if hom then _ else _). destruct rc as [rmBullets c4].
  assert (Hu : idTable Ball.id (JsMap.update (Coll.balls st) k (fun _ => ball3))
               = idTable Ball.id (Coll.balls st))
    by (apply idTable_update_const; [exact Hk|congruence]).
  destruct (negb hom && _).
  - pose proof (idTable_forEachSt Ball.id
                  (splash ball3 (BULLET_DAMAGE * 0.1 * Js.pow 1.1 (Shot.areaLevel shot - 1)))
                  (JsMap.update (Coll.balls st) k (fun _ => ball3)) rmBalls
                  (splash_id _ _)) as T.
    destruct (JsMap.forEachSt _ _ _) as [bs rm']. cbn [fst Coll.balls] in *. congruence.
  - exact Hu.
Qed.

Lemma collide_idTable (players : JsMap.t Player.t) (tick : Z) (rnd : nat -> R)
    (bullets : JsMap.t Bullet.t) (st : Coll.t) :
  keyed (Coll.balls st) ->
  idTable Ball.id (Coll.balls (snd (collide players tick rnd bullets st)))
  = idTable Ball.id (Coll.balls st).
Proof.
  intros Hk. unfold collide.
  apply (forEachSt_inv
           (fun s => keyed (Coll.balls s) /\
                     idTable Ball.id (Coll.balls s) = idTable Ball.id (Coll.balls st)));
    [|split; [exact Hk|reflexivity]].
  intros b s [Ks Ts]. split; [now apply collideBullet_keyed|].
  unfold collideBullet.
  destruct (aim players (Coll.balls s) b) as [[shot o]|]; cbn [snd]; [|exact Ts].
  rewrite <- Ts. clear Ts.
  generalize (JsMap.keys (Coll.balls s)). intros ks.
  revert s Ks. induction ks as [|k ks IH]; intros s Ks; [reflexivity|].
  cbn [fold_left]. rewrite IH by now apply hitBall_keyed.
  now apply hitBall_idTable.
Qed.

Lemma bulletStep_issued_balls (env : Env.t) (g : Game.t) (c : nat) (next : Z) :
  issued Ball.id next (Game.balls g) ->
  issued Ball.id next (Game.balls (fst (bulletStep env (g, c)))).
Proof.
  intros H.
  destruct (bulletStep_frame env g c) as (_ & _ & _ & _ & _ & _ & _ & _ & E).
  cbn zeta in E. rewrite E. clear E. unfold bulletStep.
  pose proof (collide_idTable (Game.players g) (Game.tickCount g) (Env.random env)
                (Game.bullets g) (Coll.init (Game.balls g) c)
                (issued_keyed _ _ H)) as T.
  destruct (collide _ _ _ _ _) as [bs coll].
  destruct (JsMap.forEachSt moveBullet bs _) as [bs' rm]. cbn [fst snd] in *.
  eapply issued_idTable; [exact T|exact H].
Qed.

Lemma ballStep_issued (g : Game.t) (coll : Coll.t) (next : Z) :
  issued Ball.id next (Game.balls g) ->
  issued Ball.id next (Game.balls (ballStep (g, coll))).
Proof.
  intros H. unfold ballStep.
  pose proof (idTable_forEachSt Ball.id (burn (Game.tickCount g)) (Game.balls g)
                (Coll.toRemoveBalls coll) (burn_id _)) as T1.
  destruct (JsMap.forEachSt (burn _) _ _) as [bs rm]. cbn [fst] in T1.
  pose proof (idTable_forEachSt Ball.id fall bs (rm, Game.lives g) fall_id) as T2.
  destruct (JsMap.forEachSt fall bs _) as [bs' [rm' lv]]. cbn [fst] in T2.
  cbn. apply issued_delete_all.
  eapply issued_idTable; [exact T2|].
  eapply issued_idTable; [exact T1|exact H].
Qed.

Lemma phaseStep_issued_balls (env : Env.t) (g : Game.t) :
  issued Ball.id (Game.nextBallId g) (Game.balls g) ->
  let g' := fst (phaseStep env g) in
  issued Ball.id (Game.nextBallId g') (Game.balls g').
Proof.
  intros H. unfold phaseStep.
  destruct (beginTick_frame g) as [_ Eb].
  destruct (beginTick_counters g) as (_ & _ & _ & En & _).
  pose proof (waveStep_spawn env (beginTick g) 0) as W. cbn zeta in W.
  destruct (waveStep env (beginTick g) 0) as [g1 c1]. cbn [fst] in *.
  destruct (processInput_frame (cardSelectionStep env g1)) as (_ & _ & _ & _ & E1).
  destruct (processInput_counters (cardSelectionStep env g1)) as (_ & N1 & _).
  destruct (cardSelectionStep_frame env g1) as [_ E2].
  destruct (cardSelectionStep_counters env g1) as (_ & N2 & _).
  rewrite E1, E2, N1, N2.
  destruct W as (_ & _ & [(_ & _ & E & N)|(_ & _ & _ & _ & _ & _ & _ & N & ball & E & I & _)]);
    rewrite E, N, Eb, En; [exact H|].
  rewrite En in I. now apply issued_set_fresh.
Qed.

Lemma issued_balls_step (e : Event) (g : Game.t) :
  issued Ball.id (Game.nextBallId g) (Game.balls g) ->
  issued Ball.id (Game.nextBallId (fst (step e g))) (Game.balls (fst (step e g))).
Proof.
  intros H.
  destruct e as [env|now|now pid|now pid|pid i|now pid ks|pid]; cbn [step];
    try exact H.
  - destruct (gameTick_counters env g) as (_ & N & _). cbn zeta in N. rewrite N.
    pose proof (phaseStep_issued_balls env g H) as I. cbn zeta in I.
    unfold gameTick. destruct (phaseStep env g) as [g1 c]. cbn [fst] in *.
    pose proof (bulletStep_issued_balls env g1 c _ I) as I2.
    destruct (bulletStep env (g1, c)) as [g2 coll]. cbn [fst] in *.
    now apply ballStep_issued.
  - cbn. apply issued_empty. lia.
  - destruct (selectCard_static pid i g) as (_ & _ & _ & _ & B & N & _). cbn zeta in *.
    now rewrite B, N.
Qed.

(** *** Every reachable state is well formed *)
Lemma wellFormed_step (e : Event) (g : Game.t) :
  wellFormed g -> wellFormed (fst (step e g)).
Proof.
  intros (A & B & C & D). split; [|split; [|split]].
  - now apply issued_players_step.
  - now apply issued_bullets_step.
  - now apply issued_balls_step.
  - apply alive_step; [eapply issued_keyed; exact C|exact D].
Qed.

Lemma wellFormed_run (es : list Event) (g : Game.t) :
  wellFormed g -> wellFormed (run es g).
Proof.
  revert g. induction es as [|e es IH]; intros g H; [exact H|].
  cbn [run fold_left]. apply IH. now apply wellFormed_step.
Qed.

Lemma wellFormed_initial : wellFormed Game.initial.
Proof.
  repeat split; try constructor; cbn; lia.
Qed.

Lemma wellFormed_reachable (es : list Event) : wellFormed (run es Game.initial).
Proof. apply wellFormed_run, wellFormed_initial. Qed.

(** Property X13.  In every state the server reaches from its start, each of
    the maps of players, bullets and balls has distinct keys, stores every
    object under the object's own id, and holds only ids that are at least 1
    and below the counter that issues the next one. *)
Theorem ids_are_issued_once (es : list Event) :
  let g := run es Game.initial in
  issued Player.id (Game.nextPlayerId g) (Game.players g) /\
  issued Bullet.id (Game.nextBulletId g) (Game.bullets g) /\
  issued Ball.id (Game.nextBallId g) (Game.balls g).
Proof.
  destruct (wellFormed_reachable es) as (A & B & C & _). auto.
Qed.

(** Property X14.  In every state the server reaches from its start, every
    ball of the map has positive hit points: a ball that a hit, area damage
    or burn damage leaves at 0 or below is removed in the same tick. *)
Theorem dead_balls_never_survive (es : list Event) :
  alive (Game.balls (run es Game.initial)).
Proof.
  destruct (wellFormed_reachable es) as (_ & _ & _ & D). exact D.
Qed.

(** Property X15.  In a state the server reaches from its start, a connection
    issues the id of the counter, which no connected player has.  The joined
    message carries that id, the room size and whether the game has started;
    the new player stands at the start position with default modifiers, no
    key held and the clock reading as last activity; the other players are
    untouched.  Disconnecting the new player gives back the map of players as
    it was, while the counter stays advanced: the id is not issued again. *)
Theorem connect_then_disconnect (es : list Event) (now : Z) :
  let g := run es Game.initial in
  let id := Game.nextPlayerId g in
  let g1 := fst (connection now g) in
  snd (connection now g) = [joined id ROOM_WIDTH ROOM_HEIGHT (Game.gameStarted g)] /\
  JsMap.get (Game.players g) id = None /\
  (exists p : Player.t,
     JsMap.get (Game.players g1) id = Some p /\ Player.id p = id /\
     Player.x p = ROOM_WIDTH / 2 /\ Player.y p = ROOM_HEIGHT - 80 /\
     atDefaults p /\ Player.keys p = Keys.none /\ Player.lastActivity p = now) /\
  (forall k : Z, k <> id ->
     JsMap.get (Game.players g1) k = JsMap.get (Game.players g) k) /\
  Game.players (fst (disconnect id g1)) = Game.players g /\
  Game.nextPlayerId (fst (disconnect id g1)) = (id + 1)%Z.
Proof.
  intros g id g1.
  destruct (wellFormed_reachable es) as (WP & _). fold g in WP.
  pose proof (issued_fresh _ _ _ WP) as Hf. fold id in Hf.
  split; [reflexivity|]. split; [exact Hf|]. split; [|split; [|split]].
  - eexists. split; [apply get_set_same|]. cbn. unfold atDefaults. cbn.
    repeat split.
  - intros k Hk. unfold g1. cbn. now apply get_set_other.
  - unfold g1. cbn. fold id. rewrite set_fresh by exact Hf. now apply delete_last.
  - reflexivity.
Qed.

End IssuedIds.

(** ** Homing bullets and their targets *)

Section HomingTargets.
Local Open Scope R_scope.

(** What the movement pass keeps of a bullet. *)
Lemma moveBullet_static (b : Bullet.t) (rm : JsSet.t) :
  let b' := fst (moveBullet b rm) in
  Bullet.homing b' = Bullet.homing b /\
  Bullet.targetBallId b' = Bullet.targetBallId b /\
  Bullet.ownerId b' = Bullet.ownerId b /\
  Bullet.radius b' = Bullet.radius b /\
  Bullet.damage b' = Bullet.damage b /\
  Bullet._moveX b' = None /\ Bullet._moveY b' = None /\
  incl rm (snd (moveBullet b rm)).
Proof.
  destruct b as [id x y ow rd vx vy bl hm tg dm mX mY].
  unfold moveBullet, bounceBottom, bounceTop, bounceRight, bounceLeft.
  cbn -[Js.Rltb outOfRoom].
  repeat match goal with
         | |- context [if ?c then _ else _] => destruct c; cbn -[Js.Rltb outOfRoom]
         end;
    repeat split; try apply incl_refl; try apply incl_add.
Qed.

Lemma collideBullet_static (players : JsMap.t Player.t) (tick : Z) (rnd : nat -> R)
    (b : Bullet.t) (st : Coll.t) :
  let b' := fst (collideBullet players tick rnd b st) in
  Bullet.homing b' = Bullet.homing b /\
  Bullet.targetBallId b' = Bullet.targetBallId b.
Proof.
  unfold collideBullet. destruct (aim _ _ _) as [[shot o]|]; cbn; auto.
Qed.

Lemma nearer_In (p : Player.t) (l : list Ball.t) (acc : option Ball.t * R) (b : Ball.t) :
  fst (fold_left (nearer p) l acc) = Some b -> In b l \/ fst acc = Some b.
Proof.
  revert acc. induction l as [|v l IH]; intros acc H; cbn in *; [now right|].
  apply IH in H. destruct H as [H|H]; [left; now right|].
  unfold nearer in H. destruct (Js.Rltb _ _); cbn in H.
  - left. left. congruence.
  - now right.
Qed.

Lemma nearestBall_In (p : Player.t) (balls : JsMap.t Ball.t) (b : Ball.t) :
  nearestBall p balls = Some b -> In b (JsMap.values balls).
Proof.
  unfold nearestBall. intros H. apply nearer_In in H.
  destruct H as [H|H]; [exact H|discriminate].
Qed.

Lemma issued_value_bound {V : Type} (idOf : V -> Z) (next : Z) (m : JsMap.t V) (v : V) :
  issued idOf next m -> In v (JsMap.values m) -> (1 <= idOf v < next)%Z.
Proof.
  intros (_ & _ & Hf) Hin. unfold JsMap.values in Hin. apply in_map_iff in Hin.
  destruct Hin as ([k v'] & <- & Hin). rewrite Forall_forall in Hf.
  destruct (Hf _ Hin) as [A B]. cbn in *. lia.
Qed.

Section SpawnTargets.
Context (tick : Z) (balls : JsMap.t Ball.t) (nextBall : Z).
Hypothesis balls_issued : issued Ball.id nextBall balls.

Lemma volleyLoop_targets (p : Player.t) (count bc : Z) (n i : nat)
    (st : JsMap.t Bullet.t * Z) :
  Forall (namesIssuedTarget nextBall) (JsMap.values (fst st)) ->
  Forall (namesIssuedTarget nextBall) (JsMap.values (fst (volleyLoop p count bc n i st))).
Proof.
  revert i st. induction n as [|n IH]; intros i [bs next] H; [exact H|].
  cbn [volleyLoop]. apply IH. cbn [fst].
  apply Forall_values_set; [|exact H]. intros Hh. discriminate.
Qed.

Lemma shoot_targets (st : JsMap.t Bullet.t * Z) (p : Player.t) :
  Forall (namesIssuedTarget nextBall) (JsMap.values (fst st)) ->
  Forall (namesIssuedTarget nextBall) (JsMap.values (fst (shoot tick balls st p))).
Proof.
  intros H. unfold shoot.
  pose proof (volleyLoop_targets p (Player.bulletCount p) (Player.bounceCount p)
                (Z.to_nat (Player.bulletCount p)) 0 st H) as V.
  destruct (volleyLoop _ _ _ _ _ _) as [bs1 n1]. cbn [fst] in *.
  destruct (_ && _); [|exact V].
  destruct (nearestBall p balls) as [nearest|] eqn:N; [|exact V].
  cbn [fst]. apply Forall_values_set; [|exact V].
  intros _. exists (Ball.id nearest). split; [reflexivity|].
  apply nearestBall_In in N.
  pose proof (issued_value_bound _ _ _ _ balls_issued N). lia.
Qed.

Lemma fold_shoot_targets (ps : list Player.t) (st : JsMap.t Bullet.t * Z) :
  Forall (namesIssuedTarget nextBall) (JsMap.values (fst st)) ->
  Forall (namesIssuedTarget nextBall) (JsMap.values (fst (fold_left (shoot tick balls) ps st))).
Proof.
  revert st. induction ps as [|p ps IH]; intros st H; [exact H|].
  cbn. apply IH. now apply shoot_targets.
Qed.

End SpawnTargets.

Lemma targetsIssued_tick (env : Env.t) (g : Game.t) :
  wellFormed g -> targetsIssued g -> targetsIssued (fst (gameTick env g)).
Proof.
  intros (_ & _ & WB & _) H. unfold targetsIssued in *.
  destruct (gameTick_counters env g) as (_ & N & _). cbn zeta in N. rewrite N.
  pose proof (phaseStep_issued_balls env g WB) as I. cbn zeta in I.
  assert (Hn : (Game.nextBallId g <= Game.nextBallId (fst (phaseStep env g)))%Z).
  { unfold phaseStep.
    destruct (beginTick_counters g) as (_ & _ & _ & En & _).
    pose proof (waveStep_spawn env (beginTick g) 0) as W. cbn zeta in W.
    destruct (waveStep env (beginTick g) 0) as [g1 c1]. cbn [fst] in *.
    destruct (processInput_counters (cardSelectionStep env g1)) as (_ & N1 & _).
    destruct (cardSelectionStep_counters env g1) as (_ & N2 & _).
    rewrite N1, N2.
    destruct W as (_ & _ & [(_ & _ & _ & E)|(_ & _ & _ & _ & _ & _ & _ & E & _)]); lia. }
  destruct (phaseStep_static env g) as (_ & _ & B & _). cbn zeta in B.
  unfold gameTick.
  destruct (phaseStep env g) as [g1 c]. cbn [fst] in *.
  set (next := Game.nextBallId g1) in *.
  set (ok := namesIssuedTarget next).
  assert (H1 : Forall ok (JsMap.values (Game.bullets g1))).
  { rewrite B. eapply Forall_impl; [|exact H]. intros b Hb Hh.
    destruct (Hb Hh) as (t & E & L). exists t. split; [exact E|lia]. }
  pose proof (bulletStep_issued_balls env g1 c _ I) as I2.
  destruct (bulletStep_frame env g1 c) as (_ & _ & _ & _ & _ & _ & _ & _ & Eb).
  cbn zeta in Eb.
  assert (H2 : Forall ok (JsMap.values (Game.bullets (fst (bulletStep env (g1, c)))))).
  { clear Eb I2. unfold bulletStep, collide.
    pose proof (collide_idTable (Game.players g1) (Game.tickCount g1) (Env.random env)
                  (Game.bullets g1) (Coll.init (Game.balls g1) c)
                  (issued_keyed _ _ I)) as T.
    unfold collide in T.
    pose proof (Forall_values_forEachSt ok
                  (collideBullet (Game.players g1) (Game.tickCount g1) (Env.random env))
                  (Game.bullets g1) (Coll.init (Game.balls g1) c)) as F1.
    destruct (JsMap.forEachSt _ (Game.bullets g1) _) as [bs coll]. cbn [fst snd] in *.
    assert (F1' : Forall ok (JsMap.values bs)).
    { apply F1; [|exact H1]. intros v s Hv.
      destruct (collideBullet_static (Game.players g1) (Game.tickCount g1)
                  (Env.random env) v s) as [A1 A2].
      unfold ok, namesIssuedTarget. cbn zeta in *. now rewrite A1, A2. }
    pose proof (Forall_values_forEachSt ok moveBullet bs (Coll.toRemoveBullets coll)) as F2.
    destruct (JsMap.forEachSt moveBullet bs _) as [bs' rm]. cbn [fst] in *.
    assert (F2' : Forall ok (JsMap.values bs')).
    { apply F2; [|exact F1']. intros v s Hv.
      destruct (moveBullet_static v s) as (A1 & A2 & _).
      unfold ok, namesIssuedTarget. cbn zeta in *. now rewrite A1, A2. }
    unfold spawnBullets. cbn [Game.gameStarted Game.gamePhase Game.lives
      Game.with_balls Game.with_bullets Game.tickCount Game.balls Game.players
      Game.bullets Game.nextBulletId].
    destruct (_ && _ && _).
    - pose proof (fold_shoot_targets (Game.tickCount g1) (Coll.balls coll) next
                    (issued_idTable _ _ _ _ T I)
                    (JsMap.values (Game.players g1))
                    (JsMap.delete_all bs' rm, Game.nextBulletId g1)
                    (Forall_values_delete_all _ _ _ F2')) as F3.
      destruct (fold_left _ _ _) as [bs2 n2]. exact F3.
    - cbn. now apply Forall_values_delete_all. }
  destruct (bulletStep env (g1, c)) as [g2 coll]. cbn [fst snd] in *.
  destruct (ballStep_frame g2 coll) as (_ & E & _). cbn zeta in E. now rewrite E.
Qed.

Lemma targetsIssued_step (e : Event) (g : Game.t) :
  wellFormed g -> targetsIssued g -> targetsIssued (fst (step e g)).
Proof.
  intros W H.
  destruct e as [env|now|now pid|now pid|pid i|now pid ks|pid]; cbn [step];
    try exact H.
  - now apply targetsIssued_tick.
  - unfold targetsIssued. cbn. constructor.
  - destruct (selectCard_static pid i g) as (_ & _ & B & _ & _ & N & _). cbn zeta in *.
    unfold targetsIssued. now rewrite B, N.
Qed.

Lemma targetsIssued_reachable (es : list Event) :
  targetsIssued (run es Game.initial).
Proof.
  assert (G : forall g, wellFormed g -> targetsIssued g -> targetsIssued (run es g)).
  { induction es as [|e es IH]; intros g W H; [exact H|].
    cbn [run fold_left]. apply IH.
    - now apply wellFormed_step.
    - now apply targetsIssued_step. }
  apply G; [apply wellFormed_initial|constructor].
Qed.

Lemma hitBall_rmBullets (tick : Z) (rnd : nat -> R) (bullet : Bullet.t)
    (shot : Shot.t) (st : Coll.t) (k : Z) :
  incl (Coll.toRemoveBullets st)
       (Coll.toRemoveBullets (hitBall tick rnd bullet shot st k)).
Proof.
  unfold hitBall.
  destruct (JsMap.get (Coll.balls st) k) as [ball|]; [|apply incl_refl].
  destruct (bulletHitsBall _ _ _ _); [|apply incl_refl].
  repeat match goal with
         | |- context [if ?c then _ else _] => destruct c
         | |- context [JsMap.forEachSt ?f ?m ?s] => destruct (JsMap.forEachSt f m s)
         end; cbn; try apply incl_refl; apply incl_add.
Qed.

Lemma collideBullet_rmBullets (players : JsMap.t Player.t) (tick : Z)
    (rnd : nat -> R) (b : Bullet.t) (st : Coll.t) :
  incl (Coll.toRemoveBullets st)
       (Coll.toRemoveBullets (snd (collideBullet players tick rnd b st))).
Proof.
  unfold collideBullet.
  destruct (aim players (Coll.balls st) b) as [[shot o]|]; cbn [snd].
  - generalize (JsMap.keys (Coll.balls st)). intros ks. revert st.
    induction ks as [|k ks IH]; intros st; [apply incl_refl|].
    cbn [fold_left]. eapply incl_tran; [apply hitBall_rmBullets|apply IH].
  - cbn. apply incl_add.
Qed.

Lemma idTable_get {V : Type} (idOf : V -> Z) (m m' : JsMap.t V) (k : Z) :
  idTable idOf m' = idTable idOf m ->
  JsMap.get m k = None -> JsMap.get m' k = None.
Proof.
  intros E H. apply get_None_keys. apply get_None_keys in H.
  now rewrite <- (keys_idTable idOf), E, keys_idTable.
Qed.

(** New bullets get new keys: what was not in the map below the counter is
    not there after the spawning pass. *)
Lemma volleyLoop_get_old (p : Player.t) (count bc : Z) (n i : nat)
    (bs : JsMap.t Bullet.t) (next k : Z) :
  (k < next)%Z ->
  JsMap.get (fst (volleyLoop p count bc n i (bs, next))) k = JsMap.get bs k /\
  (next <= snd (volleyLoop p count bc n i (bs, next)))%Z.
Proof.
  revert i bs next. induction n as [|n IH]; intros i bs next Hk.
  - cbn. split; [reflexivity|lia].
  - cbn [volleyLoop]. cbn [Bullet.id volleyBullet].
    destruct (IH (S i) (JsMap.set bs next (volleyBullet p count bc i next))
                (next + 1)%Z ltac:(lia)) as [A B].
    split; [|lia]. rewrite A. apply get_set_other. lia.
Qed.

Lemma shoot_get_old (tick : Z) (balls : JsMap.t Ball.t) (bs : JsMap.t Bullet.t)
    (next k : Z) (p : Player.t) :
  (k < next)%Z ->
  JsMap.get (fst (shoot tick balls (bs, next) p)) k = JsMap.get bs k /\
  (next <= snd (shoot tick balls (bs, next) p))%Z.
Proof.
  intros Hk. unfold shoot.
  destruct (volleyLoop_get_old p (Player.bulletCount p) (Player.bounceCount p)
              (Z.to_nat (Player.bulletCount p)) 0 bs next k Hk) as [A B].
  destruct (volleyLoop _ _ _ _ _ _) as [bs1 n1]. cbn [fst snd] in *.
  destruct (_ && _); [|cbn; split; [exact A|exact B]].
  destruct (nearestBall p balls) as [nearest|]; [|cbn; split; [exact A|exact B]].
  cbn. split; [|lia]. rewrite get_set_other by lia. exact A.
Qed.

Lemma fold_shoot_get_old (tick : Z) (balls : JsMap.t Ball.t) (ps : list Player.t)
    (bs : JsMap.t Bullet.t) (next k : Z) :
  (k < next)%Z ->
  JsMap.get (fst (fold_left (shoot tick balls) ps (bs, next))) k = JsMap.get bs k.
Proof.
  revert bs next. induction ps as [|p ps IH]; intros bs next Hk; [reflexivity|].
  cbn [fold_left].
  destruct (shoot_get_old tick balls bs next k p Hk) as [A B].
  destruct (shoot tick balls (bs, next) p) as [bs1 n1]. cbn [fst snd] in *.
  rewrite IH by lia. exact A.
Qed.

Lemma spawnBullets_get_old (g : Game.t) (k : Z) :
  (k < Game.nextBulletId g)%Z ->
  JsMap.get (Game.bullets (spawnBullets g)) k = JsMap.get (Game.bullets g) k.
Proof.
  intros Hk. unfold spawnBullets. destruct (_ && _ && _); [|reflexivity].
  pose proof (fold_shoot_get_old (Game.tickCount g) (Game.balls g)
                (JsMap.values (Game.players g)) (Game.bullets g) _ k Hk) as F.
  destruct (fold_left _ _ _) as [bs n]. exact F.
Qed.

(** Property X16.  A homing bullet whose target is no longer in the map of
    balls is removed by the next tick, and no new bullet takes its key. *)
Theorem orphan_homing_bullet_expires (env : Env.t) (g : Game.t)
    (k : Z) (b : Bullet.t) :
  wellFormed g -> targetsIssued g ->
  JsMap.get (Game.bullets g) k = Some b ->
  Bullet.homing b = true ->
  getOpt (Game.balls g) (Bullet.targetBallId b) = None ->
  JsMap.get (Game.bullets (fst (gameTick env g))) k = None.
Proof.
  intros W T Hg Hh Ht.
  destruct W as (_ & WB & WL & _).
  destruct (issued_get _ _ _ _ _ WB Hg) as [Hid Hk].
  (* the target was issued, and is not in the map *)
  unfold targetsIssued in T. rewrite Forall_forall in T.
  assert (Hin : In b (JsMap.values (Game.bullets g))).
  { apply get_In in Hg. unfold JsMap.values. apply in_map_iff. now exists (k, b). }
  destruct (T b Hin Hh) as (t & Et & Lt). rewrite Et in Ht. cbn in Ht.
  (* the phase transitions *)
  pose proof (phaseStep_issued_balls env g WL) as I. cbn zeta in I.
  assert (Ht1 : JsMap.get (Game.balls (fst (phaseStep env g))) t = None).
  { unfold phaseStep.
    destruct (beginTick_frame g) as [_ Eb].
    destruct (beginTick_counters g) as (_ & _ & _ & En & _).
    pose proof (waveStep_spawn env (beginTick g) 0) as Wv. cbn zeta in Wv.
    destruct (waveStep env (beginTick g) 0) as [g1 c1]. cbn [fst] in *.
    destruct (processInput_frame (cardSelectionStep env g1)) as (_ & _ & _ & _ & E1).
    destruct (cardSelectionStep_frame env g1) as [_ E2].
    rewrite E1, E2.
    destruct Wv as (_ & _ & [(_ & _ & E & _)|(_ & _ & _ & _ & _ & _ & _ & _ & ball & E & _)]);
      rewrite E, Eb; [exact Ht|].
    rewrite En. rewrite get_set_other by lia. exact Ht. }
  destruct (phaseStep_static env g) as (_ & _ & B & N & _). cbn zeta in B, N.
  unfold gameTick.
  destruct (phaseStep env g) as [g1 c]. cbn [fst] in *.
  rewrite <- B in Hg, WB. rewrite <- N in Hk, WB.
  assert (H2 : JsMap.get (Game.bullets (fst (bulletStep env (g1, c)))) k = None).
  { unfold bulletStep, collide.
    set (f := collideBullet (Game.players g1) (Game.tickCount g1) (Env.random env)).
    set (st0 := Coll.init (Game.balls g1) c).
    pose proof (idTable_forEachSt Bullet.id f (Game.bullets g1) st0
                  (collideBullet_id _ _ _)) as T1.
    assert (Q1 : In k (Coll.toRemoveBullets (snd (JsMap.forEachSt f (Game.bullets g1) st0)))).
    { apply (forEachSt_reach
               (fun s => keyed (Coll.balls s) /\
                         idTable Ball.id (Coll.balls s) = idTable Ball.id (Game.balls g1))
               (fun s => In k (Coll.toRemoveBullets s)) f _ st0 k b (get_In _ _ _ Hg)).
      - intros v' s' [Ks Ts]. split; [now apply collideBullet_keyed|].
        rewrite <- Ts.
        pose proof (collide_idTable (Game.players g1) (Game.tickCount g1) (Env.random env)
                      [(0%Z, v')] s' Ks) as C.
        unfold collide in C. cbn [JsMap.forEachSt] in C. fold f in C.
        destruct (f v' s') as [v2 s2]. exact C.
      - intros s' [Ks Ts]. unfold f, collideBullet, aim. rewrite Hh, Et. cbn [getOpt].
        rewrite (idTable_get Ball.id _ _ t Ts Ht1). cbn.
        rewrite Hid. apply In_add_same.
      - intros v' s' Hq. now apply collideBullet_rmBullets.
      - split; [eapply issued_keyed; exact I|reflexivity]. }
    destruct (JsMap.forEachSt f (Game.bullets g1) st0) as [bs coll]. cbn [fst snd] in *.
    pose proof (idTable_forEachSt Bullet.id moveBullet bs (Coll.toRemoveBullets coll)
                  moveBullet_id) as T2.
    pose proof (@forEachSt_inv Bullet.t JsSet.t (fun s : JsSet.t => In k s)
                  moveBullet bs (Coll.toRemoveBullets coll)
                  (fun v s Hs => proj2 (proj2 (proj2 (proj2 (proj2 (proj2 (proj2
                     (moveBullet_static v s))))))) k Hs) Q1) as Q2.
    cbn beta in Q2.
    destruct (JsMap.forEachSt moveBullet bs _) as [bs' rm]. cbn [fst snd] in *.
    rewrite spawnBullets_get_old by (cbn; lia). cbn.
    apply get_delete_all; [|exact Q2].
    rewrite <- (keys_idTable Bullet.id), T2, T1, keys_idTable. apply WB. }
  destruct (bulletStep env (g1, c)) as [g2 coll]. cbn [fst snd] in *.
  destruct (ballStep_frame g2 coll) as (_ & E & _). cbn zeta in E. now rewrite E.
Qed.

Lemma orphaned_wellFormed : wellFormed orphaned /\ targetsIssued orphaned.
Proof.
  split; [split; [|split; [|split]]|].
  - split; [cbn; lia|]. split; [repeat constructor; intros []|].
    repeat constructor; cbn; lia.
  - split; [cbn; lia|]. split; [repeat constructor; intros []|].
    repeat constructor; cbn; lia.
  - split; [cbn; lia|]. split; constructor.
  - constructor.
  - repeat constructor. intros _. exists 1%Z. split; [reflexivity|cbn; lia].
Qed.

Lemma orphan_homing_bullet_expires_witness :
  JsMap.get (Game.bullets orphaned) 1 = Some orphan /\
  JsMap.get (Game.bullets (fst (gameTick calm orphaned))) 1 = None.
Proof.
  split; [reflexivity|].
  apply (orphan_homing_bullet_expires calm orphaned 1 orphan).
  - apply orphaned_wellFormed.
  - apply orphaned_wellFormed.
  - reflexivity.
  - reflexivity.
  - reflexivity.
Defined.

End HomingTargets.

(** ** New bullets *)

Section NewBullets.
Local Open Scope R_scope.

Lemma nearer_fold (p : Player.t) (l seen : list Ball.t) (acc : option Ball.t * R) :
  snd acc <= MELEE_RANGE ->
  Forall (fun b' => snd acc <= distanceTo p b') seen ->
  match fst acc with
  | Some b => In b seen /\ snd acc = distanceTo p b /\ snd acc < MELEE_RANGE
  | None => snd acc = MELEE_RANGE
  end ->
  let r := fold_left (nearer p) l acc in
  snd r <= MELEE_RANGE /\
  Forall (fun b' => snd r <= distanceTo p b') (seen ++ l) /\
  match fst r with
  | Some b => In b (seen ++ l) /\ snd r = distanceTo p b /\ snd r < MELEE_RANGE
  | None => snd r = MELEE_RANGE
  end.
Proof.
  revert seen acc. induction l as [|v l IH]; intros seen acc H1 H2 H3.
  - cbn. rewrite app_nil_r. auto.
  - cbn [fold_left].
    replace (seen ++ v :: l) with ((seen ++ [v]) ++ l) by (now rewrite <- app_assoc).
    apply IH; unfold nearer; fold (distanceTo p v);
      destruct (Js.Rltb (distanceTo p v) (snd acc)) eqn:E; cbn [fst snd];
      try apply Rltb_true in E; try apply Rltb_false in E.
    + lra.
    + exact H1.
    + apply Forall_app. split.
      * eapply Forall_impl; [|exact H2]. cbn. intros; lra.
      * constructor; [lra|constructor].
    + apply Forall_app. split; [exact H2|]. constructor; [exact E|constructor].
    + split; [apply in_or_app; right; now left|]. split; [reflexivity|lra].
    + destruct (fst acc) as [b|]; [|exact H3].
      destruct H3 as (A & B & C). split; [apply in_or_app; now left|]. auto.
Qed.

(** Property X17.  The melee search returns a ball of the map that is
    strictly within [MELEE_RANGE] of the player and at least as near as every
    other ball; it returns none exactly when every ball is at [MELEE_RANGE] or
    farther. *)
Theorem nearestBall_is_nearest (p : Player.t) (balls : JsMap.t Ball.t) :
  match nearestBall p balls with
  | Some b =>
      In b (JsMap.values balls) /\ distanceTo p b < MELEE_RANGE /\
      Forall (fun b' => distanceTo p b <= distanceTo p b') (JsMap.values balls)
  | None =>
      Forall (fun b' => MELEE_RANGE <= distanceTo p b') (JsMap.values balls)
  end.
Proof.
  unfold nearestBall.
  destruct (nearer_fold p (JsMap.values balls) [] (None, MELEE_RANGE))
    as (A & B & C); [cbn; lra|constructor|reflexivity|].
  cbn zeta in *. cbn [app] in *.
  destruct (fold_left _ _ _) as [[b|] d]; cbn [fst snd] in *.
  - destruct C as (C1 & C2 & C3). subst d. auto.
  - now subst d.
Qed.

Lemma volleyLoop_next (p : Player.t) (count bc : Z) (n i : nat)
    (bs : JsMap.t Bullet.t) (next : Z) :
  snd (volleyLoop p count bc n i (bs, next)) = (next + Z.of_nat n)%Z.
Proof.
  revert i bs next. induction n as [|n IH]; intros i bs next.
  - cbn. lia.
  - cbn [volleyLoop]. rewrite IH. lia.
Qed.

Lemma volleyLoop_get_new (p : Player.t) (count bc : Z) (n i j : nat)
    (bs : JsMap.t Bullet.t) (next : Z) :
  (j < n)%nat ->
  JsMap.get (fst (volleyLoop p count bc n i (bs, next))) (next + Z.of_nat j)
  = Some (volleyBullet p count bc (i + j) (next + Z.of_nat j)).
Proof.
  revert i j bs next. induction n as [|n IH]; intros i j bs next Hj; [lia|].
  cbn [volleyLoop]. cbn [Bullet.id volleyBullet].
  destruct j as [|j].
  - destruct (volleyLoop_get_old p count bc n (S i)
                (JsMap.set bs next (volleyBullet p count bc i next)) (next + 1)%Z
                (next + Z.of_nat 0)%Z ltac:(lia)) as [A _].
    rewrite A. replace (next + Z.of_nat 0)%Z with next by lia.
    rewrite get_set_same. now rewrite Nat.add_0_r.
  - replace (next + Z.of_nat (S j))%Z with (next + 1 + Z.of_nat j)%Z by lia.
    rewrite IH by lia. now rewrite Nat.add_succ_r.
Qed.

(** Property X18.  The volley of a player holds one bullet per unit of the
    player's bullet count, under consecutive new ids starting at the bullet
    counter, which advances by the count.  The bullets start at the height of
    the player, 16 px apart, centred on the player: the [j]-th bullet counted
    from the left and the [j]-th counted from the right have opposite
    offsets. *)
Theorem volley_layout (p : Player.t) (bs : JsMap.t Bullet.t) (next : Z) (j j' : nat) :
  let count := Player.bulletCount p in
  let n := Z.to_nat count in
  let r := volleyLoop p count (Player.bounceCount p) n 0 (bs, next) in
  (j + j' + 1 = n)%nat ->
  snd r = (next + count)%Z /\
  exists b b' : Bullet.t,
    JsMap.get (fst r) (next + Z.of_nat j) = Some b /\
    JsMap.get (fst r) (next + Z.of_nat j') = Some b' /\
    Bullet.id b = (next + Z.of_nat j)%Z /\
    Bullet.ownerId b = Some (Player.id p) /\
    Bullet.homing b = false /\
    Bullet.radius b = BULLET_RADIUS /\
    Bullet.y b = Player.y p /\
    Bullet.x b - Player.x p = (INR j - INR j') * 8 /\
    Bullet.x b' - Player.x p = - (Bullet.x b - Player.x p).
Proof.
  intros count n r Hn. subst r.
  split.
  - rewrite volleyLoop_next. subst n. rewrite Z2Nat.id; lia.
  - exists (volleyBullet p count (Player.bounceCount p) (0 + j) (next + Z.of_nat j)),
           (volleyBullet p count (Player.bounceCount p) (0 + j') (next + Z.of_nat j')).
    split; [apply volleyLoop_get_new; lia|].
    split; [apply volleyLoop_get_new; lia|].
    cbn -[INR]. repeat split.
    + assert (Hc : IZR count = INR j + INR j' + 1).
      { replace count with (Z.of_nat n) by (subst n; rewrite Z2Nat.id; lia).
        rewrite <- INR_IZR_INZ, <- Hn. rewrite !plus_INR. cbn. lra. }
      destruct (1 <? count)%Z eqn:E.
      * rewrite Hc. lra.
      * apply Z.ltb_ge in E.
        assert (j = 0%nat /\ j' = 0%nat) as [-> ->] by (subst n; lia).
        cbn. lra.
    + assert (Hc : IZR count = INR j + INR j' + 1).
      { replace count with (Z.of_nat n) by (subst n; rewrite Z2Nat.id; lia).
        rewrite <- INR_IZR_INZ, <- Hn. rewrite !plus_INR. cbn. lra. }
      destruct (1 <? count)%Z eqn:E.
      * rewrite Hc. lra.
      * lra.
Qed.

Lemma volley_layout_witness :
  snd (volleyLoop tripleShooter 3 0 3 0 (JsMap.empty, 1%Z)) = 4%Z /\
  exists b b' : Bullet.t,
    JsMap.get (fst (volleyLoop tripleShooter 3 0 3 0 (JsMap.empty, 1%Z))) 1 = Some b /\
    JsMap.get (fst (volleyLoop tripleShooter 3 0 3 0 (JsMap.empty, 1%Z))) 3 = Some b' /\
    Bullet.x b - Player.x tripleShooter = -16 /\
    Bullet.x b' - Player.x tripleShooter = 16.
Proof.
  destruct (volley_layout tripleShooter JsMap.empty 1 0 2)
    as (N & b & b' & G & G' & _ & _ & _ & _ & _ & X & X'); [reflexivity|].
  split; [exact N|]. exists b, b'. split; [exact G|]. split; [exact G'|].
  rewrite X', X. cbn. split; lra.
Defined.

Lemma gameTick_no_scratch (env : Env.t) (g : Game.t) :
  Forall (fun b => Bullet._moveX b = None /\ Bullet._moveY b = None)
         (JsMap.values (Game.bullets (fst (gameTick env g)))).
Proof.
  unfold gameTick. destruct (phaseStep env g) as [g1 c].
  assert (H : Forall (fun b => Bullet._moveX b = None /\ Bullet._moveY b = None)
                (JsMap.values (Game.bullets (fst (bulletStep env (g1, c)))))).
  { unfold bulletStep.
    destruct (collide _ _ _ _ _) as [bs coll].
    pose proof (Forall_values_always
                  (fun b => Bullet._moveX b = None /\ Bullet._moveY b = None)
                  moveBullet bs (Coll.toRemoveBullets coll)
                  (fun v s => conj (proj1 (proj2 (proj2 (proj2 (proj2 (proj2
                                      (moveBullet_static v s)))))))
                                   (proj1 (proj2 (proj2 (proj2 (proj2 (proj2 (proj2
                                      (moveBullet_static v s)))))))))) as F.
    destruct (JsMap.forEachSt moveBullet bs _) as [bs' rm]. cbn [fst] in *.
    unfold spawnBullets. cbn [Game.gameStarted Game.gamePhase Game.lives
      Game.with_balls Game.with_bullets Game.tickCount Game.balls Game.players
      Game.bullets Game.nextBulletId].
    pose proof (Forall_values_delete_all _ _ rm F) as F'.
    destruct (_ && _ && _); [|exact F'].
    assert (G : forall ps st,
               Forall (fun b => Bullet._moveX b = None /\ Bullet._moveY b = None)
                      (JsMap.values (fst st)) ->
               Forall (fun b => Bullet._moveX b = None /\ Bullet._moveY b = None)
                      (JsMap.values (fst (fold_left (shoot (Game.tickCount g1) (Coll.balls coll))
                                            ps st)))).
    { induction ps as [|p ps IH]; intros st Hst; [exact Hst|].
      cbn [fold_left]. apply IH. unfold shoot.
      assert (V : forall n i st,
                 Forall (fun b => Bullet._moveX b = None /\ Bullet._moveY b = None)
                        (JsMap.values (fst st)) ->
                 Forall (fun b => Bullet._moveX b = None /\ Bullet._moveY b = None)
                        (JsMap.values (fst (volleyLoop p (Player.bulletCount p)
                                              (Player.bounceCount p) n i st)))).
      { induction n as [|n IHn]; intros i [bs0 n0] H0; [exact H0|].
        cbn [volleyLoop]. apply IHn. cbn [fst].
        apply Forall_values_set; [split; reflexivity|exact H0]. }
      specialize (V (Z.to_nat (Player.bulletCount p)) 0%nat st Hst).
      destruct (volleyLoop _ _ _ _ _ _) as [bs1 n1]. cbn [fst] in *.
      destruct (_ && _); [|exact V].
      destruct (nearestBall p _); [|exact V].
      cbn [fst]. apply Forall_values_set; [split; reflexivity|exact V]. }
    specialize (G (JsMap.values (Game.players g1))
                  (JsMap.delete_all bs' rm, Game.nextBulletId g1) F').
    destruct (fold_left _ _ _) as [bs2 n2]. exact G. }
  destruct (bulletStep env (g1, c)) as [g2 coll]. cbn [fst snd] in *.
  destruct (ballStep_frame g2 coll) as (_ & E & _). cbn zeta in E. now rewrite E.
Qed.

Lemma gameTick_emits (env : Env.t) (g : Game.t) :
  exists s : Snapshot.t,
    snd (gameTick env g) = [state s] /\
    Snapshot.bullets s = JsMap.values (Game.bullets (fst (gameTick env g))) /\
    Snapshot.players s = map viewPlayer (JsMap.values (Game.players (fst (gameTick env g)))).
Proof.
  unfold gameTick. destruct (bulletStep env (phaseStep env g)) as [g1 coll].
  eexists. split; [reflexivity|]. split; reflexivity.
Qed.

(** Property X19.  The tick deletes the scratch fields [_moveX] and [_moveY]
    of every bullet it keeps, and gives new bullets none: no bullet of the
    state after the tick, and no bullet of a state message the tick emits,
    carries them. *)
Theorem tick_clears_scratch_fields (env : Env.t) (g : Game.t) :
  Forall (fun b => Bullet._moveX b = None /\ Bullet._moveY b = None)
         (JsMap.values (Game.bullets (fst (gameTick env g)))) /\
  forall s : Snapshot.t,
    In (state s) (snd (gameTick env g)) ->
    Forall (fun b => Bullet._moveX b = None /\ Bullet._moveY b = None)
           (Snapshot.bullets s).
Proof.
  split; [apply gameTick_no_scratch|].
  intros s Hs. destruct (gameTick_emits env g) as (s0 & E & B & _).
  rewrite E in Hs. destruct Hs as [[= <-]|[]]. rewrite B. apply gameTick_no_scratch.
Qed.

End NewBullets.

(** ** Card offers and selections *)

Section CardOffers.
Local Open Scope R_scope.

Lemma offerLoop_spec (env : Env.t) (n c : nat) (l : list Card.t) :
  Forall (fun c => In c CARD_TYPES) l ->
  List.length (fst (offerLoop (Env.random env) n c l)) = (List.length l + n)%nat /\
  Forall (fun c => In c CARD_TYPES) (fst (offerLoop (Env.random env) n c l)).
Proof.
  revert c l. induction n as [|n IH]; intros c l H; cbn [offerLoop].
  - cbn. split; [lia|exact H].
  - destruct (IH (S c) (l ++ [drawCard (Env.random env c)])) as [A B].
    + apply Forall_app. split; [exact H|].
      constructor; [apply drawCard_catalog|constructor].
    + split; [|exact B]. rewrite A, length_app. cbn. lia.
Qed.

Lemma offerTo_offeredThree (env : Env.t) (p : Player.t) (c : nat) :
  offeredThree (fst (offerTo (Env.random env) p c)).
Proof.
  rewrite offerTo_fst.
  destruct (offerLoop_spec env 3 c [] ltac:(constructor)) as [A B].
  exists (fst (offerLoop (Env.random env) 3 c [])).
  split; [reflexivity|]. split; [exact A|]. split; [exact B|reflexivity].
Qed.

Lemma movePlayer_offer (p : Player.t) :
  Player.offeredCards (movePlayer p) = Player.offeredCards p /\
  Player.cardSelected (movePlayer p) = Player.cardSelected p.
Proof.
  unfold movePlayer.
  repeat match goal with |- context [if ?c then _ else _] => destruct c end;
    split; reflexivity.
Qed.

Lemma waveStep_offers (env : Env.t) (g : Game.t) (c : nat) :
  Game.gamePhase g = playing ->
  Game.gamePhase (fst (waveStep env g c)) = cardSelection ->
  Forall offeredThree (JsMap.values (Game.players (fst (waveStep env g c)))) /\
  Game.cardSelectionEndTime (fst (waveStep env g c))
  = (Env.nowEnter env + CARD_SELECTION_MS)%Z.
Proof.
  intros Hp. unfold waveStep.
  destruct (Game.gameStarted g && _ && _); [|cbn; congruence].
  destruct (Js.Rltb _ _ && _).
  - destruct (spawnBall_spec (Env.random env) c None g) as (_ & Hq & _).
    destruct (spawnBall (Env.random env) c None g) as [[ty g1] c1].
    cbn [fst snd] in Hq.
    cbn [Game.waveWeightSpawned Game.with_lastSpawnTick Game.with_waveWeightSpawned
         Game.balls Game.gamePhase].
    destruct (Js.Rleb _ _ && _ && _); [|cbn; congruence].
    pose proof (Forall_values_always offeredThree (offerTo (Env.random env))
                  (Game.players
                     (Game.with_cardSelectionEndTime (Env.nowEnter env + CARD_SELECTION_MS)
                        (Game.with_gamePhase cardSelection
                           (Game.with_lastSpawnTick (Game.tickCount g1)
                              (Game.with_waveWeightSpawned
                                 (Game.waveWeightSpawned g1 + BallDef.waveWeight (BALL_TYPES ty))
                                 g1)))))
                  c1 (fun v s => offerTo_offeredThree env v s)) as F.
    destruct (JsMap.forEachSt _ _ _) as [ps c']. cbn in *. auto.
  - destruct (Js.Rleb _ _ && _ && _); [|cbn; congruence].
    pose proof (Forall_values_always offeredThree (offerTo (Env.random env))
                  (Game.players
                     (Game.with_cardSelectionEndTime (Env.nowEnter env + CARD_SELECTION_MS)
                        (Game.with_gamePhase cardSelection g)))
                  c (fun v s => offerTo_offeredThree env v s)) as F.
    destruct (JsMap.forEachSt _ _ _) as [ps c']. cbn in *. auto.
Qed.

(** Property X20.  The tick that takes the game from the playing phase to
    card selection offers every connected player three cards of the
    catalogue, marks the player as not having selected, and sets the
    deadline [CARD_SELECTION_MS] after the clock reading. *)
Theorem card_selection_offers_three_cards (env : Env.t) (g : Game.t) :
  Game.gamePhase g = playing ->
  Game.gamePhase (fst (gameTick env g)) = cardSelection ->
  Forall offeredThree (JsMap.values (Game.players (fst (gameTick env g)))) /\
  Game.cardSelectionEndTime (fst (gameTick env g))
  = (Env.nowEnter env + CARD_SELECTION_MS)%Z.
Proof.
  intros Hp.
  destruct (gameTick_frame env g) as (Ep & Eph & _ & _ & _ & _ & Ec).
  cbn zeta in *. rewrite Ep, Eph, Ec. clear Ep Eph Ec.
  unfold phaseStep.
  destruct (Z_le_gt_dec (Game.lives g) 0) as [Hl|Hl].
  - rewrite (beginTick_gameOver g Hp Hl).
    rewrite waveStep_other by (cbn; discriminate). cbn [fst].
    rewrite cardSelectionStep_other by (cbn; discriminate).
    destruct (processInput_frame
                (Game.with_gamePhase gameOver
                   (Game.with_tickCount (Game.tickCount g + 1)%Z g))) as (E & _).
    rewrite E. cbn. discriminate.
  - rewrite (beginTick_playing g Hp) by lia.
    set (g0 := Game.with_tickCount (Game.tickCount g + 1)%Z g).
    assert (Hp0 : Game.gamePhase g0 = playing) by exact Hp.
    pose proof (waveStep_offers env g0 0 Hp0) as W.
    destruct (waveStep_phase env g0 0 Hp0) as [(_ & He & _)|(_ & He)].
    + specialize (W He). destruct W as [W1 W2].
      destruct (waveStep env g0 0) as [g1 c1]. cbn [fst] in *.
      destruct (cardSelectionStep_spec env g1 He) as [(_ & H1 & _)|(_ & Heq)].
      * destruct (processInput_frame (cardSelectionStep env g1)) as (E & _).
        rewrite E. cbn zeta in H1. rewrite H1. discriminate.
      * cbn zeta in Heq. rewrite Heq. intros _.
        unfold processInput. destruct (negb _); [|split; assumption].
        cbn. split; [|exact W2].
        apply Forall_values_update_all; [|exact W1].
        intros v (l & A & B & C & D). destruct (movePlayer_offer v) as [M1 M2].
        exists l. rewrite M1, M2. auto.
    + destruct (waveStep env g0 0) as [g1 c1]. cbn [fst] in *.
      rewrite cardSelectionStep_other by congruence.
      destruct (processInput_frame g1) as (E & _). rewrite E. congruence.
Qed.

Lemma waveDone_opens_selection :
  Game.gamePhase (fst (gameTick calm waveDone)) = cardSelection.
Proof.
  destruct (gameTick_frame calm waveDone) as (_ & Ep & _). cbn zeta in Ep.
  rewrite Ep. clear Ep. unfold phaseStep.
  rewrite (beginTick_playing waveDone eq_refl) by (cbn; lia).
  set (g0 := Game.with_tickCount (Game.tickCount waveDone + 1)%Z waveDone).
  assert (Hc : waveComplete g0).
  { unfold waveComplete. cbn. rewrite maxWeight_1. repeat split; try lra; lia. }
  destruct (waveStep_phase calm g0 0 eq_refl) as [(_ & He & Hd & Ha)|(Hn & _)];
    [|contradiction].
  destruct (waveStep calm g0 0) as [g1 c1]. cbn [fst] in *.
  destruct (cardSelectionStep_spec calm g1 He) as [(Hy & _)|(_ & Heq)].
  - exfalso. cbn in Ha. rewrite Ha in Hy. unfold timedOut in Hy. rewrite Hd in Hy.
    cbn in Hy. discriminate.
  - cbn zeta in Heq. rewrite Heq.
    destruct (processInput_frame g1) as (E & _). now rewrite E.
Qed.

Lemma card_selection_offers_three_cards_witness :
  Forall offeredThree (JsMap.values (Game.players (fst (gameTick calm waveDone)))) /\
  Game.cardSelectionEndTime (fst (gameTick calm waveDone)) = 16000%Z.
Proof.
  apply (card_selection_offers_three_cards calm waveDone).
  - reflexivity.
  - apply waveDone_opens_selection.
Defined.

(** Property X21.  An accepted [selectCard] request grants exactly the
    upgrade of the chosen card: one modifier of the selecting player goes up
    by the step of the card, or the shared lives go up by one for the extra
    life.  The player is marked as having selected, the other players are
    untouched, and any further request of that player changes nothing. *)
Theorem selectCard_grants_one_upgrade (pid i : Z) (g : Game.t) (p : Player.t)
    (card : Card.t) :
  Game.gamePhase g = cardSelection ->
  JsMap.get (Game.players g) pid = Some p ->
  Player.cardSelected p = false ->
  offeredAt g pid i = Some card ->
  let g' := fst (selectCard pid i g) in
  (exists p' : Player.t,
     JsMap.get (Game.players g') pid = Some p' /\
     Player.cardSelected p' = true /\
     modifiers p' = addLevels (modifiers p) (cardBonus (Card.id card)) /\
     Player.offeredCards p' = Player.offeredCards p /\
     Player.x p' = Player.x p /\ Player.y p' = Player.y p) /\
  Game.lives g' = (Game.lives g + lifeBonus (Card.id card))%Z /\
  (forall k : Z, k <> pid ->
     JsMap.get (Game.players g') k = JsMap.get (Game.players g) k) /\
  (forall j : Z, selectCard pid j g' = (g', [])).
Proof.
  intros Hp Hg Hs Ho g'. subst g'.
  unfold offeredAt in Ho. rewrite Hg in Ho.
  destruct (Player.offeredCards p) as [offered|] eqn:Eo; [|discriminate].
  assert (Hsel : selectCard pid i g
                 = (applyCard card pid
                      (Game.with_players
                         (JsMap.update (Game.players g) pid
                            (Player.with_cardSelected true)) g), [])).
  { unfold selectCard. rewrite Hg, Eo, Hp, Hs, Ho. reflexivity. }
  rewrite Hsel. cbn [fst].
  set (g1 := Game.with_players _ g).
  assert (G1 : JsMap.get (Game.players g1) pid = Some (Player.with_cardSelected true p)).
  { unfold g1. cbn [Game.players Game.with_players].
    rewrite get_update, Z.eqb_refl, Hg. reflexivity. }
  assert (Hex : exists p' : Player.t,
             JsMap.get (Game.players (applyCard card pid g1)) pid = Some p' /\
             Player.cardSelected p' = true /\
             modifiers p' = addLevels (modifiers p) (cardBonus (Card.id card)) /\
             Player.offeredCards p' = Player.offeredCards p /\
             Player.x p' = Player.x p /\ Player.y p' = Player.y p).
  { unfold applyCard. destruct (Card.id card);
      cbn [Game.players Game.with_players Game.with_lives];
      rewrite ?get_update, ?Z.eqb_refl, G1; cbn [option_map];
      eexists; (split; [reflexivity|]); cbn; rewrite ?Z.add_0_r; repeat split. }
  split; [rewrite <- Eo; exact Hex|]. split; [|split].
  - unfold applyCard. destruct (Card.id card); cbn; lia.
  - intros k Hk. unfold applyCard.
    assert (E : (k =? pid)%Z = false) by now apply Z.eqb_neq.
    destruct (Card.id card);
      cbn [Game.players Game.with_players Game.with_lives g1];
      rewrite ?get_update, ?E; reflexivity.
  - intros j. destruct Hex as (p' & A & B & _).
    unfold selectCard. rewrite A, B.
    destruct (Player.offeredCards p'); [|reflexivity].
    now rewrite orb_true_r.
Qed.

Lemma selectCard_grants_one_upgrade_witness :
  (exists p' : Player.t,
     JsMap.get (Game.players (fst (selectCard 1 0 selecting))) 1 = Some p' /\
     Player.cardSelected p' = true /\
     modifiers p' = [10; 0; 0; 1; 0; 0; 0; 0]%Z) /\
  Game.lives (fst (selectCard 1 0 selecting)) = 10%Z /\
  selectCard 1 1 (fst (selectCard 1 0 selecting)) = (fst (selectCard 1 0 selecting), []).
Proof.
  destruct (selectCard_grants_one_upgrade 1 0 selecting chooser criticalCard)
    as ((p' & G & S & M & _) & L & _ & N).
  - reflexivity.
  - reflexivity.
  - reflexivity.
  - reflexivity.
  - split; [|split; [exact L|apply N]].
    exists p'. split; [exact G|]. split; [exact S|]. rewrite M. reflexivity.
Defined.

End CardOffers.

(** ** The inactivity timer *)

Section InactivityTimer.
Local Open Scope R_scope.

Lemma inactivityCheck_players (now : Z) (g : Game.t) :
  inactivityCheck now g
  = Game.with_players
      (JsMap.delete_all (Game.players g)
         (map Player.id (filter (idle now) (JsMap.values (Game.players g))))) g.
Proof.
  unfold inactivityCheck.
  generalize (filter (idle now) (JsMap.values (Game.players g))). intros l.
  assert (G : forall g0,
             fold_left (fun g p => fst (disconnect (Player.id p) g)) l g0
             = Game.with_players
                 (JsMap.delete_all (Game.players g0) (map Player.id l)) g0).
  { induction l as [|p l IH]; intros g0; [now destruct g0|].
    cbn [fold_left map]. rewrite IH. reflexivity. }
  apply G.
Qed.

Lemma inactivityCheck_run (now : Z) (g : Game.t) :
  inactivityCheck now g
  = run (map (fun p => Disconnect (Player.id p))
           (filter (idle now) (JsMap.values (Game.players g)))) g.
Proof.
  unfold inactivityCheck, run.
  generalize (filter (idle now) (JsMap.values (Game.players g))). intros l.
  generalize g. induction l as [|p l IH]; intros g0; [reflexivity|].
  cbn [fold_left map]. apply IH.
Qed.

Lemma inactivityCheck_spec (now : Z) (g : Game.t) :
  issued Player.id (Game.nextPlayerId g) (Game.players g) ->
  let g' := inactivityCheck now g in
  (forall (k : Z) (p : Player.t),
     JsMap.get (Game.players g) k = Some p ->
     JsMap.get (Game.players g') k = if idle now p then None else Some p) /\
  Forall (fun p => (now - Player.lastActivity p <= INACTIVITY_TIMEOUT_MS)%Z)
         (JsMap.values (Game.players g')) /\
  g' = Game.with_players (Game.players g') g.
Proof.
  intros W g'. subst g'. rewrite inactivityCheck_players.
  cbn [Game.players Game.with_players].
  set (ids := map Player.id (filter (idle now) (JsMap.values (Game.players g)))).
  destruct W as (_ & Hd & Hf). rewrite Forall_forall in Hf.
  assert (Hids : forall k p, In (k, p) (Game.players g) ->
                             (In k ids <-> idle now p = true)).
  { intros k p Hin. destruct (Hf _ Hin) as [Hid _]. cbn in Hid. split.
    - intros Hk. unfold ids in Hk. apply in_map_iff in Hk.
      destruct Hk as (p' & E & Hp'). apply filter_In in Hp'. destruct Hp' as [Hv Hi].
      unfold JsMap.values in Hv. apply in_map_iff in Hv.
      destruct Hv as ([k' p''] & E' & Hin'). cbn in E'. subst p''.
      destruct (Hf _ Hin') as [Hid' _]. cbn in Hid'.
      assert (k' = k) by congruence. subst k'.
      pose proof (NoDup_get _ _ _ Hd Hin) as G1.
      pose proof (NoDup_get _ _ _ Hd Hin') as G2.
      congruence.
    - intros Hi. unfold ids. apply in_map_iff. exists p. split; [exact Hid|].
      apply filter_In. split; [|exact Hi].
      unfold JsMap.values. apply in_map_iff. now exists (k, p). }
  split; [|split].
  - intros k p Hg. pose proof (Hids k p (get_In _ _ _ Hg)) as Hk.
    destruct (idle now p) eqn:E.
    + apply get_delete_all; [exact Hd|]. now apply Hk.
    + rewrite get_delete_all_other; [exact Hg|].
      intros Hin. apply Hk in Hin. discriminate.
  - apply Forall_forall. intros p Hp.
    unfold JsMap.values in Hp. apply in_map_iff in Hp.
    destruct Hp as ([k p'] & E & Hin). cbn in E. subst p'.
    pose proof (In_values_get _ _ _ Hin) as Hne.
    apply delete_all_incl in Hin.
    destruct (idle now p) eqn:Ei.
    + exfalso. apply Hne. apply get_delete_all; [exact Hd|].
      now apply (Hids k p Hin).
    + unfold idle in Ei. apply Z.ltb_ge in Ei. exact Ei.
  - reflexivity.
Qed.

(** Property X22.  In a state whose players are stored under their own,
    distinct ids, the inactivity check removes exactly the players whose last
    activity is more than [INACTIVITY_TIMEOUT_MS] before the clock reading,
    keeps every other player as is, and changes nothing but the map of
    players: it acts as the disconnect of each idle player in turn. *)
Theorem inactivity_check_evicts_idle (now : Z) (g : Game.t) :
  issued Player.id (Game.nextPlayerId g) (Game.players g) ->
  let g' := inactivityCheck now g in
  (forall (k : Z) (p : Player.t),
     JsMap.get (Game.players g) k = Some p ->
     JsMap.get (Game.players g') k = if idle now p then None else Some p) /\
  Forall (fun p => (now - Player.lastActivity p <= INACTIVITY_TIMEOUT_MS)%Z)
         (JsMap.values (Game.players g')) /\
  g' = Game.with_players (Game.players g') g /\
  g' = run (map (fun p => Disconnect (Player.id p))
              (filter (idle now) (JsMap.values (Game.players g)))) g.
Proof.
  intros W g'. destruct (inactivityCheck_spec now g W) as (A & B & C).
  split; [exact A|]. split; [exact B|]. split; [exact C|].
  apply inactivityCheck_run.
Qed.

Lemma started_issued :
  issued Player.id (Game.nextPlayerId started) (Game.players started).
Proof.
  split; [cbn; lia|]. split; [repeat constructor; intros []|].
  repeat constructor; cbn; lia.
Qed.

Lemma inactivity_check_evicts_idle_witness :
  JsMap.get (Game.players (inactivityCheck 30000 started)) 1
  = JsMap.get (Game.players started) 1 /\
  JsMap.get (Game.players (inactivityCheck 30001 started)) 1 = None.
Proof.
  destruct (inactivity_check_evicts_idle 30000 started started_issued) as (A & _).
  destruct (inactivity_check_evicts_idle 30001 started started_issued) as (B & _).
  cbn zeta in *. split.
  - rewrite (A 1%Z (JsMap.get (Game.players started) 1 ?? brawler) eq_refl). reflexivity.
  - rewrite (B 1%Z (JsMap.get (Game.players started) 1 ?? brawler) eq_refl). reflexivity.
Defined.

End InactivityTimer.

(** ** After the game is over *)

Section AfterGameOver.
Local Open Scope R_scope.

(** Outside the playing phase no bullet is spawned. *)
Lemma spawnBullets_idle (g : Game.t) :
  Game.gamePhase g <> playing -> spawnBullets g = g.
Proof.
  intros H. unfold spawnBullets.
  destruct (Game.gamePhase g); try congruence; cbn; now rewrite andb_false_r.
Qed.

Lemma gameOver_tick_counters (env : Env.t) (g : Game.t) :
  Game.gamePhase g = gameOver ->
  let g' := fst (gameTick env g) in
  Game.nextBulletId g' = Game.nextBulletId g /\
  Game.nextBallId g' = Game.nextBallId g /\
  Game.wave g' = Game.wave g /\
  Game.waveWeightSpawned g' = Game.waveWeightSpawned g.
Proof.
  intros Hp.
  destruct (gameOver_tick env g (or_introl Hp)) as [A _].
  destruct (tick_spawn_cases env g)
    as [(W & S & _ & N)|[(_ & _ & P & _)|(_ & _ & P & _)]];
    cbn zeta in *; [|congruence|congruence].
  split; [|auto].
  destruct (gameTick_frame env g) as (_ & Ep & _). cbn zeta in Ep.
  rewrite A in Ep.
  destruct (phaseStep_static env g) as (_ & _ & _ & N1 & _). cbn zeta in N1.
  unfold gameTick. destruct (phaseStep env g) as [g1 c]. cbn [fst] in *.
  rewrite <- N1.
  assert (H2 : Game.nextBulletId (fst (bulletStep env (g1, c))) = Game.nextBulletId g1).
  { unfold bulletStep.
    destruct (collide _ _ _ _ _) as [bs coll].
    destruct (JsMap.forEachSt moveBullet bs _) as [bs' rm]. cbn [fst].
    rewrite spawnBullets_idle by (cbn; congruence). reflexivity. }
  destruct (bulletStep env (g1, c)) as [g2 coll]. cbn [fst snd] in *.
  destruct (ballStep_counters g2 coll) as (_ & _ & _ & N2). cbn zeta in N2.
  congruence.
Qed.

(** Property X23.  Only a restart leaves the game-over phase.  Along ticks and
    socket messages other than [restartGame] the phase stays game over, no
    ball is spawned, no bullet is fired, and wave and spent weight stay as
    they are. *)
Theorem game_over_until_restart (es : list Event) (g : Game.t) :
  Game.gamePhase g = gameOver ->
  noRestart es ->
  let g' := run es g in
  Game.gamePhase g' = gameOver /\
  Game.nextBulletId g' = Game.nextBulletId g /\
  Game.nextBallId g' = Game.nextBallId g /\
  Game.wave g' = Game.wave g /\
  Game.waveWeightSpawned g' = Game.waveWeightSpawned g.
Proof.
  revert g. induction es as [|e es IH]; intros g Hp Hn; [cbn; auto|].
  inversion Hn as [|? ? He Hn']; subst.
  cbn [run fold_left].
  change (fold_left (fun g e => fst (step e g)) es (fst (step e g)))
    with (run es (fst (step e g))).
  assert (Hstep : Game.gamePhase (fst (step e g)) = gameOver /\
                  Game.nextBulletId (fst (step e g)) = Game.nextBulletId g /\
                  Game.nextBallId (fst (step e g)) = Game.nextBallId g /\
                  Game.wave (fst (step e g)) = Game.wave g /\
                  Game.waveWeightSpawned (fst (step e g)) = Game.waveWeightSpawned g).
  { destruct e as [env|now|now pid|now pid|pid i|now pid ks|pid]; cbn [step];
      try contradiction; try (cbn; auto).
    - destruct (gameOver_tick env g (or_introl Hp)) as [A _].
      destruct (gameOver_tick_counters env g Hp) as (B & C & D & E). auto.
    - destruct (selectCard_static pid i g) as (_ & _ & _ & B & _ & C & _).
      destruct (handler_keeps_selection (SelectCard pid i) g I) as (P & W & S).
      cbn [step] in *. cbn zeta in *. split; [congruence|auto]. }
  destruct Hstep as (A & B & C & D & E).
  destruct (IH _ A Hn') as (A' & B' & C' & D' & E'). cbn zeta in *.
  repeat split; congruence.
Qed.

Lemma game_over_until_restart_witness :
  Game.gamePhase (run [Tick calm; SendKeys 0 1 Keys.none; Tick calm] over) = gameOver /\
  Game.nextBulletId (run [Tick calm; SendKeys 0 1 Keys.none; Tick calm] over)
  = Game.nextBulletId over.
Proof.
  destruct (game_over_until_restart [Tick calm; SendKeys 0 1 Keys.none; Tick calm] over)
    as (A & B & _).
  - reflexivity.
  - unfold noRestart. repeat constructor.
  - split; [exact A|exact B].
Defined.

End AfterGameOver.

(** ** The client: buffer, rendering and extrapolation *)

Section SnapshotBuffer.
Local Open Scope R_scope.

Lemma trim_cons2 (cutoff : R) (a b : Client.Buffered.t) (l : list Client.Buffered.t) :
  Client.trim cutoff (a :: b :: l)
  = if Js.Rltb (Client.Buffered.time b) cutoff then Client.trim cutoff (b :: l)
    else a :: b :: l.
Proof. reflexivity. Qed.

Lemma trim_suffix (cutoff : R) (l : list Client.Buffered.t) :
  exists older, l = older ++ Client.trim cutoff l.
Proof.
  induction l as [|a l IH]; [now exists []|].
  destruct l as [|b l]; [now exists []|].
  rewrite trim_cons2. destruct (Js.Rltb _ _).
  - destruct IH as [older E]. exists (a :: older). cbn [app]. f_equal. exact E.
  - now exists [].
Qed.

Lemma trim_last (cutoff : R) (l : list Client.Buffered.t) (d : Client.Buffered.t) :
  l <> [] ->
  Client.trim cutoff l <> [] /\ last (Client.trim cutoff l) d = last l d.
Proof.
  induction l as [|a l IH]; [congruence|]. intros _.
  destruct l as [|b l]; [split; [discriminate|reflexivity]|].
  rewrite trim_cons2. destruct (Js.Rltb _ _).
  - destruct (IH ltac:(discriminate)) as [A B]. split; [exact A|].
    rewrite B. reflexivity.
  - split; [discriminate|reflexivity].
Qed.

Lemma increasing_tail (a : Client.Buffered.t) (l : list Client.Buffered.t) :
  increasing (a :: l) ->
  increasing l /\ Forall (fun s => Client.Buffered.time a < Client.Buffered.time s) l.
Proof.
  unfold increasing. cbn. intros H. apply StronglySorted_inv in H.
  destruct H as [H1 H2]. split; [exact H1|]. now rewrite Forall_map in H2.
Qed.

Lemma trim_window (cutoff : R) (l : list Client.Buffered.t) :
  increasing l ->
  increasing (Client.trim cutoff l) /\
  Forall (fun s => cutoff <= Client.Buffered.time s) (tl (Client.trim cutoff l)).
Proof.
  induction l as [|a l IH]; intros H; [split; [exact H|constructor]|].
  destruct l as [|b l]; [split; [exact H|constructor]|].
  rewrite trim_cons2. destruct (increasing_tail _ _ H) as [H1 H2].
  destruct (Js.Rltb (Client.Buffered.time b) cutoff) eqn:E.
  - now apply IH.
  - apply Rltb_false in E. split; [exact H|]. cbn [tl].
    destruct (increasing_tail _ _ H1) as [_ H3].
    constructor; [exact E|].
    eapply Forall_impl; [|exact H3]. cbn. intros s Hs. lra.
Qed.

Lemma increasing_app_last (l : list Client.Buffered.t) (s : Client.Buffered.t) :
  increasing l ->
  Forall (fun a => Client.Buffered.time a < Client.Buffered.time s) l ->
  increasing (l ++ [s]).
Proof.
  unfold increasing. induction l as [|a l IH]; intros H F; cbn.
  - repeat constructor.
  - cbn in H. apply StronglySorted_inv in H. destruct H as [H1 H2].
    inversion F as [|? ? Fa Fl]; subst.
    constructor; [now apply IH|].
    rewrite map_app. apply Forall_app. split; [exact H2|].
    constructor; [exact Fa|constructor].
Qed.

(** Property X24.  The buffer after a state message ends with the new
    snapshot and is what is left of the old buffer followed by the new
    snapshot once snapshots have been dropped from the front.  Receipt times
    still increase along it, and only its first entry can be older than
    [MAX_BUFFER_MS] before the receipt. *)
Theorem onState_keeps_window (now : R) (msg : Snapshot.t)
    (buf : list Client.Buffered.t) :
  increasing buf ->
  Forall (fun s => Client.Buffered.time s < now) buf ->
  let buf' := Client.onState now msg buf in
  buf' <> [] /\
  last buf' (received now msg) = received now msg /\
  (exists older, buf ++ [received now msg] = older ++ buf') /\
  increasing buf' /\
  Forall (fun s => now - Client.MAX_BUFFER_MS <= Client.Buffered.time s) (tl buf').
Proof.
  intros Hs Hn buf'. subst buf'. unfold Client.onState.
  change {| Client.Buffered.time := now; Client.Buffered.state := _ |}
    with (received now msg).
  assert (Hne : buf ++ [received now msg] <> []) by (destruct buf; discriminate).
  destruct (trim_last (now - Client.MAX_BUFFER_MS) _ (received now msg) Hne) as [A B].
  destruct (trim_window (now - Client.MAX_BUFFER_MS) (buf ++ [received now msg]))
    as [C D]; [now apply increasing_app_last|].
  split; [exact A|]. split; [rewrite B; apply last_last|].
  split; [apply trim_suffix|]. split; assumption.
Qed.

Lemma sample_buffer_increasing : increasing [snapA; snapB].
Proof. unfold increasing. cbn. repeat constructor. lra. Qed.

Lemma onState_keeps_window_witness :
  Client.onState 550 sampleMsg [snapA; snapB] <> [] /\
  last (Client.onState 550 sampleMsg [snapA; snapB]) (received 550 sampleMsg)
  = received 550 sampleMsg /\
  increasing (Client.onState 550 sampleMsg [snapA; snapB]).
Proof.
  destruct (onState_keeps_window 550 sampleMsg [snapA; snapB]) as (A & B & _ & C & _).
  - apply sample_buffer_increasing.
  - repeat constructor; cbn; lra.
  - split; [exact A|]. split; [exact B|exact C].
Defined.

(** *** Rendering at and after the newest snapshot *)
Lemma findBracket_inv (r : R) (buf : list Client.Buffered.t) (a b : Client.Buffered.t) :
  Client.findBracket r buf = Some (a, b) ->
  Client.Buffered.time a <= r <= Client.Buffered.time b /\
  exists pre post, buf = pre ++ a :: b :: post.
Proof.
  induction buf as [|x l IH]; [discriminate|].
  destruct l as [|y l]; [discriminate|].
  cbn [Client.findBracket].
  destruct (Js.Rleb (Client.Buffered.time x) r) eqn:E1;
    destruct (Js.Rleb r (Client.Buffered.time y)) eqn:E2; cbn [andb];
    try (intros H; destruct (IH H) as (A & pre & post & E);
         split; [exact A|]; exists (x :: pre), post; cbn; now rewrite E).
  intros [= -> ->]. apply Rleb_true in E1, E2. split; [lra|]. now exists [], l.
Qed.

Lemma findBracket_late (r : R) (buf : list Client.Buffered.t) :
  Forall (fun s => Client.Buffered.time s < r) buf ->
  Client.findBracket r buf = None.
Proof.
  induction buf as [|x l IH]; [reflexivity|]. intros H.
  destruct l as [|y l]; [reflexivity|].
  inversion H as [|? ? Hx Hl]; subst. inversion Hl as [|? ? Hy _]; subst.
  cbn [Client.findBracket].
  fails (Js.Rleb r (Client.Buffered.time y)). rewrite andb_false_r. now apply IH.
Qed.

Lemma increasing_last (l : list Client.Buffered.t) (a d : Client.Buffered.t) :
  increasing (a :: l) -> l <> [] ->
  Client.Buffered.time a < Client.Buffered.time (last (a :: l) d).
Proof.
  revert a. induction l as [|b l IH]; intros a H Hne; [congruence|].
  destruct (increasing_tail _ _ H) as [H1 H2].
  inversion H2 as [|? ? Hab Hl]; subst.
  destruct l as [|c l]; [exact Hab|].
  specialize (IH b H1 ltac:(discriminate)).
  change (last (a :: b :: c :: l) d) with (last (b :: c :: l) d). lra.
Qed.

Lemma increasing_app (pre l : list Client.Buffered.t) :
  increasing (pre ++ l) -> increasing l.
Proof.
  induction pre as [|x pre IH]; [auto|].
  intros H. apply IH. now destruct (increasing_tail _ _ H).
Qed.

Lemma last_app_cons {A : Type} (pre : list A) (x : A) (l : list A) (d : A) :
  last (pre ++ x :: l) d = last (x :: l) d.
Proof.
  induction pre as [|y pre IH]; [reflexivity|].
  cbn [app]. destruct (pre ++ x :: l) eqn:E; [destruct pre; discriminate|].
  rewrite <- E in *. cbn [last]. rewrite E. rewrite <- E. exact IH.
Qed.

Lemma lerpState_end (sa sb : Client.State.t) :
  Client.lerpState (Some sa) sb 1 = sb.
Proof.
  destruct sb as [gs gp ce ps bs bl ah bh lv]. unfold Client.lerpState. cbn.
  f_equal.
  - rewrite <- (map_id ps) at 2. apply map_ext. intros p.
    destruct (Client.sameId _ p); cbn; [|reflexivity].
    rewrite !lerp_1. now destruct p.
  - rewrite <- (map_id bs) at 2. apply map_ext. intros b.
    destruct (Client.sameId _ b); cbn; [|reflexivity].
    rewrite !lerp_1. now destruct b.
  - rewrite <- (map_id bl) at 2. apply map_ext. intros b.
    destruct (Client.sameId _ b); cbn; [|reflexivity].
    rewrite !lerp_1. destruct b as [[] ?]. reflexivity.
Qed.

(** Property X25.  When the render time, [INTERP_DELAY_MS] behind the clock,
    has reached the receipt time of the newest snapshot, the client draws
    that snapshot as it is, except that each bullet is extrapolated over the
    whole time since the receipt. *)
Theorem render_holds_newest_snapshot (now : R) (buf : list Client.Buffered.t)
    (latest : Client.Buffered.t) :
  buf <> [] ->
  increasing buf ->
  last buf latest = latest ->
  Client.Buffered.time latest <= now - Client.INTERP_DELAY_MS ->
  Client.getInterpolatedState now buf
  = Some (Client.State.with_bullets
            (map (Client.extrapolate (now - Client.Buffered.time latest))
                 (Client.State.bullets (Client.Buffered.state latest)))
            (Client.Buffered.state latest)).
Proof.
  intros Hne Hs Hl Hr.
  destruct buf as [|first rest]; [congruence|].
  set (r := now - Client.INTERP_DELAY_MS) in *.
  destruct (Client.findBracket r (first :: rest)) as [[a b]|] eqn:Hf.
  - rewrite (getInterpolatedState_bracket now _ a b latest Hf). rewrite Hl.
    fold r.
    destruct (findBracket_inv _ _ _ _ Hf) as ([Ha Hb] & pre & post & E).
    rewrite E in Hs, Hl. apply increasing_app in Hs.
    destruct (increasing_tail _ _ Hs) as [Hs1 Hab].
    inversion Hab as [|? ? Hab' _]; subst.
    rewrite last_app_cons in Hl.
    change (last (a :: b :: post) latest) with (last (b :: post) latest) in Hl.
    assert (Hpost : post = []).
    { destruct post as [|c post]; [reflexivity|]. exfalso.
      pose proof (increasing_last (c :: post) b latest Hs1 ltac:(discriminate)) as Hlt.
      rewrite Hl in Hlt. lra. }
    subst post. cbn in Hl. subst b.
    fails (Js.Reqb (Client.Buffered.time latest - Client.Buffered.time a) 0).
    assert (Hone : Rmin 1 (Rmax 0 ((r - Client.Buffered.time a)
                                   / (Client.Buffered.time latest - Client.Buffered.time a)))
                   = 1).
    { replace r with (Client.Buffered.time latest) by lra.
      unfold Rdiv. rewrite Rinv_r by lra.
      rewrite Rmax_right by lra. apply Rmin_left. lra. }
    rewrite Hone, lerpState_end. reflexivity.
  - unfold Client.getInterpolatedState. fold r. rewrite Hf.
    rewrite (last_default (first :: rest) first latest) by discriminate. rewrite Hl.
    destruct rest as [|second rest'].
    + cbn in Hl. subst latest. reflexivity.
    + pose proof (increasing_last (second :: rest') first latest Hs ltac:(discriminate))
        as Hlt.
      rewrite Hl in Hlt.
      fails (Js.Reqb (Client.Buffered.time latest - Client.Buffered.time first) 0).
      assert (Hone : Rmin 1 (Rmax 0 ((r - Client.Buffered.time first)
                                     / (Client.Buffered.time latest
                                        - Client.Buffered.time first))) = 1).
      { assert (1 <= (r - Client.Buffered.time first)
                     / (Client.Buffered.time latest - Client.Buffered.time first)).
        { apply Rmult_le_reg_r
            with (Client.Buffered.time latest - Client.Buffered.time first); [lra|].
          unfold Rdiv. rewrite Rmult_assoc, Rinv_l by lra. lra. }
        rewrite Rmax_right by lra. apply Rmin_left. lra. }
      rewrite Hone, lerpState_end. reflexivity.
Qed.

Lemma render_holds_newest_snapshot_witness :
  Client.getInterpolatedState 200 [snapA; snapB]
  = Some (Client.State.with_bullets
            (map (Client.extrapolate (200 - Client.Buffered.time snapB))
                 (Client.State.bullets (Client.Buffered.state snapB)))
            (Client.Buffered.state snapB)).
Proof.
  apply (render_holds_newest_snapshot 200 [snapA; snapB] snapB).
  - discriminate.
  - apply sample_buffer_increasing.
  - reflexivity.
  - cbn. unfold Client.INTERP_DELAY_MS. lra.
Defined.

(** *** What interpolation keeps of the newer snapshot *)
Section NewerEntities.
Context {A : Type} `{Client.Entity A}.
Hypothesis at_id : forall x y b, Client.ent_id (Client.ent_at x y b) = Client.ent_id b.

Lemma lerped_ids (old new : list A) (t : R) :
  map Client.ent_id (map (fun pb => Client.lerpEntity (Client.sameId old pb) pb t) new)
  = map Client.ent_id new.
Proof.
  rewrite map_map. apply map_ext. intros b.
  destruct (Client.sameId old b); cbn; [apply at_id|reflexivity].
Qed.

Lemma lerped_new (old new : list A) (t : R) (b : A) :
  In b new -> Client.sameId old b = None ->
  In b (map (fun pb => Client.lerpEntity (Client.sameId old pb) pb t) new).
Proof.
  intros Hin Hs. apply in_map_iff. exists b. split; [|exact Hin]. now rewrite Hs.
Qed.

End NewerEntities.

(** Property X26.  The interpolated state shows the players and balls of the
    newer snapshot, in its order.  An entity the older snapshot does not have
    is shown as the newer snapshot has it; of the others only the position is
    interpolated; lives, phase, start flag and deadline are those of the
    newer snapshot. *)
Theorem lerpState_shows_newer_entities (sa sb : Client.State.t) (t : R) :
  let s := Client.lerpState (Some sa) sb t in
  map PlayerView.id (Client.State.players s)
  = map PlayerView.id (Client.State.players sb) /\
  map (fun b => Ball.id (BallView.ball b)) (Client.State.balls s)
  = map (fun b => Ball.id (BallView.ball b)) (Client.State.balls sb) /\
  (forall p, In p (Client.State.players sb) ->
             Client.sameId (Client.State.players sa) p = None ->
             In p (Client.State.players s)) /\
  (forall b, In b (Client.State.balls sb) ->
             Client.sameId (Client.State.balls sa) b = None ->
             In b (Client.State.balls s)) /\
  Forall2 (fun p' p => PlayerView.with_pos (PlayerView.x p) (PlayerView.y p) p' = p)
          (Client.State.players s) (Client.State.players sb) /\
  Forall2 (fun b' b =>
             BallView.burning b' = BallView.burning b /\
             Ball.hp (BallView.ball b') = Ball.hp (BallView.ball b) /\
             Ball.maxHp (BallView.ball b') = Ball.maxHp (BallView.ball b) /\
             Ball.radius (BallView.ball b') = Ball.radius (BallView.ball b) /\
             Ball.type (BallView.ball b') = Ball.type (BallView.ball b))
          (Client.State.balls s) (Client.State.balls sb) /\
  Client.State.lives s = Client.State.lives sb /\
  Client.State.gamePhase s = Client.State.gamePhase sb /\
  Client.State.gameStarted s = Client.State.gameStarted sb /\
  Client.State.cardSelectionEndTime s = Client.State.cardSelectionEndTime sb.
Proof.
  cbn -[Client.sameId Client.lerpEntity].
  split; [apply (@lerped_ids PlayerView.t Client.PlayerEntity (fun _ _ _ => eq_refl))|].
  split; [apply (@lerped_ids BallView.t Client.BallEntity (fun _ _ _ => eq_refl))|].
  split; [intros p; apply lerped_new|]. split; [intros b; apply lerped_new|].
  split; [|split; [|repeat split]].
  - induction (Client.State.players sb) as [|p ps IH]; cbn -[Client.sameId];
      constructor; [|exact IH].
    destruct (Client.sameId _ p); cbn; now destruct p.
  - induction (Client.State.balls sb) as [|b bs IH]; cbn -[Client.sameId];
      constructor; [|exact IH].
    destruct (Client.sameId _ b); cbn; repeat split.
Qed.

(** Property X27.  For a bullet that neither homes nor bounces, the position
    the client extrapolates [n] tick lengths after a snapshot is the position
    the server gives the bullet after [n] ticks of flight. *)
Theorem extrapolation_matches_server (n : nat) (b : Bullet.t) :
  Bullet.homing b = false ->
  notBouncing b ->
  let shown := Client.extrapolate (INR n * Client.SERVER_TICK_MS) b in
  let moved := ticksBullet n (Bullet.vx b ?? 0) (Bullet.vy b ?? (- BULLET_SPEED)) b in
  Bullet.x shown = Bullet.x moved /\ Bullet.y shown = Bullet.y moved.
Proof.
  intros Hh Hb shown moved. subst shown moved.
  rewrite (extrapolate_flying _ b Hh).
  destruct (ticksBullet_plain n (Bullet.vx b ?? 0) (Bullet.vy b ?? (- BULLET_SPEED)) b Hb)
    as (X & Y & _).
  rewrite X, Y. cbn [Bullet.with_pos Bullet.x Bullet.y].
  unfold knownVx, knownVy, Client.SERVER_TICK_MS, Client.BULLET_SPEED, BULLET_SPEED.
  split; field.
Qed.

Lemma extrapolation_matches_server_witness :
  Bullet.y (Client.extrapolate (INR 2 * Client.SERVER_TICK_MS) sampleBullet)
  = Bullet.y (ticksBullet 2 (Bullet.vx sampleBullet ?? 0)
                (Bullet.vy sampleBullet ?? (- BULLET_SPEED)) sampleBullet).
Proof.
  apply (extrapolation_matches_server 2 sampleBullet).
  - reflexivity.
  - unfold notBouncing. cbn. lia.
Defined.

End SnapshotBuffer.
